(** * Logica parser (parser_cpp/logica_parse.cpp): a shallow embedding

    The C++ parser is a recursive-descent parser over spans of a shared
    source string.  It produces a JSON tree, rewrites the collected rules
    and resolves imports.  This file embeds the program function by
    function and states the properties of the specification over the
    embedding.

    Conventions.
    - [std::string] contents are byte sequences: [list ascii] inside
      spans, [string] inside JSON values and messages.
    - [size_t] values are [nat]: every index the program computes is
      bounded by the length of a source string.
    - [int64_t] values are [Z].
    - A C++ function that may throw returns [result A]; one that returns
      [std::optional<T>] and may throw returns [result (option T)].
    - The mutually recursive parsing functions take their recursion depth
      as a [nat] budget; [OutOfFuel] is the answer of an exhausted budget
      and is never the answer of the C++ program. *)

From Stdlib Require Import Bool Arith Lia ZArith Ascii String DecimalString List.
Import ListNotations.

Local Open Scope string_scope.
Local Open Scope list_scope.
Local Open Scope nat_scope.

(* ================================================================== *)
(** * Characters and byte strings *)
(* ================================================================== *)

Definition chars (s : string) : list ascii := list_ascii_of_string s.
Definition text (l : list ascii) : string := string_of_list_ascii l.

Definition ch (c d : ascii) : bool := Ascii.eqb c d.

Definition code (c : ascii) : nat := nat_of_ascii c.

Definition in_range (lo hi : nat) (c : ascii) : bool :=
  (lo <=? code c) && (code c <=? hi).

(** The <cctype> classifiers in the "C" locale. *)
Definition isspace (c : ascii) : bool := in_range 9 13 c || (code c =? 32).
Definition isdigit (c : ascii) : bool := in_range 48 57 c.
Definition isupper (c : ascii) : bool := in_range 65 90 c.
Definition islower (c : ascii) : bool := in_range 97 122 c.
Definition isalpha (c : ascii) : bool := isupper c || islower c.
Definition isalnum (c : ascii) : bool := isalpha c || isdigit c.
Definition toupper (c : ascii) : ascii :=
  if islower c then ascii_of_nat (code c - 32) else c.
Definition tolower (c : ascii) : ascii :=
  if isupper c then ascii_of_nat (code c + 32) else c.

Fixpoint list_eqb (a b : list ascii) : bool :=
  match a, b with
  | [], [] => true
  | x :: a', y :: b' => ch x y && list_eqb a' b'
  | _, _ => false
  end.

Definition null {A} (l : list A) : bool :=
  match l with [] => true | _ => false end.

(** [std::string_view::substr(i, l)] for [i <= size]. *)
Definition substr (v : list ascii) (i l : nat) : list ascii :=
  firstn l (skipn i v).

Fixpoint starts_with_list (p v : list ascii) : bool :=
  match p, v with
  | [], _ => true
  | x :: p', y :: v' => ch x y && starts_with_list p' v'
  | _ :: _, [] => false
  end.

Definition ends_with_list (sfx v : list ascii) : bool :=
  starts_with_list (rev sfx) (rev v).

(** [std::string::find(needle, from)]: index of the first occurrence at
    or after [from]. *)
Fixpoint find_from_aux (needle v : list ascii) (i : nat) : option nat :=
  match v with
  | [] => if null needle then Some i else None
  | _ :: v' =>
      if starts_with_list needle v then Some i
      else find_from_aux needle v' (S i)
  end.

Definition find_from (needle v : list ascii) (from : nat) : option nat :=
  if length v <? from then None
  else find_from_aux needle (skipn from v) from.

Definition find (needle v : list ascii) : option nat := find_from needle v 0.

(** [std::getline(iss, tmp, delim)] in a loop: the pieces between
    delimiters; an empty input and an input ending in the delimiter yield
    no trailing empty piece. *)
Fixpoint getline_all (delim : ascii) (v acc : list ascii) : list (list ascii) :=
  match v with
  | [] => if null acc then [] else [rev acc]
  | c :: v' =>
      if ch c delim then rev acc :: getline_all delim v' []
      else getline_all delim v' (c :: acc)
  end.

Fixpoint join (sep : list ascii) (parts : list (list ascii)) : list ascii :=
  match parts with
  | [] => []
  | [p] => p
  | p :: rest => p ++ sep ++ join sep rest
  end.

(* ================================================================== *)
(** * Heritage-aware strings *)
(* ================================================================== *)

(** [struct SpanString]: a shared source string and a half-open range. *)
Record SpanString : Type := MkSpan {
  heritage : list ascii;
  start : nat;
  stop : nat
}.

(** The three-argument constructor clamps [stop] to the heritage and
    [start] to [stop]. *)
Definition Span (h : list ascii) (s e : nat) : SpanString :=
  let e' := if length h <? e then length h else e in
  let s' := if e' <? s then e' else s in
  MkSpan h s' e'.

(** [explicit SpanString(std::string s)]. *)
Definition SpanOf (s : list ascii) : SpanString := MkSpan s 0 (length s).

Definition size (s : SpanString) : nat := stop s - start s.
Definition empty (s : SpanString) : bool := size s =? 0.

Definition view (s : SpanString) : list ascii :=
  firstn (stop s - start s) (skipn (start s) (heritage s)).

Definition str (s : SpanString) : string := text (view s).

Definition zero_char : ascii := Ascii.zero.

(** [at(i)] reads the heritage; out of the heritage it reads the
    terminating NUL. *)
Definition at_ (s : SpanString) (i : nat) : ascii :=
  nth (start s + i) (heritage s) zero_char.

Definition slice (s : SpanString) (rel_start rel_stop : nat) : SpanString :=
  Span (heritage s) (start s + rel_start) (start s + rel_stop).

Definition slice_from (s : SpanString) (rel_start : nat) : SpanString :=
  slice s rel_start (size s).

Definition slice_to (s : SpanString) (rel_stop : nat) : SpanString :=
  slice s 0 rel_stop.

Definition starts_with (s : SpanString) (p : string) : bool :=
  starts_with_list (chars p) (view s).

Definition ends_with (s : SpanString) (sfx : string) : bool :=
  ends_with_list (chars sfx) (view s).

(** A span as the constructors build it. *)
Definition wf (s : SpanString) : Prop :=
  start s <= stop s /\ stop s <= length (heritage s).

(* ================================================================== *)
(** * Exceptions and results *)
(* ================================================================== *)

Inductive exn : Type :=
| ParsingException (message : string) (location : SpanString)
| out_of_range          (* std::map::at, std::vector::at *)
| bad_variant_access.   (* std::get on the wrong alternative *)

Inductive result (A : Type) : Type :=
| Ok (a : A)
| Throw (e : exn)
| OutOfFuel.

Arguments Ok {A} a.
Arguments Throw {A} e.
Arguments OutOfFuel {A}.

Definition bind {A B} (c : result A) (k : A -> result B) : result B :=
  match c with
  | Ok a => k a
  | Throw e => Throw e
  | OutOfFuel => OutOfFuel
  end.

Declare Scope result_scope.
Delimit Scope result_scope with result.
Notation "x <- c1 ;; c2" := (bind c1 (fun x => c2))
  (at level 61, c1 at next level, right associativity) : result_scope.
Notation "' pat <- c1 ;; c2" :=
  (bind c1 (fun x => match x with pat => c2 end))
  (at level 61, pat pattern, c1 at next level, right associativity) : result_scope.
Local Open Scope result_scope.

Definition mapM {A B} (f : A -> result B) : list A -> result (list B) :=
  fix mapM (l : list A) : result (list B) :=
    match l with
    | [] => Ok []
    | x :: l' => y <- f x ;; ys <- mapM l' ;; Ok (y :: ys)
    end.

Definition throw_parsing {A} (message : string) (location : SpanString) : result A :=
  Throw (ParsingException message location).

(* ================================================================== *)
(** * Minimal JSON value *)
(* ================================================================== *)

(** [struct Json]: a variant over null, bool, int64, string, array and
    object.  An object is a [std::map]: keys are unique and kept in
    increasing byte order, which the operations below maintain. *)
Unset Elimination Schemes.
Inductive Json : Type :=
| JNull
| JBool (b : bool)
| JInt (n : Z)
| JString (s : string)
| JArray (a : list Json)
| JObject (o : list (string * Json)).
Set Elimination Schemes.

Definition JsonObject : Type := list (string * Json).
Definition JsonArray : Type := list Json.

Definition is_null (j : Json) : bool := match j with JNull => true | _ => false end.
Definition is_int (j : Json) : bool := match j with JInt _ => true | _ => false end.
Definition is_string (j : Json) : bool := match j with JString _ => true | _ => false end.
Definition is_array (j : Json) : bool := match j with JArray _ => true | _ => false end.
Definition is_object (j : Json) : bool := match j with JObject _ => true | _ => false end.

Definition as_string (j : Json) : result string :=
  match j with JString s => Ok s | _ => Throw bad_variant_access end.
Definition as_int (j : Json) : result Z :=
  match j with JInt n => Ok n | _ => Throw bad_variant_access end.
Definition as_array (j : Json) : result JsonArray :=
  match j with JArray a => Ok a | _ => Throw bad_variant_access end.
Definition as_object (j : Json) : result JsonObject :=
  match j with JObject o => Ok o | _ => Throw bad_variant_access end.

(** [o.find(k)] *)
Fixpoint obj_find (k : string) (o : JsonObject) : option Json :=
  match o with
  | [] => None
  | (k', v) :: o' => if String.eqb k k' then Some v else obj_find k o'
  end.

(** [o.count(k)] *)
Definition obj_count (k : string) (o : JsonObject) : bool :=
  match obj_find k o with Some _ => true | None => false end.

(** [o.at(k)] *)
Definition obj_at (k : string) (o : JsonObject) : result Json :=
  match obj_find k o with Some v => Ok v | None => Throw out_of_range end.

(** [o[k] = v] *)
Fixpoint obj_set (k : string) (v : Json) (o : JsonObject) : JsonObject :=
  match o with
  | [] => [(k, v)]
  | (k', v') :: o' =>
      if String.eqb k k' then (k, v) :: o'
      else if String.ltb k k' then (k, v) :: (k', v') :: o'
      else (k', v') :: obj_set k v o'
  end.

(** [o.erase(k)] *)
Definition obj_erase (k : string) (o : JsonObject) : JsonObject :=
  filter (fun kv => negb (String.eqb k (fst kv))) o.

(** [JsonObject{{k1, v1}, {k2, v2}, ...}]: the first of equal keys stays. *)
Fixpoint mkobj (kvs : list (string * Json)) : JsonObject :=
  match kvs with
  | [] => []
  | (k, v) :: rest =>
      let o := mkobj rest in obj_set k v o
  end.

Definition Obj (kvs : list (string * Json)) : Json := JObject (mkobj kvs).

(** [j.as_object().at(k)] *)
Definition at_key (k : string) (j : Json) : result Json :=
  o <- as_object j ;; obj_at k o.

(** [HasKey(j, k)] *)
Definition HasKey (j : Json) (k : string) : bool :=
  match j with JObject o => obj_count k o | _ => false end.

(** [e.as_object()[k] = v] *)
Definition set_key (k : string) (v : Json) (j : Json) : result Json :=
  o <- as_object j ;; Ok (JObject (obj_set k v o)).

(* ================================================================== *)
(** * Traverse implementation *)
(* ================================================================== *)

Inductive TraverseStatus : Type := OK | Unmatched | EolInString.

Definition status_is_ok (st : TraverseStatus) : bool :=
  match st with OK => true | _ => false end.

(** [struct TraverseStep] *)
Record TraverseStep : Type := MkStep {
  idx : nat;                 (* relative to the traversed span *)
  state : list ascii;        (* snapshot of the state stack, bottom first *)
  status : TraverseStatus
}.

(** The state stack is a [std::string]; its top is its last character. *)
Definition State (st : list ascii) : ascii := last st zero_char.
Definition push_back (st : list ascii) (c : ascii) : list ascii := st ++ [c].
Definition pop_back (st : list ascii) : list ascii := removelast st.

Definition sentinel : ascii := ascii_of_nat 1.   (* '\x01' *)
Definition dquote : ascii := "034".
Definition triple_quote : list ascii := [dquote; dquote; dquote].

(** [sub2(idx)] and [sub3(idx)] of [Traverser::Next], on the part of the
    view that starts at [idx]. *)
Definition sub2 (ahead : list ascii) : list ascii :=
  if 2 <=? length ahead then firstn 2 ahead else [].
Definition sub3 (ahead : list ascii) : list ascii :=
  if 3 <=? length ahead then firstn 3 ahead else [].

(** [kCloseToOpen] *)
Definition kCloseToOpen (c : ascii) : option ascii :=
  if ch c ")" then Some "("%char
  else if ch c "}" then Some "{"%char
  else if ch c "]" then Some "["%char
  else None.

(** What one call of [Traverser::Next] does with the character it reads:
    it returns a step ([Emit], with the stack it leaves behind), or it
    calls itself again ([Again]) after consuming [extra] more
    characters. *)
Inductive NextOutcome : Type :=
| Emit (step : TraverseStep) (st' : list ascii)
| Again (st' : list ascii) (extra : nat).

(** The tail of [Next]: the [track_parenthesis] block and the final
    [out = {idx, state, OK}]. *)
Definition track_and_yield (track_parenthesis : bool) (c : ascii) (i : nat)
    (st : list ascii) : NextOutcome :=
  if track_parenthesis then
    if ch c "(" || ch c "{" || ch c "[" then
      Emit (MkStep i (push_back st c) OK) (push_back st c)
    else
      match kCloseToOpen c with
      | Some open =>
          if negb (null st) && ch (State st) open then
            Emit (MkStep i (pop_back st) OK) (pop_back st)
          else Emit (MkStep i [] Unmatched) st
      | None => Emit (MkStep i st OK) st
      end
  else Emit (MkStep i st OK) st.

(** [Traverser::Next] on character [c] at index [i]; [ahead] is the view
    from index [i] on (so [c] is its head). *)
Definition Next_char (c : ascii) (ahead : list ascii) (i : nat)
    (st : list ascii) : NextOutcome :=
  let top := State st in
  if ch top "#" then
    if ch c "010" then track_and_yield false c i (pop_back st)
    else Again st 0
  else if ch top dquote then
    if ch c "010" then Emit (MkStep i [] EolInString) st
    else track_and_yield false c i (if ch c dquote then pop_back st else st)
  else if ch top "'" then
    let st1 := if ch c "'" then pop_back st else st in
    let st2 := if ch c "\" then push_back st1 "\" else st1 in
    track_and_yield false c i st2
  else if ch top "\" then
    (* the screened character; parentheses are still tracked *)
    track_and_yield true c i (pop_back st)
  else if ch top "`" then
    track_and_yield false c i (if ch c "`" then pop_back st else st)
  else if ch top "3" then
    if list_eqb (sub3 ahead) triple_quote then
      Emit (MkStep i (pop_back st) OK)
           (push_back (push_back (pop_back st) sentinel) sentinel)
    else track_and_yield false c i st
  else if ch top "/" then
    if list_eqb (sub2 ahead) (chars "*/") then Again (pop_back st) 1
    else Again st 0
  else if ch top sentinel then
    track_and_yield false c i (pop_back st)
  else
    (* not in comment nor string *)
    if ch c "#" then Again (push_back st "#") 0
    else if list_eqb (sub3 ahead) triple_quote then
      Emit (MkStep i (push_back st "3") OK)
           (push_back (push_back (push_back st "3") sentinel) sentinel)
    else if ch c dquote then track_and_yield true c i (push_back st dquote)
    else if ch c "'" then track_and_yield true c i (push_back st "'")
    else if ch c "`" then track_and_yield true c i (push_back st "`")
    else if list_eqb (sub2 ahead) (chars "/*") then Again (push_back st "/") 1
    else track_and_yield true c i st.

(** The steps that repeated calls of [Next] return, from index [i] with
    stack [st]; [rest] is the unread part of the view.  ([Traverser::idx]
    is the index of the last character read, [i - 1] here.) *)
Fixpoint Traverse_from (rest : list ascii) (i : nat) (st : list ascii)
    {struct rest} : list TraverseStep :=
  match rest with
  | [] => []
  | c :: rest' =>
      match Next_char c rest i st with
      | Emit step st' => step :: Traverse_from rest' (S i) st'
      | Again st' 0 => Traverse_from rest' (S i) st'
      | Again st' (S _) =>
          match rest' with
          | [] => []
          | _ :: rest'' => Traverse_from rest'' (S (S i)) st'
          end
      end
  end.

(** [Traverser t(s); while (t.Next(step)) ...]: all the steps of a span. *)
Definition Traverse (s : SpanString) : list TraverseStep :=
  Traverse_from (view s) 0 [].

Fixpoint RemoveComments_loop (s : SpanString) (steps : list TraverseStep)
    (acc : list ascii) : result (list ascii) :=
  match steps with
  | [] => Ok acc
  | step :: steps' =>
      match status step with
      | Unmatched =>
          throw_parsing "Parenthesis matches nothing."
            (slice s (idx step) (idx step + 1))
      | EolInString =>
          throw_parsing "End of line in string." (slice s (idx step) (idx step))
      | OK => RemoveComments_loop s steps' (acc ++ [at_ s (idx step)])
      end
  end.

Definition RemoveComments (s : SpanString) : result (list ascii) :=
  RemoveComments_loop s (Traverse s) [].

Definition IsWhole (s : SpanString) : bool :=
  let last_step :=
    fold_left (fun _ step => (status step, state step)) (Traverse s) (OK, []) in
  status_is_ok (fst last_step) && null (snd last_step).

(* ================================================================== *)
(** * Stripping and splitting *)
(* ================================================================== *)

(** [while (left < v.size() && isspace(v[left])) left++] *)
Fixpoint skip_left (v : list ascii) (left : nat) : nat :=
  match v with
  | c :: v' => if isspace c then skip_left v' (S left) else left
  | [] => left
  end.

(** [while (right > left && isspace(v[right])) right--] *)
Fixpoint skip_right (v : list ascii) (left right : nat) : nat :=
  match right with
  | 0 => 0
  | S right' =>
      if (left <? right) && isspace (nth right v zero_char)
      then skip_right v left right'
      else right
  end.

Definition StripSpaces (s : SpanString) : SpanString :=
  let v := view s in
  let left := skip_left v 0 in
  if null v then slice s 0 0
  else
    let right := skip_right v left (length v - 1) in
    slice s left (right + 1).

(** The test of the loop of [Strip]. *)
Definition peelable (s : SpanString) : bool :=
  (2 <=? size s) && ch (at_ s 0) "(" && ch (at_ s (size s - 1)) ")"
  && IsWhole (slice s 1 (size s - 1)).

(** [while (true)] of [Strip]; every round but the last shortens the
    span, so [size input] rounds are enough. *)
Fixpoint Strip_loop (rounds : nat) (s : SpanString) : SpanString :=
  let s := StripSpaces s in
  if peelable s then
    match rounds with
    | 0 => s
    | S rounds' => Strip_loop rounds' (slice s 1 (size s - 1))
    end
  else s.

Definition Strip (input : SpanString) : SpanString :=
  Strip_loop (size input) input.

(** [std::all_of(separator, isalnum)] *)
Definition sep_alphanum (separator : list ascii) : bool := forallb isalnum separator.

(** Does the separator match at index [i] of the view, and is the match
    kept ([||] is not two [|]; an alphanumeric separator is a word)? *)
Definition separator_here (v separator : list ascii) (i : nat) : bool :=
  let l := length separator in
  if (i + l <=? length v) && list_eqb (substr v i l) separator then
    if (l =? 1) && ch (nth 0 separator zero_char) "|"
       && (i + 1 <? length v) && ch (nth (i + 1) v zero_char) "|" then false
    else if (l =? 1) && ch (nth 0 separator zero_char) "|"
       && (0 <? i) && ch (nth (i - 1) v zero_char) "|" then false
    else if sep_alphanum separator then
      let left_ok := negb ((0 <? i) && isalnum (nth (i - 1) v zero_char)) in
      let right_ok :=
        negb ((i + l <? length v) && isalnum (nth (i + l) v zero_char)) in
      left_ok && right_ok
    else true
  else false.

(** The loop of [SplitRaw] over the steps of the traverser.  [skip] counts
    the steps that the inner [for] loop still has to take from the
    traverser after a match; their status is not looked at. *)
Fixpoint SplitRaw_loop (s : SpanString) (separator : list ascii)
    (steps : list TraverseStep) (skip part_start : nat)
    (parts : list SpanString) : result (list SpanString) :=
  match steps with
  | [] => Ok (parts ++ [slice s part_start (size s)])
  | step :: steps' =>
      match skip with
      | S skip' => SplitRaw_loop s separator steps' skip' part_start parts
      | 0 =>
          if negb (status_is_ok (status step)) then
            throw_parsing "Parenthesis matches nothing."
              (slice s (idx step) (idx step + 1))
          else if negb (null (state step)) then
            SplitRaw_loop s separator steps' 0 part_start parts
          else if separator_here (view s) separator (idx step) then
            SplitRaw_loop s separator steps' (length separator - 1)
              (idx step + length separator)
              (parts ++ [slice s part_start (idx step)])
          else SplitRaw_loop s separator steps' 0 part_start parts
      end
  end.

Definition SplitRaw (s : SpanString) (separator : string) : result (list SpanString) :=
  if length (chars separator) =? 0 then Ok [s]
  else SplitRaw_loop s (chars separator) (Traverse s) 0 0 [].

Definition Split (s : SpanString) (separator : string) : result (list SpanString) :=
  raw <- SplitRaw s separator ;; Ok (map Strip raw).

Definition SplitInTwo (s : SpanString) (separator : string)
    : result (SpanString * SpanString) :=
  parts <- Split s separator ;;
  match parts with
  | [a; b] => Ok (a, b)
  | _ => throw_parsing ("I expected string to be split by " ++ separator ++ " in two.") s
  end.

(** [SplitInOneOrTwo]: [inl] is the one piece, [inr] the two. *)
Definition SplitInOneOrTwo (s : SpanString) (separator : string)
    : result (SpanString + SpanString * SpanString) :=
  parts <- Split s separator ;;
  match parts with
  | [a] => Ok (inl a)
  | [a; b] => Ok (inr (a, b))
  | _ => throw_parsing
           ("String should have been split by " ++ separator ++ " in 1 or 2 pieces.") s
  end.

Definition SplitOnWhitespace (s : SpanString) : result (list SpanString) :=
  let split_all (sep : string) (ss : list SpanString) :=
    chunks <- mapM (fun chunk => Split chunk sep) ss ;; Ok (concat chunks) in
  ss1 <- split_all " "%string [s] ;;
  ss2 <- split_all (String "010" EmptyString) ss1 ;;
  ss3 <- split_all (String "009" EmptyString) ss2 ;;
  Ok (filter (fun chunk => negb (empty chunk)) ss3).

(** Induction on JSON values, with the hypothesis for every element of an
    array and every value of an object. *)
Definition Json_ind (P : Json -> Prop)
    (HNull : P JNull)
    (HBool : forall b, P (JBool b))
    (HInt : forall n, P (JInt n))
    (HString : forall s, P (JString s))
    (HArray : forall a, Forall P a -> P (JArray a))
    (HObject : forall o, Forall (fun kv => P (snd kv)) o -> P (JObject o))
    : forall j, P j :=
  fix go (j : Json) : P j :=
    match j with
    | JNull => HNull
    | JBool b => HBool b
    | JInt n => HInt n
    | JString s => HString s
    | JArray a =>
        HArray a
          ((fix all (a : list Json) : Forall P a :=
              match a with
              | [] => Forall_nil P
              | x :: a' => Forall_cons x (go x) (all a')
              end) a)
    | JObject o =>
        HObject o
          ((fix all (o : list (string * Json)) : Forall (fun kv => P (snd kv)) o :=
              match o with
              | [] => Forall_nil _
              | kv :: o' => Forall_cons kv (go (snd kv)) (all o')
              end) o)
    end.


(** ** Serialisation: [Json::Escape], [Json::Dump], [Json::ToString] *)


Definition hex_digit (n : nat) : ascii :=
  if n <? 10 then ascii_of_nat (48 + n) else ascii_of_nat (87 + n).

Definition Escape_char (c : ascii) : list ascii :=
  if ch c "\" then chars "\\"
  else if ch c dquote then ["\"%char; dquote]
  else if ch c "010" then chars "\n"
  else if ch c "013" then chars "\r"
  else if ch c "009" then chars "\t"
  else if code c <? 32 then
    chars "\u00" ++ [hex_digit (code c / 16); hex_digit (code c mod 16)]
  else [c].

Definition Escape (s : string) : list ascii :=
  flat_map Escape_char (chars s).

Definition pad (pretty : bool) (indent d : nat) : list ascii :=
  if pretty then repeat " "%char (d * indent) else [].

Definition newline (pretty : bool) : list ascii :=
  if pretty then ["010"%char] else [].

Fixpoint Dump (pretty : bool) (indent depth : nat) (j : Json) {struct j} : list ascii :=
  match j with
  | JNull => chars "null"
  | JBool b => chars (if b then "true" else "false")
  | JInt n => chars (NilZero.string_of_int (Z.to_int n))
  | JString s => [dquote] ++ Escape s ++ [dquote]
  | JArray a =>
      let fix elements (a : list Json) : list ascii :=
        match a with
        | [] => []
        | x :: a' =>
            pad pretty indent (depth + 1) ++ Dump pretty indent (depth + 1) x
            ++ (if null a' then [] else [","%char]) ++ newline pretty
            ++ elements a'
        end in
      ["["%char]
      ++ (if null a then []
          else newline pretty ++ elements a ++ pad pretty indent depth)
      ++ ["]"%char]
  | JObject o =>
      let fix entries (o : list (string * Json)) : list ascii :=
        match o with
        | [] => []
        | (k, v) :: o' =>
            pad pretty indent (depth + 1) ++ [dquote] ++ Escape k ++ [dquote; ":"%char]
            ++ (if pretty then [" "%char] else [])
            ++ Dump pretty indent (depth + 1) v
            ++ (if null o' then [] else [","%char]) ++ newline pretty
            ++ entries o'
        end in
      ["{"%char]
      ++ (if null o then []
          else newline pretty ++ entries o ++ pad pretty indent depth)
      ++ ["}"%char]
  end.

(** [ToString(pretty, indent = 1)] *)
Definition ToString (pretty : bool) (j : Json) : string :=
  text (Dump pretty 1 0 j).

(* ================================================================== *)
(** * The C library: [strtod] *)
(* ================================================================== *)

(** [ParseNumber] asks [strtod] two things: how far it read, and whether it
    set [errno] to [ERANGE].  The function below reads the subject
    sequence of the C standard (7.22.1.3): white space, an optional sign,
    then a decimal or hexadecimal floating constant, [INF], [INFINITY],
    [NAN] or [NAN(n-char-sequence)], letters in either case.

    Whether a value that is not a [double] is a range error is left to
    the C library.  [range_error] below is what the GNU C library (2.36,
    x86-64, rounding to nearest) does in [round_and_return]: overflow
    when the value rounds to [2^1024]; underflow when the value is below
    the normal range, does not round to [2^-1022] when rounded with
    unbounded exponent, and the library finds a bit set among the bits
    of the 53-bit mantissa that a subnormal drops, or among the bits
    below the one that follows the mantissa.  The bit that follows the
    mantissa itself is not looked at.  For decimal text the library cuts
    the digits behind the 1076th after the point and counts them as a
    bit set below. *)

Definition lower (c : ascii) : ascii := tolower c.

Fixpoint starts_with_nocase (p v : list ascii) : bool :=
  match p, v with
  | [], _ => true
  | x :: p', y :: v' => ch x (lower y) && starts_with_nocase p' v'
  | _ :: _, [] => false
  end.

Definition isxdigit (c : ascii) : bool :=
  isdigit c || in_range 97 102 c || in_range 65 70 c.

Definition digit_value (c : ascii) : Z :=
  if isdigit c then Z.of_nat (code c - 48)
  else if in_range 97 102 c then Z.of_nat (code c - 87)
  else Z.of_nat (code c - 55).

(** The longest prefix of characters satisfying [p]. *)
Fixpoint take_while (p : ascii -> bool) (v : list ascii) : list ascii :=
  match v with
  | c :: v' => if p c then c :: take_while p v' else []
  | [] => []
  end.

Definition digits_value (base : Z) (ds : list ascii) : Z :=
  fold_left (fun acc d => (acc * base + digit_value d)%Z) ds 0%Z.

(** An optional sign: how many characters it takes and whether it is [-]. *)
Definition read_sign (v : list ascii) : nat * bool :=
  match v with
  | c :: _ => if ch c "-" then (1, true) else if ch c "+" then (1, false) else (0, false)
  | [] => (0, false)
  end.

(** An exponent part [e[+-]ddd] (or [p[+-]ddd]) at the head of [v]:
    characters taken and exponent; nothing is taken without a digit. *)
Definition read_exponent (marker : ascii) (v : list ascii) : nat * Z :=
  match v with
  | c :: v1 =>
      if ch (lower c) marker then
        let '(ns, neg) := read_sign v1 in
        let ds := take_while isdigit (skipn ns v1) in
        if null ds then (0, 0%Z)
        else (1 + ns + length ds,
              if neg then (- digits_value 10 ds)%Z else digits_value 10 ds)
      else (0, 0%Z)
  | [] => (0, 0%Z)
  end.

(** A magnitude [num / den] with [0 <= num] and [0 < den]. *)
Definition scaled (mantissa base exponent : Z) : Z * Z :=
  if (0 <=? exponent)%Z then ((mantissa * base ^ exponent)%Z, 1%Z)
  else (mantissa, (base ^ (- exponent))%Z).

(** [e] with [2^e <= num/den < 2^(e+1)], for a value below [1]. *)
Definition binade (num den : Z) : Z :=
  let e := (Z.log2 num - Z.log2 den)%Z in
  if (num * 2 ^ (- e) <? den)%Z then (e - 1)%Z else e.

(** The range error for a value in [[2^-1074, 2^-1022)]: [mantissa] are
    its first 53 bits, [shift] of which a subnormal drops. *)
Definition subnormal_range_error (radix num den : Z) : bool :=
  let e := binade num den in
  let shift := (-1022 - e)%Z in
  let bits := (num * 2 ^ (52 - e))%Z in
  let mantissa := (bits / den)%Z in
  let rest := (bits mod den)%Z in
  let round_bit := (den <=? 2 * rest)%Z in
  let more_bits :=
    negb ((2 * rest) mod den =? 0)%Z
    || ((radix =? 10)%Z && negb ((num * 10 ^ 1076) mod den =? 0)%Z) in
  let round_away := round_bit && (more_bits || Z.odd mantissa) in
  let is_tiny :=
    negb ((shift =? 1)%Z && round_away && (mantissa + 1 =? 2 ^ 53)%Z) in
  is_tiny && (negb (mantissa mod 2 ^ shift =? 0)%Z || more_bits).

Definition range_error (radix : Z) (magnitude : Z * Z) : bool :=
  let '(num, den) := magnitude in
  if ((2 ^ 1024 - 2 ^ 970) * den <=? num)%Z then true
  else if (num =? 0)%Z || (den <=? num * 2 ^ 1022)%Z then false
  else if (num * 2 ^ 1074 <? den)%Z then true
  else subnormal_range_error radix num den.

(** Digits, an optional radix point, digits: characters taken, the
    digits before and after the point. *)
Definition read_mantissa (digit : ascii -> bool) (v : list ascii)
    : nat * list ascii * list ascii :=
  let int_part := take_while digit v in
  let v1 := skipn (length int_part) v in
  match v1 with
  | c :: v2 =>
      if ch c "." then
        let frac := take_while digit v2 in
        (length int_part + 1 + length frac, int_part, frac)
      else (length int_part, int_part, [])
  | [] => (length int_part, int_part, [])
  end.

(** What the subject sequence denotes. *)
Inductive NumberKind : Type := FiniteNumber | Infinity | NotANumber.

(** The subject sequence after white space and sign: characters taken
    ([0]: no conversion), range error, and the kind of value. *)
Definition read_number (v : list ascii) : nat * bool * NumberKind :=
  if starts_with_nocase (chars "infinity") v then (8, false, Infinity)
  else if starts_with_nocase (chars "inf") v then (3, false, Infinity)
  else if starts_with_nocase (chars "nan") v then
    match skipn 3 v with
    | c :: v1 =>
        if ch c "(" then
          let seq := take_while (fun x => isalnum x || ch x "_") v1 in
          match skipn (length seq) v1 with
          | d :: _ =>
              if ch d ")" then (3 + 1 + length seq + 1, false, NotANumber)
              else (3, false, NotANumber)
          | [] => (3, false, NotANumber)
          end
        else (3, false, NotANumber)
    | [] => (3, false, NotANumber)
    end
  else
    let hex :=
      if starts_with_nocase (chars "0x") v then
        let '(n, ip, fp) := read_mantissa isxdigit (skipn 2 v) in
        if null ip && null fp then None else Some (n, ip, fp)
      else None in
    match hex with
    | Some (n, ip, fp) =>
        let '(ne, e) := read_exponent "p" (skipn (2 + n) v) in
        let m := digits_value 16 (ip ++ fp) in
        (2 + n + ne, range_error 16 (scaled m 2 (e - 4 * Z.of_nat (length fp))),
         FiniteNumber)
    | None =>
        let '(n, ip, fp) := read_mantissa isdigit v in
        if null ip && null fp then (0, false, FiniteNumber)
        else
          let '(ne, e) := read_exponent "e" (skipn n v) in
          let m := digits_value 10 (ip ++ fp) in
          (n + ne, range_error 10 (scaled m 10 (e - Z.of_nat (length fp))),
           FiniteNumber)
    end.

(** [strtod(nptr, &end)]: [end - nptr], whether [errno] is [ERANGE], and
    the kind of the value. *)
Definition strtod (nptr : list ascii) : nat * bool * NumberKind :=
  let ws := length (take_while isspace nptr) in
  let v := skipn ws nptr in
  let '(ns, _) := read_sign v in
  let '(n, erange, kind) := read_number (skipn ns v) in
  if n =? 0 then (0, false, kind) else (ws + ns + n, erange, kind).

(** [text.c_str()] as the C library sees it: up to the first NUL. *)
Definition c_str (s : list ascii) : list ascii :=
  take_while (fun c => negb (ch c zero_char)) s.

(** [!(errno != 0 || end == text.c_str() || *end != 0)]: [strtod] converts
    the whole text without a range error. *)
Definition strtod_accepts (text : list ascii) : bool :=
  let '(end_, erange, _) := strtod (c_str text) in
  negb (erange || (end_ =? 0) || negb (end_ =? length (c_str text))).

(* ================================================================== *)
(** * Parsing functions *)
(* ================================================================== *)


(** [std::to_string(n)] *)
Definition to_string (n : nat) : string := NilEmpty.string_of_uint (Nat.to_uint n).

Definition quote : string := String dquote EmptyString.

(** [EnactIncantations] sets the global [TOO_MUCH] to ["fun"]; the global
    is the boolean [fun_mode] below. *)
Definition incantation : string :=
  "Signa inter verba conjugo, symbolum infixus evoco!".

Definition EnactIncantations (code : list ascii) (fun_mode : bool) : bool :=
  match find (chars incantation) code with
  | Some _ => true
  | None => fun_mode
  end.

Definition FunctorSyntaxErrorMessage : string :=
  "Incorrect syntax for functor call. Functor call to be made as" ++ String "010" (
  "  R := F(A: V, ...)" ++ String "010" (
  "or" ++ String "010" (
  "  @Make(R, F, {A: V, ...})" ++ String "010"
  "Where R, F, A's and V's are all predicate names."))).

Definition IsVariableChars (s : SpanString) : bool :=
  forallb (fun c => islower c || isdigit c || ch c "_") (view s).

Definition ParseVariable (s : SpanString) : result (option Json) :=
  if empty s then Ok None
  else
    let c0 := at_ s 0 in
    if negb (islower c0 || ch c0 "_") then Ok None
    else if negb (IsVariableChars s) then Ok None
    else if starts_with s "x_" then
      throw_parsing "Variables starting with x_ are reserved to be Logica compiler internal. Please use a different name." s
    else Ok (Some (Obj [("var_name", JString (str s))])).

(** The string literal that [ParseNumber] compares with: the source file
    holds the six bytes c3 a2 cb 86 c5 be between the quotes. *)
Definition infinity_literal : list ascii :=
  map ascii_of_nat [195; 162; 203; 134; 197; 190].

Definition ParseNumber (s : SpanString) : option Json :=
  let s := if ends_with s "u" then slice s 0 (size s - 1) else s in
  if list_eqb (view s) infinity_literal then
    Some (Obj [("number", JString "-1")])
  else
    let text := view s in
    if negb (strtod_accepts text) then None
    else Some (Obj [("number", JString (str s))]).

(** [append_utf8] of [ParsePythonStyleStringLiteral] *)
Definition append_utf8 (out : list ascii) (code : N) : list ascii :=
  let byte (n : N) := ascii_of_N (N.land n 255) in
  if (code <=? 127)%N then out ++ [byte code]
  else if (code <=? 2047)%N then
    out ++ [byte (N.lor 192 (N.land (N.shiftr code 6) 31));
            byte (N.lor 128 (N.land code 63))]
  else if (code <=? 65535)%N then
    out ++ [byte (N.lor 224 (N.land (N.shiftr code 12) 15));
            byte (N.lor 128 (N.land (N.shiftr code 6) 63));
            byte (N.lor 128 (N.land code 63))]
  else
    out ++ [byte (N.lor 240 (N.land (N.shiftr code 18) 7));
            byte (N.lor 128 (N.land (N.shiftr code 12) 63));
            byte (N.lor 128 (N.land (N.shiftr code 6) 63));
            byte (N.lor 128 (N.land code 63))].

(** The lambda [hex]: [None] is its [-1]. *)
Definition hex (h : ascii) : option N :=
  if in_range 48 57 h then Some (N.of_nat (code h - 48))
  else if in_range 97 102 h then Some (N.of_nat (10 + (code h - 97)))
  else if in_range 65 70 h then Some (N.of_nat (10 + (code h - 65)))
  else None.

(** [for (k = 0; k < n; ++k) code = (code << 4) | hex(v[i + 1 + k])] on a
    [uint32_t]; [None] when a digit is not hexadecimal. *)
Fixpoint hex_code (ds : list ascii) (code : N) : option N :=
  match ds with
  | [] => Some code
  | d :: ds' =>
      match hex d with
      | Some x => hex_code ds' (N.lor (N.land (N.shiftl code 4) 4294967295) x)
      | None => None
      end
  end.

(** The loop of [ParsePythonStyleStringLiteral]: [i] is the loop index at
    the loop test, [rounds] bounds the iterations left. *)
Fixpoint PythonStyle_loop (rounds : nat) (v : list ascii) (i : nat)
    (out : list ascii) : list ascii :=
  match rounds with
  | 0 => out
  | S rounds' =>
      if negb (i + 1 <? length v) then out
      else
        let c := nth i v zero_char in
        if negb (ch c "\") then PythonStyle_loop rounds' v (i + 1) (out ++ [c])
        else if length v - 1 <=? i + 1 then
          PythonStyle_loop rounds' v (i + 1) (out ++ ["\"%char])
        else
          let i := i + 1 in
          let n := nth i v zero_char in
          let plain (x : ascii) := PythonStyle_loop rounds' v (i + 1) (out ++ [x]) in
          let coded (len : nat) :=
            if i + len <? length v - 1 then
              match hex_code (substr v (i + 1) len) 0%N with
              | Some code =>
                  PythonStyle_loop rounds' v (i + len + 1) (append_utf8 out code)
              | None => PythonStyle_loop rounds' v (i + 1) out
              end
            else PythonStyle_loop rounds' v (i + 1) out in
          if ch n "\" then plain "\"%char
          else if ch n "n" then plain "010"%char
          else if ch n "r" then plain "013"%char
          else if ch n "t" then plain "009"%char
          else if ch n "'" then plain "'"%char
          else if ch n dquote then plain dquote
          else if ch n "x" then
            if i + 2 <? length v - 1 then
              match hex (nth (i + 1) v zero_char), hex (nth (i + 2) v zero_char) with
              | Some a, Some b =>
                  PythonStyle_loop rounds' v (i + 3)
                    (out ++ [ascii_of_N (a * 16 + b)])
              | _, _ => PythonStyle_loop rounds' v (i + 1) out
              end
            else PythonStyle_loop rounds' v (i + 1) out
          else if ch n "u" then coded 4
          else if ch n "U" then coded 8
          else plain n
  end.

Definition ParsePythonStyleStringLiteral (s : SpanString) : string :=
  let v := view s in
  if length v <? 2 then EmptyString
  else text (PythonStyle_loop (length v) v 1 []).

(** The screening check of [ParseString]: is there an unescaped quote? *)
Fixpoint has_unscreened_quote (meat : list ascii) (screen : bool) : bool :=
  match meat with
  | [] => false
  | c :: meat' =>
      if screen then has_unscreened_quote meat' false
      else if ch c "'" then true
      else has_unscreened_quote meat' (ch c "\")
  end.

Definition back (v : list ascii) : ascii := last v zero_char.
Definition front (v : list ascii) : ascii := hd zero_char v.

Definition contains (needle v : list ascii) : bool :=
  match find needle v with Some _ => true | None => false end.

Definition ParseString (s : SpanString) : option Json :=
  let v := view s in
  if (2 <=? length v) && ch (front v) dquote && ch (back v) dquote
     && negb (contains [dquote] (substr v 1 (length v - 2))) then
    Some (Obj [("the_string", JString (text (substr v 1 (length v - 2))))])
  else if (2 <=? length v) && ch (front v) "'" && ch (back v) "'"
     && negb (has_unscreened_quote (substr v 1 (length v - 2)) false) then
    Some (Obj [("the_string", JString (ParsePythonStyleStringLiteral s))])
  else if (6 <=? length v) && list_eqb (substr v 0 3) triple_quote
     && list_eqb (substr v (length v - 3) 3) triple_quote
     && negb (contains triple_quote (substr v 3 (length v - 6))) then
    Some (Obj [("the_string", JString (text (substr v 3 (length v - 6))))])
  else None.

Definition ParseBoolean (s : SpanString) : option Json :=
  if String.eqb (str s) "true" || String.eqb (str s) "false"
  then Some (Obj [("the_bool", JString (str s))])
  else None.

Definition ParseNull (s : SpanString) : option Json :=
  if String.eqb (str s) "null" then Some (Obj [("the_null", JString "null")])
  else None.

Definition ParsePredicateLiteral (s : SpanString) : option Json :=
  let text := str s in
  if String.eqb text "++?" || String.eqb text "nil" then
    Some (Obj [("predicate_name", JString text)])
  else if null (view s) then None
  else if negb (isupper (front (view s))) then None
  else if forallb (fun c => isalpha c || isdigit c || ch c "_") (view s) then
    Some (Obj [("predicate_name", JString text)])
  else None.

(** ** The mutually recursive parsers

    [ParseExpression] and [ParseProposition] are declared before they are
    defined in the C++ file; the functions between the declaration and
    the definition are written here over the two declared functions, and
    the recursion is closed after the section. *)

Section Parser.

Variable fun_mode : bool.  (* TOO_MUCH == "fun" *)
Variable ParseExpression : SpanString -> result Json.
Variable ParseProposition : SpanString -> result Json.

Definition ParseList (s : SpanString) : result (option Json) :=
  if (2 <=? size s) && ch (at_ s 0) "[" && ch (at_ s (size s - 1)) "]"
     && IsWhole (slice s 1 (size s - 1)) then
    let inside := Strip (slice s 1 (size s - 1)) in
    elements <-
      (if negb (empty inside) then
         elements_str <- Split inside "," ;;
         mapM ParseExpression elements_str
       else Ok []) ;;
    Ok (Some (Obj [("element", JArray elements)]))
  else Ok None.

Definition ParseLiteral (s : SpanString) : result (option Json) :=
  match ParseNumber s with
  | Some v => Ok (Some (Obj [("the_number", v)]))
  | None =>
  match ParseString s with
  | Some v => Ok (Some (Obj [("the_string", v)]))
  | None =>
  l <- ParseList s ;;
  match l with
  | Some v => Ok (Some (Obj [("the_list", v)]))
  | None =>
  match ParseBoolean s with
  | Some v => Ok (Some (Obj [("the_bool", v)]))
  | None =>
  match ParseNull s with
  | Some v => Ok (Some (Obj [("the_null", v)]))
  | None =>
  match ParsePredicateLiteral s with
  | Some v => Ok (Some (Obj [("the_predicate", v)]))
  | None => Ok None
  end end end end end end.

(** The state of the loop of [ParseRecordInternals]. *)
Record RecordLoop : Type := MkRecordLoop {
  had_restof : bool;
  positional_ok : bool;
  observed_fields : list string;
  fields : JsonArray          (* [result] *)
}.

(** One round of the loop of [ParseRecordInternals], for the entry
    [field_value] at index [i]. *)
Definition RecordInternals_step (is_record_literal is_aggregation_allowed : bool)
    (i : nat) (field_value : SpanString) (st : RecordLoop) : result RecordLoop :=
  if had_restof st then
    throw_parsing "Field ..<rest_of> must go last." field_value
  else if starts_with field_value ".." then
    if is_record_literal then
      throw_parsing "Field ..<rest_of> in record literals is not currently suppported." field_value
    else
      e <- ParseExpression (slice_from field_value 2) ;;
      let item := mkobj [("field", JString "*"); ("value", Obj [("expression", e)])] in
      let item :=
        if negb (null (observed_fields st))
        then obj_set "except" (JArray (map JString (observed_fields st))) item
        else item in
      Ok (MkRecordLoop true false (observed_fields st) (fields st ++ [JObject item]))
  else
    colon <- SplitInOneOrTwo field_value ":" ;;
    match colon with
    | inr (field, value) =>
        value <-
          (if empty value then
             if negb (empty field) && isupper (at_ field 0) then
               throw_parsing "Record fields may not start with capital letter." field
             else if negb (empty field) && ch (at_ field 0) "`" then
               throw_parsing "Backticks in variable names are disallowed." field
             else Ok field
           else Ok value) ;;
        e <- ParseExpression value ;;
        let fv := Obj [("field", JString (str field)); ("value", Obj [("expression", e)])] in
        Ok (MkRecordLoop (had_restof st) false
              (observed_fields st ++ [str field]) (fields st ++ [fv]))
    | inl _ =>
        question <- SplitInOneOrTwo field_value "?" ;;
        match question with
        | inr (field, value) =>
            if negb is_aggregation_allowed then
              throw_parsing "Aggregation of fields is only allowed in the head of a rule." field_value
            else if empty field then
              throw_parsing "Aggregated fields have to be named." field_value
            else
              '(op, expr) <- SplitInTwo value "=" ;;
              let op := Strip op in
              argument <- ParseExpression expr ;;
              let agg := Obj [("operator", JString (str op));
                              ("argument", argument);
                              ("expression_heritage", JString (str value))] in
              let fv := Obj [("field", JString (str field));
                             ("value", Obj [("aggregation", agg)])] in
              Ok (MkRecordLoop (had_restof st) false
                    (observed_fields st ++ [str field]) (fields st ++ [fv]))
        | inl _ =>
            if positional_ok st then
              e <- ParseExpression field_value ;;
              let fv := Obj [("field", JInt (Z.of_nat i));
                             ("value", Obj [("expression", e)])] in
              Ok (MkRecordLoop (had_restof st) (positional_ok st)
                    (observed_fields st ++ [String.append "col" (to_string i)]) (fields st ++ [fv]))
            else
              throw_parsing "Positional argument can not go after non-positional arguments." field_value
        end
    end.

Fixpoint RecordInternals_loop (is_record_literal is_aggregation_allowed : bool)
    (i : nat) (field_values : list SpanString) (st : RecordLoop) : result RecordLoop :=
  match field_values with
  | [] => Ok st
  | field_value :: rest =>
      st' <- RecordInternals_step is_record_literal is_aggregation_allowed i field_value st ;;
      RecordInternals_loop is_record_literal is_aggregation_allowed (S i) rest st'
  end.

Definition ParseRecordInternals (input : SpanString)
    (is_record_literal is_aggregation_allowed : bool) : result Json :=
  let s := Strip input in
  parts <- Split s ":-" ;;
  if 1 <? length parts then
    throw_parsing "Unexpected :- in record internals." s
  else if empty s then Ok (Obj [("field_value", JArray [])])
  else if IsWhole s then
    field_values <- Split s "," ;;
    st <- RecordInternals_loop is_record_literal is_aggregation_allowed 0 field_values
            (MkRecordLoop false true [] []) ;;
    Ok (Obj [("field_value", JArray (fields st))])
  else Ok (Obj [("field_value", JArray [])]).

Definition ParseRecord (input : SpanString) : result (option Json) :=
  let s := Strip input in
  if (2 <=? size s) && ch (at_ s 0) "{" && ch (at_ s (size s - 1)) "}"
     && IsWhole (slice s 1 (size s - 1)) then
    r <- ParseRecordInternals (slice s 1 (size s - 1)) true false ;;
    Ok (Some r)
  else Ok None.

(** *** Expression parsing helpers *)

(** [good_chars] of [ParseGenericCall] *)
Definition good_char (c : ascii) : bool :=
  islower c || isupper c || isdigit c
  || existsb (ch c) (chars "@_.${}+-`")
  || (fun_mode && (existsb (ch c) (chars "*^%/") || ch c zero_char)).

(** The traversal of [ParseGenericCall]: [None] is its [return
    std::nullopt], [Some (idx, predicate)] its [break]. *)
Fixpoint GenericCall_scan (s : SpanString) (opening : ascii)
    (steps : list TraverseStep) : result (option (nat * string)) :=
  match steps with
  | [] => Ok None
  | step :: steps' =>
      if negb (status_is_ok (status step)) then
        throw_parsing "Parenthesis matches nothing." (slice s (idx step) (idx step + 1))
      else if list_eqb (state step) [opening] then
        let i := idx step in
        let pred := str (slice s 0 i) in
        if ((0 <? i) && forallb good_char (view (slice s 0 i)))
           || String.eqb pred "!" || String.eqb pred "++?"
           || ((2 <=? i) && ch (at_ s 0) "`" && ch (at_ s (i - 1)) "`")
        then Ok (Some (i, pred))
        else Ok None
      else if negb (null (state step)) && negb (list_eqb (state step) (chars "{"))
              && negb (ch (front (state step)) "`") then Ok None
      else GenericCall_scan s opening steps'
  end.

Definition ParseGenericCall (input : SpanString) (opening closing : ascii)
    : result (option (string * SpanString)) :=
  let s := Strip input in
  if empty s then Ok None
  else
    found <-
      (if starts_with s "->" then Ok (Some (2, "->"))
       else GenericCall_scan s opening (Traverse s)) ;;
    match found with
    | None => Ok None
    | Some (i, predicate) =>
        if ch (at_ s i) opening && ch (at_ s (size s - 1)) closing
           && IsWhole (slice s (i + 1) (size s - 1)) then
          let predicate :=
            if String.eqb predicate "`=`" then "="
            else if String.eqb predicate "`~`" then "~"
            else predicate in
          Ok (Some (predicate, slice s (i + 1) (size s - 1)))
        else Ok None
    end.

Definition user_defined_operators : list string :=
  if fun_mode then ["---"; "-+-"; "-*-"; "-/-"; "-%-"; "-^-"] else [].

Definition base_operators : list string :=
  ["||"; "&&"; "->"; "=="; "<="; ">="; "<"; ">"; "!="; "="; "~";
   " in "; " is not "; " is "; "++?"; "++"; "+"; "-"; "*"; "/"; "%"; "^"; "!"].

Definition mem (x : string) (l : list string) : bool := existsb (String.eqb x) l.

(** [while (isspace(pred.front())) erase; while (isspace(pred.back())) pop_back] *)
Fixpoint drop_spaces (v : list ascii) : list ascii :=
  match v with
  | c :: v' => if isspace c then drop_spaces v' else v
  | [] => []
  end.

Definition trim (s : string) : string :=
  text (rev (drop_spaces (rev (drop_spaces (chars s))))).

Definition infix_call (op : string) (left_expr right_expr : Json) : Json :=
  Obj [("predicate_name", JString (trim op));
       ("record", Obj [("field_value", JArray [
          Obj [("field", JString "left"); ("value", Obj [("expression", left_expr)])];
          Obj [("field", JString "right"); ("value", Obj [("expression", right_expr)])]])])].

(** The loop of [ParseInfix] over the operators. *)
Fixpoint ParseInfix_loop (s : SpanString) (ops : list string) (dis : list string)
    : result (option Json) :=
  match ops with
  | [] => Ok None
  | op :: ops' =>
      if mem op dis then ParseInfix_loop s ops' dis
      else
        parts <- SplitRaw s op ;;
        if 1 <? length parts then
          let left := Span (heritage s) (start s)
                        (stop (nth (length parts - 2) parts s)) in
          let right := Span (heritage s)
                         (start (last parts s)) (stop s) in
          if String.eqb op "~" && negb (null (view left)) && ch (back (view left)) "!"
          then ParseInfix_loop s ops' dis    (* !~ *)
          else
            let left := Strip left in
            let right := Strip right in
            if mem op ["-"; "!"] && empty left then
              record <- ParseRecordInternals right false false ;;
              Ok (Some (Obj [("predicate_name", JString op); ("record", record)]))
            else if String.eqb op "~" && empty left then Ok None
            else
              left_expr <- ParseExpression left ;;
              right_expr <- ParseExpression right ;;
              Ok (Some (infix_call op left_expr right_expr))
        else ParseInfix_loop s ops' dis
  end.

Definition ParseInfix (s : SpanString) (operators : option (list string))
    (disallow : option (list string)) : result (option Json) :=
  let ops :=
    match operators with
    | Some ops => ops
    | None => user_defined_operators ++ base_operators
    end in
  let dis := match disallow with Some d => d | None => [] end in
  ParseInfix_loop s ops dis.

Definition BuildTreeForCombine (parsed_expression : Json) (op : SpanString)
    (parsed_body : option Json) (full_text : SpanString) : Json :=
  let agg := Obj [("operator", JString (str op));
                  ("argument", parsed_expression);
                  ("expression_heritage", JString (str full_text))] in
  let agg_fv := Obj [("field", JString "logica_value");
                     ("value", Obj [("aggregation", agg)])] in
  let head := Obj [("predicate_name", JString "Combine");
                   ("record", Obj [("field_value", JArray [agg_fv])])] in
  let tree := mkobj [("head", head);
                     ("distinct_denoted", JBool true);
                     ("full_text", JString (str full_text))] in
  match parsed_body with
  | Some body => JObject (obj_set "body" (Obj [("conjunction", body)]) tree)
  | None => JObject tree
  end.

(** [Split(body, ","); for c: ParseProposition(c)], the body of the three
    combine forms. *)
Definition parse_conjuncts (body : SpanString) : result Json :=
  conj <- Split body "," ;;
  conjuncts <- mapM ParseProposition conj ;;
  Ok (Obj [("conjunct", JArray conjuncts)]).

Definition parse_optional_body (body : option SpanString) : result (option Json) :=
  match body with
  | Some b => j <- parse_conjuncts b ;; Ok (Some j)
  | None => Ok None
  end.

Definition ParseCombine (input : SpanString) : result (option Json) :=
  if negb (starts_with input "combine ") then Ok None
  else
    let s := slice_from input (length (chars "combine ")) in
    vb <- SplitInOneOrTwo s ":-" ;;
    let '(value, body) :=
      match vb with
      | inr (v, b) => (v, Some b)
      | inl _ => (s, None)
      end in
    '(op, expr) <- SplitInTwo value "=" ;;
    let op := Strip op in
    parsed_expression <- ParseExpression expr ;;
    parsed_body <- parse_optional_body body ;;
    Ok (Some (BuildTreeForCombine parsed_expression op parsed_body s)).

(** The loop of [ParseImplication] over the [if]-[then] pairs. *)
Definition parse_if_then (cond_cons : SpanString) : result Json :=
  '(cond, conseq) <- SplitInTwo cond_cons "then" ;;
  condition <- ParseExpression cond ;;
  consequence <- ParseExpression conseq ;;
  Ok (Obj [("condition", condition); ("consequence", consequence)]).

Definition ParseImplication (s : SpanString) : result (option Json) :=
  if negb (starts_with s "if " || starts_with s (String "i" (String "f" (String "010" EmptyString))))
  then Ok None
  else
    let inner := slice_from s 3 in
    if_thens <- Split inner "else if" ;;
    '(last_first, last_else) <- SplitInTwo (last if_thens inner) "else" ;;
    let if_thens := removelast if_thens ++ [last_first] in
    result_if_thens <- mapM parse_if_then if_thens ;;
    otherwise <- ParseExpression last_else ;;
    Ok (Some (Obj [("if_then", JArray result_if_thens); ("otherwise", otherwise)])).

Definition ParseConciseCombine (s : SpanString) : result (option Json) :=
  parts <- Split s "=" ;;
  match parts with
  | [lhs_and_op; combine] =>
      left_parts <- SplitOnWhitespace lhs_and_op ;;
      if length left_parts <=? 1 then Ok None
      else
        let lhs := Span (heritage s) (start s)
                     (stop (nth (length left_parts - 2) left_parts s)) in
        let op := last left_parts s in
        if mem (str op) ["!"; "<"; ">"] then Ok None
        else if negb (empty op) && islower (at_ op 0) then Ok None
        else
          left_expr <- ParseExpression lhs ;;
          eb <- SplitInOneOrTwo combine ":-" ;;
          let '(expr, body) :=
            match eb with
            | inr (e, b) => (e, Some b)
            | inl _ => (combine, None)
            end in
          parsed_expression <- ParseExpression expr ;;
          parsed_body <- parse_optional_body body ;;
          let right_expr := BuildTreeForCombine parsed_expression op parsed_body s in
          let rhs := Obj [("combine", right_expr);
                          ("expression_heritage", JString (str s))] in
          Ok (Some (Obj [("left_hand_side", left_expr); ("right_hand_side", rhs)]))
  | _ => Ok None
  end.

Definition ParseUltraConciseCombine (s : SpanString) : result (option Json) :=
  gc <- ParseGenericCall s "{" "}" ;;
  match gc with
  | None => Ok None
  | Some (predicate, multiset) =>
      let op := SpanOf (chars predicate) in
      vb <- SplitInOneOrTwo multiset ":-" ;;
      let '(value, body) :=
        match vb with
        | inr (v, b) => (v, Some b)
        | inl _ => (multiset, None)
        end in
      parsed_expression <- ParseExpression value ;;
      parsed_body <- parse_optional_body body ;;
      Ok (Some (BuildTreeForCombine parsed_expression op parsed_body s))
  end.

Definition ParseInclusion (s : SpanString) : result (option Json) :=
  parts <- Split s " in " ;;
  match parts with
  | [element; lst] =>
      l <- ParseExpression lst ;;
      e <- ParseExpression element ;;
      Ok (Some (Obj [("list", l); ("element", e)]))
  | _ => Ok None
  end.

Definition ParseCall (s : SpanString) (is_aggregation_allowed : bool)
    : result (option Json) :=
  generic <- ParseGenericCall s "(" ")" ;;
  match generic with
  | None => Ok None
  | Some (predicate, inner) =>
      args <- ParseRecordInternals inner false is_aggregation_allowed ;;
      Ok (Some (Obj [("predicate_name", JString predicate); ("record", args)]))
  end.

(** Dereferencing an empty [std::optional] is undefined; the embedding
    stops there with [bad_variant_access]. *)
Fixpoint NestedElement_loop (s : SpanString) (array : Json) (fvs : JsonArray)
    (i : nat) (acc : option Json) : result Json :=
  match fvs with
  | [] => match acc with Some r => Ok r | None => Throw bad_variant_access end
  | fv :: fvs' =>
      fvo <- as_object fv ;;
      match obj_find "field" fvo with
      | None => throw_parsing "Internal error in array subscription." s
      | Some field =>
          match field with
          | JInt n =>
              if negb (Z.modulo n (2 ^ 64) =? Z.of_nat i)%Z then
                throw_parsing "Array subscription must only have positional arguments." s
              else
                let fvo := obj_set "field" (JInt 1) fvo in
                let first_argument :=
                  match acc with
                  | Some r => Obj [("call", r)]
                  | None => array
                  end in
                let element_fvs :=
                  [Obj [("field", JInt 0); ("value", Obj [("expression", first_argument)])];
                   JObject fvo] in
                let call := Obj [("predicate_name", JString "Element");
                                 ("record", Obj [("field_value", JArray element_fvs)])] in
                NestedElement_loop s array fvs' (S i) (Some call)
          | _ => throw_parsing "Array subscription must only have positional arguments." s
          end
      end
  end.

Definition NestedElement (s : SpanString) (array args : Json) : result Json :=
  fv <- at_key "field_value" args ;;
  fvs <- as_array fv ;;
  NestedElement_loop s array fvs 0 None.

Definition ParseArraySub (s : SpanString) : result (option Json) :=
  generic <- ParseGenericCall s "[" "]" ;;
  match generic with
  | None => Ok None
  | Some (predicate, inner) =>
      args <- ParseRecordInternals inner false false ;;
      array <- ParseExpression (SpanOf (chars predicate)) ;;
      r <- NestedElement s array args ;;
      Ok (Some r)
  end.

Definition ParseUnification (s : SpanString) : result (option Json) :=
  parts <- Split s "==" ;;
  match parts with
  | [l; r] =>
      lhs <- ParseExpression l ;;
      rhs <- ParseExpression r ;;
      Ok (Some (Obj [("left_hand_side", lhs); ("right_hand_side", rhs)]))
  | _ => Ok None
  end.

Definition number_one : Json :=
  Obj [("literal", Obj [("the_number", Obj [("number", JString "1")])])].

Definition NegationTree (s : SpanString) (negated_proposition : Json) : Json :=
  let agg := Obj [("operator", JString "Min");
                  ("argument", number_one);
                  ("expression_heritage", JString (str s))] in
  let fv := Obj [("field", JString "logica_value");
                 ("value", Obj [("aggregation", agg)])] in
  let head := Obj [("predicate_name", JString "Combine");
                   ("record", Obj [("field_value", JArray [fv])])] in
  let combine := Obj [("body", negated_proposition);
                      ("distinct_denoted", JBool true);
                      ("full_text", JString (str s));
                      ("head", head)] in
  let isnull_fv := Obj [("field", JInt 0);
                        ("value", Obj [("expression", Obj [("combine", combine)])])] in
  let isnull := Obj [("predicate_name", JString "IsNull");
                     ("record", Obj [("field_value", JArray [isnull_fv])])] in
  Obj [("predicate", isnull)].

Definition unary_operator_message : string :=
  "Negation " ++ quote ++ "~" ++ quote ++ " is a unary operator.".

Definition ParseNegation (s : SpanString) : result (option Json) :=
  parts <- Split s "~" ;;
  match parts with
  | [_] => Ok None
  | [p0; p1] =>
      if negb (empty p0) then throw_parsing unary_operator_message s
      else
        let negated := Strip p1 in
        conj_parts <- Split negated "," ;;
        conjuncts <- mapM ParseProposition conj_parts ;;
        let negated_prop := Obj [("conjunction", Obj [("conjunct", JArray conjuncts)])] in
        Ok (Some (NegationTree s negated_prop))
  | _ => throw_parsing unary_operator_message s
  end.

Definition ParseNegationExpression (s : SpanString) : result (option Json) :=
  proposition <- ParseNegation s ;;
  match proposition with
  | None => Ok None
  | Some p =>
      predicate <- at_key "predicate" p ;;
      Ok (Some (Obj [("call", predicate)]))
  end.

Definition ParseSubscript (s : SpanString) : result (option Json) :=
  path <- SplitRaw s "." ;;
  if length path <? 2 then Ok None
  else
    let record_str := Span (heritage s) (start s)
                        (stop (nth (length path - 2) path s)) in
    record <- ParseExpression (Strip record_str) ;;
    let last_part := last path s in
    if negb (forallb (fun c => islower c || isdigit c || ch c "_") (view last_part)) then
      throw_parsing "Subscript must be lowercase." s
    else
      let sub := Obj [("literal", Obj [("the_symbol", Obj [("symbol", JString (str last_part))])])] in
      Ok (Some (Obj [("record", record); ("subscript", sub)])).

Definition ParseDisjunction (s : SpanString) : result (option Json) :=
  parts <- Split s "|" ;;
  if length parts =? 1 then Ok None
  else
    disj <- mapM ParseProposition parts ;;
    Ok (Some (Obj [("disjunct", JArray disj)])).

Definition ParseConjunction (s : SpanString) (allow_singleton : bool)
    : result (option Json) :=
  parts <- Split s "," ;;
  if (length parts =? 1) && negb allow_singleton then Ok None
  else
    conj <- mapM ParseProposition parts ;;
    Ok (Some (Obj [("conjunct", JArray conj)])).

Definition PropositionalImplication (s consequence_str : SpanString)
    (condition consequence : Json) : result Json :=
  let ensure_conjunction (x : Json) :=
    if HasKey x "conjunction" then x
    else Obj [("conjunction", Obj [("conjunct", JArray [x])])] in
  conjuncts <-
    (if HasKey condition "conjunction" then
       c <- at_key "conjunction" condition ;;
       cs <- at_key "conjunct" c ;;
       as_array cs
     else Ok [condition]) ;;
  let conjuncts :=
    conjuncts ++ [NegationTree consequence_str (ensure_conjunction consequence)] in
  Ok (NegationTree s (Obj [("conjunction", Obj [("conjunct", JArray conjuncts)])])).

Definition ParsePropositionalImplication (s : SpanString) : result (option Json) :=
  parts <- Split s "=>" ;;
  match parts with
  | [p0; p1] =>
      cond <- ParseProposition p0 ;;
      conseq <- ParseProposition p1 ;;
      r <- PropositionalImplication s p1 cond conseq ;;
      Ok (Some r)
  | _ => Ok None
  end.

Definition ParsePropositionalEquivalence (s : SpanString) : result (option Json) :=
  parts <- Split s "<=>" ;;
  match parts with
  | [p0; p1] =>
      left1 <- ParseProposition p0 ;;
      right1 <- ParseProposition p1 ;;
      left2 <- ParseProposition p0 ;;
      right2 <- ParseProposition p1 ;;
      a <- PropositionalImplication s p1 left1 right1 ;;
      b <- PropositionalImplication s p0 right2 left2 ;;
      Ok (Some (Obj [("conjunction", Obj [("conjunct", JArray [a; b])])]))
  | _ => Ok None
  end.

(** [if (auto v = c) return g;] followed by the rest of the function. *)
Notation "'TRY' v <- c 'RETURN' g 'ELSE' rest" :=
  (bind c (fun r => match r with Some v => g | None => rest end))
  (at level 10, v name, c at level 100, g at level 100, rest at level 200,
   format "'[v' 'TRY'  v  <-  c  'RETURN'  g  'ELSE' '/' rest ']'").

Definition wrap (key : string) (v : Json) : result Json := Ok (Obj [(key, v)]).

(** The body of [ParseProposition]. *)
Definition ParseProposition_body (s : SpanString) : result Json :=
  TRY c <- ParseDisjunction s RETURN wrap "disjunction" c ELSE
  str_conjuncts <- Split s "," ;;
  TRY c <- (c <- ParseConjunction s false ;;
            Ok (if 1 <? length str_conjuncts then c else None))
    RETURN wrap "conjunction" c ELSE
  TRY c <- (if fun_mode then ParsePropositionalEquivalence s else Ok None)
    RETURN Ok (Obj [("conjunction", Obj [("conjunct", JArray [c])])]) ELSE
  TRY c <- ParsePropositionalImplication s RETURN Ok c ELSE
  TRY c <- ParseImplication s
    RETURN throw_parsing
      "If-then-else clause is only supported as an expression, not as a proposition." s ELSE
  TRY c <- ParseCall s false RETURN wrap "predicate" c ELSE
  TRY c <- ParseInfix s (Some ["&&"; "||"]) None RETURN wrap "predicate" c ELSE
  TRY u <- ParseUnification s RETURN wrap "unification" u ELSE
  TRY inc <- ParseInclusion s RETURN wrap "inclusion" inc ELSE
  TRY cc <- ParseConciseCombine s RETURN wrap "unification" cc ELSE
  TRY inf <- ParseInfix s None None RETURN wrap "predicate" inf ELSE
  TRY neg <- ParseNegation s RETURN Ok neg ELSE
  throw_parsing "Could not parse proposition." s.

Definition ActuallyParseExpression (s : SpanString) : result Json :=
  TRY v <- ParseCombine s RETURN wrap "combine" v ELSE
  TRY v <- ParseImplication s RETURN wrap "implication" v ELSE
  TRY v <- ParseLiteral s RETURN wrap "literal" v ELSE
  TRY v <- ParseVariable s RETURN wrap "variable" v ELSE
  TRY v <- ParseRecord s RETURN wrap "record" v ELSE
  TRY v <- (v <- ParsePropositionalImplication s ;;
            Ok (match v with
                | Some v => if HasKey v "predicate" then Some v else None
                | None => None
                end))
    RETURN (p <- at_key "predicate" v ;; wrap "call" p) ELSE
  TRY v <- ParseCall s false RETURN wrap "call" v ELSE
  TRY v <- ParseUltraConciseCombine s RETURN wrap "combine" v ELSE
  TRY v <- ParseInfix s None (Some ["~"]) RETURN wrap "call" v ELSE
  TRY v <- ParseSubscript s RETURN wrap "subscript" v ELSE
  TRY v <- ParseNegationExpression s RETURN Ok v ELSE
  TRY v <- ParseArraySub s RETURN wrap "call" v ELSE
  throw_parsing "Could not parse expression of a value." s.

(** The body of [ParseExpression]. *)
Definition ParseExpression_body (s : SpanString) : result Json :=
  e <- ActuallyParseExpression s ;;
  set_key "expression_heritage" (JString (str s)) e.

(** *** Rule parsing *)

(** The traversal of [ParseHeadCall]: whether an opening parenthesis was
    seen, and the index where the loop stopped ([0] when it ran to the
    end). *)
Fixpoint HeadCall_scan (s : SpanString) (steps : list TraverseStep)
    (saw_open : bool) : result (bool * nat) :=
  match steps with
  | [] => Ok (saw_open, 0)
  | step :: steps' =>
      if negb (status_is_ok (status step)) then
        throw_parsing "Parenthesis matches nothing." (slice s (idx step) (idx step + 1))
      else
        let saw_open := saw_open || list_eqb (state step) (chars "(") in
        if saw_open && null (state step) then Ok (saw_open, idx step)
        else HeadCall_scan s steps' saw_open
  end.

(** [call.at("record").at("field_value").as_array()] *)
Definition field_values_of (call : Json) : result JsonArray :=
  record <- at_key "record" call ;;
  fvs <- at_key "field_value" record ;;
  as_array fvs.

(** [call.at("record").at("field_value").as_array().push_back(fv)] *)
Definition push_field_value (call fv : Json) : result Json :=
  o <- as_object call ;;
  record <- obj_at "record" o ;;
  ro <- as_object record ;;
  fvs <- obj_at "field_value" ro ;;
  a <- as_array fvs ;;
  Ok (JObject (obj_set "record" (JObject (obj_set "field_value" (JArray (a ++ [fv])) ro)) o)).

(** [fvo.at("value").as_object().count("aggregation")] *)
Definition is_aggregated (fv : Json) : result bool :=
  v <- at_key "value" fv ;;
  vo <- as_object v ;;
  Ok (obj_count "aggregation" vo).

(** The lambda [check_agg] of [ParseHeadCall]. *)
Fixpoint check_agg_loop (call_str : SpanString) (fvs : JsonArray) : result unit :=
  match fvs with
  | [] => Ok tt
  | fv :: fvs' =>
      agg <- is_aggregated fv ;;
      if agg then
        throw_parsing "Aggregation appears in a non-distinct predicate. Did you forget distinct?" call_str
      else check_agg_loop call_str fvs'
  end.

Definition check_agg (distinct_from_outside : bool) (call_str : SpanString)
    (call : Json) : result unit :=
  if distinct_from_outside then Ok tt
  else fvs <- field_values_of call ;; check_agg_loop call_str fvs.

Definition ParseHeadCall (s : SpanString) (distinct_from_outside : bool)
    : result (Json * bool) :=
  '(saw_open, i) <- HeadCall_scan s (Traverse s) false ;;
  if negb saw_open then throw_parsing "Found no call in rule head." s
  else
    let call_str := slice s 0 (i + 1) in
    let post_call_str := slice_from s (i + 1) in
    parsed <- ParseCall call_str true ;;
    match parsed with
    | None => throw_parsing "Could not parse predicate call." call_str
    | Some call =>
        op_expr <- Split post_call_str "=" ;;
        match op_expr with
        | [only] =>
            if negb (empty only) then
              throw_parsing "Unexpected text in the head of a rule." only
            else
              _ <- check_agg distinct_from_outside call_str call ;;
              Ok (call, false)
        | [op_str; expr_str] =>
            if empty op_str then
              e <- ParseExpression expr_str ;;
              call <- push_field_value call
                        (Obj [("field", JString "logica_value");
                              ("value", Obj [("expression", e)])]) ;;
              _ <- check_agg distinct_from_outside call_str call ;;
              Ok (call, false)
            else
              argument <- ParseExpression expr_str ;;
              let agg := Obj [("operator", JString (str op_str));
                              ("argument", argument);
                              ("expression_heritage", JString (str post_call_str))] in
              let fv := Obj [("field", JString "logica_value");
                             ("value", Obj [("aggregation", agg)])] in
              call <- push_field_value call fv ;;
              Ok (call, true)
        | _ => throw_parsing "Too many '=' in predicate value." post_call_str
        end
    end.

Definition ParseFunctorRule (s : SpanString) : result (option Json) :=
  parts <- Split s ":=" ;;
  match parts with
  | [p0; p1] =>
      new_predicate <- ParseExpression p0 ;;
      definition_expr <- ParseExpression p1 ;;
      if negb (HasKey definition_expr "call") then
        throw_parsing FunctorSyntaxErrorMessage p1
      else
        definition <- at_key "call" definition_expr ;;
        is_predicate <-
          (if HasKey new_predicate "literal" then
             l <- at_key "literal" new_predicate ;;
             lo <- as_object l ;;
             Ok (obj_count "the_predicate" lo)
           else Ok false) ;;
        if negb is_predicate then throw_parsing FunctorSyntaxErrorMessage p0
        else
          name <- at_key "predicate_name" definition ;;
          let applicant :=
            Obj [("expression",
                  Obj [("literal", Obj [("the_predicate", Obj [("predicate_name", name)])])])] in
          record <- at_key "record" definition ;;
          let arguments := Obj [("expression", Obj [("record", record)])] in
          let head :=
            Obj [("predicate_name", JString "@Make");
                 ("record", Obj [("field_value", JArray [
                    Obj [("field", JInt 0); ("value", Obj [("expression", new_predicate)])];
                    Obj [("field", JInt 1); ("value", applicant)];
                    Obj [("field", JInt 2); ("value", arguments)]])])] in
          Ok (Some (Obj [("full_text", JString (str s)); ("head", head)]))
  | _ => Ok None
  end.

Definition GrabDenotation (head : SpanString) (denotation : string)
    (with_arguments : bool) : result (SpanString * bool * option Json) :=
  head_couldbe <- Split head denotation ;;
  if 2 <? length head_couldbe then throw_parsing "Too many denotations." head
  else if with_arguments then
    match head_couldbe with
    | [h0; h1] =>
        let arg := Strip h1 in
        if negb (empty arg) && ch (at_ arg 0) "(" then
          throw_parsing "Can not parse denotations when extracting." head
        else
          args <- ParseRecordInternals arg false false ;;
          Ok (h0, true, Some args)
    | _ => Ok (head, false, None)
    end
  else
    match head_couldbe with
    | [h0; h1] =>
        if negb (empty (StripSpaces h1)) then
          throw_parsing "Too many denotations or incorrect place." head
        else Ok (h0, true, None)
    | _ => Ok (head, false, None)
    end.

(** [if (flag) result[key] = value] *)
Definition set_if (flag : bool) (key : string) (value : Json) (o : JsonObject)
    : JsonObject :=
  if flag then obj_set key value o else o.

Definition set_some (key : string) (value : option Json) (o : JsonObject)
    : JsonObject :=
  match value with Some v => obj_set key v o | None => o end.

Definition ParseRule (s : SpanString) : result Json :=
  parts <- Split s ":-" ;;
  if 2 <? length parts then
    throw_parsing "Too many :- in a rule. Did you forget semicolon?" s
  else
    let head := hd s parts in
    '(h1, couldbe, _) <- GrabDenotation head "couldbe" false ;;
    '(h2, cantbe, _) <- GrabDenotation h1 "cantbe" false ;;
    '(h3, shouldbe, _) <- GrabDenotation h2 "shouldbe" false ;;
    '(h4, limit, limit_what) <- GrabDenotation h3 "limit" true ;;
    '(h5, order_by, order_by_what) <- GrabDenotation h4 "order_by" true ;;
    let head := h5 in
    head_distinct <- Split head "distinct" ;;
    rule <-
      (if length head_distinct =? 1 then
         '(parsed_head, is_distinct) <- ParseHeadCall head false ;;
         Ok (set_if is_distinct "distinct_denoted" (JBool true)
               (obj_set "head" parsed_head []))
       else
         match head_distinct with
         | [hd0; hd1] =>
             if negb (empty hd1) then
               throw_parsing "Can not parse rule head. Something is wrong with distinct." head
             else
               '(parsed_head, _) <- ParseHeadCall hd0 true ;;
               Ok (obj_set "distinct_denoted" (JBool true)
                     (obj_set "head" parsed_head []))
         | _ =>
             throw_parsing "Can not parse rule head. Something is wrong with distinct." head
         end) ;;
    let rule := set_if couldbe "couldbe_denoted" (JBool true) rule in
    let rule := set_if cantbe "cantbe_denoted" (JBool true) rule in
    let rule := set_if shouldbe "shouldbe_denoted" (JBool true) rule in
    let rule := set_some "orderby_denoted" order_by_what rule in
    let rule := set_some "limit_denoted" limit_what rule in
    rule <-
      (match parts with
       | [_; body] =>
           b <- ParseProposition body ;; Ok (obj_set "body" b rule)
       | _ => Ok rule
       end) ;;
    Ok (JObject (obj_set "full_text" (JString (str s)) rule)).

Definition ParseFunctionRuleImpl (s : SpanString) : result (option (Json * Json)) :=
  parts <- SplitRaw s "-->" ;;
  match parts with
  | [p0; p1] =>
      this_call <- ParseCall p0 false ;;
      match this_call with
      | None =>
          throw_parsing "Left hand side of function definition must be a predicate call." p0
      | Some call =>
          name <- at_key "predicate_name" call ;;
          pred_name <- as_string name ;;
          annotation_rule <-
            ParseRule (SpanOf (chars ("@CompileAsUdf(" ++ pred_name ++ ")"))) ;;
          rule <- ParseRule (SpanOf (view p0 ++ chars " = " ++ view p1)) ;;
          Ok (Some (annotation_rule, rule))
      end
  | _ => Ok None
  end.

End Parser.

(** The recursion of [ParseExpression] and [ParseProposition], [depth]
    calls deep. *)
Fixpoint ParseExpression (fun_mode : bool) (depth : nat) (s : SpanString)
    {struct depth} : result Json :=
  match depth with
  | 0 => OutOfFuel
  | S depth' =>
      ParseExpression_body fun_mode
        (ParseExpression fun_mode depth') (ParseProposition fun_mode depth') s
  end
with ParseProposition (fun_mode : bool) (depth : nat) (s : SpanString)
    {struct depth} : result Json :=
  match depth with
  | 0 => OutOfFuel
  | S depth' =>
      ParseProposition_body fun_mode
        (ParseExpression fun_mode depth') (ParseProposition fun_mode depth') s
  end.

(* ================================================================== *)
(** * Imports, renaming, and rewrites *)
(* ================================================================== *)

(** [std::set<std::string>]: strings in increasing order, no repeats. *)
Definition StringSet : Type := list string.

Fixpoint set_insert (x : string) (s : StringSet) : StringSet :=
  match s with
  | [] => [x]
  | y :: s' =>
      if String.eqb x y then s
      else if String.ltb x y then x :: s
      else y :: set_insert x s'
  end.

Definition set_count (x : string) (s : StringSet) : bool := existsb (String.eqb x) s.

Definition set_erase (x : string) (s : StringSet) : StringSet :=
  filter (fun y => negb (String.eqb x y)) s.

Definition set_union (a b : StringSet) : StringSet := fold_left (fun s x => set_insert x s) a b.

Definition SplitImport (import_str : list ascii)
    : result (string * string * option string) :=
  '(import_path, synonym) <-
    (match find (chars " as ") import_str with
     | Some pos =>
         match find_from (chars " as ") import_str (pos + 1) with
         | Some _ => throw_parsing "Too many as" (SpanOf import_str)
         | None => Ok (firstn pos import_str, Some (text (skipn (pos + 4) import_str)))
         end
     | None => Ok (import_str, None)
     end) ;;
  let parts := getline_all "." import_path [] in
  if null parts || null (last parts []) || negb (isupper (front (last parts [])))
  then throw_parsing "One import per predicate please." (SpanOf import_str)
  else
    let predicate := last parts [] in
    let file := join ["."%char] (removelast parts) in
    Ok (text file, text predicate, synonym).

(** [if (v.is_object() || v.is_array())] *)
Definition is_container (v : Json) : bool := is_object v || is_array v.

(** [RenamePredicate]: the renamed tree and the number of renamings.  The
    entries ["predicate_name"] and ["field"] that are renamed hold strings,
    so the loop over the entries that follows does not enter them. *)
Fixpoint RenamePredicate (e : Json) (old_name new_name : string) {struct e}
    : Json * nat :=
  let rename_child (k : string) (v : Json) : Json * nat :=
    match v with
    | JString name =>
        if (String.eqb k "predicate_name" || String.eqb k "field")
           && String.eqb name old_name
        then (JString new_name, 1) else (v, 0)
    | _ => (v, 0)
    end in
  match e with
  | JObject o =>
      let fix entries (o : list (string * Json)) : list (string * Json) * nat :=
        match o with
        | [] => ([], 0)
        | (k, v) :: o' =>
            let '(v', c) :=
              if is_container v then RenamePredicate v old_name new_name
              else rename_child k v in
            let '(o'', c') := entries o' in
            ((k, v') :: o'', c + c')
        end in
      let '(o', c) := entries o in (JObject o', c)
  | JArray a =>
      let fix elements (a : list Json) : list Json * nat :=
        match a with
        | [] => ([], 0)
        | v :: a' =>
            let '(v', c) :=
              if is_container v then RenamePredicate v old_name new_name else (v, 0) in
            let '(a'', c') := elements a' in
            (v' :: a'', c + c')
        end in
      let '(a', c) := elements a in (JArray a', c)
  | _ => (e, 0)
  end.

(** [r.at("head").at("predicate_name").as_string()] *)
Definition head_predicate_name (r : Json) : result string :=
  head <- at_key "head" r ;;
  name <- at_key "predicate_name" head ;;
  as_string name.

Fixpoint DefinedPredicates (rules : JsonArray) : result StringSet :=
  match rules with
  | [] => Ok []
  | r :: rules' =>
      name <- head_predicate_name r ;;
      rest <- DefinedPredicates rules' ;;
      Ok (set_insert name rest)
  end.

(** [a.at(0)] *)
Definition array_at_0 (a : JsonArray) : result Json :=
  match a with x :: _ => Ok x | [] => Throw out_of_range end.

Fixpoint MadePredicates (rules : JsonArray) : result StringSet :=
  match rules with
  | [] => Ok []
  | r :: rules' =>
      name <- head_predicate_name r ;;
      made <-
        (if String.eqb name "@Make" then
           head <- at_key "head" r ;;
           record <- at_key "record" head ;;
           fvs <- at_key "field_value" record ;;
           a <- as_array fvs ;;
           fv0 <- array_at_0 a ;;
           v <- at_key "value" fv0 ;;
           e <- at_key "expression" v ;;
           l <- at_key "literal" e ;;
           p <- at_key "the_predicate" l ;;
           n <- at_key "predicate_name" p ;;
           n <- as_string n ;;
           Ok (Some n)
         else Ok None) ;;
      rest <- MadePredicates rules' ;;
      Ok (match made with Some n => set_insert n rest | None => rest end)
  end.

Definition StripAggregationHeritage (field_values : Json) : result Json :=
  fvs <- as_array field_values ;;
  stripped <-
    mapM (fun fv =>
            fvo <- as_object fv ;;
            v <- obj_at "value" fvo ;;
            vobj <- as_object v ;;
            match obj_find "aggregation" vobj with
            | Some a =>
                ao <- as_object a ;;
                Ok (JObject (obj_set "value"
                       (JObject (obj_set "aggregation"
                          (JObject (obj_erase "expression_heritage" ao)) vobj)) fvo))
            | None => Ok fv
            end) fvs ;;
  Ok (JArray stripped).

(** The grouping of the rules by head name, names in order of first
    occurrence. *)
Fixpoint group_by_name (rules : JsonArray) (names_in_order : list string)
    (by_name : list (string * JsonArray))
    : result (list string * list (string * JsonArray)) :=
  match rules with
  | [] => Ok (names_in_order, by_name)
  | r :: rules' =>
      name <- head_predicate_name r ;;
      if existsb (fun e => String.eqb name (fst e)) by_name then
        group_by_name rules' names_in_order
          (map (fun e => if String.eqb name (fst e) then (fst e, snd e ++ [r]) else e) by_name)
      else
        group_by_name rules' (names_in_order ++ [name]) (by_name ++ [(name, [r])])
  end.

Definition rules_named (name : string) (by_name : list (string * JsonArray)) : JsonArray :=
  match List.find (fun e => String.eqb name (fst e)) by_name with
  | Some e => snd e
  | None => []
  end.

Definition variable_of (field : Json) : Json :=
  Obj [("variable", Obj [("var_name", field)])].

(** The loop of the lambda [split_aggregation] over the head fields. *)
Fixpoint split_fields (fvs : JsonArray) : result (JsonArray * JsonArray) :=
  match fvs with
  | [] => Ok ([], [])
  | fv :: fvs' =>
      fvo <- as_object fv ;;
      field <- obj_at "field" fvo ;;
      v <- obj_at "value" fvo ;;
      value <- as_object v ;;
      '(a, t) <-
        (match obj_find "aggregation" value with
         | Some agg =>
             a <- as_object agg ;;
             operator <- obj_at "operator" a ;;
             heritage <- obj_at "expression_heritage" a ;;
             let agg_a := Obj [("operator", operator);
                               ("argument", variable_of field);
                               ("expression_heritage", heritage)] in
             argument <- obj_at "argument" a ;;
             Ok (Obj [("field", field); ("value", Obj [("aggregation", agg_a)])],
                 Obj [("field", field); ("value", Obj [("expression", argument)])])
         | None =>
             Ok (Obj [("field", field); ("value", Obj [("expression", variable_of field)])],
                 fv)
         end) ;;
      '(aggregation, transformation) <- split_fields fvs' ;;
      Ok (a :: aggregation, t :: transformation)
  end.

Definition aux_suffix : string := "_MultBodyAggAux".

(** The lambda [split_aggregation]. *)
Definition split_aggregation (rule : Json) : result (Json * Json) :=
  r <- as_object rule ;;
  if negb (obj_count "distinct_denoted" r) then
    name <- head_predicate_name rule ;;
    throw_parsing "Inconsistency in distinct denoting." (SpanOf (chars name))
  else
    let r := obj_erase "distinct_denoted" r in
    name <- head_predicate_name (JObject r) ;;
    head <- obj_at "head" r ;;
    ho <- as_object head ;;
    let ho := obj_set "predicate_name" (JString (name ++ aux_suffix)) ho in
    record <- obj_at "record" ho ;;
    ro <- as_object record ;;
    fvs <- obj_at "field_value" ro ;;
    fvs <- as_array fvs ;;
    '(aggregation, transformation) <- split_fields fvs ;;
    let ro := obj_set "field_value" (JArray transformation) ro in
    let r := obj_set "head" (JObject (obj_set "record" (JObject ro) ho)) r in
    Ok (JArray aggregation, JObject r).

(** The main loop of [MultiBodyAggregationRewrite]. *)
Fixpoint MultiBody_loop (multi : list string) (rules : JsonArray)
    (new_rules : JsonArray) (agg_fvs_per_pred : JsonObject)
    (original_full_text : list (string * string))
    : result (JsonArray * JsonObject * list (string * string)) :=
  match rules with
  | [] => Ok (new_rules, agg_fvs_per_pred, original_full_text)
  | rule :: rules' =>
      name <- head_predicate_name rule ;;
      ft <- at_key "full_text" rule ;;
      ft <- as_string ft ;;
      let original_full_text :=
        (name, ft) :: filter (fun e => negb (String.eqb name (fst e))) original_full_text in
      if mem name multi then
        '(aggregation_fvs, new_rule) <- split_aggregation rule ;;
        agg_fvs_per_pred <-
          (match obj_find name agg_fvs_per_pred with
           | Some seen =>
               fv <- at_key "field_value" seen ;;
               expected <- StripAggregationHeritage fv ;;
               observed <- StripAggregationHeritage aggregation_fvs ;;
               if negb (String.eqb (ToString false expected) (ToString false observed)) then
                 throw_parsing "Signature differs for bodies." (SpanOf (chars ft))
               else Ok agg_fvs_per_pred
           | None =>
               Ok (obj_set name (Obj [("field_value", aggregation_fvs)]) agg_fvs_per_pred)
           end) ;;
        MultiBody_loop multi rules' (new_rules ++ [new_rule]) agg_fvs_per_pred
          original_full_text
      else
        MultiBody_loop multi rules' (new_rules ++ [rule]) agg_fvs_per_pred
          original_full_text
  end.

(** The aggregating rule that the last loop adds for [name]. *)
Definition aggregating_rule (name : string) (agg_fvs_per_pred : JsonObject)
    (original_full_text : list (string * string)) : result Json :=
  seen <- obj_at name agg_fvs_per_pred ;;
  fv <- at_key "field_value" seen ;;
  agg_fvs <- as_array fv ;;
  pass_fvs <-
    mapM (fun fv =>
            field <- at_key "field" fv ;;
            Ok (Obj [("field", field);
                     ("value", Obj [("expression", variable_of field)])])) agg_fvs ;;
  let head := Obj [("predicate_name", JString name);
                   ("record", Obj [("field_value", JArray agg_fvs)])] in
  let aux_pred := Obj [("predicate_name", JString (name ++ aux_suffix));
                       ("record", Obj [("field_value", JArray pass_fvs)])] in
  let body := Obj [("conjunction",
                    Obj [("conjunct", JArray [Obj [("predicate", aux_pred)]])])] in
  let full_text :=
    match List.find (fun e => String.eqb name (fst e)) original_full_text with
    | Some e => snd e
    | None => EmptyString
    end in
  Ok (Obj [("head", head); ("body", body);
           ("full_text", JString full_text); ("distinct_denoted", JBool true)]).

Definition MultiBodyAggregationRewrite (rules_json : Json) : result Json :=
  rules <- as_array rules_json ;;
  '(names_in_order, by_name) <- group_by_name rules [] [] ;;
  let multi :=
    filter (fun n =>
              let rs := rules_named n by_name in
              (1 <? length rs) && HasKey (hd JNull rs) "distinct_denoted")
           names_in_order in
  '(new_rules, agg_fvs_per_pred, original_full_text) <-
    MultiBody_loop multi rules [] [] [] ;;
  added <- mapM (fun name => aggregating_rule name agg_fvs_per_pred original_full_text) multi ;;
  Ok (JArray (new_rules ++ added)).

(** ** [DnfRewrite] *)

(** [using Dnf = std::vector<std::vector<Json>>] *)
Definition Dnf : Type := list (list Json).

(** The lambda [conjunction_of_dnfs]. *)
Fixpoint conjunction_of_dnfs (dnfs : list Dnf) : Dnf :=
  match dnfs with
  | [] => [[]]
  | [d] => d
  | first :: rest =>
      let other := conjunction_of_dnfs rest in
      flat_map (fun a => map (fun b => a ++ b) other) first
  end.

(** Accessors in continuation style, so that the recursion below is on
    parts of its argument: [with_key k o f] is [f (o.at(k))],
    [with_array j f] is [f (j.as_array())], [with_object j f] is
    [f (j.as_object())]. *)
Definition with_key {A} (k : string) (o : JsonObject) (f : Json -> result A)
    : result A :=
  (fix find (o : JsonObject) : result A :=
     match o with
     | [] => Throw out_of_range
     | (k', v) :: o' => if String.eqb k k' then f v else find o'
     end) o.

Definition with_object {A} (j : Json) (f : JsonObject -> result A) : result A :=
  match j with JObject o => f o | _ => Throw bad_variant_access end.

Definition with_array {A} (j : Json) (f : JsonArray -> result A) : result A :=
  match j with JArray a => f a | _ => Throw bad_variant_access end.

(** The lambda [proposition_to_dnf]. *)
Fixpoint proposition_to_dnf (prop : Json) {struct prop} : result Dnf :=
  match prop with
  | JObject o =>
      if obj_count "conjunction" o then
        with_key "conjunction" o (fun c =>
        with_object c (fun co =>
        with_key "conjunct" co (fun cs =>
        with_array cs (fun conjuncts =>
          dnfs <- mapM proposition_to_dnf conjuncts ;;
          Ok (conjunction_of_dnfs dnfs)))))
      else if obj_count "disjunction" o then
        with_key "disjunction" o (fun d =>
        with_object d (fun dobj =>
        with_key "disjunct" dobj (fun ds =>
        with_array ds (fun disjuncts =>
          dds <- mapM proposition_to_dnf disjuncts ;;
          Ok (concat dds)))))
      else Ok [[prop]]
  | _ => Ok [[prop]]
  end.

(** The rules that [DnfRewrite] emits for one rule. *)
Definition DnfRewrite_rule (rule : Json) : result JsonArray :=
  if negb (HasKey rule "body") then Ok [rule]
  else
    body <- at_key "body" rule ;;
    dnf <- proposition_to_dnf body ;;
    mapM (fun conjuncts =>
            set_key "body"
              (Obj [("conjunction", Obj [("conjunct", JArray conjuncts)])]) rule) dnf.

Definition DnfRewrite (rules_json : Json) : result Json :=
  rules <- as_array rules_json ;;
  out <- mapM DnfRewrite_rule rules ;;
  Ok (JArray (concat out)).

(** ** [RewriteAggregationsAsExpressions] *)

Definition AggregationOperator (raw : string) : string :=
  if String.eqb raw "+" then "Agg+"
  else if String.eqb raw "++" then "Agg++"
  else if String.eqb raw "*" then "`*`"
  else raw.

Definition AggregationConvert (a : Json) : result Json :=
  operator <- at_key "operator" a ;;
  operator <- as_string operator ;;
  argument <- at_key "argument" a ;;
  heritage <- at_key "expression_heritage" a ;;
  let call :=
    Obj [("predicate_name", JString (AggregationOperator operator));
         ("record", Obj [("field_value", JArray [
            Obj [("field", JInt 0); ("value", Obj [("expression", argument)])]])])] in
  Ok (Obj [("call", call); ("expression_heritage", heritage)]).

(** The body of the first loop of [RewriteAggregationsInternal] for one
    entry value [v]. *)
Definition convert_slot (v : Json) : result Json :=
  match v with
  | JObject vo =>
      match obj_find "aggregation" vo with
      | Some (JObject a) =>
          expr <- AggregationConvert (JObject a) ;;
          let a' := obj_set "expression" expr
                      (obj_erase "argument" (obj_erase "operator" a)) in
          Ok (JObject (obj_set "aggregation" (JObject a') vo))
      | _ => Ok v
      end
  | _ => Ok v
  end.

(** [mapM] over the values of the entries of an object. *)
Definition mapM_values (f : Json -> result Json) : JsonObject -> result JsonObject :=
  fix mapM_values (o : JsonObject) : result JsonObject :=
    match o with
    | [] => Ok []
    | (k, v) :: o' => v' <- f v ;; o'' <- mapM_values o' ;; Ok ((k, v') :: o'')
    end.

(** [RewriteAggregationsInternal], [depth] calls deep: the function calls
    itself on the slots it has just rewritten. *)
Fixpoint RewriteAggregationsInternal (depth : nat) (node : Json) : result Json :=
  match depth with
  | 0 => OutOfFuel
  | S depth' =>
      let descend (v : Json) :=
        if is_container v then RewriteAggregationsInternal depth' v else Ok v in
      match node with
      | JObject o =>
          o1 <- mapM_values convert_slot o ;;
          o2 <- mapM_values descend o1 ;;
          Ok (JObject o2)
      | JArray a => a' <- mapM descend a ;; Ok (JArray a')
      | _ => Ok node
      end
  end.

Definition RewriteAggregationsAsExpressions (depth : nat) (rules : Json) : result Json :=
  RewriteAggregationsInternal depth rules.

(** ** [AnnotationsFromDenotations] *)

(** The lambda [shift_args]; [int64_t] addition wraps. *)
Definition shift_args (fvs : Json) : result Json :=
  a <- as_array fvs ;;
  shifted <-
    mapM (fun fv =>
            fvo <- as_object fv ;;
            field <- obj_at "field" fvo ;;
            match field with
            | JInt n =>
                let n' := ((n + 1 + 2 ^ 63) mod 2 ^ 64 - 2 ^ 63)%Z in
                Ok (JObject (obj_set "field" (JInt n') fvo))
            | _ => Ok fv
            end) a ;;
  Ok (JArray shifted).

(** One round of the loop of [AnnotationsFromDenotations]: the rule with
    its denotation shifted, and the annotation, if the rule has the
    denotation. *)
Definition annotation_for (denotation annotation : string) (rule : Json)
    : result (Json * list Json) :=
  ro <- as_object rule ;;
  match obj_find denotation ro with
  | None => Ok (rule, [])
  | Some den =>
      deno <- as_object den ;;
      fvs <- obj_at "field_value" deno ;;
      shifted <- shift_args fvs ;;
      let args := JObject (obj_set "field_value" shifted deno) in
      let ro := obj_set denotation args ro in
      full_text <- obj_at "full_text" ro ;;
      head <- obj_at "head" ro ;;
      name <- at_key "predicate_name" head ;;
      let first :=
        Obj [("field", JInt 0);
             ("value", Obj [("expression",
                Obj [("literal", Obj [("the_predicate", Obj [("predicate_name", name)])])])])] in
      arg_fvs <- as_array shifted ;;
      let ann :=
        Obj [("full_text", full_text);
             ("head", Obj [("predicate_name", JString annotation);
                           ("record", Obj [("field_value", JArray (first :: arg_fvs))])])] in
      Ok (JObject ro, [ann])
  end.

Definition AnnotationsFromDenotations (rule : Json) : result (Json * JsonArray) :=
  '(rule, a1) <- annotation_for "orderby_denoted" "@OrderBy" rule ;;
  '(rule, a2) <- annotation_for "limit_denoted" "@Limit" rule ;;
  Ok (rule, a1 ++ a2).

(** ** [ParseImport], [ParseFileInternal], [ParseFile] *)

(** The file system as the parser sees it: [std::filesystem::exists] and
    the bytes that reading the file gives. *)
Definition FileSystem : Type := string -> option (list ascii).

(** [std::filesystem::path(root) / rel] *)
Definition path_join (root rel : string) : string :=
  if null (chars root) then rel
  else if ch (front (chars rel)) "/" then rel
  else if ch (back (chars root)) "/" then (root ++ rel)%string
  else (root ++ "/" ++ rel)%string.

(** The state that the calls share by reference, and the global
    [TOO_MUCH]. *)
Record Env : Type := MkEnv {
  parsed_imports : JsonObject;    (* std::map<std::string, Json> *)
  in_progress : StringSet;
  too_much_fun : bool             (* TOO_MUCH == "fun" *)
}.

(** The first root under which [rel] exists. *)
Fixpoint find_file (fs : FileSystem) (roots : list string) (rel : string)
    : option (list ascii) :=
  match roots with
  | [] => None
  | root :: roots' =>
      match fs (path_join root rel) with
      | Some content => Some content
      | None => find_file fs roots' rel
      end
  end.

Definition circular_chain (import_chain : list string) (file_import_str : string) : string :=
  fold_right (fun c acc => (c ++ "->" ++ acc)%string) file_import_str import_chain.

(** The loop over the defined predicates that renames them in all
    rules. *)
Definition rename_in_rules (rules : JsonArray) (old_name new_name : string)
    : JsonArray * nat :=
  fold_left (fun acc r =>
               let '(r', c) := RenamePredicate r old_name new_name in
               (fst acc ++ [r'], snd acc + c)) rules ([], 0).

Definition capitalize (x : list ascii) : list ascii :=
  match x with
  | [] => []
  | c :: x' => toupper c :: map tolower x'
  end.

(** [while (existing.count(prefix))] of the prefix computation; [i] is
    [idx]. *)
Fixpoint extend_prefix (existing : StringSet) (parts : list (list ascii))
    (i : nat) (prefix : string) : result string :=
  if set_count prefix existing then
    match i with
    | 0 => throw_parsing "Import paths equal modulo _ and /." (SpanOf (chars prefix))
    | S i' =>
        if i' <=? 0 then
          throw_parsing "Import paths equal modulo _ and /." (SpanOf (chars prefix))
        else extend_prefix existing parts i' (text (nth i' parts []) ++ prefix)%string
    end
  else Ok prefix.

Fixpoint existing_prefixes (imports : JsonObject) : result StringSet :=
  match imports with
  | [] => Ok []
  | (_, v) :: imports' =>
      rest <- existing_prefixes imports' ;;
      if HasKey v "predicates_prefix" then
        p <- at_key "predicates_prefix" v ;;
        p <- as_string p ;;
        Ok (set_insert p rest)
      else Ok rest
  end.

(** Indexing a vector out of its bounds is undefined; the embedding
    stops there with [out_of_range]. *)
Definition compute_prefix (this_file_name : string) (imports : JsonObject)
    : result string :=
  if String.eqb this_file_name "main" then Ok EmptyString
  else
    existing <- existing_prefixes imports ;;
    let parts := getline_all "." (chars this_file_name) [] in
    match length parts with
    | 0 => Throw out_of_range
    | S i =>
        extend_prefix existing parts i (text (capitalize (nth i parts [])) ++ "_")%string
    end.

(** "Rename predicates for non-main." *)
Fixpoint rename_defined (def : StringSet) (prefix : string) (rules : JsonArray)
    : JsonArray :=
  match def with
  | [] => rules
  | p :: def' =>
      let rules :=
        if negb (null (chars p)) && negb (ch (front (chars p)) "@")
           && negb (String.eqb p "++?")
        then fst (rename_in_rules rules p (prefix ++ p)%string)
        else rules in
      rename_defined def' prefix rules
  end.

Definition created_by (file : string) (created : list (string * StringSet)) : StringSet :=
  match List.find (fun e => String.eqb file (fst e)) created with
  | Some e => snd e
  | None => []
  end.

(** "Apply imported predicate renames and checks." *)
Fixpoint apply_imports (imported_predicates : JsonArray) (imports : JsonObject)
    (created : list (string * StringSet)) (rules : JsonArray) : result JsonArray :=
  match imported_predicates with
  | [] => Ok rules
  | ip :: rest =>
      file <- at_key "file" ip ;;
      file <- as_string file ;;
      name <- at_key "predicate_name" ip ;;
      imported_pred_name <- as_string name ;;
      synonym <- at_key "synonym" ip ;;
      imported_as <- (if is_null synonym then Ok imported_pred_name else as_string synonym) ;;
      imp <- obj_at file imports ;;
      p <- at_key "predicates_prefix" imp ;;
      import_prefix <- as_string p ;;
      if null (chars import_prefix) then
        throw_parsing "Empty import prefix" (SpanOf (chars file))
      else
        let '(rules, rename_count) :=
          rename_in_rules rules imported_as (import_prefix ++ imported_pred_name)%string in
        if negb (set_count (import_prefix ++ imported_pred_name)%string (created_by file created))
           && negb (set_count imported_pred_name (created_by file created)) then
          throw_parsing "Predicate imported but not defined."
            (SpanOf (chars (file ++ " -> " ++ imported_pred_name)))
        else if rename_count =? 0 then
          throw_parsing "Predicate imported but not used."
            (SpanOf (chars (file ++ " -> " ++ imported_as)))
        else apply_imports rest imports created rules
  end.

(** "Main assembles all rules." *)
Fixpoint assemble (imports : JsonObject) (defined : StringSet) (rules : JsonArray)
    : result JsonArray :=
  match imports with
  | [] => Ok rules
  | (_, v) :: imports' =>
      r <- at_key "rule" v ;;
      irules <- as_array r ;;
      new_preds <- DefinedPredicates irules ;;
      match List.find (fun p => set_count p defined && negb (null (chars p))
                                && negb (ch (front (chars p)) "@")) new_preds with
      | Some p =>
          throw_parsing "Predicate from file is overridden by importer." (SpanOf (chars p))
      | None => assemble imports' (set_union defined new_preds) (rules ++ irules)
      end
  end.

(** The state of the loop over the statements of a file. *)
Record FileLoop : Type := MkFileLoop {
  fl_rules : JsonArray;
  fl_imported_predicates : JsonArray;
  fl_created : list (string * StringSet);   (* predicates_created_by_import *)
  fl_env : Env
}.

Section Files.

Variable fs : FileSystem.
Variable import_root : list string.

(** One statement that is not an import: the rules it adds. *)
Definition parse_statement (fun_mode : bool) (depth : nat) (st : SpanString)
    : result JsonArray :=
  let PE := ParseExpression fun_mode depth in
  let PP := ParseProposition fun_mode depth in
  ann <- ParseFunctionRuleImpl fun_mode PE PP st ;;
  match ann with
  | Some (annotation_rule, rule) => Ok [annotation_rule; rule]
  | None =>
      functor <- ParseFunctorRule PE st ;;
      match functor with
      | Some rule => Ok [rule]
      | None =>
          r <- ParseRule fun_mode PE PP st ;;
          if negb (is_null r) then
            '(r, anns) <- AnnotationsFromDenotations r ;;
            Ok (anns ++ [r])
          else Ok []
      end
  end.

(** [ParseImport], over the [ParseFileInternal] that is declared before
    it. *)
Definition ParseImport
    (ParseFileInternal :
       list ascii -> string -> Env -> list string -> result (Json * Env))
    (file_import_str : string) (env : Env) (import_chain : list string)
    : result (Json * Env) :=
  match obj_find file_import_str (parsed_imports env) with
  | Some parsed => Ok (parsed, env)
  | None =>
      if set_count file_import_str (in_progress env) then
        throw_parsing
          ("Circular imports are not allowed: "
           ++ circular_chain import_chain file_import_str)
          (SpanOf (chars file_import_str))
      else
        let env := MkEnv (parsed_imports env)
                     (set_insert file_import_str (in_progress env))
                     (too_much_fun env) in
        let parts := getline_all "." (chars file_import_str) [] in
        let rel := (text (join ["/"%char] parts) ++ ".l")%string in
        let roots := if null import_root then [EmptyString] else import_root in
        match find_file fs roots rel with
        | None =>
            throw_parsing ("Imported file not found: " ++ rel)
              (slice (SpanOf (chars ("import " ++ file_import_str ++ ".<PREDICATE>")))
                 7 (7 + length (chars file_import_str)))
        | Some file_content =>
            '(parsed, env) <-
              ParseFileInternal file_content file_import_str env import_chain ;;
            Ok (parsed,
                MkEnv (obj_set file_import_str parsed (parsed_imports env))
                  (set_erase file_import_str (in_progress env))
                  (too_much_fun env))
        end
  end.

(** The loop of [ParseFileInternal] over the statements. *)
Fixpoint statement_loop
    (import_ : string -> Env -> list string -> result (Json * Env))
    (depth : nat) (import_chain : list string)
    (statements : list SpanString) (st : FileLoop) : result FileLoop :=
  match statements with
  | [] => Ok st
  | stmt :: statements' =>
      if empty stmt then statement_loop import_ depth import_chain statements' st
      else if starts_with stmt "import " then
        let import_str := view (slice_from stmt (length (chars "import "))) in
        '(file_import_str, import_predicate, synonym) <- SplitImport import_str ;;
        '(parsed, env) <- import_ file_import_str (fl_env st) import_chain ;;
        let ip := Obj [("file", JString file_import_str);
                       ("predicate_name", JString import_predicate);
                       ("synonym", match synonym with
                                   | Some syn => JString syn
                                   | None => JNull
                                   end)] in
        created <-
          (if negb (existsb (fun e => String.eqb file_import_str (fst e)) (fl_created st))
           then
             r <- at_key "rule" parsed ;;
             prules <- as_array r ;;
             def <- DefinedPredicates prules ;;
             made <- MadePredicates prules ;;
             Ok (fl_created st ++ [(file_import_str, set_union def made)])
           else Ok (fl_created st)) ;;
        statement_loop import_ depth import_chain statements'
          (MkFileLoop (fl_rules st) (fl_imported_predicates st ++ [ip]) created env)
      else
        new_rules <- parse_statement (too_much_fun (fl_env st)) depth stmt ;;
        statement_loop import_ depth import_chain statements'
          (MkFileLoop (fl_rules st ++ new_rules) (fl_imported_predicates st)
             (fl_created st) (fl_env st))
  end.

(** The body of [ParseFileInternal], over the [ParseImport] it calls;
    [depth] bounds the depth of the parsers and of the aggregation
    rewrite. *)
Definition ParseFileInternal_body
    (import_ : string -> Env -> list string -> result (Json * Env))
    (depth : nat) (content : list ascii) (this_file_name : string) (env : Env)
    (import_chain : list string) : result (Json * Env) :=
  let env :=
    if String.eqb (if null (chars this_file_name) then "main" else this_file_name) "main"
    then MkEnv (parsed_imports env) (in_progress env)
           (EnactIncantations content (too_much_fun env))
    else env in
  (* Update chain for circular import errors. *)
  let import_chain := import_chain ++ [this_file_name] in
  text_ <- RemoveComments (SpanOf content) ;;
  let s := SpanOf text_ in
  statements <- Split s ";" ;;
  st <- statement_loop import_ depth import_chain statements (MkFileLoop [] [] [] env) ;;
  let env := fl_env st in
  (* Rewrites. *)
  rewritten <- DnfRewrite (JArray (fl_rules st)) ;;
  rewritten <- MultiBodyAggregationRewrite rewritten ;;
  rewritten <- RewriteAggregationsAsExpressions depth rewritten ;;
  rules <- as_array rewritten ;;
  (* Prefix. *)
  prefix <- compute_prefix this_file_name (parsed_imports env) ;;
  (* Rename predicates for non-main. *)
  rules <-
    (if negb (String.eqb this_file_name "main") then
       def <- DefinedPredicates rules ;;
       made <- MadePredicates rules ;;
       Ok (rename_defined (set_union def made) prefix rules)
     else Ok rules) ;;
  (* Apply imported predicate renames and checks. *)
  rules <- apply_imports (fl_imported_predicates st) (parsed_imports env)
             (fl_created st) rules ;;
  (* Main assembles all rules. *)
  rules <-
    (if String.eqb this_file_name "main" then
       defined <- DefinedPredicates rules ;;
       assemble (parsed_imports env) defined rules
     else Ok rules) ;;
  Ok (Obj [("rule", JArray rules);
           ("imported_predicates", JArray (fl_imported_predicates st));
           ("predicates_prefix", JString prefix);
           ("file_name", JString this_file_name)],
      env).

(** [ParseImport] and [ParseFileInternal] call each other; [depth] bounds
    the nesting of imports, too. *)
Fixpoint ParseFileInternal (depth : nat) (content : list ascii)
    (this_file_name : string) (env : Env) (import_chain : list string)
    {struct depth} : result (Json * Env) :=
  match depth with
  | 0 => OutOfFuel
  | S depth' =>
      ParseFileInternal_body (ParseImport (ParseFileInternal depth'))
        depth' content this_file_name env import_chain
  end.

(** [ParseFile]; the process starts with [TOO_MUCH == "too much"]. *)
Definition ParseFile (depth : nat) (content : list ascii) (file_name : string)
    : result Json :=
  '(parsed, _) <- ParseFileInternal depth content file_name (MkEnv [] [] false) [] ;;
  Ok parsed.

End Files.

(* ================================================================== *)
(** * Notions of the specification *)
(* ================================================================== *)

(** The span that [ParseNumber] examines: one trailing [u] dropped. *)
Definition drop_u (s : SpanString) : SpanString :=
  if ends_with s "u" then slice s 0 (size s - 1) else s.

(** The infinity sign in UTF-8: e2 88 9e. *)
Definition utf8_infinity : list ascii := map ascii_of_nat [226; 136; 158].

(** "The whole text parses as a finite floating-point value": [strtod]
    converts all of it, without a range error, to a finite number. *)
Definition parses_as_finite (text : list ascii) : bool :=
  strtod_accepts text
  && match strtod (c_str text) with
     | (_, _, FiniteNumber) => true
     | _ => false
     end.

Definition number_node (text : string) : Json := Obj [("number", JString text)].

(** ** The texts that [strtod] converts

    "[strtod] converts the whole text without a range error", in the
    words of the C standard (7.22.1.3): the text is white space, an
    optional sign and a subject sequence, which is a decimal floating
    constant, a hexadecimal one, [inf], [infinity], [nan] or
    [nan(n-char-sequence)], the letters in either case; and the value of
    a constant is no range error. *)

Definition all_chars (p : ascii -> bool) (l : list ascii) : Prop :=
  Forall (fun c => p c = true) l.

(** The text is [name], in either case of its letters. *)
Definition spells (name : string) (t : list ascii) : Prop :=
  map lower t = chars name.

(** What a subject sequence denotes: an infinity or a NaN, or the
    magnitude [num / den] of a constant written in [radix]. *)
Inductive FloatValue : Type :=
| SpecialValue
| FiniteValue (radix : Z) (magnitude : Z * Z).

Inductive sign_text : list ascii -> bool -> Prop :=
| sign_none : sign_text [] false
| sign_plus : sign_text ["+"%char] false
| sign_minus : sign_text ["-"%char] true.

(** An exponent part: nothing, or the marker, an optional sign and
    decimal digits. *)
Inductive exponent_text (marker : ascii) : list ascii -> Z -> Prop :=
| exponent_none : exponent_text marker [] 0%Z
| exponent_some c sg neg ds :
    lower c = marker -> sign_text sg neg -> ds <> [] -> all_chars isdigit ds ->
    exponent_text marker (c :: sg ++ ds)
      (if neg then (- digits_value 10 ds)%Z else digits_value 10 ds).

(** Digits with at most one radix point and at least one digit: the
    text, the digits before the point and those after it. *)
Inductive mantissa_text (digit : ascii -> bool)
    : list ascii -> list ascii -> list ascii -> Prop :=
| mantissa_whole ip :
    ip <> [] -> all_chars digit ip -> mantissa_text digit ip ip []
| mantissa_point ip fp :
    ip ++ fp <> [] -> all_chars digit ip -> all_chars digit fp ->
    mantissa_text digit (ip ++ "."%char :: fp) ip fp.

Inductive subject_sequence : list ascii -> FloatValue -> Prop :=
| subject_infinity t :
    spells "inf" t \/ spells "infinity" t -> subject_sequence t SpecialValue
| subject_nan t : spells "nan" t -> subject_sequence t SpecialValue
| subject_nan_chars t seq :
    spells "nan" t -> all_chars (fun x => isalnum x || ch x "_") seq ->
    subject_sequence (t ++ "("%char :: seq ++ [")"%char]) SpecialValue
| subject_decimal m ip fp ex e :
    mantissa_text isdigit m ip fp -> exponent_text "e" ex e ->
    subject_sequence (m ++ ex)
      (FiniteValue 10
         (scaled (digits_value 10 (ip ++ fp)) 10 (e - Z.of_nat (length fp))))
| subject_hexadecimal x0 m ip fp ex e :
    spells "0x" x0 -> mantissa_text isxdigit m ip fp -> exponent_text "p" ex e ->
    subject_sequence (x0 ++ m ++ ex)
      (FiniteValue 16
         (scaled (digits_value 16 (ip ++ fp)) 2 (e - 4 * Z.of_nat (length fp)))).

(** The C library reports a range error for the value. *)
Definition out_of_range_value (v : FloatValue) : bool :=
  match v with
  | SpecialValue => false
  | FiniteValue radix magnitude => range_error radix magnitude
  end.

Definition converts_whole (t : list ascii) : Prop :=
  exists ws sg neg body v,
    t = ws ++ sg ++ body
    /\ all_chars isspace ws
    /\ sign_text sg neg
    /\ subject_sequence body v
    /\ out_of_range_value v = false.

(** Does some object of the tree, at any depth, have the key [k]? *)
Fixpoint has_node (k : string) (j : Json) {struct j} : bool :=
  match j with
  | JObject o =>
      obj_count k o
      || (fix entries (o : list (string * Json)) : bool :=
            match o with
            | [] => false
            | (_, v) :: o' => has_node k v || entries o'
            end) o
  | JArray a =>
      (fix elements (a : list Json) : bool :=
         match a with
         | [] => false
         | v :: a' => has_node k v || elements a'
         end) a
  | _ => false
  end.

(** A proposition that [DnfRewrite] does not take apart. *)
Definition dnf_leaf (prop : Json) : Prop :=
  HasKey prop "conjunction" = false /\ HasKey prop "disjunction" = false.

(** A body in disjunctive normal form: one conjunction of leaves. *)
Definition conjunction_of_leaves (body : Json) : Prop :=
  exists conjuncts,
    body = Obj [("conjunction", Obj [("conjunct", JArray conjuncts)])]
    /\ Forall dnf_leaf conjuncts.

(** A span that [Strip] leaves alone. *)
Definition stripped (s : SpanString) : Prop :=
  StripSpaces s = s /\ peelable s = false.

(** The indices of the steps increase, starting at [lo] or later. *)
Fixpoint ascending (lo : nat) (steps : list TraverseStep) : Prop :=
  match steps with
  | [] => True
  | step :: steps' => lo <= idx step /\ ascending (S (idx step)) steps'
  end.

Definition split_example : SpanString := SpanOf (chars "a, (b, c) ,d").


(** The number of constructors of a JSON value. *)
Fixpoint json_size (j : Json) {struct j} : nat :=
  match j with
  | JArray a =>
      S ((fix sum (a : list Json) : nat :=
            match a with [] => 0 | v :: a' => json_size v + sum a' end) a)
  | JObject o =>
      S ((fix sum (o : list (string * Json)) : nat :=
            match o with [] => 0 | (_, v) :: o' => json_size v + sum o' end) o)
  | _ => 1
  end.

(** How [DnfRewrite] derives the rule [r] from the rule [rule]: a rule
    without a body stays; a rule with a body is emitted with a
    conjunction of leaves as its new body, everything else unchanged. *)
Definition dnf_rule_of (rule r : Json) : Prop :=
  (HasKey rule "body" = false /\ r = rule)
  \/ (exists conjuncts,
        Forall dnf_leaf conjuncts
        /\ set_key "body"
             (Obj [("conjunction", Obj [("conjunct", JArray conjuncts)])]) rule
           = Ok r).

(** The parsers, [depth] calls deep, outside the [TOO_MUCH] mode. *)
Definition parse_rule (depth : nat) (source : string) : result Json :=
  ParseRule false (ParseExpression false depth) (ParseProposition false depth)
    (SpanOf (chars source)).

Definition parse_proposition (depth : nat) (source : string) : result Json :=
  ParseProposition false depth (SpanOf (chars source)).

Definition parse_expression (depth : nat) (source : string) : result Json :=
  ParseExpression false depth (SpanOf (chars source)).

Definition value_of (r : result Json) : Json :=
  match r with Ok j => j | _ => JNull end.

(** A rule whose body negates a disjunction. *)
Definition negated_disjunction_rule : Json :=
  Eval vm_compute in value_of (parse_rule 10 "Q(x) :- ~(A(x) | B(x))").

Definition negated_disjunction_dnf : Json :=
  Eval vm_compute in
    value_of (r <- DnfRewrite (JArray [negated_disjunction_rule]) ;;
              a <- as_array r ;; array_at_0 a).

(** A rule whose body is a disjunction. *)
Definition disjunction_rule : Json :=
  Eval vm_compute in value_of (parse_rule 10 "Q(x) :- P(x) | R(x), S(x)").

(** The expression that [AggregationConvert] builds: a call of [p] on one
    positional argument, with its heritage. *)
Definition call_expression (p : string) (arg h : Json) : Json :=
  Obj [("call",
        Obj [("predicate_name", JString p);
             ("record", Obj [("field_value", JArray [
                Obj [("field", JInt 0); ("value", Obj [("expression", arg)])]])])]);
       ("expression_heritage", h)].

(** An aggregation object after the rewrite: no operator and no argument,
    and under ["expression"] a call of the mapped operator. *)
Definition converted_aggregation (a : JsonObject) : Prop :=
  obj_count "operator" a = false
  /\ obj_count "argument" a = false
  /\ exists op arg h,
       obj_find "expression" a = Some (call_expression (AggregationOperator op) arg h).

(** The value of an object entry is a converted slot, if it is an
    aggregation slot at all. *)
Definition slot_converted (v : Json) : Prop :=
  forall vo a,
    v = JObject vo -> obj_find "aggregation" vo = Some (JObject a) ->
    converted_aggregation a.

(** Every aggregation slot of the tree, at any depth, is converted. *)
Unset Elimination Schemes.
Inductive slots_converted : Json -> Prop :=
| sc_scalar j : is_container j = false -> slots_converted j
| sc_array a : Forall slots_converted a -> slots_converted (JArray a)
| sc_object o :
    Forall (fun kv => slot_converted (snd kv) /\ slots_converted (snd kv)) o ->
    slots_converted (JObject o).
Set Elimination Schemes.

(** [if (v.is_object() || v.is_array()) RewriteAggregationsInternal(v)] *)
Definition descend (depth : nat) (v : Json) : result Json :=
  if is_container v then RewriteAggregationsInternal depth v else Ok v.

(** A rule with an aggregated field in its head. *)
Definition aggregated_rule : Json :=
  Eval vm_compute in value_of (parse_rule 10 "Q(x, y? Max= z) distinct :- P(x, z)").

Definition aggregated_rule_rewritten : Json :=
  Eval vm_compute in
    value_of (RewriteAggregationsAsExpressions 30 (JArray [aggregated_rule])).

(** [j[k1][k2]...] along object keys and array indices. *)
Inductive PathStep : Type := Key (k : string) | Index (i : nat).

Fixpoint json_at (path : list PathStep) (j : Json) : option Json :=
  match path with
  | [] => Some j
  | Key k :: path' =>
      match j with
      | JObject o =>
          match obj_find k o with Some v => json_at path' v | None => None end
      | _ => None
      end
  | Index i :: path' =>
      match j with
      | JArray a =>
          match nth_error a i with Some v => json_at path' v | None => None end
      | _ => None
      end
  end.

(** Two files that import each other, and a library file. *)
Definition two_files : FileSystem := fun path =>
  if String.eqb path "a.l" then Some (chars "import b.Foo; Bar(x) :- Foo(x);")
  else if String.eqb path "b.l" then Some (chars "import a.Bar; Foo(x) :- Bar(x);")
  else if String.eqb path "lib/util.l" then Some (chars "Helper(x) :- x == 1;")
  else None.

Definition message_of {A} (r : result A) : option string :=
  match r with
  | Throw (ParsingException message _) => Some message
  | _ => None
  end.

(** ** Rule heads in the source text *)

(** The head of the rule [s], as [ParseRule] finds it: the text before
    [:-] with the denotations [couldbe], [cantbe], [shouldbe], [limit]
    and [order_by] taken off, one after the other. *)
Definition rule_head (PE : SpanString -> result Json) (s head : SpanString) : Prop :=
  exists parts d1 d2 d3 d4 d5,
    Split s ":-" = Ok parts /\ length parts <= 2
    /\ GrabDenotation PE (hd s parts) "couldbe" false = Ok d1
    /\ GrabDenotation PE (fst (fst d1)) "cantbe" false = Ok d2
    /\ GrabDenotation PE (fst (fst d2)) "shouldbe" false = Ok d3
    /\ GrabDenotation PE (fst (fst d3)) "limit" true = Ok d4
    /\ GrabDenotation PE (fst (fst d4)) "order_by" true = Ok d5
    /\ head = fst (fst d5).

(** The suffix [distinct] of a head: with the suffix, the head splits at
    [distinct] into [head_text] and nothing; without it, the head holds
    no [distinct] and is the [head_text]. *)
Definition distinct_suffix (head head_text : SpanString) (suffix : bool) : Prop :=
  exists head_distinct,
    Split head "distinct" = Ok head_distinct
    /\ if suffix
       then exists rest, head_distinct = [head_text; rest] /\ empty rest = true
       else length head_distinct = 1 /\ head_text = head.

(** The head text is a call, which ends where the first parenthesis
    that was opened is closed, and the text after the call. *)
Definition head_call (head_text call_str post_call_str : SpanString) : Prop :=
  exists i,
    HeadCall_scan head_text (Traverse head_text) false = Ok (true, i)
    /\ call_str = slice head_text 0 (i + 1)
    /\ post_call_str = slice_from head_text (i + 1).

(** The text after the call is an aggregating value [op = expr]: it
    splits at [=] into an operator, which is not empty, and an
    expression. *)
Definition aggregating_value (post_call_str op_str expr_str : SpanString) : Prop :=
  Split post_call_str "=" = Ok [op_str; expr_str] /\ empty op_str = false.

(** The text after the call is no aggregating value: it is empty, or it
    is a value [= expr] whose expression parses. *)
Definition plain_value (PE : SpanString -> result Json) (post_call_str : SpanString)
    : Prop :=
  (exists only, Split post_call_str "=" = Ok [only] /\ empty only = true)
  \/ (exists op_str expr_str e,
        Split post_call_str "=" = Ok [op_str; expr_str]
        /\ empty op_str = true /\ PE expr_str = Ok e).

(** A field of the record of the call holds an aggregation. *)
Definition has_aggregated_field (call : Json) : Prop :=
  exists fvs fv,
    field_values_of call = Ok fvs /\ In fv fvs /\ is_aggregated fv = Ok true.

(** The text of the call has an aggregated field [field ? op = expr]
    among its arguments: the arguments, split at the commas, hold a text
    that does not split at [:] and splits in two at [?]. *)
Definition aggregated_field_text (fun_mode : bool) (call_str : SpanString) : Prop :=
  exists predicate inner field_texts ft one field value,
    ParseGenericCall fun_mode call_str "(" ")" = Ok (Some (predicate, inner))
    /\ empty (Strip inner) = false
    /\ IsWhole (Strip inner) = true
    /\ Split (Strip inner) "," = Ok field_texts
    /\ In ft field_texts
    /\ starts_with ft ".." = false
    /\ SplitInOneOrTwo ft ":" = Ok (inl one)
    /\ SplitInOneOrTwo ft "?" = Ok (inr (field, value)).

(** The field that an aggregating value [op = expr] adds to the head. *)
Definition logica_value_aggregation (op : string) (argument : Json) (h : string) : Json :=
  JObject [("field", JString "logica_value");
           ("value", JObject [("aggregation",
              JObject [("argument", argument);
                       ("expression_heritage", JString h);
                       ("operator", JString op)])])].

(** A rule whose head has an aggregating value and no [distinct]. *)
Definition aggregating_value_rule : Json :=
  Eval vm_compute in value_of (parse_rule 10 "Q(x) += 1").

(** The tree of a negation, key by key: the predicate [IsNull] applied to
    a [Combine] that aggregates [Min] over the number [1], with the
    conjunction of the negated propositions as its body. *)
Definition negation_tree (full_text : string) (conjuncts : JsonArray) : Json :=
  let one :=
    JObject [("literal", JObject [("the_number", JObject [("number", JString "1")])])] in
  let min_of_one :=
    JObject [("argument", one);
             ("expression_heritage", JString full_text);
             ("operator", JString "Min")] in
  let head :=
    JObject [("predicate_name", JString "Combine");
             ("record", JObject [("field_value", JArray [
                JObject [("field", JString "logica_value");
                         ("value", JObject [("aggregation", min_of_one)])]])])] in
  let combine :=
    JObject [("body", JObject [("conjunction", JObject [("conjunct", JArray conjuncts)])]);
             ("distinct_denoted", JBool true);
             ("full_text", JString full_text);
             ("head", head)] in
  JObject [("predicate",
    JObject [("predicate_name", JString "IsNull");
             ("record", JObject [("field_value", JArray [
                JObject [("field", JInt 0);
                         ("value", JObject [("expression",
                            JObject [("combine", combine)])])]])])])].

(** The parse of the proposition [~P(x)] and of [P(x)]. *)
Definition negation_example : Json :=
  Eval vm_compute in value_of (parse_proposition 10 "~P(x)").

Definition negated_example : Json :=
  Eval vm_compute in value_of (parse_proposition 9 "P(x)").

(** The parse of the proposition [a ~ b]. *)
Definition binary_tilde_example : Json :=
  Eval vm_compute in value_of (parse_proposition 10 "a ~ b").

(** Where the constant [1] of a negation sits in its tree. *)
Definition path_to_one : list PathStep :=
  [Key "predicate"; Key "record"; Key "field_value"; Index 0; Key "value";
   Key "expression"; Key "combine"; Key "head"; Key "record"; Key "field_value";
   Index 0; Key "value"; Key "aggregation"; Key "argument"].

(** ** Blank source text *)

(** A text that consists of white space, semicolons and comments only: a
    comment is [#] up to the end of the line (or of the text), or
    [/* ... */]. *)
Inductive BlankMode : Type := InCode | InLineComment | InBlockComment.

Fixpoint blank_from (mode : BlankMode) (text : list ascii) {struct text} : bool :=
  match text with
  | [] => match mode with InBlockComment => false | _ => true end
  | c :: rest =>
      match mode with
      | InCode =>
          if isspace c || ch c ";" then blank_from InCode rest
          else if ch c "#" then blank_from InLineComment rest
          else if ch c "/" then
            match rest with
            | d :: rest' => ch d "*" && blank_from InBlockComment rest'
            | [] => false
            end
          else false
      | InLineComment =>
          if ch c "010" then blank_from InCode rest
          else blank_from InLineComment rest
      | InBlockComment =>
          if ch c "*" then
            match rest with
            | d :: rest' =>
                if ch d "/" then blank_from InCode rest'
                else blank_from InBlockComment rest
            | [] => false
            end
          else blank_from InBlockComment rest
      end
  end.

Definition blank (text : list ascii) : bool := blank_from InCode text.

(** The stack of the traverser in each mode. *)
Definition stack_of (mode : BlankMode) : list ascii :=
  match mode with
  | InCode => []
  | InLineComment => ["#"%char]
  | InBlockComment => ["/"%char]
  end.

(** A character that ends no statement and opens nothing: white space. A
    step on white space or on a semicolon, outside of everything. *)
Definition quiet_char (c : ascii) : bool := isspace c || ch c ";".

Definition quiet_step (full : list ascii) (step : TraverseStep) : Prop :=
  status step = OK /\ state step = []
  /\ idx step < length full
  /\ quiet_char (nth (idx step) full zero_char) = true.

(** The result of parsing a file without statements as [main]. *)
Definition empty_file_result : Json :=
  JObject [("file_name", JString "main");
           ("imported_predicates", JArray []);
           ("predicates_prefix", JString EmptyString);
           ("rule", JArray [])].

Definition blank_example : list ascii :=
  chars " ;  # a comment" ++ ["010"%char] ++ chars "/* another; one */ ;; # the end".

(** ** The depth that the aggregation rewrite needs *)

(** An aggregation slot, as the first loop of [RewriteAggregationsInternal]
    finds it: an object with an object under [aggregation]. *)
Definition is_slot (v : Json) : bool :=
  match v with
  | JObject vo =>
      match obj_find "aggregation" vo with
      | Some (JObject _) => true
      | _ => false
      end
  | _ => false
  end.

(** [AggregationConvert] puts the argument of a slot six levels deeper
    than it was. *)
Definition conversion_depth : nat := 6.

(** The depth of a value, counting for every slot the levels that its
    conversion adds. *)
Fixpoint rewrite_depth (j : Json) {struct j} : nat :=
  match j with
  | JArray a =>
      S ((fix deepest (a : list Json) : nat :=
            match a with
            | [] => 0
            | v :: a' => Nat.max (rewrite_depth v) (deepest a')
            end) a)
  | JObject o =>
      S ((fix deepest (o : list (string * Json)) : nat :=
            match o with
            | [] => 0
            | (_, v) :: o' =>
                Nat.max (rewrite_depth v + (if is_slot v then conversion_depth else 0))
                        (deepest o')
            end) o)
  | _ => 0
  end.

(** The depth of the value of an object entry. *)
Definition slot_depth (v : Json) : nat :=
  rewrite_depth v + (if is_slot v then conversion_depth else 0).

Definition deepest_entry (o : JsonObject) : nat :=
  list_max (map (fun kv => slot_depth (snd kv)) o).

(** The aggregation object of a slot has what [AggregationConvert] reads:
    a string under [operator], an [argument] and an
    [expression_heritage]. *)
Definition slot_complete (v : Json) : bool :=
  match v with
  | JObject vo =>
      match obj_find "aggregation" vo with
      | Some (JObject a) =>
          match AggregationConvert (JObject a) with
          | Ok _ => true
          | _ => false
          end
      | _ => true
      end
  | _ => true
  end.

(** Every slot of the tree, at any depth, is complete. *)
Fixpoint slots_complete (j : Json) {struct j} : bool :=
  match j with
  | JArray a =>
      (fix all (a : list Json) : bool :=
         match a with
         | [] => true
         | v :: a' => slots_complete v && all a'
         end) a
  | JObject o =>
      (fix all (o : list (string * Json)) : bool :=
         match o with
         | [] => true
         | (_, v) :: o' => slot_complete v && slots_complete v && all o'
         end) o
  | _ => true
  end.

Definition entry_complete (kv : string * Json) : bool :=
  slot_complete (snd kv) && slots_complete (snd kv).

(** ** What the aggregation rewrite makes of a tree *)

(** The conversion of the value [v] of an object entry: an aggregation
    slot whose aggregation object holds the operator [op], the argument
    [arg] and the heritage [h] becomes the slot whose aggregation object
    has lost [operator] and [argument] and holds under [expression] the
    call of the mapped operator on [arg], with the heritage [h]; a value
    that is no slot stays as it is. *)
Definition slot_conversion (v v1 : Json) : Prop :=
  (is_slot v = false /\ v1 = v)
  \/ (exists vo a op arg h,
        v = JObject vo
        /\ obj_find "aggregation" vo = Some (JObject a)
        /\ obj_find "operator" a = Some (JString op)
        /\ obj_find "argument" a = Some arg
        /\ obj_find "expression_heritage" a = Some h
        /\ v1 = JObject (obj_set "aggregation"
                   (JObject (obj_set "expression"
                               (call_expression (AggregationOperator op) arg h)
                               (obj_erase "argument" (obj_erase "operator" a))))
                   vo)).

(** [out] is the tree [node] with every aggregation slot converted, at
    any depth: a scalar stays; an array is rewritten element by element;
    an object keeps its keys, and the value of every entry is converted
    and then rewritten inside, so that slots in the argument of a slot
    are converted in the argument of the call. *)
Unset Elimination Schemes.
Inductive aggregation_rewrite : Json -> Json -> Prop :=
| rewrite_scalar j : is_container j = false -> aggregation_rewrite j j
| rewrite_array a a' :
    Forall2 aggregation_rewrite a a' ->
    aggregation_rewrite (JArray a) (JArray a')
| rewrite_object o o' :
    Forall2 (fun kv kv' =>
               fst kv' = fst kv
               /\ exists v1, slot_conversion (snd kv) v1
                             /\ aggregation_rewrite v1 (snd kv')) o o' ->
    aggregation_rewrite (JObject o) (JObject o').
Set Elimination Schemes.

(** ** Files that import each other *)

(** Where [ParseImport] looks for the file of an import. *)
Definition search_roots (import_root : list string) : list string :=
  if null import_root then [EmptyString] else import_root.

Definition import_path (file_import_str : string) : string :=
  (text (join ["/"%char] (getline_all "." (chars file_import_str) [])) ++ ".l")%string.

(** The file that an import statement names. *)
Definition imported_file (stmt : SpanString) : option string :=
  if starts_with stmt "import " then
    match SplitImport (view (slice_from stmt (length (chars "import ")))) with
    | Ok (file_import_str, _, _) => Some file_import_str
    | _ => None
    end
  else None.

(** The file that the first statement of a source text imports, if its
    first statement is an import. *)
Definition first_import (content : list ascii) : option string :=
  match (text_ <- RemoveComments (SpanOf content) ;; Split (SpanOf text_) ";") with
  | Ok statements =>
      match List.find (fun st => negb (empty st)) statements with
      | Some stmt => imported_file stmt
      | None => None
      end
  | _ => None
  end.

(** ** The trees of expressions and propositions

    The shapes of the nodes that the parser builds, with the heritage of
    every expression node.  [source] is the source text. *)

Section SyntaxTree.

Variable source : list ascii.

(** A text of the source, not empty. *)
Definition source_text (t : string) : Prop :=
  t <> EmptyString /\ exists before after, source = before ++ chars t ++ after.

(** A span over a piece of the source. *)
Definition source_span (p : SpanString) : Prop :=
  wf p /\ exists before after, source = before ++ heritage p ++ after.

(** The object [{key: v}] together with the heritage [t]. *)
Definition with_heritage (key : string) (v : Json) (t : string) : Json :=
  JObject (obj_set "expression_heritage" (JString t) [(key, v)]).

(** The four kinds of expression nodes that desugaring builds without a
    heritage: the symbol of a subscript, the constant [1] and the
    [combine] of a negation, and the inner calls of a subscript of an
    array with several indices. *)
Definition symbol_literal (name : string) : Json :=
  JObject [("literal", JObject [("the_symbol", JObject [("symbol", JString name)])])].

Definition constant_one : Json :=
  JObject [("literal", JObject [("the_number", JObject [("number", JString "1")])])].

Definition bare_combine (combine : Json) : Json := JObject [("combine", combine)].

Definition bare_call (call : Json) : Json := JObject [("call", call)].

(** The head of a [combine]: the predicate [Combine] with the
    aggregation of [argument] by [operator] as its value. *)
Definition combine_head (operator : string) (argument : Json) (full_text : string)
    : Json :=
  JObject [("predicate_name", JString "Combine");
           ("record", JObject [("field_value", JArray [
              JObject [("field", JString "logica_value");
                       ("value", JObject [("aggregation",
                          JObject [("argument", argument);
                                   ("expression_heritage", JString full_text);
                                   ("operator", JString operator)])])]])])].

Definition conjunction_of (conjuncts : JsonArray) : Json :=
  JObject [("conjunction", JObject [("conjunct", JArray conjuncts)])].

(** A [combine] without and with a body. *)
Definition combine_tree (operator : string) (argument : Json) (full_text : string)
    (body : option JsonArray) : Json :=
  match body with
  | None =>
      JObject [("distinct_denoted", JBool true);
               ("full_text", JString full_text);
               ("head", combine_head operator argument full_text)]
  | Some conjuncts =>
      JObject [("body", conjunction_of conjuncts);
               ("distinct_denoted", JBool true);
               ("full_text", JString full_text);
               ("head", combine_head operator argument full_text)]
  end.

(** The call that a negation stands for: [IsNull] of the [combine] that
    takes the minimum of [1] over the negated propositions. *)
Definition negation_call (full_text : string) (conjuncts : JsonArray) : Json :=
  JObject [("predicate_name", JString "IsNull");
           ("record", JObject [("field_value", JArray [
              JObject [("field", JInt 0);
                       ("value", JObject [("expression",
                          bare_combine
                            (combine_tree "Min" constant_one full_text
                               (Some conjuncts)))])]])])].

(** The call [Element(array, index)]. *)
Definition element_call (array index : Json) : Json :=
  JObject [("predicate_name", JString "Element");
           ("record", JObject [("field_value", JArray [
              JObject [("field", JInt 0); ("value", JObject [("expression", array)])];
              JObject [("field", JInt 1); ("value", JObject [("expression", index)])]])])].

Unset Elimination Schemes.
Inductive expression : Json -> Prop :=
| expression_node key v t :
    expression_body key v -> source_text t -> expression (with_heritage key v t)

with expression_body : string -> Json -> Prop :=
| body_literal l : literal l -> expression_body "literal" l
| body_variable name :
    expression_body "variable" (JObject [("var_name", JString name)])
| body_record r : record r -> expression_body "record" r
| body_call c : call c -> expression_body "call" c
| body_combine c : combine c -> expression_body "combine" c
| body_implication if_thens otherwise :
    Forall if_then if_thens -> expression otherwise ->
    expression_body "implication"
      (JObject [("if_then", JArray if_thens); ("otherwise", otherwise)])
| body_subscript r name :
    expression r ->
    expression_body "subscript"
      (JObject [("record", r); ("subscript", symbol_literal name)])

with literal : Json -> Prop :=
| literal_number n :
    literal (JObject [("the_number", JObject [("number", JString n)])])
| literal_string v :
    literal (JObject [("the_string", JObject [("the_string", JString v)])])
| literal_list elements :
    Forall expression elements ->
    literal (JObject [("the_list", JObject [("element", JArray elements)])])
| literal_bool b :
    literal (JObject [("the_bool", JObject [("the_bool", JString b)])])
| literal_null v :
    literal (JObject [("the_null", JObject [("the_null", JString v)])])
| literal_predicate name :
    literal (JObject [("the_predicate", JObject [("predicate_name", JString name)])])

with if_then : Json -> Prop :=
| if_then_node condition consequence :
    expression condition -> expression consequence ->
    if_then (JObject [("condition", condition); ("consequence", consequence)])

with record : Json -> Prop :=
| record_node field_values :
    Forall field_value field_values ->
    record (JObject [("field_value", JArray field_values)])

with field_value : Json -> Prop :=
| field_positional i e :
    expression e ->
    field_value (JObject [("field", JInt i); ("value", JObject [("expression", e)])])
| field_named name e :
    expression e ->
    field_value (JObject [("field", JString name);
                          ("value", JObject [("expression", e)])])
| field_rest_except names e :
    expression e ->
    field_value (JObject [("except", JArray (map JString names));
                          ("field", JString "*");
                          ("value", JObject [("expression", e)])])
| field_aggregated name operator argument h :
    expression argument ->
    field_value (JObject [("field", JString name);
                          ("value", JObject [("aggregation",
                             JObject [("argument", argument);
                                      ("expression_heritage", JString h);
                                      ("operator", JString operator)])])])

with call : Json -> Prop :=
| call_plain name r :
    record r -> call (JObject [("predicate_name", JString name); ("record", r)])
| call_negation full_text conjuncts :
    Forall proposition conjuncts -> call (negation_call full_text conjuncts)
| call_element c : element c -> call c

with element : Json -> Prop :=
| element_first array index :
    expression array -> expression index -> element (element_call array index)
| element_next c index :
    element c -> expression index -> element (element_call (bare_call c) index)

with combine : Json -> Prop :=
| combine_value operator argument full_text :
    expression argument -> combine (combine_tree operator argument full_text None)
| combine_body operator argument full_text conjuncts :
    expression argument -> Forall proposition conjuncts ->
    combine (combine_tree operator argument full_text (Some conjuncts))

with proposition : Json -> Prop :=
| proposition_disjunction disjuncts :
    Forall proposition disjuncts ->
    proposition (JObject [("disjunction", JObject [("disjunct", JArray disjuncts)])])
| proposition_conjunction conjuncts :
    Forall proposition conjuncts -> proposition (conjunction_of conjuncts)
| proposition_predicate c : call c -> proposition (JObject [("predicate", c)])
| proposition_unification lhs rhs :
    expression lhs -> expression rhs ->
    proposition (JObject [("unification",
                   JObject [("left_hand_side", lhs); ("right_hand_side", rhs)])])
| proposition_inclusion lst elt :
    expression lst -> expression elt ->
    proposition (JObject [("inclusion", JObject [("element", elt); ("list", lst)])]).
Set Elimination Schemes.

End SyntaxTree.

(* ================================================================== *)
(** * The rest of the program *)
(* ================================================================== *)

(** ** [SpanString::Pieces] *)

(** [std::string::substr(pos, n)] throws [std::out_of_range] for a [pos]
    behind the end. *)
Definition string_substr (v : list ascii) (pos : nat) (n : option nat)
    : result (list ascii) :=
  if length v <? pos then Throw out_of_range
  else Ok (match n with
           | Some n => firstn n (skipn pos v)
           | None => skipn pos v
           end).

Definition Pieces (s : SpanString)
    : result (list ascii * list ascii * list ascii) :=
  before <- string_substr (heritage s) 0 (Some (start s)) ;;
  mid <- string_substr (heritage s) (start s) (Some (stop s - start s)) ;;
  after <- string_substr (heritage s) (stop s) None ;;
  Ok (before, mid, after).

(** ** Reading back what [Json::Escape] writes *)

(** The value of a hexadecimal digit that [Escape] writes. *)
Definition hex_value (h : ascii) : nat :=
  if isdigit h then code h - 48 else code h - 87.

(** The first character that an escaped text stands for, and the rest of
    the text. *)
Definition unescape_char (l : list ascii) : option (ascii * list ascii) :=
  match l with
  | [] => None
  | c :: r =>
      if ch c "\" then
        match r with
        | x :: r' =>
            if ch x "\" then Some ("\"%char, r')
            else if ch x dquote then Some (dquote, r')
            else if ch x "n" then Some ("010"%char, r')
            else if ch x "r" then Some ("013"%char, r')
            else if ch x "t" then Some ("009"%char, r')
            else
              match r' with
              | _ :: _ :: h1 :: h2 :: r'' =>
                  Some (ascii_of_nat (16 * hex_value h1 + hex_value h2), r'')
              | _ => None
              end
        | [] => None
        end
      else Some (c, r)
  end.

(** ** Texts and what the traverser makes of them *)

(** [a] is [l] with characters left out. *)
Inductive subsequence : list ascii -> list ascii -> Prop :=
| sub_nil l : subsequence [] l
| sub_keep c a l : subsequence a l -> subsequence (c :: a) (c :: l)
| sub_drop c a l : subsequence a l -> subsequence a (c :: l).

(** A character that opens and closes nothing: no comment sign, no quote,
    no bracket. *)
Definition plain_char (c : ascii) : bool :=
  negb (ch c "#" || ch c dquote || ch c "'" || ch c "`" || ch c "/"
        || ch c "(" || ch c ")" || ch c "{" || ch c "}" || ch c "[" || ch c "]").

Definition plain (v : list ascii) : bool := forallb plain_char v.

(** ** Spans inside spans *)

(** [p] is a part of the heritage of [s], within the range of [s]. *)
Definition within (p s : SpanString) : Prop :=
  heritage p = heritage s /\ start s <= start p /\ stop p <= stop s.

(** ** Trees without aggregation *)

(** No value of an object entry, at any depth, is an aggregation slot. *)
Fixpoint slot_free (j : Json) {struct j} : bool :=
  match j with
  | JArray a =>
      (fix all (a : list Json) : bool :=
         match a with
         | [] => true
         | v :: a' => slot_free v && all a'
         end) a
  | JObject o =>
      (fix all (o : list (string * Json)) : bool :=
         match o with
         | [] => true
         | (_, v) :: o' => negb (is_slot v) && slot_free v && all o'
         end) o
  | _ => true
  end.

(** ** [RenamePredicate], entry by entry *)

(** What [RenamePredicate] does with the value [v] of the entry [k] of an
    object, and how many names it has renamed there. *)
Definition rename_value (old_name new_name : string) (k : string) (v : Json)
    : Json * nat :=
  if is_container v then RenamePredicate v old_name new_name
  else
    match v with
    | JString name =>
        if (String.eqb k "predicate_name" || String.eqb k "field")
           && String.eqb name old_name
        then (JString new_name, 1) else (v, 0)
    | _ => (v, 0)
    end.

(** The same for an element of an array. *)
Definition rename_element (old_name new_name : string) (v : Json) : Json * nat :=
  if is_container v then RenamePredicate v old_name new_name else (v, 0).

(** ** The result of a file *)

(** [j] is the result of parsing the file [name]: its four entries. *)
Definition file_result (name : string) (j : Json) : Prop :=
  exists rules imported_predicates prefix,
    j = Obj [("rule", JArray rules);
             ("imported_predicates", JArray imported_predicates);
             ("predicates_prefix", JString prefix);
             ("file_name", JString name)].

(** ** [SplitLogicapath] *)

(** The loop [while (start <= s.size())]: every round moves [start] past
    the next colon, so [rounds] above the size of [s] is never used up. *)
Fixpoint SplitLogicapath_loop (rounds : nat) (s : list ascii) (start : nat)
    (roots : list string) : list string :=
  match rounds with
  | 0 => roots
  | S rounds' =>
      if length s <? start then roots
      else
        let pos := match find_from [":"%char] s start with
                   | Some pos => pos
                   | None => length s
                   end in
        let part := substr s start (pos - start) in
        SplitLogicapath_loop rounds' s (pos + 1)
          (if null part then roots else roots ++ [text part])
  end.

(** [lp] is [None] for the null pointer. *)
Definition SplitLogicapath (lp : option (list ascii)) : list string :=
  match lp with
  | None => []
  | Some s => SplitLogicapath_loop (S (length s)) s 0 []
  end.


(* ================================================================== *)
(** * Properties *)
(* ================================================================== *)

(** ** Results and JSON values *)

Lemma bind_Ok {A B} (c : result A) (k : A -> result B) (b : B) :
  bind c k = Ok b -> exists a, c = Ok a /\ k a = Ok b.
Proof. destruct c; simpl; intros H; try discriminate. eauto. Qed.

Lemma bind_Throw {A B} (c : result A) (k : A -> result B) (e : exn) :
  bind c k = Throw e -> c = Throw e \/ exists a, c = Ok a /\ k a = Throw e.
Proof. destruct c; simpl; intros H; try discriminate; [eauto|left; congruence]. Qed.

(** Every value of the character [c]. *)
Ltac each_ascii c :=
  destruct c as [[] [] [] [] [] [] [] []].

(** Take the leading [bind] of hypothesis [H] apart. *)
Ltac bind_inv H :=
  let x := fresh "x" in
  let Hx := fresh "Hx" in
  apply bind_Ok in H; destruct H as (x & Hx & H).

Lemma mapM_Ok {A B} (f : A -> result B) l ys :
  mapM f l = Ok ys -> Forall2 (fun x y => f x = Ok y) l ys.
Proof.
  revert ys. induction l as [|x l IH]; simpl; intros ys H.
  - inversion H. constructor.
  - bind_inv H. bind_inv H. inversion H; subst. constructor; auto.
Qed.

Lemma mapM_length {A B} (f : A -> result B) l ys :
  mapM f l = Ok ys -> length ys = length l.
Proof. intros H. apply mapM_Ok in H. symmetry. eapply Forall2_length; eauto. Qed.

Lemma obj_find_set_same k v o : obj_find k (obj_set k v o) = Some v.
Proof.
  induction o as [|[k' v'] o IH]; simpl.
  - rewrite String.eqb_refl. reflexivity.
  - destruct (String.eqb k k') eqn:E; simpl.
    + rewrite String.eqb_refl. reflexivity.
    + destruct (String.ltb k k'); simpl.
      * rewrite String.eqb_refl. reflexivity.
      * rewrite E. exact IH.
Qed.

Lemma obj_find_set_other k k' v o :
  k <> k' -> obj_find k' (obj_set k v o) = obj_find k' o.
Proof.
  intros Hne.
  assert (Hkk : String.eqb k' k = false) by (apply String.eqb_neq; congruence).
  induction o as [|[k1 v1] o IH]; simpl.
  - rewrite Hkk. reflexivity.
  - destruct (String.eqb k k1) eqn:E; simpl.
    + apply String.eqb_eq in E. subst k1. rewrite Hkk. reflexivity.
    + destruct (String.ltb k k1); simpl.
      * rewrite Hkk. reflexivity.
      * destruct (String.eqb k' k1); [reflexivity|exact IH].
Qed.

Lemma obj_find_erase_other k k' o :
  k <> k' -> obj_find k' (obj_erase k o) = obj_find k' o.
Proof.
  intros Hne. induction o as [|[k1 v1] o IH]; simpl; [reflexivity|].
  destruct (String.eqb k k1) eqn:E; simpl.
  - apply String.eqb_eq in E. subst k1.
    destruct (String.eqb k' k) eqn:E'; [|exact IH].
    apply String.eqb_eq in E'. congruence.
  - destruct (String.eqb k' k1); [reflexivity|exact IH].
Qed.

Lemma obj_find_erase_same k o : obj_find k (obj_erase k o) = None.
Proof.
  induction o as [|[k1 v1] o IH]; simpl; [reflexivity|].
  destruct (String.eqb k k1) eqn:E; simpl; [exact IH|].
  rewrite E. exact IH.
Qed.

Lemma obj_count_set_same k v o : obj_count k (obj_set k v o) = true.
Proof. unfold obj_count. rewrite obj_find_set_same. reflexivity. Qed.

Lemma at_key_set_key k v j j' :
  set_key k v j = Ok j' -> at_key k j' = Ok v /\ HasKey j' k = true.
Proof.
  unfold set_key, at_key. destruct j; simpl; try discriminate.
  intros H. inversion H; subst. simpl. unfold obj_at, obj_count.
  rewrite obj_find_set_same. auto.
Qed.



(** ** Spans *)

Lemma Span_exact h a b :
  a <= b -> b <= length h -> Span h a b = MkSpan h a b.
Proof.
  intros Hab Hb. unfold Span.
  destruct (Nat.ltb_spec (length h) b); [lia|].
  destruct (Nat.ltb_spec b a); [lia|]. reflexivity.
Qed.

Lemma Span_wf h a b : wf (Span h a b).
Proof.
  unfold wf, Span; simpl.
  destruct (Nat.ltb_spec (length h) b);
    match goal with |- context [?x <? ?y] => destruct (Nat.ltb_spec x y) end; lia.
Qed.

Lemma slice_wf s a b : wf (slice s a b).
Proof. apply Span_wf. Qed.

Lemma Span_heritage h a b : heritage (Span h a b) = h.
Proof. reflexivity. Qed.

Lemma Span_size_le h a b : size (Span h a b) <= b - a.
Proof.
  unfold size, Span; simpl.
  destruct (Nat.ltb_spec (length h) b);
    match goal with |- context [?x <? ?y] => destruct (Nat.ltb_spec x y) end; lia.
Qed.

Lemma view_length_le s : length (view s) <= size s.
Proof. unfold view, size. rewrite length_firstn. lia. Qed.

Lemma view_length_wf s : wf s -> length (view s) = size s.
Proof.
  intros [H1 H2]. unfold view, size.
  rewrite length_firstn, length_skipn. lia.
Qed.

Lemma view_nonempty_start s : view s <> [] -> start s < length (heritage s).
Proof.
  unfold view. intros H.
  destruct (Nat.lt_ge_cases (start s) (length (heritage s))) as [|Hge]; [assumption|].
  rewrite skipn_all2 in H by assumption. rewrite firstn_nil in H. congruence.
Qed.

(** The view of a sub-span that lies inside the view. *)
Lemma view_MkSpan_sub s a b :
  a <= b -> b <= length (view s) ->
  view (MkSpan (heritage s) (start s + a) (start s + b))
  = firstn (b - a) (skipn a (view s)).
Proof.
  intros Hab Hb. unfold view in *; simpl.
  replace (start s + b - (start s + a)) with (b - a) by lia.
  rewrite skipn_firstn_comm, firstn_firstn, skipn_skipn.
  rewrite length_firstn, length_skipn in Hb.
  replace (Nat.min (b - a) (stop s - start s - a)) with (b - a) by lia.
  f_equal. f_equal. lia.
Qed.

Lemma slice_exact s a b :
  start s <= length (heritage s) ->
  a <= b -> b <= length (view s) ->
  slice s a b = MkSpan (heritage s) (start s + a) (start s + b).
Proof.
  intros Hs Hab Hb. unfold slice. apply Span_exact; [lia|].
  unfold view in Hb. rewrite length_firstn, length_skipn in Hb. lia.
Qed.

Lemma wf_start s : wf s -> start s <= length (heritage s).
Proof. unfold wf. lia. Qed.

Lemma view_slice s a b :
  start s <= length (heritage s) ->
  a <= b -> b <= length (view s) ->
  view (slice s a b) = firstn (b - a) (skipn a (view s)).
Proof.
  intros. rewrite slice_exact by assumption. apply view_MkSpan_sub; assumption.
Qed.

Lemma view_slice_full s : wf s -> view (slice s 0 (size s)) = view s.
Proof.
  intros Hwf. rewrite view_slice; rewrite ?view_length_wf by assumption;
    try lia; [|apply wf_start; assumption].
  rewrite Nat.sub_0_r. simpl. rewrite <- view_length_wf by assumption.
  apply firstn_all.
Qed.

Lemma view_SpanOf l : view (SpanOf l) = l.
Proof. unfold view, SpanOf; simpl. rewrite Nat.sub_0_r. apply firstn_all. Qed.

Lemma SpanOf_wf l : wf (SpanOf l).
Proof. unfold wf, SpanOf; simpl. lia. Qed.

Lemma at_view s i : i < length (view s) -> at_ s i = nth i (view s) zero_char.
Proof.
  intros Hi. unfold at_, view in *.
  rewrite length_firstn, length_skipn in Hi.
  rewrite nth_firstn. destruct (Nat.ltb_spec i (stop s - start s)); [|lia].
  rewrite nth_skipn. reflexivity.
Qed.


(** ** [StripSpaces] and [Strip] *)

Lemma skip_left_shift v n : skip_left v n = n + skip_left v 0.
Proof.
  revert n. induction v as [|c v IH]; intros n; simpl; [lia|].
  destruct (isspace c); [|lia].
  rewrite (IH (S n)), (IH 1). lia.
Qed.

Lemma skip_left_le v : skip_left v 0 <= length v.
Proof.
  induction v as [|c v IH]; simpl; [lia|].
  destruct (isspace c); [|lia]. rewrite skip_left_shift. lia.
Qed.

Lemma skip_left_stop v :
  skip_left v 0 < length v -> isspace (nth (skip_left v 0) v zero_char) = false.
Proof.
  induction v as [|c v IH]; simpl; [lia|].
  destruct (isspace c) eqn:E; [|intros _; exact E].
  rewrite skip_left_shift. simpl. intros H. apply IH. lia.
Qed.

Lemma skip_left_none v :
  isspace (nth 0 v zero_char) = false -> skip_left v 0 = 0.
Proof. destruct v as [|c v]; simpl; [reflexivity|]. intros ->. reflexivity. Qed.

Lemma skip_right_small v l r : r <= l -> skip_right v l r = r.
Proof.
  destruct r as [|r]; simpl; [reflexivity|]. intros H.
  destruct (Nat.ltb_spec l (S r)); [lia|]. reflexivity.
Qed.

Lemma skip_right_bounds v l r : l <= r -> l <= skip_right v l r <= r.
Proof.
  induction r as [|r IH]; simpl; [lia|]. intros H.
  destruct (Nat.ltb_spec l (S r)); simpl; [|lia].
  destruct (isspace (nth (S r) v zero_char)); [|lia].
  assert (l <= r) by lia. specialize (IH H1). lia.
Qed.

Lemma skip_right_stop v l r :
  l < skip_right v l r -> isspace (nth (skip_right v l r) v zero_char) = false.
Proof.
  induction r as [|r IH]; simpl; [lia|].
  destruct (Nat.ltb_spec l (S r)); simpl; [|lia].
  destruct (isspace (nth (S r) v zero_char)) eqn:E; [exact IH|].
  intros _. exact E.
Qed.

Lemma skip_right_keep v l r :
  isspace (nth r v zero_char) = false -> skip_right v l r = r.
Proof.
  destruct r as [|r]; simpl; [reflexivity|]. intros ->.
  rewrite andb_false_r. reflexivity.
Qed.

Lemma null_nil {A} (l : list A) : null l = true <-> l = [].
Proof. destruct l; simpl; split; congruence. Qed.

(** What [StripSpaces] returns, by cases on the view. *)
Lemma StripSpaces_empty_view s :
  view s = [] -> StripSpaces s = Span (heritage s) (start s) (start s).
Proof.
  intros H. unfold StripSpaces. rewrite H. simpl. unfold slice.
  rewrite Nat.add_0_r. reflexivity.
Qed.

Lemma StripSpaces_nonempty_view s :
  view s <> [] ->
  let left := skip_left (view s) 0 in
  let right := skip_right (view s) left (length (view s) - 1) in
  StripSpaces s = MkSpan (heritage s) (start s + left) (start s + (right + 1))
  /\ left <= right + 1 /\ right + 1 <= length (view s).
Proof.
  intros Hne left right.
  assert (Hlen : 0 < length (view s)) by (destruct (view s); simpl; [congruence|lia]).
  assert (Hl : left <= length (view s)) by apply skip_left_le.
  assert (Hr : left <= right + 1 /\ right + 1 <= length (view s)).
  { subst right. destruct (Nat.le_gt_cases left (length (view s) - 1)) as [Hle|Hgt].
    - pose proof (skip_right_bounds (view s) left _ Hle). lia.
    - rewrite skip_right_small by lia. lia. }
  split; [|exact Hr].
  unfold StripSpaces. cbv zeta.
  destruct (null (view s)) eqn:En; [apply null_nil in En; congruence|].
  fold left. fold right.
  apply slice_exact; try lia.
  apply Nat.lt_le_incl, view_nonempty_start. exact Hne.
Qed.

Lemma StripSpaces_size_le s : size (StripSpaces s) <= size s.
Proof.
  destruct (view s) eqn:E.
  - rewrite StripSpaces_empty_view by assumption.
    pose proof (Span_size_le (heritage s) (start s) (start s)). lia.
  - assert (Hne : view s <> []) by (rewrite E; discriminate).
    destruct (StripSpaces_nonempty_view s Hne) as (-> & H1 & H2).
    pose proof (view_length_le s). unfold size in *. simpl. lia.
Qed.

Lemma StripSpaces_wf s : wf (StripSpaces s).
Proof.
  unfold StripSpaces. destruct (null (view s)); apply slice_wf.
Qed.

Lemma StripSpaces_idempotent s : StripSpaces (StripSpaces s) = StripSpaces s.
Proof.
  destruct (view s) eqn:E.
  - rewrite (StripSpaces_empty_view s E).
    set (r := Span (heritage s) (start s) (start s)).
    assert (Hr : wf r) by apply Span_wf.
    assert (Hsz : size r = 0).
    { pose proof (Span_size_le (heritage s) (start s) (start s)). fold r in H. lia. }
    assert (Hv : view r = []).
    { pose proof (view_length_le r). destruct (view r); simpl in *; [reflexivity|lia]. }
    rewrite (StripSpaces_empty_view r Hv).
    destruct Hr as [Hr1 Hr2]. unfold size in Hsz.
    rewrite Span_exact by lia.
    destruct r as [h a b]; simpl in *. f_equal. lia.
  - assert (Hne : view s <> []) by (rewrite E; discriminate).
    destruct (StripSpaces_nonempty_view s Hne) as (Heq & H1 & H2).
    set (left := skip_left (view s) 0) in *.
    set (right := skip_right (view s) left (length (view s) - 1)) in *.
    rewrite Heq.
    set (r := MkSpan (heritage s) (start s + left) (start s + (right + 1))).
    assert (Hv : view r = firstn (right + 1 - left) (skipn left (view s))).
    { apply view_MkSpan_sub; assumption. }
    destruct (Nat.eq_dec left (right + 1)) as [Heq1|Hneq1].
    + (* only spaces *)
      assert (Hv0 : view r = []) by (rewrite Hv, Heq1, Nat.sub_diag; reflexivity).
      rewrite (StripSpaces_empty_view r Hv0). simpl.
      pose proof (view_nonempty_start s Hne).
      assert (Hb : start s + left <= length (heritage s)).
      { pose proof (view_length_le s). unfold view in H2.
        rewrite length_firstn, length_skipn in H2. lia. }
      rewrite Span_exact by lia. unfold r. f_equal. lia.
    + assert (Hlt : left < length (view s)) by lia.
      assert (Hlen : length (view r) = right + 1 - left).
      { rewrite Hv, length_firstn, length_skipn. lia. }
      assert (Hnth : forall i, i < right + 1 - left ->
                nth i (view r) zero_char = nth (left + i) (view s) zero_char).
      { intros i Hi. rewrite Hv, nth_firstn.
        destruct (Nat.ltb_spec i (right + 1 - left)); [|lia].
        apply nth_skipn. }
      assert (Hne' : view r <> []).
      { intros Hc. rewrite Hc in Hlen. simpl in Hlen. lia. }
      destruct (StripSpaces_nonempty_view r Hne') as (Heq' & _ & _).
      rewrite Heq'. clear Heq'.
      assert (Hleft' : skip_left (view r) 0 = 0).
      { apply skip_left_none. rewrite Hnth by lia. rewrite Nat.add_0_r.
        apply skip_left_stop. exact Hlt. }
      rewrite Hleft', Hlen.
      assert (Hright' : skip_right (view r) 0 (right + 1 - left - 1) = right - left).
      { replace (right + 1 - left - 1) with (right - left) by lia.
        destruct (Nat.eq_dec right left) as [->|Hrl].
        - rewrite Nat.sub_diag. reflexivity.
        - apply skip_right_keep. rewrite Hnth by lia.
          replace (left + (right - left)) with right by lia.
          apply skip_right_stop. fold right. lia. }
      rewrite Hright'. unfold r. simpl. f_equal; lia.
Qed.

Lemma peelable_size s : peelable s = true -> 2 <= size s.
Proof.
  unfold peelable. intros H.
  destruct (Nat.leb_spec 2 (size s)); [assumption|discriminate].
Qed.

Lemma Strip_loop_stripped n s :
  size (StripSpaces s) <= n -> stripped (Strip_loop n s).
Proof.
  revert s. induction n as [|n IH]; intros s Hn.
  - simpl. destruct (peelable (StripSpaces s)) eqn:E.
    + apply peelable_size in E. lia.
    + split; [apply StripSpaces_idempotent|exact E].
  - simpl. destruct (peelable (StripSpaces s)) eqn:E.
    + apply IH. pose proof (peelable_size _ E).
      pose proof (StripSpaces_size_le
                    (slice (StripSpaces s) 1 (size (StripSpaces s) - 1))).
      pose proof (Span_size_le (heritage (StripSpaces s))
                    (start (StripSpaces s) + 1)
                    (start (StripSpaces s) + (size (StripSpaces s) - 1))).
      unfold slice in *. lia.
    + split; [apply StripSpaces_idempotent|exact E].
Qed.

Lemma Strip_stripped s : stripped (Strip s).
Proof. apply Strip_loop_stripped, StripSpaces_size_le. Qed.

Lemma Strip_loop_fixed n s : stripped s -> Strip_loop n s = s.
Proof.
  intros [H1 H2]. destruct n; simpl; rewrite H1, H2; reflexivity.
Qed.

(** C6.  [Strip] is idempotent: for every span [s],
    [Strip (Strip s) = Strip s] (the same heritage and the same range),
    where [Strip] trims white space and peels one outer pair of
    parentheses around a whole interior until nothing changes. *)
Theorem Strip_idempotent (s : SpanString) : Strip (Strip s) = Strip s.
Proof.
  unfold Strip at 1. apply Strip_loop_fixed, Strip_stripped.
Qed.

Lemma Strip_wf s : wf (Strip s).
Proof.
  destruct (Strip_stripped s) as [H _]. rewrite <- H. apply StripSpaces_wf.
Qed.

Example Strip_example :
  str (Strip (SpanOf (chars "  ( (a, (b)) ) "))) = "a, (b)".
Proof. reflexivity. Qed.


(** ** The traverser reads forward *)

Lemma ch_eq c d : ch c d = true <-> c = d.
Proof. unfold ch. apply Ascii.eqb_eq. Qed.

Lemma list_eqb_eq a b : list_eqb a b = true <-> a = b.
Proof.
  revert b. induction a as [|x a IH]; destruct b as [|y b]; simpl;
    try (split; congruence).
  rewrite andb_true_iff, ch_eq, IH. split.
  - intros [-> ->]. reflexivity.
  - intros H. injection H. auto.
Qed.

Lemma track_and_yield_idx t c i st step st' :
  track_and_yield t c i st = Emit step st' -> idx step = i.
Proof.
  unfold track_and_yield. intros H.
  repeat match type of H with
         | context [if ?b then _ else _] => destruct b
         | context [match ?x with _ => _ end] => destruct x
         end; inversion H; reflexivity.
Qed.

Lemma track_and_yield_emits t c i st : exists step st', track_and_yield t c i st = Emit step st'.
Proof.
  unfold track_and_yield.
  repeat match goal with
         | |- context [if ?b then _ else _] => destruct b
         | |- context [match ?x with _ => _ end] => destruct x
         end; eauto.
Qed.

Lemma Next_char_idx c ahead i st step st' :
  Next_char c ahead i st = Emit step st' -> idx step = i.
Proof.
  unfold Next_char. intros H.
  repeat match type of H with
         | track_and_yield _ _ _ _ = _ => apply track_and_yield_idx in H; exact H
         | context [if ?b then _ else _] => destruct b
         end; try discriminate; try (inversion H; reflexivity).
Qed.

Lemma ascending_weaken lo lo' steps :
  lo' <= lo -> ascending lo steps -> ascending lo' steps.
Proof. destruct steps; simpl; [trivial|]. intros H [H1 H2]. split; [lia|assumption]. Qed.

Lemma Traverse_from_ascending_bounded n :
  forall rest i st, length rest <= n -> ascending i (Traverse_from rest i st).
Proof.
  induction n as [|n IH]; intros rest i st Hn.
  - destruct rest; [exact I|simpl in Hn; lia].
  - destruct rest as [|c rest']; simpl; [trivial|]. simpl in Hn.
    destruct (Next_char c (c :: rest') i st) as [step st'|st' extra] eqn:E.
    + apply Next_char_idx in E. simpl. split; [lia|].
      rewrite E. apply IH. lia.
    + destruct extra as [|extra].
      * apply ascending_weaken with (S i); [lia|]. apply IH. lia.
      * destruct rest' as [|d rest'']; simpl; [trivial|].
        apply ascending_weaken with (S (S i)); [lia|]. apply IH. simpl in Hn. lia.
Qed.

Lemma Traverse_from_ascending rest i st : ascending i (Traverse_from rest i st).
Proof. apply (Traverse_from_ascending_bounded (length rest)). lia. Qed.

Lemma Traverse_ascending s : ascending 0 (Traverse s).
Proof. apply Traverse_from_ascending. Qed.

(** ** [SplitRaw] cuts the view at separators *)

Lemma separator_here_spec v sep i :
  separator_here v sep i = true ->
  i + length sep <= length v /\ firstn (length sep) (skipn i v) = sep.
Proof.
  unfold separator_here, substr.
  destruct (Nat.leb_spec (i + length sep) (length v)); simpl; [|discriminate].
  destruct (list_eqb (firstn (length sep) (skipn i v)) sep) eqn:E; [|discriminate].
  intros _. split; [assumption|]. apply list_eqb_eq. exact E.
Qed.

Lemma join_cons sep p rest :
  rest <> [] -> join sep (p :: rest) = p ++ sep ++ join sep rest.
Proof. destruct rest; [congruence|reflexivity]. Qed.

Lemma view_slice_tail s a :
  wf s -> a <= size s -> view (slice s a (size s)) = skipn a (view s).
Proof.
  intros Hwf Ha. pose proof (view_length_wf s Hwf).
  rewrite view_slice by (try apply wf_start; try assumption; lia).
  apply firstn_all2. rewrite length_skipn. lia.
Qed.

Lemma split_at_separator (v sep : list ascii) a i :
  a <= i -> i + length sep <= length v ->
  firstn (length sep) (skipn i v) = sep ->
  firstn (i - a) (skipn a v) ++ sep ++ skipn (i + length sep) v = skipn a v.
Proof.
  intros Hai Hil Hsep.
  rewrite <- (firstn_skipn (i - a) (skipn a v)) at 2. f_equal.
  rewrite skipn_skipn. replace (i - a + a) with i by lia.
  rewrite <- (firstn_skipn (length sep) (skipn i v)) at 1.
  rewrite Hsep. f_equal. rewrite skipn_skipn. f_equal. lia.
Qed.

Lemma SplitRaw_loop_partition s sep :
  wf s -> sep <> [] ->
  forall steps lo skip part_start parts raw,
    ascending lo steps ->
    part_start <= lo + skip -> part_start <= size s ->
    SplitRaw_loop s sep steps skip part_start parts = Ok raw ->
    exists tail, raw = parts ++ tail /\ tail <> []
                 /\ join sep (map view tail) = skipn part_start (view s).
Proof.
  intros Hwf Hsep.
  induction steps as [|step steps IH]; intros lo skip ps parts raw Hasc Hps Hsz H.
  - simpl in H. inversion H; subst. eexists. split; [reflexivity|].
    split; [discriminate|]. simpl. apply view_slice_tail; assumption.
  - simpl in H. destruct Hasc as [Hlo Hasc].
    destruct skip as [|skip].
    + destruct (status_is_ok (status step)); simpl in H; [|discriminate].
      destruct (null (state step)); simpl in H;
        [|eapply (IH _ 0); eauto; lia].
      destruct (separator_here (view s) sep (idx step)) eqn:E;
        [|eapply (IH _ 0); eauto; lia].
      apply separator_here_spec in E. destruct E as [E1 E2].
      pose proof (view_length_wf s Hwf) as Hlen.
      assert (Hl : 1 <= length sep) by (destruct sep; simpl; [congruence|lia]).
      eapply IH in H; [|exact Hasc|lia|lia].
      destruct H as (tail & -> & Hne & Hj).
      exists (slice s ps (idx step) :: tail). split.
      * rewrite <- app_assoc. reflexivity.
      * split; [discriminate|].
        simpl map. rewrite join_cons by (destruct tail; simpl; congruence).
        rewrite Hj.
        rewrite view_slice by (try apply wf_start; try assumption; lia).
        apply split_at_separator; [lia|assumption|assumption].
    + eapply IH; eauto. lia.
Qed.

Lemma SplitRaw_join s sep raw :
  wf s -> SplitRaw s sep = Ok raw ->
  join (chars sep) (map view raw) = view s.
Proof.
  intros Hwf. unfold SplitRaw.
  destruct (Nat.eqb_spec (length (chars sep)) 0) as [E|E].
  - intros H. inversion H. reflexivity.
  - intros H.
    eapply SplitRaw_loop_partition in H;
      [|assumption|destruct (chars sep); simpl in *; congruence
       |apply Traverse_ascending|lia|lia].
    destruct H as (tail & -> & _ & Hj). exact Hj.
Qed.

(** C7.  For a span [s] and a separator, when [Split] returns parts, they
    are the strips of the raw parts of [SplitRaw], and the views of the
    raw parts, concatenated with the separator between them, are the
    view of [s]: the raw split cuts [s] exactly at the separators it
    found, and [Split] differs from it by the outer strips only.  This
    holds for whole spans in particular. *)
Theorem Split_reconstructs (s : SpanString) (separator : string)
    (parts : list SpanString) :
  wf s ->
  Split s separator = Ok parts ->
  exists raw,
    SplitRaw s separator = Ok raw
    /\ parts = map Strip raw
    /\ join (chars separator) (map view raw) = view s.
Proof.
  intros Hwf H. unfold Split in H.
  destruct (SplitRaw s separator) as [raw| |] eqn:E; simpl in H; try discriminate.
  inversion H; subst. exists raw. split; [reflexivity|]. split; [reflexivity|].
  apply SplitRaw_join; assumption.
Qed.

Lemma Split_reconstructs_witness :
  IsWhole split_example = true /\
  exists raw,
    SplitRaw split_example "," = Ok raw
    /\ map str (map Strip raw) = ["a"; "b, c"; "d"]
    /\ join (chars ",") (map view raw) = view split_example.
Proof.
  split; [reflexivity|].
  destruct (Split_reconstructs split_example "," (map Strip
              [slice split_example 0 1; slice split_example 2 10;
               slice split_example 11 12]))
    as (raw & H1 & H2 & H3).
  - unfold wf; simpl; lia.
  - reflexivity.
  - exists raw. split; [exact H1|]. split; [|exact H3].
    rewrite <- H2. reflexivity.
Defined.


(** ** [ParseNumber] *)

Example ParseNumber_decimal :
  ParseNumber (SpanOf (chars "12.5e3")) = Some (number_node "12.5e3").
Proof. reflexivity. Qed.

Example ParseNumber_unsigned_suffix :
  ParseNumber (SpanOf (chars "7u")) = Some (number_node "7").
Proof. reflexivity. Qed.

Example ParseNumber_identifier :
  ParseNumber (SpanOf (chars "x1")) = None.
Proof. reflexivity. Qed.

Example ParseNumber_trailing_text :
  ParseNumber (SpanOf (chars "1 + 2")) = None.
Proof. reflexivity. Qed.

Example ParseNumber_overflow :
  ParseNumber (SpanOf (chars "1e400")) = None.
Proof. vm_compute. reflexivity. Qed.

(** The source compares with the six bytes [infinity_literal]; the
    infinity sign of a UTF-8 source text is three other bytes. *)
Example ParseNumber_infinity_literal :
  ParseNumber (SpanOf infinity_literal) = Some (number_node "-1").
Proof. reflexivity. Qed.

Example ParseNumber_utf8_infinity :
  ParseNumber (SpanOf utf8_infinity) = None.
Proof. reflexivity. Qed.


(** *** Reading greedily *)

Lemma take_while_app p l rest :
  all_chars p l -> (forall c r, rest = c :: r -> p c = false) ->
  take_while p (l ++ rest) = l.
Proof.
  intros Hl Hrest. induction Hl as [|x l Hx _ IH]; simpl.
  - destruct rest as [|c r]; [reflexivity|].
    simpl. rewrite (Hrest c r eq_refl). reflexivity.
  - rewrite Hx, IH. reflexivity.
Qed.

Lemma take_while_all p l : all_chars p l -> take_while p l = l.
Proof.
  intros H. rewrite <- (app_nil_r l) at 1.
  apply take_while_app; [exact H|discriminate].
Qed.

Lemma take_while_spec p v :
  all_chars p (take_while p v)
  /\ (forall c r, skipn (length (take_while p v)) v = c :: r -> p c = false)
  /\ v = take_while p v ++ skipn (length (take_while p v)) v.
Proof.
  induction v as [|x v (IH1 & IH2 & IH3)]; simpl.
  - split; [constructor|]. split; [discriminate|reflexivity].
  - destruct (p x) eqn:E; simpl.
    + split; [constructor; assumption|]. split; [exact IH2|].
      f_equal. exact IH3.
    + split; [constructor|]. split; [|reflexivity].
      intros c r H. inversion H; subst. exact E.
Qed.

Lemma skipn_app_length {A} (l rest : list A) : skipn (length l) (l ++ rest) = rest.
Proof. induction l; simpl; auto. Qed.

Lemma firstn_app_length {A} (l rest : list A) : firstn (length l) (l ++ rest) = l.
Proof. induction l; simpl; [reflexivity|f_equal; assumption]. Qed.

(** *** Characters *)

Lemma digit_no_sign c : isdigit c = true -> ch c "-" = false /\ ch c "+" = false.
Proof. each_ascii c; intros H; try discriminate H; split; reflexivity. Qed.

Lemma marker_e_no_digit c :
  lower c = "e"%char -> isdigit c = false /\ ch c "." = false.
Proof.
  each_ascii c; intros H; vm_compute in H; try discriminate H; split; reflexivity.
Qed.

Lemma marker_p_no_digit c :
  lower c = "p"%char -> isxdigit c = false /\ ch c "." = false.
Proof.
  each_ascii c; intros H; vm_compute in H; try discriminate H; split; reflexivity.
Qed.

(** The first character of a subject sequence is no white space and no
    sign. *)
Lemma first_char_cases c :
  isdigit c = true \/ c = "."%char \/ lower c = "i"%char \/ lower c = "n"%char
  \/ lower c = "0"%char ->
  isspace c = false /\ ch c "-" = false /\ ch c "+" = false.
Proof.
  each_ascii c; intros H; (split; [|split]); try reflexivity;
    exfalso; destruct H as [H|[H|[H|[H|H]]]]; vm_compute in H; discriminate H.
Qed.

(** A character of a decimal constant opens no name and no [0x]. *)
Lemma decimal_char_cases c :
  isdigit c = true \/ c = "."%char \/ lower c = "e"%char \/ c = "+"%char
  \/ c = "-"%char ->
  ch "i" (lower c) = false /\ ch "n" (lower c) = false /\ ch "x" (lower c) = false.
Proof.
  each_ascii c; intros H; (split; [|split]); try reflexivity;
    exfalso; destruct H as [H|[H|[H|[H|H]]]]; vm_compute in H; discriminate H.
Qed.

Lemma sign_no_space sg neg c r :
  sign_text sg neg -> sg = c :: r -> isspace c = false.
Proof. intros H E. destruct H; inversion E; reflexivity. Qed.

(** *** From the grammar to [strtod] *)

Lemma read_sign_text sg neg rest :
  sign_text sg neg ->
  (forall c r, rest = c :: r -> ch c "-" = false /\ ch c "+" = false) ->
  read_sign (sg ++ rest) = (length sg, neg).
Proof.
  intros H Hrest. destruct H; try reflexivity.
  destruct rest as [|c r]; [reflexivity|].
  destruct (Hrest c r eq_refl) as [Hm Hp]. simpl. rewrite Hm, Hp. reflexivity.
Qed.

Lemma read_exponent_text marker ex e :
  exponent_text marker ex e -> read_exponent marker ex = (length ex, e).
Proof.
  intros H. destruct H as [|c sg neg ds Hc Hsg Hne Hds]; [reflexivity|].
  cbn [read_exponent]. rewrite Hc.
  replace (ch marker marker) with true by (symmetry; apply ch_eq; reflexivity).
  rewrite (read_sign_text sg neg ds Hsg).
  2:{ intros d r E. subst ds. inversion Hds; subst. apply digit_no_sign; assumption. }
  rewrite skipn_app_length, (take_while_all _ _ Hds).
  destruct ds as [|d ds]; [contradiction|]. cbn [null].
  f_equal. cbn [length]. rewrite length_app. cbn [length]. lia.
Qed.

Lemma read_mantissa_text digit m ip fp rest :
  mantissa_text digit m ip fp ->
  digit "."%char = false ->
  (forall c r, rest = c :: r -> digit c = false /\ ch c "." = false) ->
  read_mantissa digit (m ++ rest) = (length m, ip, fp).
Proof.
  intros H Hpoint Hrest. destruct H as [ip Hne Hip|ip fp Hne Hip Hfp]; unfold read_mantissa.
  - rewrite (take_while_app digit ip rest Hip)
      by (intros c r E; apply (Hrest c r E)).
    rewrite skipn_app_length.
    destruct rest as [|c r]; [reflexivity|].
    destruct (Hrest c r eq_refl) as [_ Hc]. rewrite Hc. reflexivity.
  - rewrite <- app_assoc. cbn [app].
    rewrite (take_while_app digit ip ("."%char :: fp ++ rest) Hip)
      by (intros c r E; inversion E; subst; exact Hpoint).
    rewrite skipn_app_length.
    replace (ch "." ".") with true by reflexivity.
    rewrite (take_while_app digit fp rest Hfp)
      by (intros c r E; apply (Hrest c r E)).
    f_equal. f_equal. rewrite length_app. cbn [length]. lia.
Qed.

Lemma starts_with_nocase_spells name t rest :
  map lower t = name -> starts_with_nocase name (t ++ rest) = true.
Proof.
  revert name. induction t as [|c t IH]; intros name H; simpl in H; subst name.
  - reflexivity.
  - cbn [app map starts_with_nocase]. rewrite IH by reflexivity.
    replace (ch (lower c) (lower c)) with true by (symmetry; apply ch_eq; reflexivity).
    reflexivity.
Qed.

Lemma starts_with_nocase_length name v :
  starts_with_nocase name v = true -> length name <= length v.
Proof.
  revert v. induction name as [|x name IH]; intros v H; simpl; [lia|].
  destruct v as [|y v]; [discriminate|]. simpl in H.
  apply andb_prop in H. destruct H as [_ H]. apply IH in H. simpl. lia.
Qed.

Lemma starts_with_nocase_short name v :
  length v < length name -> starts_with_nocase name v = false.
Proof.
  intros H. destruct (starts_with_nocase name v) eqn:E; [|reflexivity].
  apply starts_with_nocase_length in E. lia.
Qed.

Lemma starts_with_nocase_first x name c v :
  ch x (lower c) = false -> starts_with_nocase (x :: name) (c :: v) = false.
Proof. intros H. simpl. rewrite H. reflexivity. Qed.

Lemma mantissa_first digit m ip fp :
  mantissa_text digit m ip fp ->
  exists c r, m = c :: r /\ (digit c = true \/ c = "."%char).
Proof.
  intros H. destruct H as [ip Hne Hip|ip fp Hne Hip Hfp].
  - destruct ip as [|c r]; [contradiction|]. inversion Hip; subst. eauto.
  - destruct ip as [|c r]; [eexists _, _; split; [reflexivity|right; reflexivity]|].
    inversion Hip; subst. eexists _, _. split; [reflexivity|left; assumption].
Qed.

Lemma mantissa_nonempty digit m ip fp :
  mantissa_text digit m ip fp -> null ip && null fp = false.
Proof.
  intros H. destruct H as [ip Hne Hip|ip fp Hne Hip Hfp].
  - destruct ip; [contradiction|reflexivity].
  - destruct ip; [|reflexivity]. destruct fp; [contradiction|reflexivity].
Qed.

Lemma decimal_chars m ip fp ex e c :
  mantissa_text isdigit m ip fp -> exponent_text "e" ex e -> In c (m ++ ex) ->
  isdigit c = true \/ c = "."%char \/ lower c = "e"%char \/ c = "+"%char
  \/ c = "-"%char.
Proof.
  intros Hm He Hin. apply in_app_or in Hin. destruct Hin as [Hin|Hin].
  - assert (Hd : forall l, all_chars isdigit l -> In c l -> isdigit c = true).
    { intros l Hl Hc. unfold all_chars in Hl. rewrite Forall_forall in Hl. auto. }
    destruct Hm as [ip Hne Hip|ip fp Hne Hip Hfp]; [left; eauto|].
    apply in_app_or in Hin. destruct Hin as [Hin|[Hin|Hin]]; [left; eauto| |left; eauto].
    right. left. symmetry. exact Hin.
  - destruct He as [|c0 sg neg ds Hc Hsg Hne Hds]; [contradiction|].
    destruct Hin as [Hin|Hin]; [subst c0; auto|].
    apply in_app_or in Hin. destruct Hin as [Hin|Hin].
    + destruct Hsg; simpl in Hin; try contradiction;
        destruct Hin as [Hin|[]]; subst c; auto.
    + left. unfold all_chars in Hds. rewrite Forall_forall in Hds. auto.
Qed.

Lemma no_hex_prefix v :
  (forall c, In c v -> ch "x" (lower c) = false) ->
  starts_with_nocase (chars "0x") v = false.
Proof.
  intros H. destruct v as [|a [|b r]]; [reflexivity| |];
    cbn [starts_with_nocase chars list_ascii_of_string].
  - apply andb_false_r.
  - rewrite (H b) by (right; left; reflexivity). apply andb_false_r.
Qed.

Lemma exponent_first marker ex e c r :
  exponent_text marker ex e -> ex = c :: r -> lower c = marker.
Proof.
  intros H E. destruct H as [|c0 sg neg ds Hc _ _ _]; [discriminate E|].
  injection E as -> _. exact Hc.
Qed.

Lemma read_number_subject body v :
  subject_sequence body v ->
  exists kind, read_number body = (length body, out_of_range_value v, kind)
               /\ length body <> 0.
Proof.
  intros H. destruct H as [t Ht|t Ht|t seq Ht Hseq|m ip fp ex e Hm He|x0 m ip fp ex e Hx Hm He].
  - exists Infinity. unfold read_number. destruct Ht as [Ht|Ht].
    + assert (Hlen : length t = 3).
      { apply (f_equal (@length _)) in Ht. rewrite length_map in Ht. exact Ht. }
      rewrite starts_with_nocase_short by (rewrite Hlen; simpl; lia).
      rewrite <- (app_nil_r t) at 1.
      rewrite (starts_with_nocase_spells _ t [] Ht). rewrite Hlen. split; [reflexivity|lia].
    + assert (Hlen : length t = 8).
      { apply (f_equal (@length _)) in Ht. rewrite length_map in Ht. exact Ht. }
      rewrite <- (app_nil_r t) at 1.
      rewrite (starts_with_nocase_spells _ t [] Ht). rewrite Hlen. split; [reflexivity|lia].
  - exists NotANumber. unfold read_number.
    destruct t as [|a [|b [|c [|d t]]]]; try discriminate Ht.
    injection Ht as Ha Hb Hc. cbn [starts_with_nocase chars list_ascii_of_string].
    rewrite Ha, Hb, Hc. simpl. split; [reflexivity|lia].
  - exists NotANumber. unfold read_number.
    destruct t as [|a [|b [|c [|d t]]]]; try discriminate Ht.
    injection Ht as Ha Hb Hc.
    cbn [starts_with_nocase chars list_ascii_of_string app].
    rewrite Ha, Hb, Hc. cbn [ch Ascii.eqb Bool.eqb andb skipn].
    replace (ch "(" "(") with true by reflexivity. cbv iota.
    rewrite (take_while_app _ seq [")"%char] Hseq)
      by (intros x r E; inversion E; reflexivity).
    rewrite skipn_app_length.
    replace (ch ")" ")") with true by reflexivity. cbv iota.
    split; [|simpl; lia].
    f_equal. f_equal. cbn [length]. rewrite length_app. cbn [length]. lia.
  - exists FiniteNumber. unfold read_number.
    destruct (mantissa_first _ _ _ _ Hm) as (c & r & Em & Hc).
    assert (Hfirst : isdigit c = true \/ c = "."%char \/ lower c = "e"%char
                     \/ c = "+"%char \/ c = "-"%char) by tauto.
    destruct (decimal_char_cases c Hfirst) as (Hi & Hn & _).
    assert (H1 : starts_with_nocase (chars "infinity") (m ++ ex) = false).
    { rewrite Em. cbn [chars list_ascii_of_string app starts_with_nocase].
      rewrite Hi. reflexivity. }
    assert (H2 : starts_with_nocase (chars "inf") (m ++ ex) = false).
    { rewrite Em. cbn [chars list_ascii_of_string app starts_with_nocase].
      rewrite Hi. reflexivity. }
    assert (H3 : starts_with_nocase (chars "nan") (m ++ ex) = false).
    { rewrite Em. cbn [chars list_ascii_of_string app starts_with_nocase].
      rewrite Hn. reflexivity. }
    rewrite H1, H2, H3.
    rewrite no_hex_prefix.
    2:{ intros x Hx. apply (decimal_char_cases x).
        eapply decimal_chars; eassumption. }
    rewrite (read_mantissa_text isdigit m ip fp ex Hm eq_refl).
    2:{ intros x r' E. apply marker_e_no_digit. eapply exponent_first; eassumption. }
    rewrite (mantissa_nonempty _ _ _ _ Hm).
    rewrite skipn_app_length, (read_exponent_text _ _ _ He).
    split; [rewrite length_app; reflexivity|].
    rewrite Em. simpl. lia.
  - exists FiniteNumber. unfold read_number.
    destruct x0 as [|a [|b [|c x0]]]; try discriminate Hx.
    injection Hx as Ha Hb.
    cbn [starts_with_nocase chars list_ascii_of_string app].
    rewrite Ha, Hb. cbn [ch Ascii.eqb Bool.eqb andb skipn].
    rewrite (read_mantissa_text isxdigit m ip fp ex Hm eq_refl).
    2:{ intros x r' E. apply marker_p_no_digit. eapply exponent_first; eassumption. }
    rewrite (mantissa_nonempty _ _ _ _ Hm).
    change (S (S (length m))) with (2 + length m).
    replace (skipn (2 + length m) (a :: b :: m ++ ex)) with ex
      by (symmetry; apply (skipn_app_length (a :: b :: m) ex)).
    rewrite (read_exponent_text _ _ _ He).
    split; [|simpl; lia].
    f_equal. f_equal. cbn [length]. rewrite length_app. lia.
Qed.

(** *** From [strtod] to the grammar *)

Lemma firstn_two_parts {A} (a b r : list A) n :
  n = length a + length b -> firstn n (a ++ b ++ r) = a ++ b.
Proof.
  intros ->. rewrite app_assoc, <- length_app. apply firstn_app_length.
Qed.

Lemma whole_prefix {A} (a rest : list A) n :
  n = length (a ++ rest) -> n = length a -> rest = [].
Proof.
  intros H1 H2. rewrite length_app in H1. destruct rest; [reflexivity|simpl in H1; lia].
Qed.

Lemma read_sign_inv v ns neg :
  read_sign v = (ns, neg) -> sign_text (firstn ns v) neg /\ ns <= length v.
Proof.
  unfold read_sign. destruct v as [|c v]; intros H.
  - inversion H. split; [constructor|simpl; lia].
  - destruct (ch c "-") eqn:Em.
    + inversion H. apply ch_eq in Em. subst. split; [constructor|simpl; lia].
    + destruct (ch c "+") eqn:Ep; inversion H.
      * apply ch_eq in Ep. subst. split; [constructor|simpl; lia].
      * split; [constructor|simpl; lia].
Qed.

Lemma read_exponent_inv marker v ne e :
  read_exponent marker v = (ne, e) ->
  exponent_text marker (firstn ne v) e /\ ne <= length v.
Proof.
  unfold read_exponent. destruct v as [|c v1]; intros H.
  - inversion H. split; [constructor|simpl; lia].
  - destruct (ch (lower c) marker) eqn:Ec.
    2:{ inversion H. split; [constructor|simpl; lia]. }
    destruct (read_sign v1) as [ns neg] eqn:Es.
    destruct (read_sign_inv _ _ _ Es) as [Hsg Hns].
    destruct (take_while_spec isdigit (skipn ns v1)) as (Hds & _ & Hsplit).
    set (ds := take_while isdigit (skipn ns v1)) in *.
    destruct (null ds) eqn:En.
    { inversion H. split; [constructor|simpl; lia]. }
    inversion H. subst ne e. clear H.
    assert (Hv1 : v1 = firstn ns v1 ++ ds ++ skipn (length ds) (skipn ns v1)).
    { rewrite <- Hsplit. symmetry. apply firstn_skipn. }
    assert (Hlen : length (firstn ns v1) = ns) by (apply firstn_length_le; exact Hns).
    split.
    + cbn [plus firstn]. rewrite Hv1 at 1.
      rewrite (firstn_two_parts _ _ _ _ ltac:(rewrite Hlen; reflexivity)).
      apply ch_eq in Ec.
      apply exponent_some; try assumption.
      destruct ds; [discriminate En|discriminate].
    + apply (f_equal (@length _)) in Hv1. rewrite !length_app, Hlen in Hv1.
      cbn [length]. lia.
Qed.

Lemma read_mantissa_inv digit v n ip fp :
  read_mantissa digit v = (n, ip, fp) ->
  null ip && null fp = false ->
  mantissa_text digit (firstn n v) ip fp /\ n <= length v.
Proof.
  unfold read_mantissa. intros H Hnull.
  destruct (take_while_spec digit v) as (Hip & _ & Hv).
  set (ip0 := take_while digit v) in *.
  assert (Hwhole : forall r, v = ip0 ++ r -> (length ip0, ip0, @nil ascii) = (n, ip, fp) ->
            mantissa_text digit (firstn n v) ip fp /\ n <= length v).
  { intros r Er E. inversion E. subst n ip fp. rewrite Er, firstn_app_length. split.
    - apply mantissa_whole; [|exact Hip].
      destruct ip0; [discriminate Hnull|discriminate].
    - rewrite length_app. lia. }
  destruct (skipn (length ip0) v) as [|c v2] eqn:Ev1.
  - eapply Hwhole; eassumption.
  - destruct (ch c ".") eqn:Ec; [|eapply Hwhole; eassumption].
    apply ch_eq in Ec. subst c.
    destruct (take_while_spec digit v2) as (Hfp & _ & Hv2).
    set (fp0 := take_while digit v2) in *.
    inversion H. subst n ip fp. clear H.
    assert (Hv' : v = ip0 ++ ("."%char :: fp0) ++ skipn (length fp0) v2).
    { rewrite Hv. cbn [app]. rewrite <- Hv2. reflexivity. }
    split.
    + rewrite Hv' at 1.
      replace (length ip0 + 1 + length fp0)
        with (length ip0 + length ("."%char :: fp0)) by (cbn [length]; lia).
      rewrite firstn_two_parts by reflexivity.
      apply mantissa_point; try assumption.
      destruct ip0; [|discriminate]. destruct fp0; [discriminate Hnull|discriminate].
    + apply (f_equal (@length _)) in Hv'. rewrite !length_app in Hv'.
      cbn [length] in Hv'. lia.
Qed.

Lemma starts_with_nocase_prefix name v :
  starts_with_nocase name v = true -> map lower (firstn (length name) v) = name.
Proof.
  revert v. induction name as [|x name IH]; intros v H; [reflexivity|].
  destruct v as [|y v]; [discriminate|]. cbn [starts_with_nocase] in H.
  apply andb_prop in H. destruct H as [Hx H]. apply ch_eq in Hx.
  cbn [length firstn map]. rewrite (IH _ H), <- Hx. reflexivity.
Qed.

Lemma starts_with_nocase_exact name v :
  starts_with_nocase name v = true -> length v = length name -> map lower v = name.
Proof.
  intros H Hlen. apply starts_with_nocase_prefix in H.
  rewrite <- Hlen, firstn_all in H. exact H.
Qed.

Lemma read_number_inv v n er kind :
  read_number v = (n, er, kind) -> n = length v -> n <> 0 ->
  exists value, subject_sequence v value /\ er = out_of_range_value value.
Proof.
  intros H Hn Hn0.
  assert (Hdec :
    (let '(n, ip, fp) := read_mantissa isdigit v in
     if null ip && null fp then (0, false, FiniteNumber)
     else
       let '(ne, e) := read_exponent "e" (skipn n v) in
       let m := digits_value 10 (ip ++ fp) in
       (n + ne, range_error 10 (scaled m 10 (e - Z.of_nat (length fp))), FiniteNumber))
    = (n, er, kind) ->
    exists value, subject_sequence v value /\ er = out_of_range_value value).
  { clear H. intros H.
    destruct (read_mantissa isdigit v) as [[n' ip] fp] eqn:Em.
    destruct (null ip && null fp) eqn:En; [injection H as Hsum _ _; congruence|].
    destruct (read_mantissa_inv _ _ _ _ _ Em En) as [Hm Hn'].
    destruct (read_exponent "e" (skipn n' v)) as [ne e] eqn:Ee.
    destruct (read_exponent_inv _ _ _ _ Ee) as [He Hne].
    injection H as Hsum <- _. rewrite <- Hsum in Hn.
    assert (Hv : v = firstn n' v ++ firstn ne (skipn n' v)).
    { rewrite <- (firstn_skipn n' v) at 1. f_equal.
      rewrite length_skipn in Hne.
      symmetry. apply firstn_all2. rewrite length_skipn. lia. }
    eexists. split.
    - rewrite Hv. eapply subject_decimal; eassumption.
    - reflexivity. }
  unfold read_number in H.
  destruct (starts_with_nocase (chars "infinity") v) eqn:E1.
  { injection H as Hsum <- _. rewrite <- Hsum in Hn.
    exists SpecialValue. split; [|reflexivity].
    apply subject_infinity. right. apply starts_with_nocase_exact; [exact E1|].
    symmetry. exact Hn. }
  destruct (starts_with_nocase (chars "inf") v) eqn:E2.
  { injection H as Hsum <- _. rewrite <- Hsum in Hn.
    exists SpecialValue. split; [|reflexivity].
    apply subject_infinity. left. apply starts_with_nocase_exact; [exact E2|].
    symmetry. exact Hn. }
  destruct (starts_with_nocase (chars "nan") v) eqn:E3.
  { pose proof (starts_with_nocase_prefix _ _ E3) as Hnan.
    cbn [chars list_ascii_of_string length] in Hnan.
    pose proof (firstn_skipn 3 v) as Hv.
    pose proof (starts_with_nocase_length _ _ E3) as Hlen3.
    cbn [chars list_ascii_of_string length] in Hlen3.
    assert (Hl3 : length (firstn 3 v) = 3) by (apply firstn_length_le; exact Hlen3).
    destruct (skipn 3 v) as [|c v1] eqn:Es.
    { injection H as Hsum <- _.
      exists SpecialValue. split; [|reflexivity].
      apply subject_nan. rewrite app_nil_r in Hv. rewrite <- Hv. exact Hnan. }
    assert (Hlong : 3 <> length v).
    { rewrite <- Hv, length_app, Hl3. simpl. lia. }
    destruct (ch c "(") eqn:Ec; [|injection H as Hsum _ _; congruence].
    apply ch_eq in Ec. subst c.
    destruct (take_while_spec (fun x => isalnum x || ch x "_") v1) as (Hseq & _ & Hv1).
    set (seq := take_while (fun x => isalnum x || ch x "_") v1) in *.
    destruct (skipn (length seq) v1) as [|d rest] eqn:Er; [injection H as Hsum _ _; congruence|].
    destruct (ch d ")") eqn:Ed; [|injection H as Hsum _ _; congruence].
    apply ch_eq in Ed. subst d.
    injection H as Hsum <- _. rewrite <- Hsum in Hn.
    assert (rest = []).
    { rewrite <- Hv, Hv1, !length_app, Hl3 in Hn. cbn [length] in Hn.
      rewrite length_app in Hn. cbn [length] in Hn.
      destruct rest; [reflexivity|simpl in Hn; lia]. }
    subst rest. exists SpecialValue. split; [|reflexivity].
    rewrite <- Hv, Hv1. apply subject_nan_chars; assumption. }
  destruct (starts_with_nocase (chars "0x") v) eqn:E4; [|apply Hdec; exact H].
  destruct (read_mantissa isxdigit (skipn 2 v)) as [[n' ip] fp] eqn:Em.
  destruct (null ip && null fp) eqn:En; [apply Hdec; exact H|].
  destruct (read_mantissa_inv _ _ _ _ _ Em En) as [Hm Hn'].
  destruct (read_exponent "p" (skipn (2 + n') v)) as [ne e] eqn:Ee.
  destruct (read_exponent_inv _ _ _ _ Ee) as [He Hne].
  injection H as Hsum <- _. rewrite <- Hsum in Hn.
  pose proof (starts_with_nocase_prefix _ _ E4) as Hx.
  cbn [chars list_ascii_of_string length] in Hx.
  assert (Hv : v = firstn 2 v ++ firstn n' (skipn 2 v) ++ firstn ne (skipn (2 + n') v)).
  { rewrite <- (firstn_skipn 2 v) at 1. f_equal.
    rewrite <- (firstn_skipn n' (skipn 2 v)) at 1. f_equal.
    rewrite skipn_skipn, (Nat.add_comm n' 2).
    rewrite length_skipn in Hne, Hn'.
    symmetry. apply firstn_all2. rewrite length_skipn. lia. }
  eexists. split.
  - rewrite Hv. eapply subject_hexadecimal; eassumption.
  - reflexivity.
Qed.

(** *** The whole text *)

Lemma spells_first name t x :
  spells name t -> hd zero_char (chars name) = x -> t <> [] ->
  exists c r, t = c :: r /\ lower c = x.
Proof.
  unfold spells. intros H Hx Hne. destruct t as [|c r]; [contradiction|].
  exists c, r. split; [reflexivity|]. cbn [map] in H. rewrite <- H in Hx. exact Hx.
Qed.

Lemma subject_first body v :
  subject_sequence body v ->
  exists c r, body = c :: r
              /\ isspace c = false /\ ch c "-" = false /\ ch c "+" = false.
Proof.
  intros H.
  assert (Hspell : forall name t x,
            spells name t -> hd zero_char (chars name) = x -> chars name <> [] ->
            exists c r, t = c :: r /\ lower c = x).
  { intros name t x Ht Hx Hne. apply (spells_first name); try assumption.
    intros ->. unfold spells in Ht. simpl in Ht. congruence. }
  destruct H as [t Ht|t Ht|t seq Ht Hseq|m ip fp ex e Hm He|x0 m ip fp ex e Hx Hm He].
  - destruct Ht as [Ht|Ht];
      destruct (Hspell _ _ _ Ht eq_refl ltac:(discriminate)) as (c & r & -> & Hc);
      exists c, r; (split; [reflexivity|]); apply first_char_cases; tauto.
  - destruct (Hspell _ _ _ Ht eq_refl ltac:(discriminate)) as (c & r & -> & Hc).
    exists c, r. split; [reflexivity|]. apply first_char_cases. tauto.
  - destruct (Hspell _ _ _ Ht eq_refl ltac:(discriminate)) as (c & r & -> & Hc).
    eexists c, _. split; [reflexivity|]. apply first_char_cases. tauto.
  - destruct (mantissa_first _ _ _ _ Hm) as (c & r & -> & Hc).
    eexists c, _. split; [reflexivity|]. apply first_char_cases. tauto.
  - destruct (Hspell _ _ _ Hx eq_refl ltac:(discriminate)) as (c & r & -> & Hc).
    eexists c, _. split; [reflexivity|]. apply first_char_cases. tauto.
Qed.

Lemma strtod_converts ws sg neg body v :
  all_chars isspace ws -> sign_text sg neg -> subject_sequence body v ->
  exists kind,
    strtod (ws ++ sg ++ body)
    = (length (ws ++ sg ++ body), out_of_range_value v, kind)
    /\ length (ws ++ sg ++ body) <> 0.
Proof.
  intros Hws Hsg Hbody.
  destruct (subject_first _ _ Hbody) as (c & r & Eb & Hspace & Hminus & Hplus).
  destruct (read_number_subject _ _ Hbody) as (kind & Hread & Hlen).
  exists kind. unfold strtod.
  rewrite (take_while_app isspace ws (sg ++ body) Hws).
  2:{ intros x r' E. destruct sg as [|s0 sg'].
      - cbn [app] in E. rewrite Eb in E. injection E as <- _. exact Hspace.
      - injection E as <- _. eapply sign_no_space; [exact Hsg|reflexivity]. }
  rewrite skipn_app_length.
  rewrite (read_sign_text sg neg body Hsg).
  2:{ intros x r' E. rewrite Eb in E. injection E as <- _. split; assumption. }
  rewrite skipn_app_length, Hread.
  destruct (length body =? 0) eqn:E0; [apply Nat.eqb_eq in E0; contradiction|].
  split; [|rewrite !length_app; lia].
  rewrite !length_app, Nat.add_assoc. reflexivity.
Qed.

Lemma strtod_whole t n er kind :
  strtod t = (n, er, kind) -> n = length t -> n <> 0 ->
  exists ws sg neg body v,
    t = ws ++ sg ++ body
    /\ all_chars isspace ws /\ sign_text sg neg /\ subject_sequence body v
    /\ er = out_of_range_value v.
Proof.
  unfold strtod. intros H Hn Hn0.
  destruct (take_while_spec isspace t) as (Hws & _ & Ht).
  set (ws := take_while isspace t) in *.
  set (v := skipn (length ws) t) in *.
  destruct (read_sign v) as [ns neg] eqn:Es.
  destruct (read_sign_inv _ _ _ Es) as [Hsg Hns].
  destruct (read_number (skipn ns v)) as [[n' er'] kind'] eqn:Er.
  destruct (n' =? 0) eqn:E0.
  { injection H as Hsum _ _. congruence. }
  apply Nat.eqb_neq in E0.
  injection H as Hsum <- <-. rewrite <- Hsum in Hn.
  assert (Hlen : length t = length ws + length v).
  { rewrite Ht at 1. apply length_app. }
  assert (Hn' : n' = length (skipn ns v)).
  { rewrite length_skipn. lia. }
  destruct (read_number_inv _ _ _ _ Er Hn' E0) as (value & Hsub & Hval).
  exists ws, (firstn ns v), neg, (skipn ns v), value.
  split; [rewrite firstn_skipn; exact Ht|]. auto.
Qed.

Lemma strtod_accepts_converts t :
  strtod_accepts t = true <-> converts_whole (c_str t).
Proof.
  unfold strtod_accepts, converts_whole. split.
  - destruct (strtod (c_str t)) as [[n er] kind] eqn:E. intros H.
    apply negb_true_iff in H. apply orb_false_iff in H. destruct H as [H Hwhole].
    apply orb_false_iff in H. destruct H as [Her Hzero].
    apply negb_false_iff, Nat.eqb_eq in Hwhole. apply Nat.eqb_neq in Hzero.
    destruct (strtod_whole _ _ _ _ E Hwhole Hzero)
      as (ws & sg & neg & body & v & Ht & Hws & Hsg & Hbody & Hv).
    exists ws, sg, neg, body, v. repeat split; try assumption. congruence.
  - intros (ws & sg & neg & body & v & Ht & Hws & Hsg & Hbody & Hv).
    destruct (strtod_converts _ _ _ _ _ Hws Hsg Hbody) as (kind & E & Hlen).
    rewrite Ht, E, Hv. apply Nat.eqb_neq in Hlen. rewrite Hlen, Nat.eqb_refl.
    reflexivity.
Qed.

Lemma c_str_no_nul t : ~ In zero_char t -> c_str t = t.
Proof.
  intros H. unfold c_str. apply take_while_all.
  apply Forall_forall. intros c Hc. apply negb_true_iff.
  destruct (ch c zero_char) eqn:E; [|reflexivity].
  apply ch_eq in E. subst c. contradiction.
Qed.

Lemma spells_no_nul name t :
  spells name t -> ~ In zero_char (chars name) -> ~ In zero_char t.
Proof.
  unfold spells. intros H Hname Hin. apply Hname. rewrite <- H.
  change zero_char with (lower zero_char). apply in_map. exact Hin.
Qed.

Lemma spells_last name t x :
  spells name t -> lower x <> last (chars name) zero_char -> chars name <> [] ->
  last t zero_char <> x.
Proof.
  unfold spells. intros H Hx Hne E. apply Hx. rewrite <- H, <- E.
  assert (Ht : t <> []) by (intros ->; simpl in H; congruence).
  clear H Hx Hne E. induction t as [|c [|d t] IH]; [contradiction|reflexivity|].
  cbn [map last] in *. apply IH. discriminate.
Qed.

Lemma ends_with_u_last name :
  last name zero_char <> "u"%char -> ends_with (SpanOf name) "u" = false.
Proof.
  intros H. unfold ends_with, ends_with_list. rewrite view_SpanOf.
  destruct name as [|c name] using rev_ind; [reflexivity|].
  rewrite last_last in H. rewrite rev_app_distr. cbn [rev app chars list_ascii_of_string].
  cbn [starts_with_list]. destruct (ch "u" c) eqn:E; [|reflexivity].
  apply ch_eq in E. congruence.
Qed.



(** Values next to the smallest normal number [2^-1022]: a text that
    rounds to it is converted; below, an inexact value is a range error. *)
Example ParseNumber_rounds_to_normal :
  ParseNumber (SpanOf (chars "2.2250738585072013e-308"))
  = Some (number_node "2.2250738585072013e-308").
Proof. vm_compute. reflexivity. Qed.

Example ParseNumber_subnormal_inexact :
  ParseNumber (SpanOf (chars "2.2250738585072011e-308")) = None.
Proof. vm_compute. reflexivity. Qed.

Example ParseNumber_subnormal_exact :
  ParseNumber (SpanOf (chars "0x1p-1074")) = Some (number_node "0x1p-1074").
Proof. vm_compute. reflexivity. Qed.


(** ** [DnfRewrite] *)

Lemma json_size_element x a : In x a -> json_size x < json_size (JArray a).
Proof.
  simpl. induction a as [|y a IH]; simpl; [tauto|].
  intros [->|H]; [lia|]. specialize (IH H). lia.
Qed.

Lemma json_size_value k v o : In (k, v) o -> json_size v < json_size (JObject o).
Proof.
  simpl. induction o as [|[k' v'] o IH]; simpl; [tauto|].
  intros [H|H]; [inversion H; subst; lia|]. specialize (IH H). lia.
Qed.

Lemma with_key_Ok {A} k o (f : Json -> result A) r :
  with_key k o f = Ok r -> exists v, In (k, v) o /\ f v = Ok r.
Proof.
  unfold with_key. induction o as [|[k' v'] o IH]; [discriminate|].
  destruct (String.eqb k k') eqn:E.
  - apply String.eqb_eq in E. subst k'. intros H. exists v'. split; [left; reflexivity|exact H].
  - intros H. destruct (IH H) as (v & Hin & Hf). exists v. split; [right; exact Hin|exact Hf].
Qed.

Lemma with_object_Ok {A} j (f : JsonObject -> result A) r :
  with_object j f = Ok r -> exists o, j = JObject o /\ f o = Ok r.
Proof. destruct j; simpl; try discriminate. eauto. Qed.

Lemma with_array_Ok {A} j (f : JsonArray -> result A) r :
  with_array j f = Ok r -> exists a, j = JArray a /\ f a = Ok r.
Proof. destruct j; simpl; try discriminate. eauto. Qed.

Lemma conjunction_of_dnfs_Forall (P : Json -> Prop) dnfs :
  Forall (Forall (Forall P)) dnfs -> Forall (Forall P) (conjunction_of_dnfs dnfs).
Proof.
  induction dnfs as [|first rest IH]; intros H.
  - simpl. repeat constructor.
  - inversion H as [|? ? Hfirst Hrest]; subst.
    destruct rest as [|second rest]; [exact Hfirst|].
    specialize (IH Hrest).
    change (conjunction_of_dnfs (first :: second :: rest))
      with (flat_map (fun a => map (fun b => a ++ b) (conjunction_of_dnfs (second :: rest)))
              first).
    rewrite Forall_forall. intros x Hx.
    apply in_flat_map in Hx. destruct Hx as (a & Ha & Hx).
    apply in_map_iff in Hx. destruct Hx as (b & <- & Hb).
    apply Forall_app. split.
    + rewrite Forall_forall in Hfirst. auto.
    + rewrite Forall_forall in IH. auto.
Qed.

Lemma concat_Forall {A} (P : A -> Prop) ls :
  Forall (Forall P) ls -> Forall P (concat ls).
Proof.
  induction 1; simpl; [constructor|]. apply Forall_app. auto.
Qed.

Lemma Forall2_Forall_r {A B} (R : A -> B -> Prop) (P : A -> Prop) (Q : B -> Prop) l l' :
  (forall x y, In x l -> R x y -> Q y) -> Forall2 R l l' -> Forall Q l'.
Proof.
  intros H HF. induction HF; constructor.
  - eapply H; [left; reflexivity|eassumption].
  - apply IHHF. intros. eapply H; [right|]; eassumption.
Qed.

Lemma dnf_leaf_not_object prop :
  is_object prop = false -> dnf_leaf prop.
Proof. destruct prop; simpl; try discriminate; intros _; split; reflexivity. Qed.

(** Every proposition in the disjunctive normal form is a leaf. *)
Lemma proposition_to_dnf_leaves_bounded n :
  forall prop dnf,
    json_size prop <= n ->
    proposition_to_dnf prop = Ok dnf -> Forall (Forall dnf_leaf) dnf.
Proof.
  induction n as [|n IH]; intros prop dnf Hn H.
  - destruct prop; simpl in Hn; lia.
  - destruct prop; simpl in H;
      try (inversion H; subst; repeat constructor; fail).
    destruct (obj_count "conjunction" o) eqn:Ec.
    + apply with_key_Ok in H. destruct H as (c & Hc & H).
      apply with_object_Ok in H. destruct H as (co & -> & H).
      apply with_key_Ok in H. destruct H as (cs & Hcs & H).
      apply with_array_Ok in H. destruct H as (conjuncts & -> & H).
      bind_inv H. inversion H; subst.
      apply conjunction_of_dnfs_Forall.
      apply mapM_Ok in Hx.
      eapply Forall2_Forall_r with (P := fun _ => True); [|exact Hx].
      intros p d Hp Hd. eapply IH; [|exact Hd].
      pose proof (json_size_value _ _ _ Hc).
      pose proof (json_size_value _ _ _ Hcs).
      pose proof (json_size_element _ _ Hp). lia.
    + destruct (obj_count "disjunction" o) eqn:Ed.
      * apply with_key_Ok in H. destruct H as (d & Hd & H).
        apply with_object_Ok in H. destruct H as (dobj & -> & H).
        apply with_key_Ok in H. destruct H as (ds & Hds & H).
        apply with_array_Ok in H. destruct H as (disjuncts & -> & H).
        bind_inv H. inversion H; subst.
        apply concat_Forall.
        apply mapM_Ok in Hx.
        eapply Forall2_Forall_r with (P := fun _ => True); [|exact Hx].
        intros p dd Hp Hdd. eapply IH; [|exact Hdd].
        pose proof (json_size_value _ _ _ Hd).
        pose proof (json_size_value _ _ _ Hds).
        pose proof (json_size_element _ _ Hp). lia.
      * inversion H; subst. repeat constructor; simpl; assumption.
Qed.

Lemma proposition_to_dnf_leaves prop dnf :
  proposition_to_dnf prop = Ok dnf -> Forall (Forall dnf_leaf) dnf.
Proof. apply (proposition_to_dnf_leaves_bounded (json_size prop)). lia. Qed.

Lemma DnfRewrite_rule_spec rule rs :
  DnfRewrite_rule rule = Ok rs -> Forall (dnf_rule_of rule) rs.
Proof.
  unfold DnfRewrite_rule. destruct (HasKey rule "body") eqn:E; simpl.
  - intros H. bind_inv H. bind_inv H.
    apply proposition_to_dnf_leaves in Hx0. rename x0 into dnf.
    apply mapM_Ok in H.
    eapply Forall2_Forall_r with (P := fun _ => True); [|exact H].
    intros conjuncts r Hin Hr. right. exists conjuncts. split; [|exact Hr].
    rewrite Forall_forall in Hx0. auto.
  - intros H. inversion H; subst. constructor; [|constructor].
    left. auto.
Qed.

Lemma dnf_rule_of_body rule r :
  dnf_rule_of rule r -> HasKey r "body" = true ->
  exists body, at_key "body" r = Ok body /\ conjunction_of_leaves body.
Proof.
  intros [[Hno ->]|(conjuncts & Hleaves & Hset)] Hbody.
  - congruence.
  - apply at_key_set_key in Hset. destruct Hset as [Hat _].
    eexists. split; [exact Hat|]. exists conjuncts. auto.
Qed.

(** C2, as stated, fails: the rule [Q(x) :- ~(A(x) | B(x))] keeps, after
    [DnfRewrite], the disjunction inside the body of the negation. *)
Lemma DnfRewrite_keeps_nested_disjunction :
  parse_rule 10 "Q(x) :- ~(A(x) | B(x))" = Ok negated_disjunction_rule
  /\ DnfRewrite (JArray [negated_disjunction_rule]) = Ok (JArray [negated_disjunction_dnf])
  /\ exists body,
       at_key "body" negated_disjunction_dnf = Ok body
       /\ has_node "disjunction" body = true.
Proof.
  split; [vm_compute; reflexivity|].
  split; [vm_compute; reflexivity|].
  eexists. split; [vm_compute; reflexivity|]. vm_compute. reflexivity.
Qed.

(** C2, amended.  When [DnfRewrite] returns, it returns a rule list in
    which every rule comes from a rule of the input: a rule without a
    body unchanged, a rule with a body once per conjunct list, with only
    the body replaced; and every body in the result is a single
    conjunction node whose conjuncts are neither conjunction nor
    disjunction nodes.  (A disjunction inside an expression of a conjunct,
    such as the body of a negation or of a combine, stays.) *)
Theorem DnfRewrite_normal_form (rules : JsonArray) (out : Json) :
  DnfRewrite (JArray rules) = Ok out ->
  exists rs,
    out = JArray rs
    /\ Forall (fun r => exists rule, In rule rules /\ dnf_rule_of rule r) rs
    /\ Forall (fun r =>
                 HasKey r "body" = true ->
                 exists body, at_key "body" r = Ok body /\ conjunction_of_leaves body)
         rs.
Proof.
  unfold DnfRewrite. simpl. intros H. bind_inv H. inversion H; subst.
  exists (concat x). split; [reflexivity|].
  assert (Hall : Forall (fun r => exists rule, In rule rules /\ dnf_rule_of rule r)
                   (concat x)).
  { apply concat_Forall. apply mapM_Ok in Hx.
    eapply Forall2_Forall_r with (P := fun _ => True); [|exact Hx].
    intros rule rs Hin Hrs. apply DnfRewrite_rule_spec in Hrs.
    eapply Forall_impl; [|exact Hrs]. intros r Hr. exists rule. auto. }
  split; [exact Hall|].
  eapply Forall_impl; [|exact Hall].
  intros r (rule & _ & Hr). apply dnf_rule_of_body with rule. exact Hr.
Qed.

Lemma DnfRewrite_normal_form_witness :
  exists rs,
    DnfRewrite (JArray [disjunction_rule]) = Ok (JArray rs)
    /\ length rs = 2
    /\ Forall (fun r =>
                 HasKey r "body" = true ->
                 exists body, at_key "body" r = Ok body /\ conjunction_of_leaves body)
         rs.
Proof.
  destruct (DnfRewrite (JArray [disjunction_rule])) as [out| |] eqn:E;
    [|vm_compute in E; discriminate|vm_compute in E; discriminate].
  destruct (DnfRewrite_normal_form [disjunction_rule] out E) as (rs & -> & _ & H).
  exists rs. split; [reflexivity|]. split; [|exact H].
  vm_compute in E. inversion E. reflexivity.
Defined.


(** ** [RewriteAggregationsAsExpressions] *)

Lemma Rewrite_unfold d node :
  RewriteAggregationsInternal (S d) node =
  match node with
  | JObject o =>
      o1 <- mapM_values convert_slot o ;;
      o2 <- mapM_values (descend d) o1 ;;
      Ok (JObject o2)
  | JArray a => a' <- mapM (descend d) a ;; Ok (JArray a')
  | _ => Ok node
  end.
Proof. reflexivity. Qed.

Lemma mapM_values_Ok f o o' :
  mapM_values f o = Ok o' ->
  Forall2 (fun kv kv' => fst kv = fst kv' /\ f (snd kv) = Ok (snd kv')) o o'.
Proof.
  revert o'. induction o as [|[k v] o IH]; simpl; intros o' H.
  - inversion H. constructor.
  - bind_inv H. bind_inv H. inversion H; subst. constructor; auto.
Qed.

Lemma mapM_values_find f o o' k :
  mapM_values f o = Ok o' ->
  match obj_find k o with
  | Some v => exists v', f v = Ok v' /\ obj_find k o' = Some v'
  | None => obj_find k o' = None
  end.
Proof.
  intros H. apply mapM_values_Ok in H.
  induction H as [|[k1 v1] [k2 v2] o o' [Hk Hv] _ IH]; simpl; [reflexivity|].
  simpl in Hk, Hv. subst k2.
  destruct (String.eqb k k1); [eauto|exact IH].
Qed.

Lemma mapM_values_find_inv f o o' k v' :
  mapM_values f o = Ok o' -> obj_find k o' = Some v' ->
  exists v, obj_find k o = Some v /\ f v = Ok v'.
Proof.
  intros H Hf. pose proof (mapM_values_find f o o' k H) as Hm.
  destruct (obj_find k o) as [v|].
  - destruct Hm as (v2 & Hv2 & Hfind). exists v. split; [reflexivity|congruence].
  - congruence.
Qed.

Lemma AggregationConvert_shape a E :
  AggregationConvert a = Ok E ->
  exists op arg h, E = call_expression (AggregationOperator op) arg h.
Proof.
  unfold AggregationConvert. intros H.
  bind_inv H. bind_inv H. bind_inv H. bind_inv H. inversion H; subst.
  eexists _, _, _. reflexivity.
Qed.

(** The two outcomes of the first loop for one entry. *)
Lemma convert_slot_cases v v' :
  convert_slot v = Ok v' ->
  (exists vo a E,
      v = JObject vo /\ obj_find "aggregation" vo = Some (JObject a)
      /\ AggregationConvert (JObject a) = Ok E
      /\ v' = JObject (obj_set "aggregation"
                 (JObject (obj_set "expression" E
                    (obj_erase "argument" (obj_erase "operator" a)))) vo))
  \/ (v' = v
      /\ forall vo a, v = JObject vo -> obj_find "aggregation" vo <> Some (JObject a)).
Proof.
  unfold convert_slot. intros H.
  destruct v as [| | | | |vo]; try (inversion H; subst; right; split; [reflexivity|discriminate]).
  destruct (obj_find "aggregation" vo) as [w|] eqn:Ef.
  - destruct w as [| | | | |a];
      try (inversion H; subst; right; split; [reflexivity|];
           intros vo' a' Hv; inversion Hv; subst; congruence).
    bind_inv H. inversion H; subst. left. eexists _, _, _. eauto.
  - inversion H; subst. right. split; [reflexivity|].
    intros vo' a' Hv; inversion Hv; subst; congruence.
Qed.

Lemma convert_slot_object v vo' :
  convert_slot v = Ok (JObject vo') -> exists vo, v = JObject vo.
Proof.
  intros H. destruct (convert_slot_cases _ _ H) as [(vo & a & E & -> & _)|[<- _]]; eauto.
Qed.

Lemma Rewrite_object d v o' :
  RewriteAggregationsInternal d v = Ok (JObject o') ->
  exists d' o o1,
    d = S d' /\ v = JObject o
    /\ mapM_values convert_slot o = Ok o1
    /\ mapM_values (descend d') o1 = Ok o'.
Proof.
  destruct d as [|d]; [discriminate|]. rewrite Rewrite_unfold.
  destruct v; try discriminate.
  - intros H. bind_inv H. discriminate.
  - intros H. bind_inv H. bind_inv H. inversion H; subst. eexists _, _, _. eauto.
Qed.

Lemma descend_object d v o' :
  descend d v = Ok (JObject o') ->
  exists d' o o1,
    d = S d' /\ v = JObject o
    /\ mapM_values convert_slot o = Ok o1
    /\ mapM_values (descend d') o1 = Ok o'.
Proof.
  unfold descend. destruct (is_container v) eqn:E.
  - apply Rewrite_object.
  - intros H. inversion H; subst. discriminate.
Qed.


(** Take the successful steps of a computation apart. *)
Ltac ok_inv :=
  repeat match goal with
         | H : Ok _ = Ok _ |- _ => inversion H; subst; clear H
         | H : bind _ _ = Ok _ |- _ => bind_inv H
         | H : Throw _ = Ok _ |- _ => discriminate H
         | H : OutOfFuel = Ok _ |- _ => discriminate H
         end.

Lemma descend_JObject d o E :
  descend d (JObject o) = Ok E ->
  exists d' o1 o2,
    d = S d' /\ mapM_values convert_slot o = Ok o1
    /\ mapM_values (descend d') o1 = Ok o2 /\ E = JObject o2.
Proof.
  intros H.
  change (descend d (JObject o)) with (RewriteAggregationsInternal d (JObject o)) in H.
  destruct d as [|d]; [discriminate|]. rewrite Rewrite_unfold in H.
  ok_inv. eexists _, _, _; repeat split; try reflexivity; eassumption.
Qed.

Lemma descend_JArray d a E :
  descend d (JArray a) = Ok E ->
  exists d' a', d = S d' /\ mapM (descend d') a = Ok a' /\ E = JArray a'.
Proof.
  intros H.
  change (descend d (JArray a)) with (RewriteAggregationsInternal d (JArray a)) in H.
  destruct d as [|d]; [discriminate|]. rewrite Rewrite_unfold in H.
  ok_inv. eexists _, _; repeat split; try reflexivity; eassumption.
Qed.

Lemma descend_scalar d v : is_container v = false -> descend d v = Ok v.
Proof. unfold descend. intros ->. reflexivity. Qed.

(** One level of [descend] on a value whose outer shape is known. *)
Ltac descend_step :=
  match goal with
  | H : descend _ (JObject _) = Ok _ |- _ =>
      apply descend_JObject in H;
      let H1 := fresh "Hc" in
      let H2 := fresh "Hd" in
      destruct H as (? & ? & ? & -> & H1 & H2 & ->);
      simpl in H1; ok_inv; simpl in H2; ok_inv
  | H : descend _ (JArray _) = Ok _ |- _ =>
      apply descend_JArray in H;
      let H1 := fresh "Hd" in
      destruct H as (? & ? & -> & H1 & ->);
      simpl in H1; ok_inv
  | H : descend _ (JString _) = Ok _ |- _ =>
      rewrite descend_scalar in H by reflexivity; ok_inv
  | H : descend _ (JInt _) = Ok _ |- _ =>
      rewrite descend_scalar in H by reflexivity; ok_inv
  end.

(** The rewrite of a converted expression keeps its shape: the call stays,
    its argument and its heritage are rewritten as slots. *)
Lemma descend_call_expression d p arg h E' :
  descend d (call_expression p arg h) = Ok E' ->
  exists d1 d2 arg1 arg' h1 h',
    convert_slot arg = Ok arg1 /\ descend d1 arg1 = Ok arg'
    /\ convert_slot h = Ok h1 /\ descend d2 h1 = Ok h'
    /\ E' = call_expression p arg' h'.
Proof.
  unfold call_expression, Obj. simpl mkobj. intros H.
  repeat descend_step.
  eexists _, _, _, _, _, _. repeat split; eassumption.
Qed.

Lemma call_expression_no_aggregation p arg h :
  convert_slot (call_expression p arg h) = Ok (call_expression p arg h).
Proof. reflexivity. Qed.

Lemma descend_cases d v v' :
  descend d v = Ok v' ->
  (is_container v = false /\ v' = v)
  \/ (is_container v = true /\ RewriteAggregationsInternal d v = Ok v').
Proof.
  unfold descend. destruct (is_container v); intros H; [right|left]; split; auto.
  inversion H. reflexivity.
Qed.

Lemma obj_count_find k o : obj_count k o = false <-> obj_find k o = None.
Proof. unfold obj_count. destruct (obj_find k o); split; congruence. Qed.

(** The aggregation object of a slot that the first loop converted, after
    the second loop has descended into the slot. *)
Lemma converted_slot_descended d vo a E v2 vo2 a2 :
  AggregationConvert (JObject a) = Ok E ->
  descend d (JObject (obj_set "aggregation"
               (JObject (obj_set "expression" E
                  (obj_erase "argument" (obj_erase "operator" a)))) vo)) = Ok v2 ->
  v2 = JObject vo2 ->
  obj_find "aggregation" vo2 = Some (JObject a2) ->
  converted_aggregation a2.
Proof.
  intros HE Hd -> Hfind.
  set (a' := obj_set "expression" E (obj_erase "argument" (obj_erase "operator" a))) in *.
  assert (Hop : obj_find "operator" a' = None).
  { unfold a'. rewrite obj_find_set_other by discriminate.
    rewrite obj_find_erase_other by discriminate. apply obj_find_erase_same. }
  assert (Harg : obj_find "argument" a' = None).
  { unfold a'. rewrite obj_find_set_other by discriminate. apply obj_find_erase_same. }
  assert (Hex : obj_find "expression" a' = Some E) by apply obj_find_set_same.
  apply descend_JObject in Hd. destruct Hd as (d1 & o1 & o2 & -> & Hc & Hd & Heq).
  inversion Heq; subst o2. clear Heq.
  destruct (mapM_values_find_inv _ _ _ _ _ Hd Hfind) as (w1 & Hw1 & Hdw).
  destruct (mapM_values_find_inv _ _ _ _ _ Hc Hw1) as (w & Hw & Hcw).
  rewrite obj_find_set_same in Hw. inversion Hw; subst w. clear Hw.
  (* the first loop on the aggregation object itself *)
  assert (Hw1' : exists a1, w1 = JObject a1
                   /\ obj_find "operator" a1 = None
                   /\ obj_find "argument" a1 = None
                   /\ obj_find "expression" a1 = Some E).
  { destruct (convert_slot_cases _ _ Hcw) as [(vo' & a3 & E3 & Hv & _ & _ & ->)|[-> _]].
    - inversion Hv; subst vo'. eexists. split; [reflexivity|].
      rewrite !obj_find_set_other by discriminate. auto.
    - eauto. }
  destruct Hw1' as (a1 & -> & Hop1 & Harg1 & Hex1).
  apply descend_JObject in Hdw. destruct Hdw as (d2 & p1 & p2 & -> & Hc2 & Hd2 & Heq).
  inversion Heq; subst p2. clear Heq.
  pose proof (mapM_values_find _ _ _ "operator" Hc2) as Ho. rewrite Hop1 in Ho.
  pose proof (mapM_values_find _ _ _ "operator" Hd2) as Ho'. rewrite Ho in Ho'.
  pose proof (mapM_values_find _ _ _ "argument" Hc2) as Ha. rewrite Harg1 in Ha.
  pose proof (mapM_values_find _ _ _ "argument" Hd2) as Ha'. rewrite Ha in Ha'.
  pose proof (mapM_values_find _ _ _ "expression" Hc2) as He. rewrite Hex1 in He.
  destruct He as (E1 & HE1 & He).
  pose proof (mapM_values_find _ _ _ "expression" Hd2) as He'. rewrite He in He'.
  destruct He' as (E2 & HE2 & He').
  destruct (AggregationConvert_shape _ _ HE) as (op & arg & h & ->).
  rewrite call_expression_no_aggregation in HE1. inversion HE1; subst E1.
  destruct (descend_call_expression _ _ _ _ _ HE2)
    as (? & ? & ? & arg' & ? & h' & _ & _ & _ & _ & ->).
  split; [apply obj_count_find; exact Ho'|].
  split; [apply obj_count_find; exact Ha'|].
  exists op, arg', h'. exact He'.
Qed.

(** A slot that the first loop left alone is no aggregation slot after
    the second loop either. *)
Lemma plain_slot_descended d v v2 vo2 a2 :
  (forall vo a, v = JObject vo -> obj_find "aggregation" vo <> Some (JObject a)) ->
  descend d v = Ok v2 ->
  v2 = JObject vo2 ->
  obj_find "aggregation" vo2 = Some (JObject a2) ->
  False.
Proof.
  intros Hplain Hd -> Hfind.
  apply descend_object in Hd. destruct Hd as (d' & o & o1 & -> & -> & Hc & Hd).
  destruct (mapM_values_find_inv _ _ _ _ _ Hd Hfind) as (w1 & Hw1 & Hdw).
  destruct (mapM_values_find_inv _ _ _ _ _ Hc Hw1) as (w & Hw & Hcw).
  apply descend_object in Hdw. destruct Hdw as (d2 & a1 & p1 & -> & -> & _ & _).
  apply convert_slot_object in Hcw. destruct Hcw as (a & ->).
  exact (Hplain _ _ eq_refl Hw).
Qed.

Lemma Forall2_compose {A} (f g : A -> A -> Prop) (Q : A -> Prop) l1 l2 l3 :
  (forall x y z, f x y -> g y z -> Q z) ->
  Forall2 f l1 l2 -> Forall2 g l2 l3 -> Forall Q l3.
Proof.
  intros H H1. revert l3. induction H1; intros l3 H2; inversion H2; subst; constructor.
  - eapply H; eassumption.
  - apply IHForall2; assumption.
Qed.

Lemma RewriteAggregationsInternal_converts d :
  forall node out,
    RewriteAggregationsInternal d node = Ok out -> slots_converted out.
Proof.
  induction d as [|d IH]; intros node out H; [discriminate|].
  assert (Hdescend : forall v v', descend d v = Ok v' -> slots_converted v').
  { intros v v' Hv. destruct (descend_cases _ _ _ Hv) as [[Hs ->]|[_ Hr]].
    - apply sc_scalar. exact Hs.
    - eapply IH. exact Hr. }
  rewrite Rewrite_unfold in H. destruct node; ok_inv;
    try (apply sc_scalar; reflexivity).
  - apply sc_array. apply mapM_Ok in Hx.
    eapply Forall2_Forall_r with (P := fun _ => True); [|exact Hx].
    intros v v' _ Hv. eapply Hdescend. exact Hv.
  - apply sc_object.
    apply mapM_values_Ok in Hx, Hx0.
    eapply Forall2_compose; [|exact Hx|exact Hx0].
    intros [k v] [k1 v1] [k2 v2] [_ Hc] [_ Hd]. simpl in *.
    split; [|eapply Hdescend; exact Hd].
    intros vo2 a2 -> Hfind.
    destruct (convert_slot_cases _ _ Hc) as [(vo & a & E & -> & Hagg & HE & ->)|[-> Hplain]].
    + eapply converted_slot_descended; eauto.
    + exfalso. eapply plain_slot_descended; eauto.
Qed.

(** ** The rewrite returns

    The rewrite calls itself on the slots it has just made deeper;
    [rewrite_depth] bounds the depth of its calls. *)

Lemma rewrite_depth_object o : rewrite_depth (JObject o) = S (deepest_entry o).
Proof.
  unfold deepest_entry. simpl. f_equal.
  induction o as [|[k v] o IH]; simpl; [reflexivity|].
  rewrite IH. reflexivity.
Qed.

Lemma rewrite_depth_array a : rewrite_depth (JArray a) = S (list_max (map rewrite_depth a)).
Proof.
  simpl. f_equal. induction a as [|v a IH]; simpl; [reflexivity|].
  rewrite IH. reflexivity.
Qed.

Lemma deepest_entry_cons k v o :
  deepest_entry ((k, v) :: o) = Nat.max (slot_depth v) (deepest_entry o).
Proof. reflexivity. Qed.

Lemma deepest_entry_In k v o : In (k, v) o -> slot_depth v <= deepest_entry o.
Proof.
  induction o as [|[k' v'] o IH]; simpl; [tauto|].
  rewrite deepest_entry_cons. intros [H|H].
  - inversion H; subst. lia.
  - specialize (IH H). lia.
Qed.

Lemma obj_find_In k v o : obj_find k o = Some v -> In (k, v) o.
Proof.
  induction o as [|[k' v'] o IH]; simpl; [discriminate|].
  destruct (String.eqb k k') eqn:E.
  - apply String.eqb_eq in E. subst. intros H. inversion H. auto.
  - auto.
Qed.

Lemma deepest_entry_find k v o : obj_find k o = Some v -> slot_depth v <= deepest_entry o.
Proof. intros H. eapply deepest_entry_In, obj_find_In, H. Qed.

Lemma deepest_entry_set k x o :
  deepest_entry (obj_set k x o) <= Nat.max (slot_depth x) (deepest_entry o).
Proof.
  induction o as [|[k' v'] o IH]; simpl.
  - rewrite deepest_entry_cons. lia.
  - destruct (String.eqb k k'); [|destruct (String.ltb k k')];
      rewrite ?deepest_entry_cons in *; lia.
Qed.

Lemma deepest_entry_erase k o : deepest_entry (obj_erase k o) <= deepest_entry o.
Proof.
  unfold obj_erase. induction o as [|[k' v'] o IH]; simpl; [lia|].
  destruct (negb (String.eqb k k')); rewrite ?deepest_entry_cons; lia.
Qed.

Lemma rewrite_depth_scalar v : is_container v = false -> rewrite_depth v = 0.
Proof. destruct v; simpl; try reflexivity; discriminate. Qed.

Lemma at_key_find k a x : at_key k (JObject a) = Ok x -> obj_find k a = Some x.
Proof.
  unfold at_key, obj_at. simpl. destruct (obj_find k a); intros H; inversion H. reflexivity.
Qed.

Lemma AggregationConvert_parts a E :
  AggregationConvert (JObject a) = Ok E ->
  exists op arg h,
    obj_find "argument" a = Some arg
    /\ obj_find "expression_heritage" a = Some h
    /\ E = call_expression (AggregationOperator op) arg h.
Proof.
  unfold AggregationConvert. intros H.
  apply bind_Ok in H. destruct H as (o1 & _ & H).
  apply bind_Ok in H. destruct H as (op & _ & H).
  apply bind_Ok in H. destruct H as (arg & Harg & H).
  apply bind_Ok in H. destruct H as (h & Hh & H).
  inversion H; subst. exists op, arg, h.
  split; [apply at_key_find, Harg|]. split; [apply at_key_find, Hh|]. reflexivity.
Qed.

Lemma slot_depth_plain v : is_slot v = false -> slot_depth v = rewrite_depth v.
Proof. unfold slot_depth. intros ->. lia. Qed.

Ltac depth_step :=
  first [rewrite rewrite_depth_object | rewrite rewrite_depth_array];
  unfold deepest_entry, list_max; cbn [map fold_right snd].

Lemma call_expression_depth p arg h :
  rewrite_depth (call_expression p arg h)
  = S (Nat.max (5 + slot_depth arg) (slot_depth h)).
Proof.
  change (call_expression p arg h) with
    (JObject [("call",
       JObject [("predicate_name", JString p);
                ("record", JObject [("field_value", JArray [
                   JObject [("field", JInt 0);
                            ("value", JObject [("expression", arg)])]])])]);
      ("expression_heritage", h)]).
  depth_step. rewrite slot_depth_plain by reflexivity.
  depth_step. rewrite (slot_depth_plain (JString p)) by reflexivity.
  rewrite slot_depth_plain by reflexivity.
  depth_step. rewrite slot_depth_plain by reflexivity.
  depth_step. depth_step.
  rewrite (slot_depth_plain (JInt 0)) by reflexivity.
  rewrite slot_depth_plain by reflexivity.
  depth_step. change (rewrite_depth (JString p)) with 0.
  change (rewrite_depth (JInt 0)) with 0. lia.
Qed.

Lemma is_slot_converted a E :
  is_slot (JObject (obj_set "expression" E
                      (obj_erase "argument" (obj_erase "operator" a))))
  = is_slot (JObject a).
Proof.
  unfold is_slot.
  rewrite obj_find_set_other by discriminate.
  rewrite !obj_find_erase_other by discriminate. reflexivity.
Qed.

Lemma convert_slot_depth v v' :
  convert_slot v = Ok v' -> rewrite_depth v' <= slot_depth v.
Proof.
  intros H. destruct (convert_slot_cases _ _ H) as [(vo & a & E & -> & Hf & HE & ->)|[-> _]].
  - destruct (AggregationConvert_parts _ _ HE) as (op & arg & h & Harg & Hh & ->).
    pose proof (deepest_entry_find _ _ _ Hf) as Ha.
    pose proof (deepest_entry_find _ _ _ Harg) as Hargd.
    pose proof (deepest_entry_find _ _ _ Hh) as Hhd.
    assert (Hslot : is_slot (JObject vo) = true) by (unfold is_slot; rewrite Hf; reflexivity).
    unfold slot_depth. rewrite Hslot.
    rewrite !rewrite_depth_object.
    pose proof (deepest_entry_set "aggregation"
                  (JObject (obj_set "expression"
                     (call_expression (AggregationOperator op) arg h)
                     (obj_erase "argument" (obj_erase "operator" a)))) vo) as H1.
    set (a' := obj_set "expression" _ _) in *.
    assert (Ha' : slot_depth (JObject a') <= slot_depth (JObject a) + conversion_depth).
    { unfold slot_depth. subst a'. rewrite is_slot_converted.
      rewrite !rewrite_depth_object.
      pose proof (deepest_entry_set "expression"
                    (call_expression (AggregationOperator op) arg h)
                    (obj_erase "argument" (obj_erase "operator" a))) as H2.
      pose proof (deepest_entry_erase "argument" (obj_erase "operator" a)) as H3.
      pose proof (deepest_entry_erase "operator" a) as H4.
      rewrite (slot_depth_plain (call_expression _ _ _)) in H2 by reflexivity.
      rewrite call_expression_depth in H2.
      unfold conversion_depth. lia. }
    unfold conversion_depth in *. lia.
  - unfold slot_depth. lia.
Qed.

Lemma mapM_fuel {A B} (f : A -> result B) l :
  Forall (fun x => f x <> OutOfFuel) l -> mapM f l <> OutOfFuel.
Proof.
  induction 1 as [|x l Hx _ IH]; simpl; [discriminate|].
  destruct (f x); simpl; try congruence.
  destruct (mapM f l); simpl; congruence.
Qed.

Lemma mapM_values_fuel f o :
  Forall (fun kv => f (snd kv) <> OutOfFuel) o -> mapM_values f o <> OutOfFuel.
Proof.
  induction 1 as [|[k v] o Hx _ IH]; simpl in *; [discriminate|].
  destruct (f v); simpl; try congruence.
  destruct (mapM_values f o); simpl; congruence.
Qed.

Lemma convert_slot_fuel v : convert_slot v <> OutOfFuel.
Proof.
  unfold convert_slot. destruct v as [| | | | |vo]; try discriminate.
  destruct (obj_find "aggregation" vo) as [[| | | | |a]|]; try discriminate.
  unfold AggregationConvert, at_key, obj_at. simpl.
  destruct (obj_find "operator" a) as [[| | | | |]|]; simpl; try discriminate;
    destruct (obj_find "argument" a); simpl; try discriminate;
    destruct (obj_find "expression_heritage" a); simpl; discriminate.
Qed.

Lemma descend_fuel d v :
  (forall node, rewrite_depth node < d -> RewriteAggregationsInternal d node <> OutOfFuel) ->
  rewrite_depth v < d -> descend d v <> OutOfFuel.
Proof.
  intros IH Hv. unfold descend. destruct (is_container v); [|discriminate]. apply IH, Hv.
Qed.

(** With more depth than [rewrite_depth] counts, the rewrite does not stop
    for lack of depth: it returns or throws, as the source does. *)
Lemma RewriteAggregationsInternal_fuel depth :
  forall node,
    rewrite_depth node < depth ->
    RewriteAggregationsInternal depth node <> OutOfFuel.
Proof.
  induction depth as [|d IH]; intros node Hd; [lia|].
  rewrite Rewrite_unfold. destruct node as [| | | |a|o]; try discriminate.
  - rewrite rewrite_depth_array in Hd.
    destruct (mapM (descend d) a) eqn:E; simpl; try discriminate.
    exfalso. revert E. apply mapM_fuel. apply Forall_forall. intros v Hv.
    apply descend_fuel; [exact IH|].
    assert (rewrite_depth v <= list_max (map rewrite_depth a)).
    { pose proof (proj1 (list_max_le (map rewrite_depth a) _) (le_n _)) as Hall.
      rewrite Forall_forall in Hall. apply Hall, in_map, Hv. }
    lia.
  - rewrite rewrite_depth_object in Hd.
    destruct (mapM_values convert_slot o) as [o1| |] eqn:E1; simpl; try discriminate.
    + destruct (mapM_values (descend d) o1) eqn:E2; simpl; try discriminate.
      exfalso. revert E2. apply mapM_values_fuel.
      apply mapM_values_Ok in E1.
      assert (Hall : Forall (fun kv => slot_depth (snd kv) < d) o).
      { apply Forall_forall. intros [k v] Hin. simpl.
        pose proof (deepest_entry_In _ _ _ Hin). lia. }
      clear Hd. induction E1 as [|kv kv' o o1 [_ Hc] _ IHo]; [constructor|].
      inversion Hall; subst. constructor; [|auto].
      apply descend_fuel; [exact IH|].
      apply convert_slot_depth in Hc. lia.
    + exfalso. revert E1. apply mapM_values_fuel, Forall_forall.
      intros kv _. apply convert_slot_fuel.
Qed.


Lemma slots_complete_object o :
  slots_complete (JObject o) = forallb entry_complete o.
Proof.
  simpl. induction o as [|[k v] o IH]; simpl; [reflexivity|].
  rewrite IH. reflexivity.
Qed.

Lemma slots_complete_array a :
  slots_complete (JArray a) = forallb slots_complete a.
Proof.
  simpl. induction a as [|v a IH]; simpl; [reflexivity|].
  rewrite IH. reflexivity.
Qed.

Lemma entry_complete_set k x o :
  entry_complete (k, x) = true -> forallb entry_complete o = true ->
  forallb entry_complete (obj_set k x o) = true.
Proof.
  intros Hx. induction o as [|[k' v'] o IH]; simpl; intros Ho.
  - rewrite Hx. reflexivity.
  - apply andb_true_iff in Ho. destruct Ho as [H1 H2].
    destruct (String.eqb k k'); [|destruct (String.ltb k k')]; simpl.
    + rewrite Hx, H2. reflexivity.
    + rewrite Hx, H1, H2. reflexivity.
    + rewrite H1, IH by assumption. reflexivity.
Qed.

Lemma entry_complete_erase k o :
  forallb entry_complete o = true -> forallb entry_complete (obj_erase k o) = true.
Proof.
  unfold obj_erase. induction o as [|[k' v'] o IH]; simpl; [reflexivity|].
  intros Ho. apply andb_true_iff in Ho. destruct Ho as [H1 H2].
  destruct (negb (String.eqb k k')); simpl; rewrite ?H1, IH by assumption; reflexivity.
Qed.

Lemma entry_complete_find k v o :
  forallb entry_complete o = true -> obj_find k o = Some v ->
  slot_complete v = true /\ slots_complete v = true.
Proof.
  intros Ho Hf. apply obj_find_In in Hf.
  rewrite forallb_forall in Ho. specialize (Ho _ Hf).
  apply andb_true_iff in Ho. exact Ho.
Qed.

Lemma slot_complete_converted a E :
  slot_complete (JObject (obj_set "expression" E
                            (obj_erase "argument" (obj_erase "operator" a))))
  = slot_complete (JObject a).
Proof.
  unfold slot_complete.
  rewrite obj_find_set_other by discriminate.
  rewrite !obj_find_erase_other by discriminate. reflexivity.
Qed.

Lemma call_expression_complete p arg h :
  slot_complete arg = true -> slots_complete arg = true ->
  slot_complete h = true -> slots_complete h = true ->
  entry_complete ("expression", call_expression p arg h) = true.
Proof.
  intros H1 H2 H3 H4.
  change (call_expression p arg h) with
    (JObject [("call",
       JObject [("predicate_name", JString p);
                ("record", JObject [("field_value", JArray [
                   JObject [("field", JInt 0);
                            ("value", JObject [("expression", arg)])]])])]);
      ("expression_heritage", h)]).
  unfold entry_complete. cbn. rewrite H1, H2, H3, H4. reflexivity.
Qed.

Lemma convert_slot_complete v v' :
  convert_slot v = Ok v' ->
  slots_complete v = true -> slots_complete v' = true.
Proof.
  intros H Hv. destruct (convert_slot_cases _ _ H) as [(vo & a & E & -> & Hf & HE & ->)|[-> _]];
    [|exact Hv].
  destruct (AggregationConvert_parts _ _ HE) as (op & arg & h & Harg & Hh & ->).
  rewrite slots_complete_object in *.
  destruct (entry_complete_find _ _ _ Hv Hf) as [Ha1 Ha2].
  rewrite slots_complete_object in Ha2.
  destruct (entry_complete_find _ _ _ Ha2 Harg) as [? ?].
  destruct (entry_complete_find _ _ _ Ha2 Hh) as [? ?].
  apply entry_complete_set; [|exact Hv].
  unfold entry_complete. cbn [snd].
  rewrite slot_complete_converted, Ha1, slots_complete_object. simpl.
  apply entry_complete_set.
  - apply call_expression_complete; assumption.
  - apply entry_complete_erase, entry_complete_erase, Ha2.
Qed.

Lemma convert_slot_total v : slot_complete v = true -> exists v', convert_slot v = Ok v'.
Proof.
  unfold slot_complete, convert_slot. destruct v as [| | | | |vo]; eauto.
  destruct (obj_find "aggregation" vo) as [[| | | | |a]|]; eauto.
  destruct (AggregationConvert (JObject a)); try discriminate. simpl. eauto.
Qed.

Lemma mapM_total {A B} (f : A -> result B) l :
  Forall (fun x => exists y, f x = Ok y) l -> exists ys, mapM f l = Ok ys.
Proof.
  induction 1 as [|x l [y Hy] _ [ys IH]]; simpl; [eauto|].
  rewrite Hy, IH. simpl. eauto.
Qed.

Lemma mapM_values_total f o :
  Forall (fun kv => exists y, f (snd kv) = Ok y) o -> exists o', mapM_values f o = Ok o'.
Proof.
  induction 1 as [|[k v] o [y Hy] _ [ys IH]]; simpl in *; [eauto|].
  rewrite Hy, IH. simpl. eauto.
Qed.

Lemma descend_total d v :
  (forall node, slots_complete node = true -> rewrite_depth node < d ->
                exists out, RewriteAggregationsInternal d node = Ok out) ->
  slots_complete v = true -> rewrite_depth v < d -> exists out, descend d v = Ok out.
Proof.
  intros IH Hc Hv. unfold descend. destruct (is_container v); eauto.
Qed.

(** With more depth than [rewrite_depth] counts, the rewrite of a tree
    whose slots are complete returns. *)
Lemma RewriteAggregationsInternal_total depth :
  forall node,
    slots_complete node = true ->
    rewrite_depth node < depth ->
    exists out, RewriteAggregationsInternal depth node = Ok out.
Proof.
  induction depth as [|d IH]; intros node Hc Hd; [lia|].
  rewrite Rewrite_unfold. destruct node as [| | | |a|o]; eauto.
  - rewrite rewrite_depth_array in Hd. rewrite slots_complete_array in Hc.
    destruct (mapM_total (descend d) a) as [a' Ha'].
    { apply Forall_forall. intros v Hv. apply descend_total; [exact IH| |].
      - rewrite forallb_forall in Hc. auto.
      - assert (rewrite_depth v <= list_max (map rewrite_depth a)).
        { pose proof (proj1 (list_max_le (map rewrite_depth a) _) (le_n _)) as Hall.
          rewrite Forall_forall in Hall. apply Hall, in_map, Hv. }
        lia. }
    rewrite Ha'. simpl. eauto.
  - rewrite rewrite_depth_object in Hd. rewrite slots_complete_object in Hc.
    destruct (mapM_values_total convert_slot o) as [o1 Ho1].
    { apply Forall_forall. intros kv Hin. apply convert_slot_total.
      rewrite forallb_forall in Hc. specialize (Hc _ Hin).
      apply andb_true_iff in Hc. tauto. }
    rewrite Ho1. simpl.
    destruct (mapM_values_total (descend d) o1) as [o2 Ho2].
    { apply mapM_values_Ok in Ho1.
      assert (Hall : Forall (fun kv => slot_depth (snd kv) < d
                                       /\ slots_complete (snd kv) = true) o).
      { apply Forall_forall. intros [k v] Hin. simpl.
        pose proof (deepest_entry_In _ _ _ Hin).
        rewrite forallb_forall in Hc. specialize (Hc _ Hin).
        apply andb_true_iff in Hc. simpl in Hc. split; [lia|tauto]. }
      clear Hd Hc. induction Ho1 as [|kv kv' o o1 [_ Hcv] _ IHo]; [constructor|].
      inversion Hall as [|? ? [Hk1 Hk2] Hrest]; subst. constructor; [|auto].
      apply descend_total; [exact IH| |].
      - eapply convert_slot_complete; eassumption.
      - apply convert_slot_depth in Hcv. lia. }
    rewrite Ho2. simpl. eauto.
Qed.

(** ** The result, slot by slot *)

Lemma AggregationConvert_full a E :
  AggregationConvert (JObject a) = Ok E ->
  exists op arg h,
    obj_find "operator" a = Some (JString op)
    /\ obj_find "argument" a = Some arg
    /\ obj_find "expression_heritage" a = Some h
    /\ E = call_expression (AggregationOperator op) arg h.
Proof.
  unfold AggregationConvert. intros H.
  apply bind_Ok in H. destruct H as (o1 & Hop & H).
  apply bind_Ok in H. destruct H as (op & Hstr & H).
  apply bind_Ok in H. destruct H as (arg & Harg & H).
  apply bind_Ok in H. destruct H as (h & Hh & H).
  inversion H; subst. exists op, arg, h.
  destruct o1; try discriminate Hstr. inversion Hstr; subst.
  split; [apply at_key_find, Hop|].
  split; [apply at_key_find, Harg|]. split; [apply at_key_find, Hh|]. reflexivity.
Qed.

Lemma convert_slot_conversion v v1 :
  convert_slot v = Ok v1 -> slot_conversion v v1.
Proof.
  intros H.
  destruct (convert_slot_cases _ _ H) as [(vo & a & E & -> & Hagg & HE & ->)|[-> Hplain]].
  - right. destruct (AggregationConvert_full _ _ HE) as (op & arg & h & Hop & Harg & Hh & ->).
    exists vo, a, op, arg, h. auto 6.
  - left. split; [|reflexivity]. unfold is_slot.
    destruct v as [| | | | |vo]; try reflexivity.
    destruct (obj_find "aggregation" vo) as [w|] eqn:E; [|reflexivity].
    destruct w; try reflexivity. exfalso. eapply Hplain; [reflexivity|exact E].
Qed.

Lemma Forall2_chain {A B C} (f : A -> B -> Prop) (g : B -> C -> Prop) l1 l2 l3 :
  Forall2 f l1 l2 -> Forall2 g l2 l3 ->
  Forall2 (fun x z => exists y, f x y /\ g y z) l1 l3.
Proof.
  intros H1. revert l3. induction H1; intros l3 H2; inversion H2; subst; constructor; eauto.
Qed.

Lemma RewriteAggregationsInternal_rewrite d :
  forall node out,
    RewriteAggregationsInternal d node = Ok out -> aggregation_rewrite node out.
Proof.
  induction d as [|d IH]; intros node out H; [discriminate|].
  assert (Hdescend : forall v v', descend d v = Ok v' -> aggregation_rewrite v v').
  { intros v v' Hv. destruct (descend_cases _ _ _ Hv) as [[Hs ->]|[_ Hr]].
    - apply rewrite_scalar. exact Hs.
    - eapply IH. exact Hr. }
  rewrite Rewrite_unfold in H. destruct node; ok_inv;
    try (apply rewrite_scalar; reflexivity).
  - apply rewrite_array. apply mapM_Ok in Hx.
    eapply Forall2_impl; [|exact Hx]. intros v v' Hv. apply Hdescend. exact Hv.
  - apply rewrite_object.
    apply mapM_values_Ok in Hx, Hx0.
    pose proof (Forall2_chain _ _ _ _ _ Hx Hx0) as Hchain.
    eapply Forall2_impl; [|exact Hchain].
    intros [k v] [k2 v2] ([k1 v1] & [Hk Hc] & [Hk' Hd]). simpl in *.
    split; [congruence|]. exists v1. split.
    + apply convert_slot_conversion. exact Hc.
    + apply Hdescend. exact Hd.
Qed.


(** What [aggregation_rewrite] makes of the expression of a converted
    slot: the call stays a call of the same operator, and only its
    argument is rewritten. *)
Lemma aggregation_rewrite_call p arg h out :
  is_container h = false ->
  aggregation_rewrite (call_expression p arg h) out ->
  exists arg1 arg',
    slot_conversion arg arg1 /\ aggregation_rewrite arg1 arg'
    /\ out = call_expression p arg' h.
Proof.
  intros Hh H.
  assert (Hkeep : forall v v1, is_slot v = false -> slot_conversion v v1 -> v1 = v).
  { intros v v1 Hv [[_ ->]|(vo & a & op & arg0 & h0 & -> & Ha & _)]; [reflexivity|].
    unfold is_slot in Hv. cbn in Hv. rewrite Ha in Hv. discriminate. }
  assert (Hscalar : forall j j', is_container j = false -> aggregation_rewrite j j' -> j' = j).
  { intros j j' Hj Hr. inversion Hr; subst; [reflexivity|discriminate ..]. }
  assert (Hobject : forall o out0,
             aggregation_rewrite (JObject o) out0 ->
             exists o', out0 = JObject o'
               /\ Forall2 (fun kv kv' =>
                             fst kv' = fst kv
                             /\ exists v1, slot_conversion (snd kv) v1
                                           /\ aggregation_rewrite v1 (snd kv')) o o').
  { intros o out0 Hr. inversion Hr; subst; [discriminate|]. eauto. }
  assert (Hentry : forall (k : string) (v : Json) (kv' : string * Json),
             is_slot v = false ->
             (fst kv' = fst (k, v)
              /\ exists v1, slot_conversion (snd (k, v)) v1
                            /\ aggregation_rewrite v1 (snd kv')) ->
             exists v', kv' = (k, v') /\ aggregation_rewrite v v').
  { intros k v [k' v'] Hv (Hk & v1 & Hsc & Hr). cbn [fst snd] in *. subst k'.
    apply Hkeep in Hsc; [subst v1|exact Hv]. eauto. }
  apply Hobject in H. destruct H as (o1 & -> & H).
  inversion H as [|? e1 ? t1 He1 Ht1]; subst; clear H.
  inversion Ht1 as [|? e2 ? t2 He2 Ht2]; subst; clear Ht1.
  inversion Ht2; subst; clear Ht2.
  apply Hentry in He1; [|reflexivity]. destruct He1 as (call' & -> & Hcall).
  apply Hentry in He2; [|destruct h; try reflexivity; discriminate].
  destruct He2 as (h' & -> & Hh'). apply Hscalar in Hh'; [subst h'|exact Hh].
  apply Hobject in Hcall. destruct Hcall as (o2 & -> & H).
  inversion H as [|? e1 ? t1 He1 Ht1]; subst; clear H.
  inversion Ht1 as [|? e2 ? t2 He2 Ht2]; subst; clear Ht1.
  inversion Ht2; subst; clear Ht2.
  apply Hentry in He1; [|reflexivity]. destruct He1 as (name' & -> & Hname).
  apply Hscalar in Hname; [subst name'|reflexivity].
  apply Hentry in He2; [|reflexivity]. destruct He2 as (record' & -> & Hrecord).
  apply Hobject in Hrecord. destruct Hrecord as (o3 & -> & H).
  inversion H as [|? e1 ? t1 He1 Ht1]; subst; clear H.
  inversion Ht1; subst; clear Ht1.
  apply Hentry in He1; [|reflexivity]. destruct He1 as (fvs' & -> & Hfvs).
  inversion Hfvs as [? Hc| ? a' Ha |]; subst; [discriminate|]. clear Hfvs.
  inversion Ha as [|? fv' ? t1 Hfv Ht1]; subst; clear Ha.
  inversion Ht1; subst; clear Ht1.
  apply Hobject in Hfv. destruct Hfv as (o4 & -> & H).
  inversion H as [|? e1 ? t1 He1 Ht1]; subst; clear H.
  inversion Ht1 as [|? e2 ? t2 He2 Ht2]; subst; clear Ht1.
  inversion Ht2; subst; clear Ht2.
  apply Hentry in He1; [|reflexivity]. destruct He1 as (field' & -> & Hfield).
  apply Hscalar in Hfield; [subst field'|reflexivity].
  apply Hentry in He2; [|reflexivity]. destruct He2 as (value' & -> & Hvalue).
  apply Hobject in Hvalue. destruct Hvalue as (o5 & -> & H).
  inversion H as [|? e1 ? t1 He1 Ht1]; subst; clear H.
  inversion Ht1; subst; clear Ht1.
  destruct e1 as [k' arg']. destruct He1 as (Hk & arg1 & Hsc & Hr).
  cbn [fst snd] in *. subst k'.
  exists arg1, arg'. split; [exact Hsc|]. split; [exact Hr|]. reflexivity.
Qed.




(** ** [ParseImport] *)

Lemma circular_chain_snoc chain importer name :
  circular_chain (chain ++ [importer]) name
  = circular_chain chain (importer ++ "->" ++ name)%string.
Proof. unfold circular_chain. rewrite fold_right_app. reflexivity. Qed.

Lemma set_count_insert_same x s : set_count x (set_insert x s) = true.
Proof.
  unfold set_count. induction s as [|y s IH]; simpl.
  - rewrite String.eqb_refl. reflexivity.
  - destruct (String.eqb x y) eqn:E; [|destruct (String.ltb x y)]; simpl.
    + rewrite E. reflexivity.
    + rewrite String.eqb_refl. reflexivity.
    + rewrite E. exact IH.
Qed.

Lemma set_count_insert_other x y s :
  x <> y -> set_count x (set_insert y s) = set_count x s.
Proof.
  intros Hne. apply String.eqb_neq in Hne.
  unfold set_count. induction s as [|z s IH]; simpl.
  - rewrite Hne. reflexivity.
  - destruct (String.eqb y z) eqn:E; [|destruct (String.ltb y z)]; simpl.
    + reflexivity.
    + rewrite Hne. reflexivity.
    + rewrite IH. reflexivity.
Qed.

(** An import that throws ends the loop over the statements. *)
Lemma statement_loop_import_throws import_ depth chain statements st stmt f e :
  List.find (fun s => negb (empty s)) statements = Some stmt ->
  imported_file stmt = Some f ->
  import_ f (fl_env st) chain = Throw e ->
  statement_loop import_ depth chain statements st = Throw e.
Proof.
  intros Hfind Hfile Himp. induction statements as [|s statements IH]; simpl in *.
  - discriminate.
  - destruct (empty s) eqn:Es; simpl in Hfind; [exact (IH Hfind)|].
    inversion Hfind; subst s. unfold imported_file in Hfile.
    destruct (starts_with stmt "import "); [|discriminate].
    destruct (SplitImport _) as [[[f' p] syn]| |]; try discriminate.
    inversion Hfile; subst f'. simpl. rewrite Himp. reflexivity.
Qed.

Lemma ParseFileInternal_body_import_throws import_ depth content name env chain f e :
  first_import content = Some f ->
  (forall env',
      parsed_imports env' = parsed_imports env ->
      in_progress env' = in_progress env ->
      import_ f env' (chain ++ [name]) = Throw e) ->
  ParseFileInternal_body import_ depth content name env chain = Throw e.
Proof.
  intros Hfirst Himp. unfold first_import in Hfirst. unfold ParseFileInternal_body.
  destruct (RemoveComments (SpanOf content)) as [text_| |]; simpl in *; try discriminate.
  destruct (Split (SpanOf text_) ";") as [statements| |]; simpl in *; try discriminate.
  destruct (List.find _ statements) as [stmt|] eqn:Hfind; [|discriminate].
  erewrite statement_loop_import_throws; [reflexivity|exact Hfind|exact Hfirst|].
  simpl. apply Himp; destruct (String.eqb _ "main"); reflexivity.
Qed.

(** The import that is being resolved is in the in-progress set already:
    the error reports the chain and the import. *)
Lemma ParseImport_in_progress fs import_root PFI name env chain :
  obj_find name (parsed_imports env) = None ->
  set_count name (in_progress env) = true ->
  ParseImport fs import_root PFI name env chain
  = throw_parsing
      ("Circular imports are not allowed: " ++ circular_chain chain name)
      (SpanOf (chars name)).
Proof.
  intros Hparsed Hprogress. unfold ParseImport.
  rewrite Hparsed, Hprogress. reflexivity.
Qed.

(** An error in the imported file is the error of the import. *)
Lemma ParseImport_file_throws fs import_root PFI name env chain content e :
  obj_find name (parsed_imports env) = None ->
  set_count name (in_progress env) = false ->
  find_file fs (search_roots import_root) (import_path name) = Some content ->
  PFI content name
      (MkEnv (parsed_imports env) (set_insert name (in_progress env)) (too_much_fun env))
      chain = Throw e ->
  ParseImport fs import_root PFI name env chain = Throw e.
Proof.
  intros Hparsed Hprogress Hfile Hthrow. unfold ParseImport.
  rewrite Hparsed, Hprogress.
  change (find_file fs (if null import_root then [EmptyString] else import_root) _)
    with (find_file fs (search_roots import_root) (import_path name)).
  rewrite Hfile, Hthrow. reflexivity.
Qed.

(** C8.  When the file [a] imports [b] and [b] imports [a] (each with the
    import as its first statement), the import of [a], from the chain of
    files [chain], fails when the import of [a] inside [b] is resolved:
    [a] is in the in-progress set then, and [ParseImport] throws the
    parsing error "Circular imports are not allowed: " followed by the
    chain, [a], [b] and [a] again, joined by [->]: the message reports
    the chain of imports and names both files. *)
Theorem ParseImport_circular (fs : FileSystem) (import_root : list string)
    (depth : nat) (a b : string) (content_a content_b : list ascii)
    (env : Env) (chain : list string) :
  a <> b ->
  obj_find a (parsed_imports env) = None ->
  set_count a (in_progress env) = false ->
  obj_find b (parsed_imports env) = None ->
  set_count b (in_progress env) = false ->
  find_file fs (search_roots import_root) (import_path a) = Some content_a ->
  find_file fs (search_roots import_root) (import_path b) = Some content_b ->
  first_import content_a = Some b ->
  first_import content_b = Some a ->
  ParseImport fs import_root (ParseFileInternal fs import_root (S (S depth))) a env chain
  = throw_parsing
      ("Circular imports are not allowed: "
       ++ circular_chain chain (a ++ "->" ++ b ++ "->" ++ a))
      (SpanOf (chars a)).
Proof.
  intros Hab Hpa Hia Hpb Hib Hfa Hfb Hab_import Hba_import.
  apply ParseImport_file_throws with content_a; try assumption.
  cbn [ParseFileInternal].
  apply ParseFileInternal_body_import_throws with b; [exact Hab_import|].
  intros env1 Hp1 Hi1. simpl in Hp1, Hi1.
  apply ParseImport_file_throws with content_b; try assumption.
  - rewrite Hp1. exact Hpb.
  - rewrite Hi1. rewrite set_count_insert_other by congruence. exact Hib.
  - cbn [ParseFileInternal].
    apply ParseFileInternal_body_import_throws with a; [exact Hba_import|].
    intros env2 Hp2 Hi2. simpl in Hp2, Hi2.
    rewrite ParseImport_in_progress.
    + rewrite !circular_chain_snoc. reflexivity.
    + rewrite Hp2, Hp1. exact Hpa.
    + rewrite Hi2, Hi1. rewrite set_count_insert_other by congruence.
      apply set_count_insert_same.
Qed.

Lemma ParseImport_circular_witness :
  message_of
    (ParseImport two_files [] (ParseFileInternal two_files [] 2)
       "a" (MkEnv [] [] false) ["main"])
  = Some "Circular imports are not allowed: main->a->b->a".
Proof.
  rewrite (ParseImport_circular two_files [] 0 "a" "b"
             (chars "import b.Foo; Bar(x) :- Foo(x);")
             (chars "import a.Bar; Foo(x) :- Bar(x);")
             (MkEnv [] [] false) ["main"]).
  - reflexivity.
  - discriminate.
  - reflexivity.
  - reflexivity.
  - reflexivity.
  - reflexivity.
  - reflexivity.
  - reflexivity.
  - reflexivity.
  - reflexivity.
Defined.

(** The scenario from source text: [main] imports [a], [a] imports [b] and
    [b] imports [a]. *)
Example circular_import_end_to_end :
  message_of (ParseFile two_files [] 20 (chars "import a.Bar; Q(x) :- Bar(x);") "main")
  = Some "Circular imports are not allowed: main->a->b->a".
Proof. vm_compute. reflexivity. Qed.

Example import_end_to_end :
  exists parsed names,
    ParseFile two_files [] 20
      (chars "import lib.util.Helper as H; Q(x) :- H(x);") "main" = Ok parsed
    /\ (r <- at_key "rule" parsed ;; a <- as_array r ;; DefinedPredicates a) = Ok names
    /\ names = ["Q"; "Util_Helper"].
Proof.
  destruct (ParseFile two_files [] 20
              (chars "import lib.util.Helper as H; Q(x) :- H(x);") "main")
    as [parsed| |] eqn:E; [|vm_compute in E; discriminate ..].
  exists parsed. eexists. split; [reflexivity|].
  vm_compute in E. inversion E; subst. split; vm_compute; reflexivity.
Qed.


(** ** Rule heads: aggregation and [distinct] *)
Lemma push_field_value_spec call fv call' :
  push_field_value call fv = Ok call' ->
  exists fvs, field_values_of call = Ok fvs /\ field_values_of call' = Ok (fvs ++ [fv]).
Proof.
  unfold push_field_value, field_values_of, at_key. intros H. ok_inv.
  destruct call; simpl in Hx; ok_inv.
  simpl. rewrite Hx0. simpl. rewrite Hx1. simpl. rewrite Hx2. simpl. rewrite Hx3. simpl.
  eexists. split; [reflexivity|].
  unfold obj_at. rewrite obj_find_set_same. simpl. rewrite obj_find_set_same. reflexivity.
Qed.

Lemma check_agg_loop_Ok call_str fvs :
  check_agg_loop call_str fvs = Ok tt -> Forall (fun fv => is_aggregated fv = Ok false) fvs.
Proof.
  induction fvs as [|fv fvs IH]; simpl; intros H; [constructor|].
  bind_inv H. destruct x; [discriminate|]. constructor; auto.
Qed.

Lemma check_agg_Ok d call_str call :
  check_agg d call_str call = Ok tt -> d = false ->
  exists fvs, field_values_of call = Ok fvs
              /\ Forall (fun fv => is_aggregated fv = Ok false) fvs.
Proof.
  intros H ->. unfold check_agg in H. bind_inv H.
  exists x. split; [assumption|]. eapply check_agg_loop_Ok; eauto.
Qed.

Lemma Split_wf s sep parts : Split s sep = Ok parts -> Forall wf parts.
Proof.
  unfold Split. intros H. bind_inv H. inversion H; subst.
  apply Forall_forall. intros p Hp. apply in_map_iff in Hp.
  destruct Hp as (r & <- & _). apply Strip_wf.
Qed.

Lemma str_nonempty s : wf s -> empty s = false -> str s <> EmptyString.
Proof.
  intros Hwf He. unfold empty in He. apply Nat.eqb_neq in He.
  rewrite <- (view_length_wf s Hwf) in He. unfold str, text.
  destruct (view s); simpl in *; [lia|discriminate].
Qed.

Lemma ParseHeadCall_flag fm PE s d call b :
  ParseHeadCall fm PE s d = Ok (call, b) ->
  if b then
    exists fvs op arg h,
      op <> EmptyString
      /\ field_values_of call = Ok (fvs ++ [logica_value_aggregation op arg h])
  else
    d = false ->
    exists fvs, field_values_of call = Ok fvs
                /\ Forall (fun fv => is_aggregated fv = Ok false) fvs.
Proof.
  unfold ParseHeadCall. intros H. bind_inv H. destruct x as [saw i].
  destruct saw; simpl in H; [|discriminate].
  bind_inv H. destruct x as [c|]; [|discriminate].
  bind_inv H. destruct x as [|p0 [|p1 [|p2 ps]]]; try discriminate.
  - destruct (empty p0); simpl in H; [|discriminate].
    bind_inv H. inversion H; subst. destruct x. eapply check_agg_Ok; eassumption.
  - pose proof (Split_wf _ _ _ Hx1) as Hwf. inversion Hwf as [|? ? Hwf0 _]; subst.
    destruct (empty p0) eqn:E.
    + bind_inv H. bind_inv H. bind_inv H. inversion H; subst. destruct x1.
      eapply check_agg_Ok; eassumption.
    + bind_inv H. bind_inv H. inversion H; subst.
      match goal with
      | Hp : push_field_value _ _ = Ok _ |- _ =>
          apply push_field_value_spec in Hp; destruct Hp as (fvs & _ & Hfvs)
      end.
      exists fvs, (str p0). eexists _, _.
      split; [apply str_nonempty; assumption|]. exact Hfvs.
Qed.

Lemma obj_find_set_if f k v k' o :
  k <> k' -> obj_find k' (set_if f k v o) = obj_find k' o.
Proof. intros H. unfold set_if. destruct f; [apply obj_find_set_other; exact H|reflexivity]. Qed.

Lemma obj_find_set_some k v k' o :
  k <> k' -> obj_find k' (set_some k v o) = obj_find k' o.
Proof. intros H. unfold set_some. destruct v; [apply obj_find_set_other; exact H|reflexivity]. Qed.

Lemma In_app_last {A} (x y : A) l : In x (l ++ [y]) -> In x l \/ x = y.
Proof. intros H. apply in_app_or in H. destruct H as [H|[H|[]]]; auto. Qed.

(** The head of a parsed rule is what [ParseHeadCall] returned, on the
    head text with ([d]) or without the [distinct] suffix. *)
Lemma ParseRule_structure fm PE PP s rule :
  ParseRule fm PE PP s = Ok rule ->
  exists head_text d call b,
    ParseHeadCall fm PE head_text d = Ok (call, b)
    /\ at_key "head" rule = Ok call
    /\ (b || d = true -> at_key "distinct_denoted" rule = Ok (JBool true)).
Proof.
  intros H.
  unfold ParseRule in H. bind_inv H.
  destruct (2 <? length x); [discriminate|].
  bind_inv H. destruct x0 as [[h1 couldbe] n1].
  bind_inv H. destruct x0 as [[h2 cantbe] n2].
  bind_inv H. destruct x0 as [[h3 shouldbe] n3].
  bind_inv H. destruct x0 as [[h4 limit] limit_what].
  bind_inv H. destruct x0 as [[h5 order_by] order_by_what].
  bind_inv H. bind_inv H. bind_inv H. inversion H; subst. clear H.
  assert (Hkeep : forall k, k <> "full_text" -> k <> "body" -> k <> "limit_denoted" ->
                    k <> "orderby_denoted" -> k <> "shouldbe_denoted" ->
                    k <> "cantbe_denoted" -> k <> "couldbe_denoted" ->
                    obj_find k (obj_set "full_text" (JString (str s)) x2) = obj_find k x1).
  { intros k K1 K2 K3 K4 K5 K6 K7.
    rewrite obj_find_set_other by congruence.
    assert (Hrest : obj_find k
              (set_some "limit_denoted" limit_what
                 (set_some "orderby_denoted" order_by_what
                    (set_if shouldbe "shouldbe_denoted" (JBool true)
                       (set_if cantbe "cantbe_denoted" (JBool true)
                          (set_if couldbe "couldbe_denoted" (JBool true) x1)))))
              = obj_find k x1).
    { rewrite !obj_find_set_some, !obj_find_set_if by congruence. reflexivity. }
    destruct x as [|p0 [|p1 [|p2 ps]]]; ok_inv; try exact Hrest.
    rewrite obj_find_set_other by congruence. exact Hrest. }
  unfold at_key. simpl. unfold obj_at.
  rewrite !Hkeep by discriminate.
  destruct (length x0 =? 1).
  - apply bind_Ok in Hx6. destruct Hx6 as ([parsed_head is_distinct] & Hcall & Hx6).
    inversion Hx6; subst.
    exists h5, false, parsed_head, is_distinct. split; [assumption|].
    rewrite !obj_find_set_if by discriminate. simpl.
    split; [reflexivity|].
    rewrite orb_false_r. intros ->. reflexivity.
  - destruct x0 as [|hd0 [|hd1 [|hd2 hds]]]; try discriminate.
    destruct (negb (empty hd1)); [discriminate|].
    apply bind_Ok in Hx6. destruct Hx6 as ([parsed_head is_distinct] & Hcall & Hx6).
    inversion Hx6; subst.
    exists hd0, true, parsed_head, is_distinct. split; [assumption|].
    simpl. split; [reflexivity|]. intros _. reflexivity.
Qed.

(** ** The head of a rule, from its text *)

(** What [ParseRule] does after [ParseHeadCall] has returned. *)
Lemma ParseRule_head fm PE PP s head head_text suffix :
  rule_head PE s head -> distinct_suffix head head_text suffix ->
  exists finish : Json -> bool -> result Json,
    ParseRule fm PE PP s
    = (ph <- ParseHeadCall fm PE head_text suffix ;; finish (fst ph) (snd ph))
    /\ forall parsed_head is_distinct rule,
         finish parsed_head is_distinct = Ok rule ->
         at_key "head" rule = Ok parsed_head
         /\ (is_distinct || suffix = true ->
             at_key "distinct_denoted" rule = Ok (JBool true)).
Proof.
  intros (parts & d1 & d2 & d3 & d4 & d5 & Hsplit & Hlen & G1 & G2 & G3 & G4 & G5 & ->)
         (head_distinct & Hd & Hsuffix).
  destruct d1 as [[h1 couldbe] n1], d2 as [[h2 cantbe] n2], d3 as [[h3 shouldbe] n3],
    d4 as [[h4 limit] limit_what], d5 as [[h5 order_by] order_by_what].
  cbn [fst snd] in *.
  exists (fun parsed_head is_distinct =>
    let rule :=
      if suffix then obj_set "distinct_denoted" (JBool true) (obj_set "head" parsed_head [])
      else set_if is_distinct "distinct_denoted" (JBool true)
             (obj_set "head" parsed_head []) in
    let rule := set_if couldbe "couldbe_denoted" (JBool true) rule in
    let rule := set_if cantbe "cantbe_denoted" (JBool true) rule in
    let rule := set_if shouldbe "shouldbe_denoted" (JBool true) rule in
    let rule := set_some "orderby_denoted" order_by_what rule in
    let rule := set_some "limit_denoted" limit_what rule in
    rule <-
      (match parts with
       | [_; body] => b <- PP body ;; Ok (obj_set "body" b rule)
       | _ => Ok rule
       end) ;;
    Ok (JObject (obj_set "full_text" (JString (str s)) rule))).
  split.
  - unfold ParseRule. rewrite Hsplit. cbn [bind].
    replace (2 <? length parts) with false by (symmetry; apply Nat.ltb_ge; exact Hlen).
    rewrite G1. cbn [bind]. rewrite G2. cbn [bind]. rewrite G3. cbn [bind].
    rewrite G4. cbn [bind]. rewrite G5. cbn [bind]. rewrite Hd. cbn [bind].
    destruct suffix.
    + destruct Hsuffix as (rest & -> & Hrest). cbn [length Nat.eqb].
      rewrite Hrest. cbn [negb].
      destruct (ParseHeadCall fm PE head_text true) as [[ph b]| |]; reflexivity.
    + destruct Hsuffix as (Hone & ->). rewrite Hone. cbn [Nat.eqb].
      destruct (ParseHeadCall fm PE h5 false) as [[ph b]| |]; reflexivity.
  - intros parsed_head is_distinct rule H. cbv zeta in H.
    match type of H with
    | bind ?c _ = _ => destruct c as [rule1| |] eqn:Hbody; try discriminate H
    end.
    cbn [bind] in H. inversion H; subst rule. clear H.
    set (rule0 := if suffix
                  then obj_set "distinct_denoted" (JBool true) (obj_set "head" parsed_head [])
                  else set_if is_distinct "distinct_denoted" (JBool true)
                         (obj_set "head" parsed_head [])) in *.
    assert (Hkeep : forall k, k <> "full_text" -> k <> "body" -> k <> "limit_denoted" ->
                      k <> "orderby_denoted" -> k <> "shouldbe_denoted" ->
                      k <> "cantbe_denoted" -> k <> "couldbe_denoted" ->
                      obj_find k (obj_set "full_text" (JString (str s)) rule1)
                      = obj_find k rule0).
    { intros k K1 K2 K3 K4 K5 K6 K7.
      rewrite obj_find_set_other by congruence.
      assert (Hrest : obj_find k
                (set_some "limit_denoted" limit_what
                   (set_some "orderby_denoted" order_by_what
                      (set_if shouldbe "shouldbe_denoted" (JBool true)
                         (set_if cantbe "cantbe_denoted" (JBool true)
                            (set_if couldbe "couldbe_denoted" (JBool true) rule0)))))
                = obj_find k rule0).
      { rewrite !obj_find_set_some, !obj_find_set_if by congruence. reflexivity. }
      destruct parts as [|p0 [|p1 [|p2 ps]]]; ok_inv; try exact Hrest.
      rewrite obj_find_set_other by congruence. exact Hrest. }
    unfold at_key. cbn [as_object bind]. unfold obj_at.
    rewrite !Hkeep by discriminate. subst rule0.
    destruct suffix.
    + split; [reflexivity|]. intros _. reflexivity.
    + rewrite !obj_find_set_if by discriminate. split; [reflexivity|].
      rewrite orb_false_r. intros ->. reflexivity.
Qed.

(** ** The fields of a parsed call *)

(** Every round of the loop of [ParseRecordInternals] adds one field,
    which has a value to check for an aggregation; the field of a text
    that splits at [?] holds one. *)
Lemma RecordInternals_step_field PE lit agg i ft st st' :
  RecordInternals_step PE lit agg i ft st = Ok st' ->
  exists fv b,
    fields st' = fields st ++ [fv]
    /\ is_aggregated fv = Ok b
    /\ (starts_with ft ".." = false ->
        forall one field value,
          SplitInOneOrTwo ft ":" = Ok (inl one) ->
          SplitInOneOrTwo ft "?" = Ok (inr (field, value)) ->
          b = true).
Proof.
  unfold RecordInternals_step. intros H.
  destruct (had_restof st); [discriminate|].
  destruct (starts_with ft "..") eqn:Edots.
  - destruct lit; [discriminate|].
    apply bind_Ok in H. destruct H as (e & _ & H). inversion H. cbn [fields].
    eexists _, false. split; [reflexivity|]. split; [|discriminate].
    destruct (negb (null (observed_fields st))); reflexivity.
  - apply bind_Ok in H. destruct H as (colon & Hcolon & H).
    destruct colon as [one|[field value]].
    + apply bind_Ok in H. destruct H as (question & Hquestion & H).
      destruct question as [one'|[field value]].
      * destruct (positional_ok st); [|discriminate].
        apply bind_Ok in H. destruct H as (e & _ & H). inversion H. cbn [fields].
        eexists _, false. split; [reflexivity|]. split; [reflexivity|].
        intros _ one0 field value _ Hq. congruence.
      * destruct (negb agg); [discriminate|].
        destruct (empty field); [discriminate|].
        apply bind_Ok in H. destruct H as ([op expr] & _ & H).
        apply bind_Ok in H. destruct H as (argument & _ & H). inversion H. cbn [fields].
        eexists _, true. split; [reflexivity|]. split; [reflexivity|]. reflexivity.
    + apply bind_Ok in H. destruct H as (value' & _ & H).
      apply bind_Ok in H. destruct H as (e & _ & H). inversion H. cbn [fields].
      eexists _, false. split; [reflexivity|]. split; [reflexivity|].
      intros _ one0 field0 value0 Hc. congruence.
Qed.

Lemma RecordInternals_loop_fields PE lit agg field_texts :
  forall i st st',
    RecordInternals_loop PE lit agg i field_texts st = Ok st' ->
    exists new,
      fields st' = fields st ++ new
      /\ Forall (fun fv => exists b, is_aggregated fv = Ok b) new
      /\ forall ft one field value,
           In ft field_texts -> starts_with ft ".." = false ->
           SplitInOneOrTwo ft ":" = Ok (inl one) ->
           SplitInOneOrTwo ft "?" = Ok (inr (field, value)) ->
           exists fv, In fv new /\ is_aggregated fv = Ok true.
Proof.
  induction field_texts as [|ft rest IH]; intros i st st' H; simpl in H.
  - inversion H. exists []. rewrite app_nil_r. split; [reflexivity|].
    split; [constructor|]. intros ft one field value [].
  - apply bind_Ok in H. destruct H as (st1 & Hstep & H).
    destruct (RecordInternals_step_field _ _ _ _ _ _ _ Hstep) as (fv & b & Hfv & Hb & Hq).
    destruct (IH _ _ _ H) as (new & Hnew & Hall & Hagg).
    exists (fv :: new). split; [rewrite Hnew, Hfv, <- app_assoc; reflexivity|].
    split; [constructor; eauto|].
    intros ft0 one field value [<-|Hin] Hdots Hcolon Hquestion.
    + exists fv. split; [left; reflexivity|].
      rewrite Hb. f_equal. eapply Hq; eassumption.
    + destruct (Hagg _ _ _ _ Hin Hdots Hcolon Hquestion) as (fv0 & Hin0 & Hfv0).
      exists fv0. split; [right; exact Hin0|exact Hfv0].
Qed.

Lemma ParseCall_fields fm PE s agg call :
  ParseCall fm PE s agg = Ok (Some call) ->
  exists fvs,
    field_values_of call = Ok fvs
    /\ Forall (fun fv => exists b, is_aggregated fv = Ok b) fvs
    /\ (aggregated_field_text fm s ->
        exists fv, In fv fvs /\ is_aggregated fv = Ok true).
Proof.
  unfold ParseCall. intros H.
  apply bind_Ok in H. destruct H as (generic & Hgeneric & H).
  destruct generic as [[predicate inner]|]; [|discriminate].
  apply bind_Ok in H. destruct H as (args & Hargs & H). inversion H; subst call. clear H.
  unfold ParseRecordInternals in Hargs.
  apply bind_Ok in Hargs. destruct Hargs as (parts & _ & Hargs).
  destruct (1 <? length parts); [discriminate|].
  assert (Hnone : forall fvs, fvs = [] ->
            (empty (Strip inner) = true \/ IsWhole (Strip inner) = false) ->
            exists fvs0,
              field_values_of (Obj [("predicate_name", JString predicate);
                                    ("record", Obj [("field_value", JArray fvs)])]) = Ok fvs0
              /\ Forall (fun fv => exists b, is_aggregated fv = Ok b) fvs0
              /\ (aggregated_field_text fm s ->
                  exists fv, In fv fvs0 /\ is_aggregated fv = Ok true)).
  { intros fvs -> Hcase. exists []. split; [reflexivity|]. split; [constructor|].
    intros (p & inner' & fts & ft & one & field & value & Hg & He & Hw & _).
    rewrite Hgeneric in Hg. inversion Hg; subst. destruct Hcase; congruence. }
  destruct (empty (Strip inner)) eqn:Eempty.
  { inversion Hargs; subst args. apply Hnone; auto. }
  destruct (IsWhole (Strip inner)) eqn:Ewhole.
  2:{ inversion Hargs; subst args. apply Hnone; auto. }
  apply bind_Ok in Hargs. destruct Hargs as (field_texts & Hsplit & Hargs).
  apply bind_Ok in Hargs. destruct Hargs as (st & Hloop & Hargs).
  inversion Hargs; subst args. clear Hargs.
  destruct (RecordInternals_loop_fields _ _ _ _ _ _ _ Hloop) as (new & Hnew & Hall & Hagg).
  cbn [fields app] in Hnew. exists new. rewrite Hnew.
  split; [reflexivity|]. split; [exact Hall|].
  intros (p & inner' & fts & ft & one & field & value & Hg & _ & _ & Hs & Hin & Hd & Hc & Hq).
  rewrite Hgeneric in Hg. inversion Hg; subst. rewrite Hsplit in Hs. inversion Hs; subst.
  eapply Hagg; eassumption.
Qed.

Lemma check_agg_loop_throws call_str fvs :
  Forall (fun fv => exists b, is_aggregated fv = Ok b) fvs ->
  (exists fv, In fv fvs /\ is_aggregated fv = Ok true) ->
  check_agg_loop call_str fvs
  = throw_parsing
      "Aggregation appears in a non-distinct predicate. Did you forget distinct?"
      call_str.
Proof.
  induction 1 as [|fv fvs [b Hb] _ IH]; intros (fv0 & Hin & Hagg); [contradiction|].
  cbn [check_agg_loop]. rewrite Hb. cbn [bind]. destruct b; [reflexivity|].
  apply IH. destruct Hin as [<-|Hin]; [congruence|]. eauto.
Qed.

Lemma push_field_value_total call fvs fv :
  field_values_of call = Ok fvs ->
  exists call',
    push_field_value call fv = Ok call'
    /\ field_values_of call' = Ok (fvs ++ [fv])
    /\ at_key "predicate_name" call' = at_key "predicate_name" call.
Proof.
  unfold field_values_of, push_field_value, at_key. intros H.
  destruct call as [| | | | |o]; try discriminate H. cbn [as_object bind] in *.
  unfold obj_at in *.
  destruct (obj_find "record" o) as [record|] eqn:Er; [|discriminate H].
  cbn [bind] in *. destruct record as [| | | | |ro]; try discriminate H.
  cbn [as_object bind] in *.
  destruct (obj_find "field_value" ro) as [f|] eqn:Ef; [|discriminate H].
  cbn [bind] in *. destruct f as [| | | |a|]; try discriminate H.
  cbn [as_array bind] in *. inversion H; subst a.
  eexists. split; [reflexivity|]. cbn [as_object bind].
  rewrite obj_find_set_same. cbn [bind as_object]. rewrite obj_find_set_same.
  cbn [bind as_array]. split; [reflexivity|].
  rewrite obj_find_set_other by discriminate. reflexivity.
Qed.

(** ** [ParseHeadCall] on a head with a call *)

Lemma ParseHeadCall_aggregating fm PE head_text d call_str post call op_str expr_str ph b :
  head_call head_text call_str post ->
  ParseCall fm PE call_str true = Ok (Some call) ->
  aggregating_value post op_str expr_str ->
  ParseHeadCall fm PE head_text d = Ok (ph, b) ->
  exists fvs argument,
    PE expr_str = Ok argument
    /\ field_values_of call = Ok fvs
    /\ field_values_of ph
       = Ok (fvs ++ [logica_value_aggregation (str op_str) argument (str post)])
    /\ at_key "predicate_name" ph = at_key "predicate_name" call
    /\ b = true.
Proof.
  intros (i & Hscan & -> & ->) Hcall [Hsplit Hop] H.
  unfold ParseHeadCall in H. rewrite Hscan in H. cbn [bind negb] in H.
  rewrite Hcall in H. cbn [bind] in H. rewrite Hsplit in H. cbn [bind] in H.
  rewrite Hop in H.
  apply bind_Ok in H. destruct H as (argument & Harg & H).
  apply bind_Ok in H. destruct H as (call' & Hpush & H). inversion H; subst ph b. clear H.
  destruct (ParseCall_fields _ _ _ _ _ Hcall) as (fvs & Hfvs & _).
  destruct (push_field_value_total call fvs
              (Obj [("field", JString "logica_value");
                    ("value", Obj [("aggregation",
                       Obj [("operator", JString (str op_str));
                            ("argument", argument);
                            ("expression_heritage",
                             JString (str (slice_from head_text (i + 1))))])])]) Hfvs)
    as (call'' & Hpush' & Hfields & Hname).
  rewrite Hpush in Hpush'. inversion Hpush'; subst call''.
  exists fvs, argument. split; [exact Harg|]. split; [exact Hfvs|].
  split; [exact Hfields|]. split; [exact Hname|reflexivity].
Qed.

Lemma ParseHeadCall_aggregated_field fm PE head_text call_str post call :
  head_call head_text call_str post ->
  ParseCall fm PE call_str true = Ok (Some call) ->
  plain_value PE post ->
  has_aggregated_field call ->
  ParseHeadCall fm PE head_text false
  = throw_parsing
      "Aggregation appears in a non-distinct predicate. Did you forget distinct?"
      call_str.
Proof.
  intros (i & Hscan & -> & ->) Hcall Hplain (fvs0 & fv0 & Hfvs0 & Hin & Hagg).
  destruct (ParseCall_fields _ _ _ _ _ Hcall) as (fvs & Hfvs & Hall & _).
  rewrite Hfvs in Hfvs0. inversion Hfvs0; subst fvs0. clear Hfvs0.
  unfold ParseHeadCall. rewrite Hscan. cbn [bind negb].
  rewrite Hcall. cbn [bind].
  destruct Hplain as [(only & Hsplit & Hempty)|(op_str & expr_str & e & Hsplit & Hempty & He)];
    rewrite Hsplit; cbn [bind]; rewrite Hempty; cbn [negb].
  - unfold check_agg. rewrite Hfvs. cbn [bind].
    rewrite (check_agg_loop_throws _ fvs Hall) by eauto. reflexivity.
  - rewrite He. cbn [bind].
    destruct (push_field_value_total call fvs
                (Obj [("field", JString "logica_value");
                      ("value", Obj [("expression", e)])]) Hfvs)
      as (call' & Hpush & Hfields & _).
    rewrite Hpush. cbn [bind]. unfold check_agg. rewrite Hfields. cbn [bind].
    rewrite check_agg_loop_throws; [reflexivity| |].
    + apply Forall_app. split; [exact Hall|]. constructor; [|constructor].
      exists false. reflexivity.
    + exists fv0. split; [apply in_or_app; left; exact Hin|exact Hagg].
Qed.
(** C3, as stated, fails: the head of [Q(x) += 1] carries an aggregating
    value and no [distinct] suffix, and the rule parses; it is marked
    [distinct_denoted]. *)
Lemma ParseRule_aggregating_value_without_distinct :
  (exists head, Split (SpanOf (chars "Q(x) += 1")) "distinct" = Ok [head])
  /\ parse_rule 10 "Q(x) += 1" = Ok aggregating_value_rule
  /\ at_key "distinct_denoted" aggregating_value_rule = Ok (JBool true).
Proof.
  split; [eexists; vm_compute; reflexivity|].
  split; vm_compute; reflexivity.
Qed.

Example ParseRule_aggregated_field_without_distinct :
  message_of (parse_rule 10 "Q(x, y? Max= z) :- P(x, z)")
  = Some "Aggregation appears in a non-distinct predicate. Did you forget distinct?".
Proof. vm_compute. reflexivity. Qed.

(** C3, amended.  Let [head] be the head of the rule [s] (the text
    before [:-], denotations taken off), read with or without the suffix
    [distinct] as [head_text], which is the call [call_str], parsed as
    [call], and the text [post_call_str] after it.

    - If the text after the call is an aggregating value [op = expr], [op]
      not empty, and the rule parses, then the head of the rule is the
      call with one more field at the end, [logica_value], holding the
      aggregation { operator: [op], argument: the parsed [expr],
      expression_heritage: the text after the call }, and the rule is
      marked [distinct_denoted], whether or not the suffix is written.
    - A rule with the suffix that parses is marked [distinct_denoted].
    - Without the suffix and without an aggregating value, a call with
      an aggregated field is the parsing error "Aggregation appears in a
      non-distinct predicate. Did you forget distinct?" at the call.
    - An argument [field ? op = expr] in the text of the call is an
      aggregated field of the parsed call. *)
Theorem ParseRule_aggregation_distinct (fun_mode : bool)
    (PE PP : SpanString -> result Json)
    (s head head_text : SpanString) (suffix : bool)
    (call_str post_call_str : SpanString) (call : Json) :
  rule_head PE s head ->
  distinct_suffix head head_text suffix ->
  head_call head_text call_str post_call_str ->
  ParseCall fun_mode PE call_str true = Ok (Some call) ->
  (forall op_str expr_str rule,
      aggregating_value post_call_str op_str expr_str ->
      ParseRule fun_mode PE PP s = Ok rule ->
      exists fvs argument parsed_head,
        PE expr_str = Ok argument
        /\ field_values_of call = Ok fvs
        /\ at_key "head" rule = Ok parsed_head
        /\ at_key "predicate_name" parsed_head = at_key "predicate_name" call
        /\ field_values_of parsed_head
           = Ok (fvs ++ [logica_value_aggregation (str op_str) argument
                           (str post_call_str)])
        /\ at_key "distinct_denoted" rule = Ok (JBool true))
  /\ (suffix = true ->
      forall rule,
        ParseRule fun_mode PE PP s = Ok rule ->
        at_key "distinct_denoted" rule = Ok (JBool true))
  /\ (suffix = false ->
      plain_value PE post_call_str ->
      has_aggregated_field call ->
      ParseRule fun_mode PE PP s
      = throw_parsing
          "Aggregation appears in a non-distinct predicate. Did you forget distinct?"
          call_str)
  /\ (aggregated_field_text fun_mode call_str -> has_aggregated_field call).
Proof.
  intros Hhead Hsuffix Hcall Hparsed.
  destruct (ParseRule_head fun_mode PE PP s head head_text suffix Hhead Hsuffix)
    as (finish & Hrule & Hfinish).
  split; [|split; [|split]].
  - intros op_str expr_str rule Hvalue H. rewrite Hrule in H.
    apply bind_Ok in H. destruct H as ([ph b] & Hph & H). cbn [fst snd] in H.
    destruct (Hfinish _ _ _ H) as [Hh Hd].
    destruct (ParseHeadCall_aggregating _ _ _ _ _ _ _ _ _ _ _ Hcall Hparsed Hvalue Hph)
      as (fvs & argument & Harg & Hfvs & Hfields & Hname & ->).
    exists fvs, argument, ph. auto 8.
  - intros -> rule H. rewrite Hrule in H.
    apply bind_Ok in H. destruct H as ([ph b] & Hph & H). cbn [fst snd] in H.
    destruct (Hfinish _ _ _ H) as [_ Hd]. apply Hd. apply orb_true_r.
  - intros -> Hplain Hagg. rewrite Hrule.
    rewrite (ParseHeadCall_aggregated_field _ _ _ _ _ _ Hcall Hparsed Hplain Hagg).
    reflexivity.
  - intros Htext.
    destruct (ParseCall_fields _ _ _ _ _ Hparsed) as (fvs & Hfvs & _ & Hagg).
    destruct (Hagg Htext) as (fv & Hin & Hfv). exists fvs, fv. auto.
Qed.

Lemma ParseRule_aggregation_distinct_witness :
  at_key "distinct_denoted" aggregating_value_rule = Ok (JBool true)
  /\ message_of (parse_rule 10 "Q(x, y? Max= z) :- P(x, z)")
     = Some "Aggregation appears in a non-distinct predicate. Did you forget distinct?".
Proof.
  split.
  - epose proof (ParseRule_aggregation_distinct false
                   (ParseExpression false 10) (ParseProposition false 10)
                   (SpanOf (chars "Q(x) += 1")) _ _ false _ _ _) as H.
    edestruct H as (Hvalue & _); clear H.
    + do 6 eexists. split; [lazy; reflexivity|].
      split; [lazy; lia|]. repeat (split; [lazy; reflexivity|]). reflexivity.
    + eexists. split; [lazy; reflexivity|]. split; reflexivity.
    + exists 3. split; [vm_compute; reflexivity|]. split; reflexivity.
    + vm_compute. reflexivity.
    + edestruct Hvalue as (fvs & argument & parsed_head & _ & _ & _ & _ & _ & Hd).
      * split; vm_compute; reflexivity.
      * vm_compute. reflexivity.
      * exact Hd.
  - epose proof (ParseRule_aggregation_distinct false
                   (ParseExpression false 10) (ParseProposition false 10)
                   (SpanOf (chars "Q(x, y? Max= z) :- P(x, z)")) _ _ false _ _ _) as H.
    edestruct H as (_ & _ & Herror & Hfield); clear H.
    + do 6 eexists. split; [lazy; reflexivity|].
      split; [lazy; lia|]. repeat (split; [lazy; reflexivity|]). reflexivity.
    + eexists. split; [lazy; reflexivity|]. split; reflexivity.
    + exists 14. split; [vm_compute; reflexivity|]. split; reflexivity.
    + vm_compute. reflexivity.
    + unfold parse_rule. rewrite Herror; [reflexivity|reflexivity| |].
      * left. eexists. split; vm_compute; reflexivity.
      * apply Hfield. do 7 eexists.
        split; [vm_compute; reflexivity|]. split; [vm_compute; reflexivity|].
        split; [vm_compute; reflexivity|]. split; [vm_compute; reflexivity|].
        split; [right; left; reflexivity|]. split; [vm_compute; reflexivity|].
        split; vm_compute; reflexivity.
Defined.


(** ** Negation *)

Lemma NegationTree_tree s conjuncts :
  NegationTree s (Obj [("conjunction", Obj [("conjunct", JArray conjuncts)])])
  = negation_tree (str s) conjuncts.
Proof. reflexivity. Qed.

Lemma Split_stripped s sep parts p :
  Split s sep = Ok parts -> In p parts -> Strip p = p.
Proof.
  unfold Split. intros H Hin. bind_inv H. inversion H; subst.
  apply in_map_iff in Hin. destruct Hin as (r & <- & _).
  unfold Strip at 1. apply Strip_loop_fixed, Strip_stripped.
Qed.

Example unary_operator_message_text :
  chars unary_operator_message
  = chars "Negation " ++ [dquote; "~"%char; dquote] ++ chars " is a unary operator.".
Proof. reflexivity. Qed.

(** C5, as stated, fails: as a proposition, [a ~ b] has a nonempty left
    part of [~] and is no parsing error; the infix production, tried
    before the negation, parses it as a call of [~]. *)
Lemma ParseProposition_binary_tilde :
  (exists left right,
      Split (SpanOf (chars "a ~ b")) "~" = Ok [left; right] /\ empty left = false)
  /\ parse_proposition 10 "a ~ b" = Ok binary_tilde_example
  /\ (p <- at_key "predicate" binary_tilde_example ;; at_key "predicate_name" p)
     = Ok (JString "~").
Proof.
  split; [eexists _, _; split; vm_compute; reflexivity|].
  split; vm_compute; reflexivity.
Qed.

(** C5, amended.  The negation production [ParseNegation], on a span whose
    split on [~] gives the parts [parts]: with one part it is "not this
    shape"; with two parts of which the first is empty it returns the
    predicate [IsNull] applied to a [Combine] whose head aggregates [Min]
    over the number [1] and whose body is the conjunction of the
    propositions that the second part, split on commas, consists of; with
    a nonempty first part, or more than two parts, it throws the parsing
    error 'Negation "~" is a unary operator.'.  (The proposition parser
    reaches this production only after the infix production, which takes
    a [~] with a nonempty left part as a binary operator.) *)
Theorem ParseNegation_desugars (PP : SpanString -> result Json)
    (s : SpanString) (parts : list SpanString) :
  Split s "~" = Ok parts ->
  match parts with
  | [_] => ParseNegation PP s = Ok None
  | [p0; p1] =>
      if empty p0 then
        forall conj_parts conjuncts,
          Split p1 "," = Ok conj_parts ->
          mapM PP conj_parts = Ok conjuncts ->
          ParseNegation PP s = Ok (Some (negation_tree (str s) conjuncts))
      else ParseNegation PP s = throw_parsing unary_operator_message s
  | _ => ParseNegation PP s = throw_parsing unary_operator_message s
  end.
Proof.
  intros H. unfold ParseNegation. rewrite H. simpl.
  destruct parts as [|p0 [|p1 [|p2 ps]]]; try reflexivity.
  destruct (empty p0); simpl; [|reflexivity].
  intros conj_parts conjuncts Hsplit Hconj.
  rewrite (Split_stripped _ _ _ p1 H) by (right; left; reflexivity).
  rewrite Hsplit. simpl. rewrite Hconj. simpl.
  rewrite NegationTree_tree. reflexivity.
Qed.

Lemma ParseNegation_desugars_witness :
  parse_proposition 10 "~P(x)" = Ok negation_example
  /\ ParseNegation (ParseProposition false 9) (SpanOf (chars "~P(x)"))
     = Ok (Some (negation_tree "~P(x)" [negated_example]))
  /\ negation_example = negation_tree "~P(x)" [negated_example].
Proof.
  split; [vm_compute; reflexivity|]. split; [|vm_compute; reflexivity].
  set (s := SpanOf (chars "~P(x)")).
  set (p0 := Strip (slice s 0 0)).
  set (p1 := Strip (slice s 1 5)).
  assert (Hs : Split s "~" = Ok [p0; p1]) by (vm_compute; reflexivity).
  pose proof (ParseNegation_desugars (ParseProposition false 9) s [p0; p1] Hs) as H.
  cbv beta iota in H.
  assert (He : empty p0 = true) by (vm_compute; reflexivity).
  rewrite He in H.
  apply (H [Strip (slice p1 0 4)] [negated_example]).
  - vm_compute. reflexivity.
  - vm_compute. reflexivity.
Defined.


(** ** Expression heritage *)

Lemma empty_view s : wf s -> size s = 0 -> view s = [].
Proof.
  intros Hwf Hs. pose proof (view_length_wf s Hwf) as H. rewrite Hs in H.
  destruct (view s); [reflexivity|discriminate].
Qed.

Lemma Strip_loop_size_le n : forall s, size (Strip_loop n s) <= size s.
Proof.
  induction n as [|n IH]; intros s; simpl.
  - destruct (peelable (StripSpaces s)); apply StripSpaces_size_le.
  - pose proof (StripSpaces_size_le s).
    destruct (peelable (StripSpaces s)) eqn:E; [|assumption].
    specialize (IH (slice (StripSpaces s) 1 (size (StripSpaces s) - 1))).
    pose proof (Span_size_le (heritage (StripSpaces s))
                  (start (StripSpaces s) + 1)
                  (start (StripSpaces s) + (size (StripSpaces s) - 1))).
    unfold slice in *. lia.
Qed.

Lemma Strip_size_le s : size (Strip s) <= size s.
Proof. apply Strip_loop_size_le. Qed.

Lemma Strip_empty s : size s = 0 -> empty (Strip s) = true.
Proof.
  intros H. pose proof (Strip_size_le s). unfold empty. apply Nat.eqb_eq. lia.
Qed.

Lemma Traverse_empty s : view s = [] -> Traverse s = [].
Proof. unfold Traverse. intros ->. reflexivity. Qed.

Lemma SplitRaw_empty s sep :
  view s = [] -> exists p, SplitRaw s sep = Ok [p].
Proof.
  intros H. unfold SplitRaw. destruct (length (chars sep) =? 0); [eauto|].
  rewrite Traverse_empty by assumption. simpl. eauto.
Qed.

Lemma Split_empty s sep :
  view s = [] -> exists p, Split s sep = Ok [p].
Proof.
  intros H. unfold Split. destruct (SplitRaw_empty s sep H) as (p & ->). simpl. eauto.
Qed.

(** No production of [ActuallyParseExpression] accepts an empty span. *)
Section EmptySpan.

Variable fun_mode : bool.
Variables PE PP : SpanString -> result Json.
Variable s : SpanString.
Hypothesis s_wf : wf s.
Hypothesis s_empty : size s = 0.

Let s_view : view s = [].
Proof. apply empty_view; assumption. Qed.

Lemma ParseNumber_empty : ParseNumber s = None.
Proof.
  unfold ParseNumber, ends_with. rewrite s_view. simpl. rewrite s_view. reflexivity.
Qed.

Lemma ParseString_empty : ParseString s = None.
Proof. unfold ParseString. rewrite s_view. reflexivity. Qed.

Lemma ParseList_empty : ParseList PE s = Ok None.
Proof. unfold ParseList. rewrite s_empty. reflexivity. Qed.

Lemma str_empty : str s = EmptyString.
Proof. unfold str. rewrite s_view. reflexivity. Qed.

Lemma ParseLiteral_empty : ParseLiteral PE s = Ok None.
Proof.
  unfold ParseLiteral. rewrite ParseNumber_empty, ParseString_empty, ParseList_empty.
  simpl. unfold ParseBoolean, ParseNull, ParsePredicateLiteral.
  rewrite str_empty, s_view. reflexivity.
Qed.

Lemma ParseVariable_empty : ParseVariable s = Ok None.
Proof. unfold ParseVariable, empty. rewrite s_empty. reflexivity. Qed.

Lemma ParseRecord_empty : ParseRecord PE s = Ok None.
Proof.
  unfold ParseRecord. pose proof (Strip_size_le s).
  destruct (Nat.leb_spec 2 (size (Strip s))); [lia|]. reflexivity.
Qed.

Lemma ParseGenericCall_empty opening closing :
  ParseGenericCall fun_mode s opening closing = Ok None.
Proof. unfold ParseGenericCall. rewrite Strip_empty by assumption. reflexivity. Qed.

Lemma ParseInfix_loop_empty ops dis : ParseInfix_loop PE s ops dis = Ok None.
Proof.
  induction ops as [|op ops IH]; simpl; [reflexivity|].
  destruct (mem op dis); [exact IH|].
  destruct (SplitRaw_empty s op s_view) as (p & ->). simpl. exact IH.
Qed.

Lemma ActuallyParseExpression_empty :
  ActuallyParseExpression fun_mode PE PP s
  = throw_parsing "Could not parse expression of a value." s.
Proof.
  unfold ActuallyParseExpression.
  unfold ParseCombine, ParseImplication, starts_with. rewrite s_view. simpl.
  rewrite ParseLiteral_empty, ParseVariable_empty, ParseRecord_empty. simpl.
  unfold ParsePropositionalImplication.
  destruct (Split_empty s "=>" s_view) as (p & ->). simpl.
  unfold ParseCall, ParseUltraConciseCombine. rewrite !ParseGenericCall_empty. simpl.
  unfold ParseInfix. rewrite ParseInfix_loop_empty. simpl.
  unfold ParseSubscript. destruct (SplitRaw_empty s "." s_view) as (q & ->). simpl.
  unfold ParseNegationExpression, ParseNegation.
  destruct (Split_empty s "~" s_view) as (r & ->). simpl.
  unfold ParseArraySub. rewrite ParseGenericCall_empty. reflexivity.
Qed.

End EmptySpan.


(** * A file without statements *)

Lemma sub3_head c rest : ch c dquote = false -> list_eqb (sub3 (c :: rest)) triple_quote = false.
Proof.
  intros H. unfold sub3. destruct rest as [|r1 [|r2 rest]]; simpl; try reflexivity.
  rewrite H. reflexivity.
Qed.

Lemma sub2_head c rest p : ch c (hd zero_char p) = false -> p <> [] ->
  list_eqb (sub2 (c :: rest)) p = false.
Proof.
  intros H Hp. unfold sub2. destruct p as [|p0 p]; [congruence|]. simpl in H.
  destruct rest as [|r1 rest]; simpl; try reflexivity.
  rewrite H. reflexivity.
Qed.

Lemma quiet_char_cases c :
  quiet_char c = true ->
  ch c "#" = false /\ ch c dquote = false /\ ch c "'" = false /\ ch c "`" = false
  /\ ch c "/" = false /\ ch c "(" = false /\ ch c "{" = false /\ ch c "[" = false
  /\ kCloseToOpen c = None.
Proof.
  destruct c as [[] [] [] [] [] [] [] []]; intros H; try discriminate H;
    repeat split; reflexivity.
Qed.

Lemma Next_char_code c ahead i :
  Next_char c ahead i [] =
    if ch c "#" then Again (push_back [] "#") 0
    else if list_eqb (sub3 ahead) triple_quote then
      Emit (MkStep i (push_back [] "3") OK)
           (push_back (push_back (push_back [] "3") sentinel) sentinel)
    else if ch c dquote then track_and_yield true c i (push_back [] dquote)
    else if ch c "'" then track_and_yield true c i (push_back [] "'")
    else if ch c "`" then track_and_yield true c i (push_back [] "`")
    else if list_eqb (sub2 ahead) (chars "/*") then Again (push_back [] "/") 1
    else track_and_yield true c i [].
Proof. reflexivity. Qed.

Lemma Next_char_line_comment c ahead i :
  Next_char c ahead i ["#"%char] =
    if ch c "010" then Emit (MkStep i [] OK) [] else Again ["#"%char] 0.
Proof. reflexivity. Qed.

Lemma Next_char_block_comment c ahead i :
  Next_char c ahead i ["/"%char] =
    if list_eqb (sub2 ahead) (chars "*/") then Again [] 1 else Again ["/"%char] 0.
Proof. reflexivity. Qed.

Lemma Next_char_quiet c rest i :
  quiet_char c = true ->
  Next_char c (c :: rest) i [] = Emit (MkStep i [] OK) [].
Proof.
  intros H. destruct (quiet_char_cases c H) as (H1 & H2 & H3 & H4 & H5 & H6 & H7 & H8 & H9).
  rewrite Next_char_code, H1, sub3_head, H2, H3, H4 by assumption.
  rewrite sub2_head by (simpl; first [assumption|discriminate]).
  unfold track_and_yield. rewrite H6, H7, H8, H9. reflexivity.
Qed.

(** The steps of the traverser over a blank text are quiet. *)
Lemma Traverse_blank_bounded n :
  forall text mode pre,
    length text <= n ->
    blank_from mode text = true ->
    Forall (quiet_step (pre ++ text)) (Traverse_from text (length pre) (stack_of mode)).
Proof.
  induction n as [|n IH]; intros text mode pre Hn Hb.
  - destruct text; [constructor|simpl in Hn; lia].
  - destruct text as [|c rest]; [constructor|]. simpl in Hn.
    assert (Hnext : forall mode', blank_from mode' rest = true ->
              Forall (quiet_step (pre ++ c :: rest))
                (Traverse_from rest (S (length pre)) (stack_of mode'))).
    { intros mode' Hb'. specialize (IH rest mode' (pre ++ [c])).
      rewrite <- app_assoc, length_app in IH. simpl in IH.
      rewrite Nat.add_1_r in IH. apply IH; [lia|assumption]. }
    assert (Hnext2 : forall d rest' mode', rest = d :: rest' ->
              blank_from mode' rest' = true ->
              Forall (quiet_step (pre ++ c :: rest))
                (Traverse_from rest' (S (S (length pre))) (stack_of mode'))).
    { intros d rest' mode' -> Hb'. specialize (IH rest' mode' (pre ++ [c; d])).
      rewrite <- app_assoc, length_app in IH. simpl in IH.
      rewrite Nat.add_comm in IH. apply IH; [simpl in Hn; lia|assumption]. }
    destruct mode; simpl in Hb; simpl Traverse_from.
    + (* code *)
      destruct (isspace c || ch c ";") eqn:Eq.
      * rewrite Next_char_quiet by exact Eq. constructor; [|apply (Hnext InCode Hb)].
        repeat split; simpl.
        -- rewrite length_app. simpl. lia.
        -- rewrite nth_middle. exact Eq.
      * destruct (ch c "#") eqn:Eh.
        -- rewrite Next_char_code, Eh. apply (Hnext InLineComment Hb).
        -- destruct (ch c "/") eqn:Es; [|discriminate].
           destruct rest as [|d rest']; [discriminate|].
           apply andb_true_iff in Hb. destruct Hb as [Hd Hb].
           apply ch_eq in Es, Hd. subst c d.
           rewrite Next_char_code. simpl.
           destruct rest' as [|e rest'']; simpl;
             apply (Hnext2 _ _ InBlockComment eq_refl Hb).
    + (* line comment *)
      rewrite Next_char_line_comment. destruct (ch c "010") eqn:En.
      * constructor; [|apply (Hnext InCode Hb)].
        apply ch_eq in En. subst c. repeat split; simpl.
        -- rewrite length_app. simpl. lia.
        -- rewrite nth_middle. reflexivity.
      * apply (Hnext InLineComment Hb).
    + (* block comment *)
      rewrite Next_char_block_comment. destruct (ch c "*") eqn:Es.
      * destruct rest as [|d rest']; [discriminate|].
        apply ch_eq in Es. subst c.
        destruct (ch d "/") eqn:Ed.
        -- apply ch_eq in Ed. subst d. simpl. apply (Hnext2 _ _ InCode eq_refl Hb).
        -- unfold sub2. simpl. rewrite Ed. simpl. apply (Hnext InBlockComment Hb).
      * rewrite sub2_head by (simpl; first [assumption|discriminate]).
        apply (Hnext InBlockComment Hb).
Qed.

Lemma Traverse_blank text :
  blank text = true -> Forall (quiet_step text) (Traverse (SpanOf text)).
Proof.
  intros H. unfold Traverse. rewrite view_SpanOf.
  apply (Traverse_blank_bounded (length text) text InCode []); [lia|exact H].
Qed.

Lemma at_SpanOf l i : at_ (SpanOf l) i = nth i l zero_char.
Proof. reflexivity. Qed.

Lemma RemoveComments_loop_quiet full steps acc :
  Forall (quiet_step full) steps ->
  Forall (fun c => quiet_char c = true) acc ->
  exists out,
    RemoveComments_loop (SpanOf full) steps acc = Ok out
    /\ Forall (fun c => quiet_char c = true) out.
Proof.
  intros H. revert acc. induction H as [|step steps (Hst & _ & _ & Hq) _ IH];
    intros acc Hacc; simpl.
  - eauto.
  - rewrite Hst. apply IH. apply Forall_app. split; [assumption|].
    constructor; [|constructor]. rewrite at_SpanOf. exact Hq.
Qed.

Lemma RemoveComments_blank text :
  blank text = true ->
  exists out,
    RemoveComments (SpanOf text) = Ok out
    /\ Forall (fun c => quiet_char c = true) out.
Proof.
  intros H. apply RemoveComments_loop_quiet; [apply Traverse_blank; exact H|constructor].
Qed.

(** Splitting a quiet text on semicolons. *)
Lemma Traverse_from_quiet text :
  forall i,
    Forall (fun c => quiet_char c = true) text ->
    Traverse_from text i [] = map (fun k => MkStep k [] OK) (seq i (length text)).
Proof.
  induction text as [|c text IH]; intros i H; [reflexivity|].
  inversion H; subst. simpl. rewrite Next_char_quiet by assumption.
  rewrite IH by assumption. reflexivity.
Qed.

(** A span of white space. *)
Lemma isspace_not_semicolon c : isspace c = true -> ch c ";" = false.
Proof.
  intros H. destruct (ch c ";") eqn:E; [|reflexivity].
  apply ch_eq in E. subst c. discriminate H.
Qed.

Lemma separator_here_semicolon pre c rest :
  separator_here (pre ++ c :: rest) (chars ";") (length pre) = ch c ";".
Proof.
  unfold separator_here, substr. simpl length.
  rewrite length_app. simpl.
  destruct (Nat.leb_spec (length pre + 1) (length pre + S (length rest))); [|lia].
  rewrite skipn_app, skipn_all, Nat.sub_diag. simpl.
  rewrite andb_true_r. destruct (ch c ";"); reflexivity.
Qed.

Lemma Forall_nth_range {A} (P : A -> Prop) (l : list A) (d : A) a b :
  a <= b -> b <= length l ->
  (forall k, a <= k < b -> P (nth k l d)) ->
  Forall P (firstn (b - a) (skipn a l)).
Proof.
  intros Hab Hb H. apply Forall_forall. intros x Hx.
  apply (In_nth _ _ d) in Hx. destruct Hx as (k & Hk & <-).
  rewrite length_firstn, length_skipn in Hk.
  rewrite nth_firstn. destruct (Nat.ltb_spec k (b - a)); [|lia].
  rewrite nth_skipn. apply H. lia.
Qed.

Lemma SplitRaw_loop_quiet rest :
  forall pre part_start parts,
    Forall (fun c => quiet_char c = true) rest ->
    part_start <= length pre ->
    (forall k, part_start <= k < length pre ->
               isspace (nth k (pre ++ rest) zero_char) = true) ->
    exists tail,
      SplitRaw_loop (SpanOf (pre ++ rest)) (chars ";")
        (map (fun k => MkStep k [] OK) (seq (length pre) (length rest)))
        0 part_start parts = Ok (parts ++ tail)
      /\ Forall (fun p => Forall (fun c => isspace c = true) (view p)) tail.
Proof.
  induction rest as [|c rest IH]; intros pre ps parts Hq Hps Hws.
  - simpl. eexists. split; [reflexivity|]. constructor; [|constructor].
    rewrite app_nil_r in *.
    assert (Hsz : size (SpanOf pre) = length pre) by (unfold size; simpl; lia).
    rewrite Hsz.
    rewrite view_slice by (rewrite ?view_SpanOf; simpl; lia).
    rewrite view_SpanOf. apply Forall_nth_range with (d := zero_char); auto.
  - inversion Hq as [|? ? Hc Hrest]; subst.
    simpl map. simpl SplitRaw_loop. rewrite view_SpanOf.
    rewrite separator_here_semicolon.
    specialize (IH (pre ++ [c])).
    rewrite <- app_assoc, length_app in IH. simpl in IH.
    rewrite Nat.add_1_r in IH.
    destruct (ch c ";") eqn:Es.
    + rewrite Nat.add_1_r.
      destruct (IH (S (length pre)) (parts ++ [slice (SpanOf (pre ++ c :: rest)) ps (length pre)])
                  Hrest (le_n _)) as (tail & Ht & Hall).
      { intros k Hk. lia. }
      exists (slice (SpanOf (pre ++ c :: rest)) ps (length pre) :: tail).
      rewrite Ht, <- app_assoc. split; [reflexivity|].
      constructor; [|exact Hall].
      rewrite view_slice by (rewrite ?view_SpanOf, ?length_app; simpl; lia).
      rewrite view_SpanOf. apply Forall_nth_range with (d := zero_char); auto.
      rewrite length_app. lia.
    + destruct (IH ps parts Hrest) as (tail & Ht & Hall); [lia| |eauto].
      intros k Hk. destruct (Nat.eq_dec k (length pre)) as [->|Hne].
      * rewrite nth_middle. unfold quiet_char in Hc. rewrite Es, orb_false_r in Hc. exact Hc.
      * apply Hws. lia.
Qed.

Lemma skip_left_all v :
  Forall (fun c => isspace c = true) v -> skip_left v 0 = length v.
Proof.
  induction 1 as [|c v Hc _ IH]; simpl; [reflexivity|].
  rewrite Hc, skip_left_shift, IH. reflexivity.
Qed.

Lemma StripSpaces_white p :
  Forall (fun c => isspace c = true) (view p) -> size (StripSpaces p) = 0.
Proof.
  intros H. destruct (view p) eqn:E.
  - rewrite StripSpaces_empty_view by assumption.
    pose proof (Span_size_le (heritage p) (start p) (start p)). lia.
  - assert (Hne : view p <> []) by (rewrite E; discriminate).
    destruct (StripSpaces_nonempty_view p Hne) as (-> & H1 & H2).
    rewrite <- E in H. rewrite (skip_left_all _ H) in *.
    unfold size. simpl. lia.
Qed.

Lemma Strip_white p :
  Forall (fun c => isspace c = true) (view p) -> empty (Strip p) = true.
Proof.
  intros H. pose proof (StripSpaces_white p H) as Hs.
  unfold empty. apply Nat.eqb_eq.
  unfold Strip. destruct (size p); simpl;
    (destruct (peelable (StripSpaces p)) eqn:E;
     [apply peelable_size in E; lia|exact Hs]).
Qed.

Lemma Split_quiet text :
  Forall (fun c => quiet_char c = true) text ->
  exists statements,
    Split (SpanOf text) ";" = Ok statements
    /\ Forall (fun st => empty st = true) statements.
Proof.
  intros H. unfold Split, SplitRaw. simpl (length (chars ";") =? 0).
  unfold Traverse. rewrite view_SpanOf, Traverse_from_quiet by assumption.
  destruct (SplitRaw_loop_quiet text [] 0 [] H (le_n _)) as (tail & Ht & Hall).
  { intros k Hk. simpl in Hk. lia. }
  simpl (_ ++ _) in Ht. simpl (length []) in Ht. rewrite Ht. simpl. eexists. split; [reflexivity|].
  apply Forall_forall. intros st Hst. apply in_map_iff in Hst.
  destruct Hst as (p & <- & Hp). apply Strip_white.
  rewrite Forall_forall in Hall. auto.
Qed.

Lemma statement_loop_empty import_ depth chain statements st :
  Forall (fun s => empty s = true) statements ->
  statement_loop import_ depth chain statements st = Ok st.
Proof.
  induction 1 as [|s statements Hs _ IH]; simpl; [reflexivity|].
  rewrite Hs. exact IH.
Qed.

Lemma ParseFileInternal_blank fs import_root depth content too_much :
  blank content = true ->
  exists env,
    ParseFileInternal fs import_root (S (S depth)) content "main"
      (MkEnv [] [] too_much) []
    = Ok (empty_file_result, env).
Proof.
  intros Hb.
  destruct (RemoveComments_blank content Hb) as (out & Hout & Hq).
  destruct (Split_quiet out Hq) as (statements & Hsplit & Hempty).
  cbn [ParseFileInternal]. unfold ParseFileInternal_body.
  rewrite Hout. cbn [bind]. rewrite Hsplit. cbn [bind].
  rewrite statement_loop_empty by assumption. cbn [bind].
  eexists. reflexivity.
Qed.

(** C10.  Parsing as [main] a source text that is empty, or that consists
    only of white space, comments ([#] to the end of the line, [/* */])
    and semicolons, succeeds, for every file system and import root and
    every depth bound from 2 on, and returns the file result with an empty
    rule list, an empty list of imported predicates, the empty
    predicates prefix and the file name [main]. *)
Theorem ParseFile_blank fs import_root depth content :
  blank content = true ->
  ParseFile fs import_root (S (S depth)) content "main" = Ok empty_file_result.
Proof.
  intros Hb. unfold ParseFile.
  destruct (ParseFileInternal_blank fs import_root depth content false Hb)
    as (env & ->).
  reflexivity.
Qed.

Lemma ParseFile_blank_witness :
  blank blank_example = true
  /\ ParseFile (fun _ => None) [] 2 blank_example "main" = Ok empty_file_result.
Proof.
  split; [reflexivity|].
  apply (ParseFile_blank (fun _ => None) [] 0 blank_example). reflexivity.
Defined.

Example ParseFile_empty : ParseFile (fun _ => None) [] 2 [] "main" = Ok empty_file_result.
Proof. reflexivity. Qed.

(* ================================================================== *)
(** * More on spans *)
(* ================================================================== *)

(** X1.  Slices compose by adding offsets: a slice of the slice
    [slice s a b] is the slice of [s] at the added offsets, whatever [b]
    is.  The stop of the inner slice does not confine the outer one: only
    the end of the heritage does. *)
Theorem slice_slice (s : SpanString) (a b c d : nat) :
  a <= b ->
  start s + a <= length (heritage s) ->
  slice (slice s a b) c d = slice s (a + c) (a + d).
Proof.
  intros Hab Ha. unfold slice at 2. unfold Span.
  destruct (Nat.ltb_spec (length (heritage s)) (start s + b)) as [Hb|Hb];
    cbv zeta.
  - destruct (Nat.ltb_spec (length (heritage s)) (start s + a)); [lia|].
    unfold slice. simpl. rewrite !Nat.add_assoc. reflexivity.
  - destruct (Nat.ltb_spec (start s + b) (start s + a)); [lia|].
    unfold slice. simpl. rewrite !Nat.add_assoc. reflexivity.
Qed.

Lemma slice_slice_witness :
  str (slice (slice (SpanOf (chars "abcdefgh")) 2 4) 1 5) = "defg"
  /\ slice (slice (SpanOf (chars "abcdefgh")) 2 4) 1 5
     = slice (SpanOf (chars "abcdefgh")) 3 7.
Proof.
  split; [reflexivity|].
  apply (slice_slice (SpanOf (chars "abcdefgh")) 2 4 1 5); simpl; lia.
Defined.

(** X2.  The three pieces of a span that an error message shows, the
    text before it, the span itself and the text after it, are the whole
    heritage, cut at the bounds of the span. *)
Theorem Pieces_partition (s : SpanString) :
  wf s ->
  exists before mid after,
    Pieces s = Ok (before, mid, after)
    /\ before ++ mid ++ after = heritage s
    /\ mid = view s
    /\ length before = start s.
Proof.
  intros [H1 H2]. unfold Pieces, string_substr. simpl.
  destruct (Nat.ltb_spec (length (heritage s)) (start s)); [lia|].
  destruct (Nat.ltb_spec (length (heritage s)) (stop s)); [lia|]. simpl.
  eexists _, _, _. split; [reflexivity|]. split; [|split].
  - rewrite <- (firstn_skipn (start s) (heritage s)) at 4.
    f_equal.
    rewrite <- (firstn_skipn (stop s - start s) (skipn (start s) (heritage s))) at 2.
    f_equal. rewrite skipn_skipn. f_equal. lia.
  - reflexivity.
  - rewrite length_firstn. lia.
Qed.

Lemma Pieces_partition_witness :
  Pieces (slice (SpanOf (chars "Q(x) :- P(x)")) 5 7)
  = Ok (chars "Q(x) ", chars ":-", chars " P(x)").
Proof.
  destruct (Pieces_partition (slice (SpanOf (chars "Q(x) :- P(x)")) 5 7))
    as (before & mid & after & H & _).
  - apply slice_wf.
  - rewrite H. vm_compute in H. inversion H. reflexivity.
Defined.

(* ================================================================== *)
(** * Serialisation *)
(* ================================================================== *)

Lemma unescape_Escape_char c r : unescape_char (Escape_char c ++ r) = Some (c, r).
Proof. each_ascii c; reflexivity. Qed.

Lemma Escape_char_nonempty c : Escape_char c <> [].
Proof. each_ascii c; discriminate. Qed.

Lemma Escape_chars_inj l1 :
  forall l2, flat_map Escape_char l1 = flat_map Escape_char l2 -> l1 = l2.
Proof.
  induction l1 as [|c l1 IH]; intros [|d l2] H; simpl in H.
  - reflexivity.
  - symmetry in H. apply app_eq_nil in H. destruct H as [H _].
    destruct (Escape_char_nonempty d H).
  - apply app_eq_nil in H. destruct H as [H _].
    destruct (Escape_char_nonempty c H).
  - pose proof (unescape_Escape_char c (flat_map Escape_char l1)) as H1.
    rewrite H, unescape_Escape_char in H1. inversion H1; subst.
    f_equal. apply IH. congruence.
Qed.

(** X3.  [Json::Escape] loses nothing: two strings with the same escaped
    text are the same string. *)
Theorem Escape_injective (s1 s2 : string) :
  Escape s1 = Escape s2 -> s1 = s2.
Proof.
  unfold Escape, chars. intros H. apply Escape_chars_inj in H.
  rewrite <- (string_of_list_ascii_of_string s1),
          <- (string_of_list_ascii_of_string s2), H.
  reflexivity.
Qed.

Lemma Escape_injective_witness :
  Escape (String "010" "a") = chars "\na" /\ String "010" "a" = String "010" "a".
Proof.
  split; [reflexivity|].
  apply (Escape_injective (String "010" "a") (String "010" "a")). reflexivity.
Defined.

Lemma Escape_char_printable c : forallb (fun x => 32 <=? code x) (Escape_char c) = true.
Proof. each_ascii c; reflexivity. Qed.

Lemma Escape_printable s : Forall (fun x => 32 <= code x) (Escape s).
Proof.
  unfold Escape. induction (chars s) as [|c l IH]; simpl; [constructor|].
  apply Forall_app. split; [|exact IH].
  pose proof (Escape_char_printable c) as H. rewrite forallb_forall in H.
  apply Forall_forall. intros x Hx. apply Nat.leb_le. auto.
Qed.

Lemma string_of_uint_printable d :
  Forall (fun x => 32 <= code x) (chars (NilEmpty.string_of_uint d)).
Proof.
  induction d; simpl; constructor; try assumption; vm_compute; lia.
Qed.

Lemma string_of_int_printable i :
  Forall (fun x => 32 <= code x) (chars (NilZero.string_of_int i)).
Proof.
  destruct i as [d|d]; simpl.
  - destruct d; try apply string_of_uint_printable. repeat constructor.
  - constructor; [vm_compute; lia|].
    destruct d; try apply string_of_uint_printable. repeat constructor.
Qed.

Lemma Dump_compact_printable j :
  forall indent depth, Forall (fun x => 32 <= code x) (Dump false indent depth j).
Proof.
  induction j as [| b | n | s | a IH | o IH] using Json_ind; intros indent depth.
  - repeat constructor.
  - destruct b; repeat constructor.
  - apply string_of_int_printable.
  - simpl. constructor; [vm_compute; lia|].
    apply Forall_app. split; [apply Escape_printable|]. repeat constructor.
  - assert (He : Forall (fun x => 32 <= code x)
                   ((fix elements (a : list Json) : list ascii :=
                       match a with
                       | [] => []
                       | x :: a' =>
                           pad false indent (depth + 1)
                           ++ Dump false indent (depth + 1) x
                           ++ (if null a' then [] else [","%char]) ++ newline false
                           ++ elements a'
                       end) a)).
    { induction IH as [|y l Hy _ IHl]; [constructor|].
      cbn [pad newline app]. apply Forall_app. split; [apply Hy|].
      apply Forall_app. split; [destruct (null l); repeat constructor|].
      exact IHl. }
    cbn [Dump]. constructor; [vm_compute; lia|].
    apply Forall_app. split; [|repeat constructor].
    destruct (null a); [constructor|].
    cbn [newline pad app]. rewrite app_nil_r. exact He.
  - assert (He : Forall (fun x => 32 <= code x)
                   ((fix entries (o : list (string * Json)) : list ascii :=
                       match o with
                       | [] => []
                       | (k, v) :: o' =>
                           pad false indent (depth + 1) ++ [dquote] ++ Escape k
                           ++ [dquote; ":"%char]
                           ++ (if false then [" "%char] else [])
                           ++ Dump false indent (depth + 1) v
                           ++ (if null o' then [] else [","%char]) ++ newline false
                           ++ entries o'
                       end) o)).
    { induction IH as [|[k v] l Hy _ IHl]; [constructor|].
      cbn [pad newline app]. constructor; [vm_compute; lia|].
      apply Forall_app. split; [apply Escape_printable|].
      constructor; [vm_compute; lia|]. constructor; [vm_compute; lia|].
      apply Forall_app. split; [apply Hy|].
      apply Forall_app. split; [destruct (null l); repeat constructor|].
      exact IHl. }
    cbn [Dump]. constructor; [vm_compute; lia|].
    apply Forall_app. split; [|repeat constructor].
    destruct (null o); [constructor|].
    cbn [newline pad app]. rewrite app_nil_r. exact He.
Qed.

(** X4.  The compact form of a JSON value ([ToString(false)]) holds no
    control character, so no line break either: whatever the strings of
    the value hold, the text is one line. *)
Theorem ToString_compact_one_line (j : Json) :
  Forall (fun c => 32 <= code c) (chars (ToString false j)).
Proof.
  unfold ToString, chars, text. rewrite list_ascii_of_string_of_list_ascii.
  apply Dump_compact_printable.
Qed.

(* ================================================================== *)
(** * The traverser and [RemoveComments] *)
(* ================================================================== *)

(** The characters at the steps of the traverser are a subsequence of
    the text, and the steps are within the text. *)
Lemma Traverse_from_kept n :
  forall rest pre st,
    length rest <= n ->
    subsequence
      (map (fun step => nth (idx step) (pre ++ rest) zero_char)
           (Traverse_from rest (length pre) st))
      rest
    /\ Forall (fun step => idx step < length (pre ++ rest))
              (Traverse_from rest (length pre) st).
Proof.
  induction n as [|n IH]; intros rest pre st Hn.
  - destruct rest; [|simpl in Hn; lia]. simpl. split; constructor.
  - destruct rest as [|c rest]; [simpl; split; constructor|].
    simpl in Hn. cbn [Traverse_from].
    assert (Hnext : pre ++ c :: rest = (pre ++ [c]) ++ rest)
      by (rewrite <- app_assoc; reflexivity).
    assert (Hlen : S (length pre) = length (pre ++ [c]))
      by (rewrite length_app; simpl; lia).
    destruct (Next_char c (c :: rest) (length pre) st) as [step st'|st' [|extra]] eqn:E.
    + apply Next_char_idx in E.
      destruct (IH rest (pre ++ [c]) st') as [H1 H2]; [lia|].
      rewrite <- Hlen, <- Hnext in *. cbn [map]. split.
      * rewrite E, nth_middle. apply sub_keep. exact H1.
      * constructor; [|exact H2]. rewrite E, length_app. simpl. lia.
    + destruct (IH rest (pre ++ [c]) st') as [H1 H2]; [lia|].
      rewrite <- Hlen, <- Hnext in *. split; [apply sub_drop; exact H1|exact H2].
    + destruct rest as [|d rest]; [simpl; split; repeat constructor|].
      simpl in Hn.
      destruct (IH rest (pre ++ [c; d]) st') as [H1 H2]; [lia|].
      assert (Hnext2 : pre ++ c :: d :: rest = (pre ++ [c; d]) ++ rest)
        by (rewrite <- app_assoc; reflexivity).
      assert (Hlen2 : S (S (length pre)) = length (pre ++ [c; d]))
        by (rewrite length_app; simpl; lia).
      rewrite <- Hlen2, <- Hnext2 in *.
      split; [apply sub_drop, sub_drop; exact H1|exact H2].
Qed.

Lemma RemoveComments_loop_Ok s steps :
  forall acc out,
    RemoveComments_loop s steps acc = Ok out ->
    out = acc ++ map (fun step => at_ s (idx step)) steps.
Proof.
  induction steps as [|step steps IH]; intros acc out H; simpl in *.
  - inversion H. rewrite app_nil_r. reflexivity.
  - destruct (status step); try discriminate.
    rewrite (IH _ _ H), <- app_assoc. reflexivity.
Qed.

(** X5.  [RemoveComments] only deletes: the text it returns consists of
    characters of the span, in their order. *)
Theorem RemoveComments_subsequence (s : SpanString) (out : list ascii) :
  RemoveComments s = Ok out -> subsequence out (view s).
Proof.
  unfold RemoveComments, Traverse. intros H.
  apply RemoveComments_loop_Ok in H. simpl in H. subst out.
  destruct (Traverse_from_kept (length (view s)) (view s) [] [] (le_n _)) as [H1 H2].
  simpl in H1, H2.
  erewrite map_ext_in; [exact H1|].
  intros step Hin. rewrite Forall_forall in H2. apply at_view, H2, Hin.
Qed.

Lemma RemoveComments_subsequence_witness :
  RemoveComments (SpanOf (chars "a /* b */ c # d")) = Ok (chars "a  c ")
  /\ subsequence (chars "a  c ") (chars "a /* b */ c # d").
Proof.
  split; [reflexivity|].
  apply (RemoveComments_subsequence (SpanOf (chars "a /* b */ c # d"))).
  reflexivity.
Defined.

(** ** Plain text *)

Lemma plain_char_cases c :
  plain_char c = true ->
  ch c "#" = false /\ ch c dquote = false /\ ch c "'" = false /\ ch c "`" = false
  /\ ch c "/" = false /\ ch c "(" = false /\ ch c "{" = false /\ ch c "[" = false
  /\ kCloseToOpen c = None.
Proof.
  unfold plain_char, kCloseToOpen. intros H. apply negb_true_iff in H.
  repeat (apply orb_false_iff in H; destruct H as [H ?]).
  repeat match goal with H : ch c _ = false |- _ => rewrite H; clear H end.
  repeat split; reflexivity.
Qed.

Lemma Next_char_plain c rest i :
  plain_char c = true ->
  Next_char c (c :: rest) i [] = Emit (MkStep i [] OK) [].
Proof.
  intros H. destruct (plain_char_cases c H) as (H1 & H2 & H3 & H4 & H5 & H6 & H7 & H8 & H9).
  rewrite Next_char_code, H1, sub3_head, H2, H3, H4 by assumption.
  rewrite sub2_head by (simpl; first [assumption|discriminate]).
  unfold track_and_yield. rewrite H6, H7, H8, H9. reflexivity.
Qed.

(** On plain text the traverser takes one step per character, outside of
    everything. *)
Lemma Traverse_from_plain v :
  forall i,
    plain v = true ->
    Traverse_from v i [] = map (fun k => MkStep k [] OK) (seq i (length v)).
Proof.
  induction v as [|c v IH]; intros i H; [reflexivity|].
  unfold plain in H. simpl in H. apply andb_true_iff in H. destruct H as [Hc Hv].
  simpl. rewrite Next_char_plain by assumption.
  rewrite IH by assumption. reflexivity.
Qed.

Lemma map_nth_seq (pre v : list ascii) :
  map (fun k => nth k (pre ++ v) zero_char) (seq (length pre) (length v)) = v.
Proof.
  revert pre. induction v as [|c v IH]; intros pre; [reflexivity|].
  simpl. rewrite nth_middle. f_equal.
  replace (pre ++ c :: v) with ((pre ++ [c]) ++ v) by (rewrite <- app_assoc; reflexivity).
  replace (S (length pre)) with (length (pre ++ [c])) by (rewrite length_app; simpl; lia).
  apply IH.
Qed.

(** X6.  A text without comment signs, quotes and brackets has no
    comments to remove: [RemoveComments] returns it as it is. *)
Theorem RemoveComments_plain (v : list ascii) :
  plain v = true -> RemoveComments (SpanOf v) = Ok v.
Proof.
  intros H. unfold RemoveComments, Traverse. rewrite view_SpanOf.
  rewrite Traverse_from_plain by exact H.
  assert (Hloop : forall ks acc,
             RemoveComments_loop (SpanOf v) (map (fun k => MkStep k [] OK) ks) acc
             = Ok (acc ++ map (fun k => nth k v zero_char) ks)).
  { induction ks as [|k ks IH]; intros acc; simpl.
    - rewrite app_nil_r. reflexivity.
    - rewrite IH, <- app_assoc. reflexivity. }
  rewrite Hloop. simpl. f_equal. apply (map_nth_seq [] v).
Qed.

Lemma RemoveComments_plain_witness :
  RemoveComments (SpanOf (chars "x == y + 1; z")) = Ok (chars "x == y + 1; z").
Proof.
  apply (RemoveComments_plain (chars "x == y + 1; z")). reflexivity.
Defined.

(* ================================================================== *)
(** * More on [Strip] and [Split] *)
(* ================================================================== *)

Lemma within_refl s : within s s.
Proof. unfold within. auto. Qed.

Lemma within_trans p q s : within p q -> within q s -> within p s.
Proof. unfold within. intros (H1 & H2 & H3) (H4 & H5 & H6). split; [congruence|lia]. Qed.

Lemma StripSpaces_within s : wf s -> within (StripSpaces s) s.
Proof.
  intros Hwf. destruct (view s) eqn:E.
  - rewrite StripSpaces_empty_view by assumption.
    destruct Hwf as [H1 H2].
    rewrite Span_exact by lia. unfold within. simpl. split; [reflexivity|lia].
  - assert (Hne : view s <> []) by (rewrite E; discriminate).
    destruct (StripSpaces_nonempty_view s Hne) as (-> & H1 & H2).
    pose proof (view_length_wf s Hwf) as Hlen. unfold size in Hlen. destruct Hwf.
    unfold within. cbn [heritage start stop]. split; [reflexivity|lia].
Qed.

Lemma peel_within s : wf s -> 2 <= size s -> within (slice s 1 (size s - 1)) s.
Proof.
  intros Hwf Hs. rewrite slice_exact.
  - unfold within, size in *. simpl. destruct Hwf. split; [reflexivity|lia].
  - apply wf_start, Hwf.
  - lia.
  - rewrite (view_length_wf s Hwf). lia.
Qed.

Lemma Strip_loop_within n : forall s, wf s -> within (Strip_loop n s) s.
Proof.
  induction n as [|n IH]; intros s Hwf; simpl.
  - destruct (peelable (StripSpaces s)); apply StripSpaces_within, Hwf.
  - destruct (peelable (StripSpaces s)) eqn:E; [|apply StripSpaces_within, Hwf].
    eapply within_trans; [apply IH, slice_wf|].
    eapply within_trans; [apply peel_within|apply StripSpaces_within, Hwf].
    + apply StripSpaces_wf.
    + apply peelable_size, E.
Qed.

(** X7.  [Strip] narrows a span and never moves it: the result lies in
    the same heritage, within the range of the span it was given. *)
Theorem Strip_within (s : SpanString) : wf s -> within (Strip s) s.
Proof. intros Hwf. apply Strip_loop_within, Hwf. Qed.

Lemma Strip_within_witness :
  within (Strip (SpanOf (chars " ((a) + b) "))) (SpanOf (chars " ((a) + b) "))
  /\ str (Strip (SpanOf (chars " ((a) + b) "))) = "(a) + b".
Proof.
  split; [|reflexivity].
  apply (Strip_within (SpanOf (chars " ((a) + b) "))). apply SpanOf_wf.
Defined.

Lemma nth_last_char (v : list ascii) : nth (length v - 1) v zero_char = last v zero_char.
Proof.
  induction v as [|c v IH]; [reflexivity|].
  destruct v as [|d v]; [reflexivity|].
  simpl in *. rewrite Nat.sub_0_r in IH. exact IH.
Qed.

Lemma StripSpaces_fixed_ends s :
  wf s -> StripSpaces s = s -> view s <> [] ->
  isspace (hd zero_char (view s)) = false
  /\ isspace (last (view s) zero_char) = false.
Proof.
  intros Hwf Hfix Hne.
  destruct (StripSpaces_nonempty_view s Hne) as (Heq & H1 & H2).
  rewrite Hfix in Heq. pose proof (view_length_wf s Hwf) as Hlen.
  assert (Hl : skip_left (view s) 0 = 0).
  { apply (f_equal start) in Heq. simpl in Heq. lia. }
  assert (Hr : skip_right (view s) (skip_left (view s) 0) (length (view s) - 1) + 1
               = length (view s)).
  { apply (f_equal stop) in Heq. simpl in Heq. unfold size in Hlen. lia. }
  rewrite Hl in Hr.
  assert (Hpos : 0 < length (view s)) by (destruct (view s); [congruence|simpl; lia]).
  assert (Hfirst : isspace (nth 0 (view s) zero_char) = false).
  { pose proof (skip_left_stop (view s)) as H. rewrite Hl in H. apply H, Hpos. }
  split.
  - destruct (view s); [congruence|exact Hfirst].
  - rewrite <- nth_last_char.
    destruct (Nat.eq_dec (length (view s) - 1) 0) as [H0|H0].
    + rewrite H0. exact Hfirst.
    + assert (Hr' : skip_right (view s) 0 (length (view s) - 1) = length (view s) - 1) by lia.
      rewrite <- Hr'. apply skip_right_stop. lia.
Qed.

(** X8.  What [Strip] returns is stripped: it neither starts nor ends
    with white space, and it is not a pair of parentheses around a whole
    interior. *)
Theorem Strip_ends (s : SpanString) :
  view (Strip s) <> [] ->
  isspace (hd zero_char (view (Strip s))) = false
  /\ isspace (last (view (Strip s)) zero_char) = false
  /\ peelable (Strip s) = false.
Proof.
  intros Hne. destruct (Strip_stripped s) as [Hfix Hpeel].
  destruct (StripSpaces_fixed_ends (Strip s) (Strip_wf s) Hfix Hne) as [H1 H2].
  auto.
Qed.

Lemma Strip_ends_witness :
  view (Strip (SpanOf (chars "  ( f(x) ) "))) = chars "f(x)"
  /\ isspace (hd zero_char (view (Strip (SpanOf (chars "  ( f(x) ) "))))) = false.
Proof.
  split; [reflexivity|].
  apply (Strip_ends (SpanOf (chars "  ( f(x) ) "))). vm_compute. discriminate.
Defined.

(** ** The parts of a split *)

Lemma StripSpaces_heritage s : heritage (StripSpaces s) = heritage s.
Proof. unfold StripSpaces. destruct (null (view s)); apply Span_heritage. Qed.

Lemma Strip_loop_heritage n : forall s, heritage (Strip_loop n s) = heritage s.
Proof.
  induction n as [|n IH]; intros s; simpl.
  - destruct (peelable (StripSpaces s)); apply StripSpaces_heritage.
  - destruct (peelable (StripSpaces s)); [|apply StripSpaces_heritage].
    rewrite IH. unfold slice. rewrite Span_heritage. apply StripSpaces_heritage.
Qed.

Lemma SplitRaw_loop_parts s sep steps :
  forall skip part_start parts raw,
    SplitRaw_loop s sep steps skip part_start parts = Ok raw ->
    exists tail,
      raw = parts ++ tail /\ tail <> []
      /\ Forall (fun p => heritage p = heritage s) tail.
Proof.
  induction steps as [|step steps IH]; intros skip ps parts raw H; simpl in H.
  - inversion H. eexists. split; [reflexivity|]. split; [discriminate|].
    constructor; [apply Span_heritage|constructor].
  - destruct skip as [|skip]; [|eauto].
    destruct (negb (status_is_ok (status step))); [discriminate|].
    destruct (negb (null (state step))); [eauto|].
    destruct (separator_here (view s) sep (idx step)); [|eauto].
    destruct (IH _ _ _ _ H) as (tail & -> & _ & Hall).
    exists (slice s ps (idx step) :: tail). rewrite <- app_assoc.
    split; [reflexivity|]. split; [discriminate|].
    constructor; [apply Span_heritage|exact Hall].
Qed.

(** X9.  [Split] always returns at least one part, and every part is a
    stripped span of the heritage of the span that was split. *)
Theorem Split_parts (s : SpanString) (separator : string) (parts : list SpanString) :
  Split s separator = Ok parts ->
  parts <> []
  /\ Forall (fun p => heritage p = heritage s /\ wf p /\ Strip p = p) parts.
Proof.
  unfold Split. intros H. apply bind_Ok in H. destruct H as (raw & Hraw & H).
  inversion H; subst parts. clear H.
  assert (Hr : raw <> [] /\ Forall (fun p => heritage p = heritage s) raw).
  { unfold SplitRaw in Hraw. destruct (length (chars separator) =? 0).
    - inversion Hraw. split; [discriminate|]. constructor; [reflexivity|constructor].
    - apply SplitRaw_loop_parts in Hraw. destruct Hraw as (tail & -> & Hne & Hall).
      simpl. auto. }
  destruct Hr as [Hne Hall]. split.
  - destruct raw; [congruence|discriminate].
  - apply Forall_forall. intros p Hp. apply in_map_iff in Hp.
    destruct Hp as (r & <- & Hr). rewrite Forall_forall in Hall.
    split; [|split].
    + unfold Strip. rewrite Strip_loop_heritage. apply Hall, Hr.
    + apply Strip_wf.
    + unfold Strip at 1. apply Strip_loop_fixed, Strip_stripped.
Qed.

Lemma Split_parts_witness :
  map str (match Split (SpanOf (chars "f(a, b), (c) ,")) "," with
           | Ok parts => parts | _ => [] end) = ["f(a, b)"; "c"; EmptyString]
  /\ exists parts,
       Split (SpanOf (chars "f(a, b), (c) ,")) "," = Ok parts /\ parts <> [].
Proof.
  split; [reflexivity|].
  destruct (Split (SpanOf (chars "f(a, b), (c) ,")) ",") as [parts| |] eqn:E;
    [|vm_compute in E; discriminate ..].
  exists parts. split; [reflexivity|].
  apply (Split_parts (SpanOf (chars "f(a, b), (c) ,")) "," parts E).
Defined.

(* ================================================================== *)
(** * String literals *)
(* ================================================================== *)

Lemma find_from_aux_absent c v i : ~ In c v -> find_from_aux [c] v i = None.
Proof.
  revert i. induction v as [|x v IH]; intros i H; [reflexivity|].
  simpl. destruct (ch c x) eqn:E.
  - apply ch_eq in E. subst. exfalso. apply H. left. reflexivity.
  - simpl. apply IH. intros Hin. apply H. right. exact Hin.
Qed.

Lemma contains_absent c v : ~ In c v -> contains [c] v = false.
Proof.
  intros H. unfold contains, find, find_from.
  change (length v <? 0) with false. cbn [skipn].
  rewrite find_from_aux_absent by exact H. reflexivity.
Qed.

Lemma quoted_length (q : ascii) body : length (q :: body ++ [q]) = length body + 2.
Proof. simpl. rewrite length_app. simpl. lia. Qed.

Lemma quoted_meat (q : ascii) body :
  substr (q :: body ++ [q]) 1 (length (q :: body ++ [q]) - 2) = body.
Proof.
  rewrite quoted_length. unfold substr. simpl.
  replace (length body + 2 - 2) with (length body + 0) by lia.
  rewrite firstn_app_2. simpl. apply app_nil_r.
Qed.

Lemma quoted_back (q : ascii) body : back (q :: body ++ [q]) = q.
Proof.
  unfold back. change (q :: body ++ [q]) with ((q :: body) ++ [q]).
  apply last_last.
Qed.

(** X10.  A literal in double quotes with no double quote inside is a
    string literal, and its value is the text between the quotes, byte for
    byte: a backslash in it stands for itself. *)
Theorem ParseString_double_quoted (body : list ascii) :
  ~ In dquote body ->
  ParseString (SpanOf (dquote :: body ++ [dquote]))
  = Some (Obj [("the_string", JString (text body))]).
Proof.
  intros H. unfold ParseString. rewrite view_SpanOf.
  rewrite quoted_meat, quoted_back, quoted_length.
  cbn [front hd]. rewrite contains_absent by exact H.
  replace (2 <=? length body + 2) with true by (symmetry; apply Nat.leb_le; lia).
  reflexivity.
Qed.

Lemma ParseString_double_quoted_witness :
  ParseString (SpanOf (dquote :: chars "a\nb" ++ [dquote]))
  = Some (Obj [("the_string", JString "a\nb")]).
Proof.
  apply (ParseString_double_quoted (chars "a\nb")).
  vm_compute. intros [H|[H|[H|[H|[]]]]]; discriminate H.
Defined.

Lemma skipn_nth_cons (v : list ascii) :
  forall k, k < length v -> skipn k v = nth k v zero_char :: skipn (S k) v.
Proof.
  induction v as [|c v IH]; intros k Hk; [simpl in Hk; lia|].
  destruct k as [|k]; [reflexivity|]. simpl in Hk. simpl. apply IH. lia.
Qed.

(** The loop of [ParsePythonStyleStringLiteral] over a text without
    backslash copies it. *)
Lemma PythonStyle_loop_copy (q : ascii) body :
  ~ In "\"%char body ->
  forall rounds k out,
    k <= length body -> length body - k < rounds ->
    PythonStyle_loop rounds (q :: body ++ [q]) (1 + k) out = out ++ skipn k body.
Proof.
  intros Hno. induction rounds as [|rounds IH]; intros k out Hk Hr; [lia|].
  cbn [PythonStyle_loop]. rewrite quoted_length.
  destruct (Nat.ltb_spec (1 + k + 1) (length body + 2)) as [Hlt|Hge]; cbn [negb].
  - assert (Hk' : k < length body) by lia.
    assert (Hnth : nth (1 + k) (q :: body ++ [q]) zero_char = nth k body zero_char).
    { simpl. apply app_nth1. exact Hk'. }
    rewrite Hnth.
    assert (Hc : ch (nth k body zero_char) "\" = false).
    { destruct (ch (nth k body zero_char) "\") eqn:E; [|reflexivity].
      apply ch_eq in E. exfalso. apply Hno. rewrite <- E. apply nth_In. exact Hk'. }
    rewrite Hc. cbn [negb].
    replace (1 + k + 1) with (1 + S k) by lia.
    rewrite IH by lia. rewrite <- app_assoc. f_equal.
    rewrite (skipn_nth_cons body k) by exact Hk'.
    reflexivity.
  - replace k with (length body) by lia. rewrite skipn_all, app_nil_r. reflexivity.
Qed.

Lemma has_unscreened_quote_absent body :
  ~ In "'"%char body -> ~ In "\"%char body -> has_unscreened_quote body false = false.
Proof.
  induction body as [|c body IH]; intros H1 H2; [reflexivity|].
  simpl. destruct (ch c "'") eqn:E1.
  - apply ch_eq in E1. subst. exfalso. apply H1. left. reflexivity.
  - destruct (ch c "\") eqn:E2.
    + apply ch_eq in E2. subst. exfalso. apply H2. left. reflexivity.
    + apply IH; intros Hin; [apply H1|apply H2]; right; exact Hin.
Qed.

(** X11.  A literal in single quotes with neither a quote nor a
    backslash inside is a string literal whose value is the text between
    the quotes. *)
Theorem ParseString_single_quoted (body : list ascii) :
  ~ In "'"%char body -> ~ In "\"%char body ->
  ParseString (SpanOf ("'"%char :: body ++ ["'"%char]))
  = Some (Obj [("the_string", JString (text body))]).
Proof.
  intros H1 H2. unfold ParseString, ParsePythonStyleStringLiteral.
  rewrite view_SpanOf, quoted_meat, quoted_back, quoted_length.
  cbn [front hd]. rewrite has_unscreened_quote_absent by assumption.
  replace (2 <=? length body + 2) with true by (symmetry; apply Nat.leb_le; lia).
  replace (length body + 2 <? 2) with false by (symmetry; apply Nat.ltb_ge; lia).
  cbn [ch Ascii.eqb Bool.eqb andb negb].
  pose proof (PythonStyle_loop_copy "'"%char body H2 (length body + 2) 0 []) as Hcopy.
  change (1 + 0) with 1 in Hcopy. rewrite Hcopy by lia. reflexivity.
Qed.

Lemma ParseString_single_quoted_witness :
  ParseString (SpanOf (chars "'it is'")) = Some (Obj [("the_string", JString "it is")]).
Proof.
  apply (ParseString_single_quoted (chars "it is"));
    vm_compute; intros H; repeat (destruct H as [H|H]; [discriminate H|]); exact H.
Defined.

(* ================================================================== *)
(** * Parsing nothing *)
(* ================================================================== *)

(** No production of [ParseProposition] accepts an empty span. *)
Lemma ParseProposition_body_empty fun_mode PE PP s :
  wf s -> size s = 0 ->
  ParseProposition_body fun_mode PE PP s
  = throw_parsing "Could not parse proposition." s.
Proof.
  intros Hwf Hs. pose proof (empty_view s Hwf Hs) as Hv.
  unfold ParseProposition_body.
  unfold ParseDisjunction. destruct (Split_empty s "|" Hv) as (p1 & ->). cbn [bind length Nat.eqb].
  unfold ParseConjunction. destruct (Split_empty s "," Hv) as (p2 & ->).
  cbn [bind length Nat.eqb Nat.ltb Nat.leb andb negb].
  assert (He : (if fun_mode then ParsePropositionalEquivalence PP s else Ok None) = Ok None).
  { destruct fun_mode; [|reflexivity]. unfold ParsePropositionalEquivalence.
    destruct (Split_empty s "<=>" Hv) as (p & ->). reflexivity. }
  rewrite He. cbn [bind].
  unfold ParsePropositionalImplication.
  destruct (Split_empty s "=>" Hv) as (p3 & ->). cbn [bind].
  assert (Hi : ParseImplication PE s = Ok None).
  { unfold ParseImplication, starts_with. rewrite Hv. reflexivity. }
  rewrite Hi. cbn [bind].
  unfold ParseCall. rewrite ParseGenericCall_empty by assumption. cbn [bind].
  unfold ParseInfix. rewrite !ParseInfix_loop_empty by assumption. cbn [bind].
  unfold ParseUnification. destruct (Split_empty s "==" Hv) as (p4 & ->). cbn [bind].
  unfold ParseInclusion. destruct (Split_empty s " in " Hv) as (p5 & ->). cbn [bind].
  unfold ParseConciseCombine. destruct (Split_empty s "=" Hv) as (p6 & ->). cbn [bind].
  unfold ParseNegation. destruct (Split_empty s "~" Hv) as (p7 & ->). reflexivity.
Qed.

(** X12.  Nothing is neither an expression nor a proposition: on an
    empty span the expression parser throws "Could not parse expression
    of a value." and the proposition parser throws "Could not parse
    proposition.", both at the span. *)
Theorem Parse_empty (fun_mode : bool) (depth : nat) (s : SpanString) :
  wf s -> size s = 0 ->
  ParseExpression fun_mode (S depth) s
  = throw_parsing "Could not parse expression of a value." s
  /\ ParseProposition fun_mode (S depth) s
     = throw_parsing "Could not parse proposition." s.
Proof.
  intros Hwf Hs. split.
  - cbn [ParseExpression]. unfold ParseExpression_body.
    rewrite ActuallyParseExpression_empty by assumption. reflexivity.
  - cbn [ParseProposition]. apply ParseProposition_body_empty; assumption.
Qed.

Lemma Parse_empty_witness :
  message_of (ParseExpression false 1 (slice (SpanOf (chars "x == ")) 5 5))
  = Some "Could not parse expression of a value.".
Proof.
  destruct (Parse_empty false 0 (slice (SpanOf (chars "x == ")) 5 5)) as [H _].
  - apply slice_wf.
  - reflexivity.
  - rewrite H. reflexivity.
Defined.

(* ================================================================== *)
(** * More on [DnfRewrite] *)
(* ================================================================== *)

Lemma obj_set_twice k v o : obj_set k v (obj_set k v o) = obj_set k v o.
Proof.
  induction o as [|[k' v'] o IH]; simpl.
  - rewrite String.eqb_refl. reflexivity.
  - destruct (String.eqb k k') eqn:E; [|destruct (String.ltb k k') eqn:L]; simpl.
    + rewrite String.eqb_refl. reflexivity.
    + rewrite String.eqb_refl. reflexivity.
    + rewrite E, L, IH. reflexivity.
Qed.

Lemma proposition_to_dnf_leaf l : dnf_leaf l -> proposition_to_dnf l = Ok [[l]].
Proof.
  intros [H1 H2]. destruct l as [| | | | |o]; try reflexivity.
  simpl in *. rewrite H1, H2. reflexivity.
Qed.

Lemma mapM_cons {A B} (f : A -> result B) x l :
  mapM f (x :: l) = (y <- f x ;; ys <- mapM f l ;; Ok (y :: ys)).
Proof. reflexivity. Qed.

Lemma mapM_leaves leaves :
  Forall dnf_leaf leaves ->
  mapM proposition_to_dnf leaves = Ok (map (fun l => [[l]]) leaves).
Proof.
  induction 1 as [|l leaves Hl _ IH]; [reflexivity|].
  rewrite mapM_cons, (proposition_to_dnf_leaf l Hl), IH. reflexivity.
Qed.

Lemma conjunction_of_leaf_dnfs (leaves : list Json) :
  conjunction_of_dnfs (map (fun l => [[l]]) leaves) = [leaves].
Proof.
  induction leaves as [|l leaves IH]; [reflexivity|].
  destruct leaves as [|l' leaves]; [reflexivity|].
  change (conjunction_of_dnfs (map (fun l => [[l]]) (l :: l' :: leaves)))
    with (flat_map (fun a => map (fun b => a ++ b)
                                (conjunction_of_dnfs (map (fun l => [[l]]) (l' :: leaves))))
                   [[l]]).
  rewrite IH. reflexivity.
Qed.

(** A rule that [DnfRewrite] has emitted is emitted again, alone. *)
Lemma DnfRewrite_rule_fixed rule r :
  dnf_rule_of rule r -> DnfRewrite_rule r = Ok [r].
Proof.
  intros [[Hb ->]|(conjuncts & Hleaves & Hset)]; unfold DnfRewrite_rule.
  - rewrite Hb. reflexivity.
  - unfold set_key in Hset. destruct rule as [| | | | |o]; try discriminate.
    simpl in Hset. inversion Hset; subst r. clear Hset.
    unfold HasKey. rewrite obj_count_set_same. cbn [negb].
    unfold at_key. cbn [as_object bind]. unfold obj_at. rewrite obj_find_set_same.
    cbn [bind].
    change (Obj [("conjunction", Obj [("conjunct", JArray conjuncts)])])
      with (JObject [("conjunction", JObject [("conjunct", JArray conjuncts)])]).
    cbn [proposition_to_dnf obj_count obj_find String.eqb Ascii.eqb Bool.eqb
         with_key with_object with_array].
    rewrite (mapM_leaves conjuncts Hleaves). cbn [bind].
    rewrite conjunction_of_leaf_dnfs, mapM_cons.
    cbn [mapM bind set_key as_object].
    rewrite obj_set_twice. reflexivity.
Qed.

Lemma mapM_fixed (rs : JsonArray) :
  Forall (fun r => DnfRewrite_rule r = Ok [r]) rs ->
  mapM DnfRewrite_rule rs = Ok (map (fun r => [r]) rs).
Proof.
  induction 1 as [|r rs Hr _ IH]; [reflexivity|].
  rewrite mapM_cons, Hr, IH. reflexivity.
Qed.

Lemma concat_singletons {A} (l : list A) : concat (map (fun x => [x]) l) = l.
Proof. induction l as [|x l IH]; simpl; [reflexivity|]. rewrite IH. reflexivity. Qed.

(** X13.  [DnfRewrite] is idempotent: on the rule list it has returned it
    returns the same rule list. *)
Theorem DnfRewrite_idempotent (rules out : Json) :
  DnfRewrite rules = Ok out -> DnfRewrite out = Ok out.
Proof.
  unfold DnfRewrite at 1. intros H.
  apply bind_Ok in H. destruct H as (rs & Hrs & H).
  apply bind_Ok in H. destruct H as (outs & Houts & H).
  inversion H; subst out. clear H.
  assert (Hall : Forall (fun r => DnfRewrite_rule r = Ok [r]) (concat outs)).
  { apply concat_Forall. apply mapM_Ok in Houts.
    eapply Forall2_Forall_r with (P := fun _ => True); [|exact Houts].
    intros rule rs' _ Hrule. apply DnfRewrite_rule_spec in Hrule.
    eapply Forall_impl; [|exact Hrule]. intros r. apply DnfRewrite_rule_fixed. }
  unfold DnfRewrite. cbn [as_array bind].
  rewrite (mapM_fixed _ Hall). cbn [bind]. rewrite concat_singletons. reflexivity.
Qed.

Lemma DnfRewrite_idempotent_witness :
  exists out,
    DnfRewrite (JArray [disjunction_rule]) = Ok out /\ DnfRewrite out = Ok out.
Proof.
  destruct (DnfRewrite (JArray [disjunction_rule])) as [out| |] eqn:E;
    [|vm_compute in E; discriminate ..].
  exists out. split; [reflexivity|].
  apply (DnfRewrite_idempotent (JArray [disjunction_rule]) out E).
Defined.

(* ================================================================== *)
(** * More on the aggregation rewrite *)
(* ================================================================== *)

Lemma slot_free_object o :
  slot_free (JObject o)
  = forallb (fun kv => negb (is_slot (snd kv)) && slot_free (snd kv)) o.
Proof.
  simpl. induction o as [|[k v] o IH]; simpl; [reflexivity|].
  rewrite IH. reflexivity.
Qed.

Lemma slot_free_array a : slot_free (JArray a) = forallb slot_free a.
Proof.
  simpl. induction a as [|v a IH]; simpl; [reflexivity|].
  rewrite IH. reflexivity.
Qed.

Lemma convert_slot_plain v : is_slot v = false -> convert_slot v = Ok v.
Proof.
  unfold is_slot, convert_slot. destruct v as [| | | | |vo]; try reflexivity.
  destruct (obj_find "aggregation" vo) as [[| | | | |a]|]; try reflexivity.
  discriminate.
Qed.

Lemma mapM_id {A} (f : A -> result A) l :
  Forall (fun x => f x = Ok x) l -> mapM f l = Ok l.
Proof.
  induction 1 as [|x l Hx _ IH]; [reflexivity|].
  rewrite mapM_cons, Hx, IH. reflexivity.
Qed.

Lemma mapM_values_cons f k v o :
  mapM_values f ((k, v) :: o)
  = (v' <- f v ;; o' <- mapM_values f o ;; Ok ((k, v') :: o')).
Proof. reflexivity. Qed.

Lemma mapM_values_id f o :
  Forall (fun kv => f (snd kv) = Ok (snd kv)) o -> mapM_values f o = Ok o.
Proof.
  induction 1 as [|[k v] o Hx _ IH]; [reflexivity|].
  cbn [snd] in Hx. rewrite mapM_values_cons, Hx, IH. reflexivity.
Qed.

Lemma RewriteAggregationsInternal_slot_free depth :
  forall node,
    slot_free node = true -> rewrite_depth node < depth ->
    RewriteAggregationsInternal depth node = Ok node.
Proof.
  induction depth as [|d IH]; intros node Hf Hd; [lia|].
  rewrite Rewrite_unfold. destruct node as [| | | |a|o]; try reflexivity.
  - rewrite rewrite_depth_array in Hd. rewrite slot_free_array in Hf.
    rewrite mapM_id; [reflexivity|].
    apply Forall_forall. intros v Hv. unfold descend.
    destruct (is_container v); [|reflexivity].
    apply IH; [rewrite forallb_forall in Hf; auto|].
    assert (rewrite_depth v <= list_max (map rewrite_depth a)).
    { pose proof (proj1 (list_max_le (map rewrite_depth a) _) (le_n _)) as Hall.
      rewrite Forall_forall in Hall. apply Hall, in_map, Hv. }
    lia.
  - rewrite rewrite_depth_object in Hd. rewrite slot_free_object in Hf.
    rewrite forallb_forall in Hf.
    rewrite mapM_values_id.
    + cbn [bind]. rewrite mapM_values_id; [reflexivity|].
      apply Forall_forall. intros [k v] Hin. cbn [snd]. unfold descend.
      destruct (is_container v); [|reflexivity].
      specialize (Hf _ Hin). cbn [snd] in Hf.
      apply andb_true_iff in Hf. destruct Hf as [_ Hf].
      apply IH; [exact Hf|].
      pose proof (deepest_entry_In _ _ _ Hin). unfold slot_depth in *. lia.
    + apply Forall_forall. intros [k v] Hin. cbn [snd].
      specialize (Hf _ Hin). cbn [snd] in Hf.
      apply andb_true_iff in Hf. destruct Hf as [Hs _].
      apply convert_slot_plain. apply negb_true_iff. exact Hs.
Qed.

(** X14.  The aggregation rewrite changes aggregation slots only: a
    tree without any slot is returned as it is. *)
Theorem RewriteAggregations_slot_free (depth : nat) (rules : Json) :
  slot_free rules = true ->
  rewrite_depth rules < depth ->
  RewriteAggregationsAsExpressions depth rules = Ok rules.
Proof. apply RewriteAggregationsInternal_slot_free. Qed.

Lemma RewriteAggregations_slot_free_witness :
  RewriteAggregationsAsExpressions 30 (JArray [disjunction_rule])
  = Ok (JArray [disjunction_rule]).
Proof.
  apply (RewriteAggregations_slot_free 30 (JArray [disjunction_rule])).
  - reflexivity.
  - vm_compute. lia.
Defined.

(* ================================================================== *)
(** * Renaming and collecting predicates *)
(* ================================================================== *)

Lemma RenamePredicate_object o old new :
  RenamePredicate (JObject o) old new
  = (JObject (map (fun kv => (fst kv, fst (rename_value old new (fst kv) (snd kv)))) o),
     list_sum (map (fun kv => snd (rename_value old new (fst kv) (snd kv))) o)).
Proof.
  cbn [RenamePredicate].
  match goal with
  | |- context [?F o] =>
      lazymatch type of F with
      | list (string * Json) -> list (string * Json) * nat => set (entries := F)
      end
  end.
  assert (H : entries o
              = (map (fun kv => (fst kv, fst (rename_value old new (fst kv) (snd kv)))) o,
                 list_sum (map (fun kv => snd (rename_value old new (fst kv) (snd kv))) o))).
  { induction o as [|[k v] o IH]; [reflexivity|].
    change (entries ((k, v) :: o))
      with (let '(v', c) := rename_value old new k v in
            let '(o'', c') := entries o in ((k, v') :: o'', c + c')).
    rewrite IH. cbn [map list_sum fold_right fst snd].
    destruct (rename_value old new k v) as [v' c]. reflexivity. }
  rewrite H. reflexivity.
Qed.

Lemma RenamePredicate_array a old new :
  RenamePredicate (JArray a) old new
  = (JArray (map (fun v => fst (rename_element old new v)) a),
     list_sum (map (fun v => snd (rename_element old new v)) a)).
Proof.
  cbn [RenamePredicate].
  match goal with
  | |- context [?F a] =>
      lazymatch type of F with
      | list Json -> list Json * nat => set (elements := F)
      end
  end.
  assert (H : elements a
              = (map (fun v => fst (rename_element old new v)) a,
                 list_sum (map (fun v => snd (rename_element old new v)) a))).
  { induction a as [|v a IH]; [reflexivity|].
    change (elements (v :: a))
      with (let '(v', c) := rename_element old new v in
            let '(a'', c') := elements a in (v' :: a'', c + c')).
    rewrite IH. cbn [map list_sum fold_right fst snd].
    destruct (rename_element old new v) as [v' c]. reflexivity. }
  rewrite H. reflexivity.
Qed.

Lemma list_sum_zero l : list_sum l = 0 <-> Forall (fun c => c = 0) l.
Proof.
  induction l as [|c l IH]; simpl; [split; [constructor|reflexivity]|].
  split.
  - intros H. constructor; [lia|]. apply IH. lia.
  - intros H. inversion H; subst. simpl. apply IH. assumption.
Qed.

Lemma map_fixed {A} (f : A -> A) l : map f l = l -> forall x, In x l -> f x = x.
Proof.
  induction l as [|y l IH]; intros H x Hx; [destruct Hx|].
  simpl in H. injection H as Hy Hl. destruct Hx as [->|Hx].
  - exact Hy.
  - apply IH; assumption.
Qed.

(** Without a renaming the tree stays; and when the names differ, a tree
    that stays had no renaming. *)
Lemma RenamePredicate_count old new e :
  (snd (RenamePredicate e old new) = 0 -> fst (RenamePredicate e old new) = e)
  /\ (old <> new -> fst (RenamePredicate e old new) = e ->
      snd (RenamePredicate e old new) = 0).
Proof.
  induction e as [| b | n | s | a IH | o IH] using Json_ind;
    try (split; intros; reflexivity).
  - rewrite RenamePredicate_array. cbn [fst snd]. rewrite Forall_forall in IH. split.
    + intros H. apply list_sum_zero in H. f_equal.
      rewrite <- (map_id a) at 2. apply map_ext_in. intros v Hv.
      rewrite Forall_forall in H.
      specialize (H _ (in_map _ _ _ Hv)). cbn beta in H.
      unfold rename_element in *. destruct (is_container v); [|reflexivity].
      apply (IH _ Hv), H.
    + intros Hne H. apply list_sum_zero. apply Forall_forall.
      intros c Hc. apply in_map_iff in Hc. destruct Hc as (v & <- & Hv).
      injection H as Hmap.
      pose proof (map_fixed _ _ Hmap v Hv) as Hv'. cbn beta in Hv'.
      unfold rename_element in *. destruct (is_container v); [|reflexivity].
      apply (IH _ Hv); assumption.
  - rewrite RenamePredicate_object. cbn [fst snd]. rewrite Forall_forall in IH. split.
    + intros H. apply list_sum_zero in H. f_equal.
      rewrite <- (map_id o) at 2. apply map_ext_in. intros [k v] Hv.
      rewrite Forall_forall in H.
      specialize (H _ (in_map _ _ _ Hv)). cbn beta in H. cbn [fst snd] in *.
      f_equal. specialize (IH _ Hv). cbn [snd] in IH.
      unfold rename_value in *. destruct (is_container v); [apply IH, H|].
      destruct v; try reflexivity.
      destruct ((String.eqb k "predicate_name" || String.eqb k "field")
                && String.eqb s old); [discriminate H|reflexivity].
    + intros Hne H. apply list_sum_zero. apply Forall_forall.
      intros c Hc. apply in_map_iff in Hc. destruct Hc as ([k v] & <- & Hv).
      injection H as Hmap. cbn [fst snd].
      pose proof (map_fixed _ _ Hmap (k, v) Hv) as Hv'. cbn [fst snd] in Hv'.
      injection Hv' as Hv''.
      specialize (IH _ Hv). cbn [snd] in IH.
      unfold rename_value in *. destruct (is_container v); [apply IH; assumption|].
      destruct v; try reflexivity.
      destruct ((String.eqb k "predicate_name" || String.eqb k "field")
                && String.eqb s old) eqn:E; [|reflexivity].
      apply andb_true_iff in E. destruct E as [_ E]. apply String.eqb_eq in E.
      cbn [fst] in Hv''. inversion Hv''. congruence.
Qed.

(** X15.  The count that [RenamePredicate] returns tells whether it has
    changed the tree: for different names, it is zero exactly when the
    tree is returned as it was.  (The import resolver takes a zero count
    for an import that is not used.) *)
Theorem RenamePredicate_unchanged (e : Json) (old_name new_name : string) :
  old_name <> new_name ->
  (snd (RenamePredicate e old_name new_name) = 0
   <-> fst (RenamePredicate e old_name new_name) = e).
Proof.
  intros Hne. destruct (RenamePredicate_count old_name new_name e) as [H1 H2].
  split; [exact H1|exact (H2 Hne)].
Qed.

Lemma RenamePredicate_unchanged_witness :
  snd (RenamePredicate disjunction_rule "T" "U") = 0
  /\ fst (RenamePredicate disjunction_rule "T" "U") = disjunction_rule.
Proof.
  assert (H : snd (RenamePredicate disjunction_rule "T" "U") = 0) by reflexivity.
  split; [exact H|].
  apply (RenamePredicate_unchanged disjunction_rule "T" "U"); [discriminate|exact H].
Defined.

(** ** [DefinedPredicates] *)

Lemma set_insert_In x y s : In x (set_insert y s) <-> x = y \/ In x s.
Proof.
  induction s as [|z s IH]; simpl.
  - split; [intros [H|[]]; auto|intros [H|[]]; auto].
  - destruct (String.eqb y z) eqn:E; [|destruct (String.ltb y z)]; simpl.
    + apply String.eqb_eq in E. subst. split; [auto|intros [->|H]; auto].
    + split; [intros [H|H]; auto|intros [H|H]; auto].
    + rewrite IH. split; [intros [H|[H|H]]; auto|intros [H|[H|H]]; auto].
Qed.

(** X16.  [DefinedPredicates] returns the names of the heads of the
    rules, all of them and nothing else. *)
Theorem DefinedPredicates_heads (rules : JsonArray) (names : StringSet) :
  DefinedPredicates rules = Ok names ->
  forall name,
    In name names
    <-> exists rule, In rule rules /\ head_predicate_name rule = Ok name.
Proof.
  revert names. induction rules as [|r rules IH]; intros names H name; simpl in H.
  - inversion H. split; [intros []|intros (rule & [] & _)].
  - apply bind_Ok in H. destruct H as (n & Hn & H).
    apply bind_Ok in H. destruct H as (rest & Hrest & H).
    inversion H; subst names. rewrite set_insert_In, (IH rest Hrest). split.
    + intros [->|(rule & Hin & Hr)].
      * exists r. split; [left; reflexivity|exact Hn].
      * exists rule. split; [right; exact Hin|exact Hr].
    + intros (rule & [<-|Hin] & Hr).
      * left. congruence.
      * right. exists rule. auto.
Qed.

Lemma DefinedPredicates_heads_witness :
  DefinedPredicates [disjunction_rule; negated_disjunction_rule; disjunction_rule]
  = Ok ["Q"]
  /\ In "Q" ["Q"].
Proof.
  split; [reflexivity|].
  apply (DefinedPredicates_heads
           [disjunction_rule; negated_disjunction_rule; disjunction_rule] ["Q"]
           eq_refl "Q").
  exists disjunction_rule. split; [left; reflexivity|reflexivity].
Defined.

(* ================================================================== *)
(** * [MultiBodyAggregationRewrite] *)
(* ================================================================== *)

(** The groups hold rules of the rule list. *)
Lemma group_by_name_Forall (P : Json -> Prop) rules :
  forall names by_name names' by_name',
    group_by_name rules names by_name = Ok (names', by_name') ->
    Forall P rules ->
    Forall (fun e => Forall P (snd e)) by_name ->
    Forall (fun e => Forall P (snd e)) by_name'.
Proof.
  induction rules as [|r rules IH]; intros names by_name names' by_name' H Hr Hb;
    simpl in H.
  - inversion H; subst. exact Hb.
  - apply bind_Ok in H. destruct H as (name & _ & H).
    inversion Hr as [|? ? Hr0 Hrs]; subst.
    destruct (existsb _ by_name); eapply IH; try exact H; try exact Hrs.
    + apply Forall_forall. intros e He. apply in_map_iff in He.
      destruct He as (e0 & <- & He0). rewrite Forall_forall in Hb.
      specialize (Hb _ He0).
      destruct (String.eqb name (fst e0)); [|exact Hb]. cbn [snd].
      apply Forall_app. split; [exact Hb|]. constructor; [exact Hr0|constructor].
    + apply Forall_app. split; [exact Hb|].
      constructor; [|constructor]. cbn [snd]. constructor; [exact Hr0|constructor].
Qed.

Lemma rules_named_Forall (P : Json -> Prop) name by_name :
  Forall (fun e => Forall P (snd e)) by_name -> Forall P (rules_named name by_name).
Proof.
  intros H. unfold rules_named.
  match goal with
  | |- context [List.find ?f ?l] => destruct (List.find f l) as [e|] eqn:E
  end; [|constructor].
  apply find_some in E. destruct E as [E _].
  rewrite Forall_forall in H. apply H, E.
Qed.

Lemma filter_none {A} (f : A -> bool) l :
  (forall x, In x l -> f x = false) -> filter f l = [].
Proof.
  induction l as [|x l IH]; intros H; [reflexivity|].
  simpl. rewrite (H x) by (left; reflexivity). apply IH.
  intros y Hy. apply H. right. exact Hy.
Qed.

(** Without predicates with several aggregating bodies the main loop
    copies the rules. *)
Lemma MultiBody_loop_copy rules :
  forall new_rules agg text new_rules' agg' text',
    MultiBody_loop [] rules new_rules agg text = Ok (new_rules', agg', text') ->
    new_rules' = new_rules ++ rules.
Proof.
  induction rules as [|rule rules IH]; intros new_rules agg txt new_rules' agg' txt' H;
    simpl in H.
  - inversion H. rewrite app_nil_r. reflexivity.
  - apply bind_Ok in H. destruct H as (name & _ & H).
    apply bind_Ok in H. destruct H as (ft & _ & H).
    apply bind_Ok in H. destruct H as (ft' & _ & H).
    apply IH in H. rewrite H, <- app_assoc. reflexivity.
Qed.

(** X17.  [MultiBodyAggregationRewrite] touches aggregating predicates
    only: a rule list in which no rule is marked [distinct_denoted] is
    returned as it is. *)
Theorem MultiBodyAggregationRewrite_plain (rules : JsonArray) (out : Json) :
  Forall (fun r => HasKey r "distinct_denoted" = false) rules ->
  MultiBodyAggregationRewrite (JArray rules) = Ok out ->
  out = JArray rules.
Proof.
  intros Hplain H. unfold MultiBodyAggregationRewrite in H. cbn [as_array bind] in H.
  destruct (group_by_name rules [] []) as [[names by_name]| |] eqn:Eg;
    cbn [bind] in H; try discriminate.
  pose proof (group_by_name_Forall _ rules [] [] names by_name Eg Hplain
                (Forall_nil _)) as Hgroups.
  rewrite filter_none in H.
  - destruct (MultiBody_loop [] rules [] [] []) as [[[new_rules agg] txt]| |] eqn:El;
      cbn [bind mapM] in H; try discriminate.
    apply MultiBody_loop_copy in El. inversion H. subst.
    rewrite app_nil_r. reflexivity.
  - intros n _.
    pose proof (rules_named_Forall _ n by_name Hgroups) as Hrs.
    destruct (rules_named n by_name) as [|r rs]; [reflexivity|].
    inversion Hrs; subst. cbn [hd].
    match goal with Hr : HasKey r _ = false |- _ => rewrite Hr end.
    apply andb_false_r.
Qed.

Lemma MultiBodyAggregationRewrite_plain_witness :
  MultiBodyAggregationRewrite (JArray [disjunction_rule; disjunction_rule])
  = Ok (JArray [disjunction_rule; disjunction_rule]).
Proof.
  destruct (MultiBodyAggregationRewrite (JArray [disjunction_rule; disjunction_rule]))
    as [out| |] eqn:E; [|vm_compute in E; discriminate ..].
  f_equal.
  apply (MultiBodyAggregationRewrite_plain [disjunction_rule; disjunction_rule] out).
  - repeat constructor.
  - exact E.
Defined.

(* ================================================================== *)
(** * More on files and imports *)
(* ================================================================== *)

(** X18.  A file is parsed once: after [ParseImport] has returned for a
    file, every later import of that file returns the same result from
    the cache, without a look at the file system, and leaves the
    environment as it is. *)
Theorem ParseImport_once (fs : FileSystem) (import_root : list string)
    (PFI : list ascii -> string -> Env -> list string -> result (Json * Env))
    (name : string) (env env' : Env) (chain : list string) (parsed : Json) :
  ParseImport fs import_root PFI name env chain = Ok (parsed, env') ->
  forall fs' import_root' PFI' chain',
    ParseImport fs' import_root' PFI' name env' chain' = Ok (parsed, env').
Proof.
  unfold ParseImport at 1. intros H fs' root' PFI' chain'.
  destruct (obj_find name (parsed_imports env)) as [p|] eqn:Ep.
  - inversion H; subst. unfold ParseImport. rewrite Ep. reflexivity.
  - destruct (set_count name (in_progress env)); [discriminate|].
    destruct (find_file fs _ _) as [content|]; [|discriminate].
    apply bind_Ok in H. destruct H as ([parsed0 env0] & _ & H).
    inversion H; subst. unfold ParseImport. cbn [parsed_imports].
    rewrite obj_find_set_same. reflexivity.
Qed.

Lemma ParseImport_once_witness :
  exists parsed env',
    ParseImport two_files [] (ParseFileInternal two_files [] 20) "lib.util"
      (MkEnv [] [] false) ["main"] = Ok (parsed, env')
    /\ ParseImport (fun _ => None) [] (fun _ _ _ _ => OutOfFuel) "lib.util" env' []
       = Ok (parsed, env').
Proof.
  destruct (ParseImport two_files [] (ParseFileInternal two_files [] 20) "lib.util"
              (MkEnv [] [] false) ["main"]) as [[parsed env']| |] eqn:E;
    [|vm_compute in E; discriminate ..].
  exists parsed, env'. split; [reflexivity|].
  apply (ParseImport_once two_files [] (ParseFileInternal two_files [] 20) "lib.util"
           (MkEnv [] [] false) env' ["main"] parsed E).
Defined.

(** ** The result of [ParseFile] *)

Lemma ParseFileInternal_body_result import_ depth content name env chain j env' :
  ParseFileInternal_body import_ depth content name env chain = Ok (j, env') ->
  file_result name j.
Proof.
  unfold ParseFileInternal_body. intros H.
  repeat (apply bind_Ok in H; destruct H as (? & _ & H)).
  inversion H. eexists _, _, _. reflexivity.
Qed.

(** X19.  Whatever [ParseFile] returns is an object with the four
    entries [rule] (an array), [imported_predicates] (an array),
    [predicates_prefix] (a string) and [file_name], which is the name the
    file was parsed under. *)
Theorem ParseFile_result (fs : FileSystem) (import_root : list string)
    (depth : nat) (content : list ascii) (file_name : string) (j : Json) :
  ParseFile fs import_root depth content file_name = Ok j ->
  file_result file_name j /\ at_key "file_name" j = Ok (JString file_name).
Proof.
  unfold ParseFile. intros H.
  apply bind_Ok in H. destruct H as ([parsed env] & Hp & H). inversion H; subst j.
  destruct depth as [|depth]; [discriminate|]. cbn [ParseFileInternal] in Hp.
  apply ParseFileInternal_body_result in Hp. split; [exact Hp|].
  destruct Hp as (rules & ips & prefix & ->). reflexivity.
Qed.

Lemma ParseFile_result_witness :
  exists j,
    ParseFile (fun _ => None) [] 20 (chars "Q(x) :- P(x);") "main" = Ok j
    /\ at_key "file_name" j = Ok (JString "main").
Proof.
  destruct (ParseFile (fun _ => None) [] 20 (chars "Q(x) :- P(x);") "main")
    as [j| |] eqn:E; [|vm_compute in E; discriminate ..].
  exists j. split; [reflexivity|].
  apply (ParseFile_result (fun _ => None) [] 20 (chars "Q(x) :- P(x);") "main" j E).
Defined.

(** ** A file that is not there *)

Lemma ParseImport_not_found fs import_root PFI name env chain :
  obj_find name (parsed_imports env) = None ->
  set_count name (in_progress env) = false ->
  find_file fs (search_roots import_root) (import_path name) = None ->
  ParseImport fs import_root PFI name env chain
  = throw_parsing ("Imported file not found: " ++ import_path name)
      (slice (SpanOf (chars ("import " ++ name ++ ".<PREDICATE>")))
             7 (7 + length (chars name))).
Proof.
  intros Hp Hi Hf. unfold ParseImport. rewrite Hp, Hi.
  change (find_file fs (if null import_root then [EmptyString] else import_root) _)
    with (find_file fs (search_roots import_root) (import_path name)).
  rewrite Hf. reflexivity.
Qed.

(** X20.  A file whose first statement imports a file that is in none
    of the import roots does not parse: [ParseFile] throws "Imported file
    not found: " with the path of the file, at the name of the file in
    the import. *)
Theorem ParseFile_import_not_found (fs : FileSystem) (import_root : list string)
    (depth : nat) (content : list ascii) (file_name name : string) :
  first_import content = Some name ->
  find_file fs (search_roots import_root) (import_path name) = None ->
  ParseFile fs import_root (S depth) content file_name
  = throw_parsing ("Imported file not found: " ++ import_path name)
      (slice (SpanOf (chars ("import " ++ name ++ ".<PREDICATE>")))
             7 (7 + length (chars name))).
Proof.
  intros Hfirst Hfile. unfold ParseFile. cbn [ParseFileInternal].
  erewrite ParseFileInternal_body_import_throws; [reflexivity|exact Hfirst|].
  intros env' Hp Hi. apply ParseImport_not_found; [rewrite Hp|rewrite Hi|]; auto.
Qed.

Lemma ParseFile_import_not_found_witness :
  message_of (ParseFile two_files [] 1 (chars "import lib.other.P; Q(x) :- P(x);") "main")
  = Some "Imported file not found: lib/other.l".
Proof.
  rewrite (ParseFile_import_not_found two_files [] 0
             (chars "import lib.other.P; Q(x) :- P(x);") "main" "lib.other").
  - reflexivity.
  - reflexivity.
  - reflexivity.
Defined.

(** ** Prefixes *)

Lemma extend_prefix_fresh existing parts i :
  forall prefix p,
    extend_prefix existing parts i prefix = Ok p -> set_count p existing = false.
Proof.
  induction i as [|i IH]; intros prefix p H; simpl in H.
  - destruct (set_count prefix existing) eqn:E; [discriminate|]. inversion H; subst. exact E.
  - destruct (set_count prefix existing) eqn:E.
    + destruct (i <=? 0); [discriminate|]. eapply IH, H.
    + inversion H; subst. exact E.
Qed.

(** X21.  The prefix that a file other than [main] gets for its
    predicates is none of the prefixes of the files parsed before it. *)
Theorem compute_prefix_fresh (this_file_name : string) (imports : JsonObject)
    (prefix : string) (existing : StringSet) :
  this_file_name <> "main" ->
  compute_prefix this_file_name imports = Ok prefix ->
  existing_prefixes imports = Ok existing ->
  set_count prefix existing = false.
Proof.
  intros Hname H He. unfold compute_prefix in H.
  apply String.eqb_neq in Hname. rewrite Hname, He in H. cbn [bind] in H.
  destruct (length _) as [|i]; [discriminate|].
  eapply extend_prefix_fresh, H.
Qed.

Lemma compute_prefix_fresh_witness :
  compute_prefix "x.a.util"
    [("lib.util", Obj [("predicates_prefix", JString "Util_")])] = Ok "aUtil_"
  /\ set_count "aUtil_" ["Util_"] = false.
Proof.
  split; [reflexivity|].
  apply (compute_prefix_fresh "x.a.util"
           [("lib.util", Obj [("predicates_prefix", JString "Util_")])] "aUtil_" ["Util_"]).
  - discriminate.
  - reflexivity.
  - reflexivity.
Defined.

(* ================================================================== *)
(** * More on rules *)
(* ================================================================== *)

(** X22.  A rule that parses records its source: [full_text] is the
    text of the statement, and the rule has a [body] exactly when the
    statement splits in two at [:-]. *)
Theorem ParseRule_source (fun_mode : bool) (PE PP : SpanString -> result Json)
    (s : SpanString) (rule : Json) :
  ParseRule fun_mode PE PP s = Ok rule ->
  at_key "full_text" rule = Ok (JString (str s))
  /\ exists parts,
       Split s ":-" = Ok parts
       /\ HasKey rule "body" = (length parts =? 2).
Proof.
  intros H.
  unfold ParseRule in H. apply bind_Ok in H. destruct H as (parts & Hparts & H).
  destruct (2 <? length parts) eqn:Elen; [discriminate|].
  apply bind_Ok in H. destruct H as ([[h1 couldbe] n1] & _ & H).
  apply bind_Ok in H. destruct H as ([[h2 cantbe] n2] & _ & H).
  apply bind_Ok in H. destruct H as ([[h3 shouldbe] n3] & _ & H).
  apply bind_Ok in H. destruct H as ([[h4 limit] limit_what] & _ & H).
  apply bind_Ok in H. destruct H as ([[h5 order_by] order_by_what] & _ & H).
  apply bind_Ok in H. destruct H as (head_distinct & _ & H).
  apply bind_Ok in H. destruct H as (r1 & Hr1 & H).
  apply bind_Ok in H. destruct H as (r2 & Hr2 & H).
  inversion H; subst rule. clear H. split.
  - unfold at_key. cbn [as_object bind]. unfold obj_at.
    rewrite obj_find_set_same. reflexivity.
  - exists parts. split; [exact Hparts|].
    assert (Hr1b : obj_find "body" r1 = None).
    { destruct (length head_distinct =? 1).
      - apply bind_Ok in Hr1. destruct Hr1 as ([ph d] & _ & Hr1). inversion Hr1.
        rewrite obj_find_set_if by discriminate. reflexivity.
      - destruct head_distinct as [|hd0 [|hd1 [|hd2 hds]]]; try discriminate.
        destruct (negb (empty hd1)); [discriminate|].
        apply bind_Ok in Hr1. destruct Hr1 as ([ph d] & _ & Hr1). inversion Hr1.
        reflexivity. }
    assert (Hrest : obj_find "body"
              (set_some "limit_denoted" limit_what
                 (set_some "orderby_denoted" order_by_what
                    (set_if shouldbe "shouldbe_denoted" (JBool true)
                       (set_if cantbe "cantbe_denoted" (JBool true)
                          (set_if couldbe "couldbe_denoted" (JBool true) r1)))))
              = None).
    { rewrite !obj_find_set_some, !obj_find_set_if by discriminate. exact Hr1b. }
    unfold HasKey, obj_count. rewrite obj_find_set_other by discriminate.
    destruct parts as [|p0 [|p1 [|p2 ps]]]; cbn [length Nat.eqb].
    + inversion Hr2; subst r2. rewrite Hrest. reflexivity.
    + inversion Hr2; subst r2. rewrite Hrest. reflexivity.
    + apply bind_Ok in Hr2. destruct Hr2 as (b & _ & Hr2). inversion Hr2; subst r2.
      rewrite obj_find_set_same. reflexivity.
    + simpl in Elen. discriminate.
Qed.

Lemma ParseRule_source_witness :
  exists rule,
    parse_rule 10 "Q(x) :- P(x)" = Ok rule
    /\ at_key "full_text" rule = Ok (JString "Q(x) :- P(x)")
    /\ HasKey rule "body" = true.
Proof.
  destruct (parse_rule 10 "Q(x) :- P(x)") as [rule| |] eqn:E;
    [|vm_compute in E; discriminate ..].
  exists rule. split; [reflexivity|].
  destruct (ParseRule_source false (ParseExpression false 10) (ParseProposition false 10)
              (SpanOf (chars "Q(x) :- P(x)")) rule E) as (H1 & parts & Hp & H2).
  split; [exact H1|].
  rewrite H2. vm_compute in Hp. inversion Hp. reflexivity.
Defined.

(** On plain text the scan of [ParseHeadCall] finds no call. *)
Lemma HeadCall_scan_plain s ks :
  HeadCall_scan s (map (fun k => MkStep k [] OK) ks) false = Ok (false, 0).
Proof. induction ks as [|k ks IH]; [reflexivity|exact IH]. Qed.

(** X23.  A rule head needs a call: on a text without brackets, quotes
    and comment signs [ParseHeadCall] throws "Found no call in rule
    head." at the text. *)
Theorem ParseHeadCall_plain (fun_mode : bool) (PE : SpanString -> result Json)
    (s : SpanString) (distinct_from_outside : bool) :
  plain (view s) = true ->
  ParseHeadCall fun_mode PE s distinct_from_outside
  = throw_parsing "Found no call in rule head." s.
Proof.
  intros H. unfold ParseHeadCall, Traverse.
  rewrite Traverse_from_plain by exact H.
  rewrite HeadCall_scan_plain. reflexivity.
Qed.

Lemma ParseHeadCall_plain_witness :
  message_of (ParseHeadCall false (ParseExpression false 10)
                (SpanOf (chars "Hello world")) false)
  = Some "Found no call in rule head.".
Proof.
  rewrite (ParseHeadCall_plain false (ParseExpression false 10)
             (SpanOf (chars "Hello world")) false).
  - reflexivity.
  - reflexivity.
Defined.

(* ================================================================== *)
(** * Record internals *)
(* ================================================================== *)

(** Every round of the loop of [ParseRecordInternals] adds one field. *)
Lemma RecordInternals_step_adds PE lit agg i fv st st' :
  RecordInternals_step PE lit agg i fv st = Ok st' ->
  length (fields st') = S (length (fields st)).
Proof.
  unfold RecordInternals_step. intros H.
  destruct (had_restof st); [discriminate|].
  destruct (starts_with fv "..").
  - destruct lit; [discriminate|].
    apply bind_Ok in H. destruct H as (e & _ & H). inversion H. cbn [fields].
    rewrite length_app. simpl. lia.
  - apply bind_Ok in H. destruct H as (colon & _ & H).
    destruct colon as [one|[field value]].
    + apply bind_Ok in H. destruct H as (question & _ & H).
      destruct question as [one'|[field value]].
      * destruct (positional_ok st); [|discriminate].
        apply bind_Ok in H. destruct H as (e & _ & H). inversion H. cbn [fields].
        rewrite length_app. simpl. lia.
      * destruct (negb agg); [discriminate|].
        destruct (empty field); [discriminate|].
        apply bind_Ok in H. destruct H as ([op expr] & _ & H).
        apply bind_Ok in H. destruct H as (argument & _ & H). inversion H. cbn [fields].
        rewrite length_app. simpl. lia.
    + apply bind_Ok in H. destruct H as (value' & _ & H).
      apply bind_Ok in H. destruct H as (e & _ & H). inversion H. cbn [fields].
      rewrite length_app. simpl. lia.
Qed.

Lemma RecordInternals_loop_adds PE lit agg field_values :
  forall i st st',
    RecordInternals_loop PE lit agg i field_values st = Ok st' ->
    length (fields st') = length (fields st) + length field_values.
Proof.
  induction field_values as [|fv rest IH]; intros i st st' H; simpl in H.
  - inversion H. simpl. lia.
  - apply bind_Ok in H. destruct H as (st1 & H1 & H).
    apply RecordInternals_step_adds in H1. apply IH in H. simpl. lia.
Qed.

(** X24.  What [ParseRecordInternals] returns is a record, an object
    with the array [field_value].  For a whole text that is not empty the
    array has one field for every part of the text between commas; for a
    text that is empty, or not whole, it is empty. *)
Theorem ParseRecordInternals_fields (PE : SpanString -> result Json)
    (input : SpanString) (is_record_literal is_aggregation_allowed : bool)
    (record : Json) :
  ParseRecordInternals PE input is_record_literal is_aggregation_allowed = Ok record ->
  exists field_values,
    record = Obj [("field_value", JArray field_values)]
    /\ if empty (Strip input) || negb (IsWhole (Strip input)) then field_values = []
       else exists parts,
              Split (Strip input) "," = Ok parts
              /\ length field_values = length parts.
Proof.
  unfold ParseRecordInternals. intros H.
  apply bind_Ok in H. destruct H as (parts & _ & H).
  destruct (1 <? length parts); [discriminate|].
  destruct (empty (Strip input)); cbn [orb].
  - inversion H. eexists. split; reflexivity.
  - destruct (IsWhole (Strip input)); cbn [negb].
    + apply bind_Ok in H. destruct H as (field_values & Hsplit & H).
      apply bind_Ok in H. destruct H as (st & Hloop & H). inversion H.
      eexists. split; [reflexivity|]. exists field_values. split; [exact Hsplit|].
      apply RecordInternals_loop_adds in Hloop. simpl in Hloop. exact Hloop.
    + inversion H. eexists. split; reflexivity.
Qed.

Lemma ParseRecordInternals_fields_witness :
  exists field_values,
    ParseRecordInternals (ParseExpression false 10) (SpanOf (chars "x, f(y, z), a: 1"))
      false false
    = Ok (Obj [("field_value", JArray field_values)])
    /\ length field_values = 3.
Proof.
  destruct (ParseRecordInternals (ParseExpression false 10)
              (SpanOf (chars "x, f(y, z), a: 1")) false false) as [record| |] eqn:E;
    [|vm_compute in E; discriminate ..].
  destruct (ParseRecordInternals_fields _ _ _ _ _ E) as (fvs & -> & H).
  exists fvs. split; [reflexivity|].
  change (empty (Strip (SpanOf (chars "x, f(y, z), a: 1")))
          || negb (IsWhole (Strip (SpanOf (chars "x, f(y, z), a: 1"))))) with false in H.
  destruct H as (parts & Hp & Hlen). rewrite Hlen.
  vm_compute in Hp. inversion Hp. reflexivity.
Defined.

(* ================================================================== *)
(** * Import statements and the search path *)
(* ================================================================== *)

Lemma getline_all_no_delim delim v :
  forall acc, ~ In delim acc ->
    Forall (fun p => ~ In delim p) (getline_all delim v acc).
Proof.
  induction v as [|c v IH]; intros acc Hacc; simpl.
  - destruct (null acc); constructor; [|constructor].
    intros H. apply in_rev in H. contradiction.
  - destruct (ch c delim) eqn:E.
    + constructor.
      * intros H. apply in_rev in H. contradiction.
      * apply IH. intros [].
    + apply IH. intros [H|H]; [|contradiction].
      subst c. assert (ch delim delim = true) by (apply ch_eq; reflexivity). congruence.
Qed.

Lemma last_Forall {A} (P : A -> Prop) (l : list A) d :
  l <> [] -> Forall P l -> P (last l d).
Proof.
  intros Hne H. induction H as [|x l Hx H IH]; [contradiction|].
  destruct l as [|y l]; [exact Hx|]. apply IH. discriminate.
Qed.

Lemma chars_text_id l : chars (text l) = l.
Proof. apply list_ascii_of_string_of_list_ascii. Qed.

(** X25.  The predicate that [SplitImport] returns for an import is not
    empty, starts with an upper-case letter and holds no dot; there is a
    synonym exactly when the import holds [" as "]. *)
Theorem SplitImport_predicate (import_str : list ascii)
    (file predicate : string) (synonym : option string) :
  SplitImport import_str = Ok (file, predicate, synonym) ->
  isupper (front (chars predicate)) = true
  /\ chars predicate <> []
  /\ ~ In "."%char (chars predicate)
  /\ (synonym = None <-> find (chars " as ") import_str = None).
Proof.
  unfold SplitImport. intros H.
  apply bind_Ok in H. destruct H as ([import_path syn] & Hpath & H).
  set (parts := getline_all "." import_path []) in H.
  destruct (null parts) eqn:Hnull; [discriminate|].
  destruct (null (last parts [])) eqn:Hlast; [discriminate|].
  destruct (isupper (front (last parts []))) eqn:Hupper; [|discriminate].
  cbn [orb negb] in H. inversion H. subst. rewrite chars_text_id.
  split; [exact Hupper|]. split.
  - destruct (last parts []); [discriminate|discriminate].
  - split.
    + apply last_Forall.
      * destruct parts; [discriminate|discriminate].
      * apply getline_all_no_delim. intros [].
    + destruct (find (chars " as ") import_str) as [pos|].
      * destruct (find_from _ _ _); [discriminate|]. inversion Hpath.
        split; discriminate.
      * inversion Hpath. split; reflexivity.
Qed.

Lemma SplitImport_predicate_witness :
  isupper (front (chars "Grade")) = true
  /\ chars "Grade" <> []
  /\ ~ In "."%char (chars "Grade")
  /\ (Some "G" = None <-> find (chars " as ") (chars "lib.util.Grade as G") = None).
Proof.
  apply (SplitImport_predicate (chars "lib.util.Grade as G") "lib.util").
  reflexivity.
Defined.

Lemma find_from_aux_colon part rest i :
  ~ In ":"%char part ->
  find_from_aux [":"%char] (part ++ ":"%char :: rest) i = Some (i + length part).
Proof.
  revert i. induction part as [|c part IH]; intros i Hno.
  - simpl. f_equal. lia.
  - cbn [app find_from_aux starts_with_list length].
    destruct (ch ":" c) eqn:E.
    + apply ch_eq in E. subst c. exfalso. apply Hno. left. reflexivity.
    + cbn [andb]. rewrite IH by (intros H; apply Hno; right; exact H).
      f_equal. lia.
Qed.

Lemma find_from_colon pre part rest :
  ~ In ":"%char part ->
  find_from [":"%char] (pre ++ part ++ ":"%char :: rest) (length pre)
  = Some (length pre + length part).
Proof.
  intros Hno. unfold find_from.
  replace (length (pre ++ part ++ ":"%char :: rest) <? length pre) with false
    by (symmetry; apply Nat.ltb_ge; rewrite length_app; lia).
  rewrite skipn_app, skipn_all, Nat.sub_diag. cbn [skipn app].
  apply find_from_aux_colon, Hno.
Qed.

Lemma find_from_no_colon pre part :
  ~ In ":"%char part ->
  find_from [":"%char] (pre ++ part) (length pre) = None.
Proof.
  intros Hno. unfold find_from.
  replace (length (pre ++ part) <? length pre) with false
    by (symmetry; apply Nat.ltb_ge; rewrite length_app; lia).
  rewrite skipn_app, skipn_all, Nat.sub_diag. cbn [skipn app].
  apply find_from_aux_absent, Hno.
Qed.

Lemma substr_middle pre part rest :
  substr (pre ++ part ++ rest) (length pre) (length pre + length part - length pre) = part.
Proof.
  unfold substr. rewrite skipn_app, skipn_all, Nat.sub_diag. cbn [skipn app].
  replace (length pre + length part - length pre) with (length part) by lia.
  rewrite firstn_app, firstn_all, Nat.sub_diag. simpl. apply app_nil_r.
Qed.

Lemma SplitLogicapath_loop_join (roots : list (list ascii)) :
  Forall (fun r => r <> [] /\ ~ In ":"%char r) roots ->
  roots <> [] ->
  forall rounds pre acc,
    length roots < rounds ->
    SplitLogicapath_loop rounds (pre ++ join [":"%char] roots) (length pre) acc
    = acc ++ map text roots.
Proof.
  induction 1 as [|r roots [Hne Hno] Hall IH]; [contradiction|].
  intros _ rounds pre acc Hrounds.
  destruct rounds as [|rounds]; [simpl in Hrounds; lia|].
  destruct roots as [|r' roots].
  - cbn [join map]. cbn [SplitLogicapath_loop].
    replace (length (pre ++ r) <? length pre) with false
      by (symmetry; apply Nat.ltb_ge; rewrite length_app; lia).
    rewrite (find_from_no_colon pre r Hno).
    replace (substr (pre ++ r) (length pre) (length (pre ++ r) - length pre)) with r.
    2:{ pose proof (substr_middle pre r []) as Hmid. rewrite app_nil_r in Hmid.
        rewrite length_app. symmetry. exact Hmid. }
    destruct r as [|c r]; [contradiction|]. cbn [null].
    destruct rounds as [|rounds]; [simpl in Hrounds; lia|].
    cbn [SplitLogicapath_loop].
    replace (length (pre ++ c :: r) <? length (pre ++ c :: r) + 1) with true
      by (symmetry; apply Nat.ltb_lt; lia).
    reflexivity.
  - change (join [":"%char] (r :: r' :: roots))
      with (r ++ ":"%char :: join [":"%char] (r' :: roots)).
    cbn [SplitLogicapath_loop].
    replace (length (pre ++ r ++ ":"%char :: join [":"%char] (r' :: roots)) <? length pre)
      with false by (symmetry; apply Nat.ltb_ge; rewrite length_app; lia).
    rewrite (find_from_colon pre r _ Hno), substr_middle.
    destruct r as [|c r]; [contradiction|]. cbn [null].
    replace (pre ++ (c :: r) ++ ":"%char :: join [":"%char] (r' :: roots))
      with ((pre ++ (c :: r) ++ [":"%char]) ++ join [":"%char] (r' :: roots))
      by (rewrite <- !app_assoc; reflexivity).
    replace (length pre + length (c :: r) + 1)
      with (length (pre ++ (c :: r) ++ [":"%char]))
      by (rewrite !length_app; simpl; lia).
    rewrite IH; [|discriminate|simpl in *; lia].
    cbn [map]. rewrite <- app_assoc. reflexivity.
Qed.

Lemma join_length_roots (roots : list (list ascii)) :
  Forall (fun r => r <> [] /\ ~ In ":"%char r) roots ->
  length roots <= length (join [":"%char] roots).
Proof.
  induction 1 as [|r roots [Hne _] Hall IH]; [simpl; lia|].
  destruct roots as [|r' roots].
  - destruct r; [contradiction|]. simpl. lia.
  - change (join [":"%char] (r :: r' :: roots))
      with (r ++ ":"%char :: join [":"%char] (r' :: roots)).
    rewrite length_app. cbn [length] in *. lia.
Qed.

(** X26.  [SplitLogicapath] reads back a search path: for roots that are
    not empty and hold no colon, the path that joins them with colons
    splits into these roots, in their order. *)
Theorem SplitLogicapath_join (roots : list (list ascii)) :
  Forall (fun r => r <> [] /\ ~ In ":"%char r) roots ->
  SplitLogicapath (Some (join [":"%char] roots)) = map text roots.
Proof.
  intros Hall. destruct roots as [|r roots]; [reflexivity|].
  unfold SplitLogicapath.
  apply (SplitLogicapath_loop_join (r :: roots) Hall ltac:(discriminate) _ [] []).
  pose proof (join_length_roots _ Hall). lia.
Qed.

Lemma SplitLogicapath_join_witness :
  SplitLogicapath (Some (join [":"%char] [chars "lib"; chars "/usr/share/logica"]))
  = map text [chars "lib"; chars "/usr/share/logica"].
Proof.
  apply SplitLogicapath_join.
  repeat constructor; try discriminate;
    intros H; vm_compute in H; repeat (destruct H as [H|H]; [discriminate|]); exact H.
Defined.

(* ================================================================== *)
(** * The heritage of every expression node *)
(* ================================================================== *)

(** ** Spans of the source *)

Section Spans.

Variable source : list ascii.

Lemma source_span_same s p :
  source_span source s -> wf p -> heritage p = heritage s -> source_span source p.
Proof. intros [_ H] Hwf Hh. split; [exact Hwf|]. rewrite Hh. exact H. Qed.

Lemma source_span_Strip s : source_span source s -> source_span source (Strip s).
Proof.
  intros H. eapply source_span_same; [exact H|apply Strip_wf|].
  unfold Strip. apply Strip_loop_heritage.
Qed.

Lemma source_span_slice s a b :
  source_span source s -> source_span source (slice s a b).
Proof.
  intros H. eapply source_span_same; [exact H|apply slice_wf|].
  unfold slice. apply Span_heritage.
Qed.

Lemma source_span_slice_from s a :
  source_span source s -> source_span source (slice_from s a).
Proof. apply source_span_slice. Qed.

Lemma source_span_Span s a b :
  source_span source s -> source_span source (Span (heritage s) a b).
Proof.
  intros H. eapply source_span_same; [exact H|apply Span_wf|apply Span_heritage].
Qed.

Lemma SplitRaw_loop_spans s sep steps :
  source_span source s ->
  forall skip part_start parts raw,
    SplitRaw_loop s sep steps skip part_start parts = Ok raw ->
    Forall (source_span source) parts -> Forall (source_span source) raw.
Proof.
  intros Hs. induction steps as [|step steps IH]; intros skip ps parts raw H Hparts;
    simpl in H.
  - inversion H. apply Forall_app. split; [exact Hparts|].
    constructor; [apply source_span_slice, Hs|constructor].
  - destruct skip as [|skip]; [|eauto].
    destruct (negb (status_is_ok (status step))); [discriminate|].
    destruct (negb (null (state step))); [eauto|].
    destruct (separator_here (view s) sep (idx step)); [|eauto].
    eapply IH; [exact H|]. apply Forall_app. split; [exact Hparts|].
    constructor; [apply source_span_slice, Hs|constructor].
Qed.

Lemma SplitRaw_spans s sep raw :
  source_span source s -> SplitRaw s sep = Ok raw -> Forall (source_span source) raw.
Proof.
  intros Hs H. unfold SplitRaw in H.
  destruct (length (chars sep) =? 0).
  - inversion H. constructor; [exact Hs|constructor].
  - eapply SplitRaw_loop_spans; [exact Hs|exact H|constructor].
Qed.

Lemma Split_spans s sep parts :
  source_span source s -> Split s sep = Ok parts -> Forall (source_span source) parts.
Proof.
  intros Hs H. unfold Split in H. bind_inv H. inversion H; subst parts.
  pose proof (SplitRaw_spans _ _ _ Hs Hx) as Hraw.
  apply Forall_forall. intros p Hp. apply in_map_iff in Hp.
  destruct Hp as (r & <- & Hr). rewrite Forall_forall in Hraw.
  apply source_span_Strip, Hraw, Hr.
Qed.

Lemma SplitInTwo_spans s sep a b :
  source_span source s -> SplitInTwo s sep = Ok (a, b) ->
  source_span source a /\ source_span source b.
Proof.
  intros Hs H. unfold SplitInTwo in H. bind_inv H.
  pose proof (Split_spans _ _ _ Hs Hx) as Hall.
  destruct x as [|p0 [|p1 [|p2 ps]]]; try discriminate H. inversion H; subst.
  inversion Hall as [|? ? Ha Hrest]; subst. inversion Hrest; subst. auto.
Qed.

Lemma SplitInOneOrTwo_spans s sep r :
  source_span source s -> SplitInOneOrTwo s sep = Ok r ->
  match r with
  | inl a => source_span source a
  | inr (a, b) => source_span source a /\ source_span source b
  end.
Proof.
  intros Hs H. unfold SplitInOneOrTwo in H. bind_inv H.
  pose proof (Split_spans _ _ _ Hs Hx) as Hall.
  destruct x as [|p0 [|p1 [|p2 ps]]]; try discriminate H; inversion H; subst.
  - inversion Hall; subst. assumption.
  - inversion Hall as [|? ? Ha Hrest]; subst. inversion Hrest; subst. auto.
Qed.

Lemma view_in_source s :
  source_span source s -> exists before after, source = before ++ view s ++ after.
Proof.
  intros [_ (before & after & Hsource)]. unfold view.
  exists (before ++ firstn (start s) (heritage s)),
         (skipn (stop s - start s) (skipn (start s) (heritage s)) ++ after).
  rewrite Hsource, <- !app_assoc. f_equal.
  rewrite (app_assoc (firstn (stop s - start s) _)), firstn_skipn.
  rewrite app_assoc, firstn_skipn. reflexivity.
Qed.

Lemma source_span_text s :
  source_span source s -> empty s = false -> source_text source (str s).
Proof.
  intros Hs He. split.
  - apply str_nonempty; [apply Hs|exact He].
  - unfold str. rewrite chars_text_id. apply view_in_source, Hs.
Qed.

Lemma source_span_SpanOf l :
  (exists before after, source = before ++ l ++ after) ->
  source_span source (SpanOf l).
Proof. intros H. split; [apply SpanOf_wf|exact H]. Qed.

Lemma within_text (l m : list ascii) :
  (exists before after, m = before ++ l ++ after) ->
  (exists before after, source = before ++ m ++ after) ->
  exists before after, source = before ++ l ++ after.
Proof.
  intros (b1 & a1 & ->) (b2 & a2 & ->).
  exists (b2 ++ b1), (a1 ++ a2). rewrite <- !app_assoc. reflexivity.
Qed.

End Spans.

(** ** The productions

    Each production returns a tree of its shape, when the two parsers it
    calls return trees of expressions and of propositions. *)

Section Productions.

Variable fun_mode : bool.
Variable source : list ascii.
Variables PE PP : SpanString -> result Json.

Hypothesis PE_tree :
  forall s e, source_span source s -> PE s = Ok e -> expression source e.
Hypothesis PP_tree :
  forall s p, source_span source s -> PP s = Ok p -> proposition source p.

Lemma mapM_expressions spans es :
  Forall (source_span source) spans -> mapM PE spans = Ok es ->
  Forall (expression source) es.
Proof.
  intros Hspans H. apply mapM_Ok in H.
  induction H as [|s e spans es He _ IH]; [constructor|].
  inversion Hspans; subst. constructor; [eapply PE_tree; eassumption|auto].
Qed.

Lemma mapM_propositions spans ps :
  Forall (source_span source) spans -> mapM PP spans = Ok ps ->
  Forall (proposition source) ps.
Proof.
  intros Hspans H. apply mapM_Ok in H.
  induction H as [|s e spans es He _ IH]; [constructor|].
  inversion Hspans; subst. constructor; [eapply PP_tree; eassumption|auto].
Qed.

Lemma ParseList_tree s v :
  source_span source s -> ParseList PE s = Ok (Some v) ->
  exists elements, v = JObject [("element", JArray elements)]
                   /\ Forall (expression source) elements.
Proof.
  intros Hs H. unfold ParseList in H.
  destruct ((2 <=? size s) && ch (at_ s 0) "[" && ch (at_ s (size s - 1)) "]"
            && IsWhole (slice s 1 (size s - 1))); [|discriminate].
  bind_inv H. inversion H; subst v. exists x. split; [reflexivity|].
  destruct (negb (empty (Strip (slice s 1 (size s - 1))))).
  - bind_inv Hx. eapply mapM_expressions; [|exact Hx].
    eapply Split_spans; [|exact Hx0]. apply source_span_Strip, source_span_slice, Hs.
  - inversion Hx. constructor.
Qed.

Lemma ParseLiteral_tree s l :
  source_span source s -> ParseLiteral PE s = Ok (Some l) -> literal source l.
Proof.
  intros Hs H. unfold ParseLiteral in H.
  destruct (ParseNumber s) as [n|] eqn:En.
  { inversion H; subst l. unfold ParseNumber in En.
    destruct (list_eqb _ infinity_literal); [inversion En; apply literal_number|].
    destruct (negb (strtod_accepts _)); [discriminate|].
    inversion En. apply literal_number. }
  destruct (ParseString s) as [v|] eqn:Es.
  { inversion H; subst l. unfold ParseString in Es.
    repeat match type of Es with
           | (if ?c then _ else _) = _ => destruct c
           end; inversion Es; apply literal_string. }
  bind_inv H. destruct x as [v|].
  { inversion H; subst l.
    destruct (ParseList_tree _ _ Hs Hx) as (elements & -> & Hall).
    apply literal_list. exact Hall. }
  destruct (ParseBoolean s) as [v|] eqn:Eb.
  { inversion H; subst l. unfold ParseBoolean in Eb.
    destruct (_ || _); inversion Eb. apply literal_bool. }
  destruct (ParseNull s) as [v|] eqn:Enull.
  { inversion H; subst l. unfold ParseNull in Enull.
    destruct (String.eqb _ _); inversion Enull. apply literal_null. }
  destruct (ParsePredicateLiteral s) as [v|] eqn:Ep; [|discriminate].
  inversion H; subst l. unfold ParsePredicateLiteral in Ep.
  repeat match type of Ep with
         | (if ?c then _ else _) = _ => destruct c
         end; inversion Ep; apply literal_predicate.
Qed.

Lemma ParseVariable_tree s v :
  ParseVariable s = Ok (Some v) -> exists name, v = JObject [("var_name", JString name)].
Proof.
  unfold ParseVariable. intros H.
  repeat match type of H with
         | (if ?c then _ else _) = _ => destruct c
         end; inversion H. eexists. reflexivity.
Qed.

(** *** Records *)

Lemma RecordInternals_step_tree lit agg i ft st st' :
  source_span source ft ->
  RecordInternals_step PE lit agg i ft st = Ok st' ->
  exists fv, fields st' = fields st ++ [fv] /\ field_value source fv.
Proof.
  intros Hft H. unfold RecordInternals_step in H.
  destruct (had_restof st); [discriminate|].
  destruct (starts_with ft "..").
  - destruct lit; [discriminate|].
    apply bind_Ok in H. destruct H as (e & He & H). inversion H. cbn [fields].
    eexists. split; [reflexivity|].
    apply PE_tree in He; [|apply source_span_slice_from, Hft].
    destruct (negb (null (observed_fields st))).
    + apply (field_rest_except source (observed_fields st) e He).
    + apply (field_named source "*" e He).
  - apply bind_Ok in H. destruct H as (colon & Hcolon & H).
    pose proof (SplitInOneOrTwo_spans _ _ _ _ Hft Hcolon) as Hc.
    destruct colon as [one|[field value]].
    + apply bind_Ok in H. destruct H as (question & Hquestion & H).
      pose proof (SplitInOneOrTwo_spans _ _ _ _ Hft Hquestion) as Hq.
      destruct question as [one'|[field value]].
      * destruct (positional_ok st); [|discriminate].
        apply bind_Ok in H. destruct H as (e & He & H). inversion H. cbn [fields].
        eexists. split; [reflexivity|].
        apply field_positional. eapply PE_tree; [exact Hft|exact He].
      * destruct (negb agg); [discriminate|].
        destruct (empty field); [discriminate|].
        apply bind_Ok in H. destruct H as ([op expr] & Hsplit & H).
        apply bind_Ok in H. destruct H as (argument & Harg & H). inversion H.
        cbn [fields]. eexists. split; [reflexivity|].
        destruct Hq as [_ Hvalue].
        destruct (SplitInTwo_spans _ _ _ _ _ Hvalue Hsplit) as [_ Hexpr].
        apply (field_aggregated source (str field) (str (Strip op)) argument (str value)).
        eapply PE_tree; [exact Hexpr|exact Harg].
    + destruct Hc as [Hfield Hvalue].
      apply bind_Ok in H. destruct H as (value' & Hv & H).
      apply bind_Ok in H. destruct H as (e & He & H). inversion H. cbn [fields].
      eexists. split; [reflexivity|].
      apply field_named. eapply PE_tree; [|exact He].
      destruct (empty value); [|inversion Hv; subst; exact Hvalue].
      repeat match type of Hv with
             | (if ?c then _ else _) = _ => destruct c
             end; try discriminate Hv.
      inversion Hv; subst. exact Hfield.
Qed.

Lemma RecordInternals_loop_tree lit agg field_texts :
  Forall (source_span source) field_texts ->
  forall i st st',
    RecordInternals_loop PE lit agg i field_texts st = Ok st' ->
    Forall (field_value source) (fields st) ->
    Forall (field_value source) (fields st').
Proof.
  induction 1 as [|ft rest Hft _ IH]; intros i st st' H Hst; simpl in H.
  - inversion H; subst. exact Hst.
  - apply bind_Ok in H. destruct H as (st1 & Hstep & H).
    destruct (RecordInternals_step_tree _ _ _ _ _ _ Hft Hstep) as (fv & Hfields & Hfv).
    eapply IH; [exact H|]. rewrite Hfields. apply Forall_app. split; [exact Hst|].
    constructor; [exact Hfv|constructor].
Qed.

Lemma ParseRecordInternals_tree input lit agg r :
  source_span source input ->
  ParseRecordInternals PE input lit agg = Ok r -> record source r.
Proof.
  intros Hs H. unfold ParseRecordInternals in H.
  apply bind_Ok in H. destruct H as (parts & _ & H).
  destruct (1 <? length parts); [discriminate|].
  assert (Hnone : record source (Obj [("field_value", JArray [])])).
  { apply (record_node source []). constructor. }
  destruct (empty (Strip input)); [inversion H; subst; exact Hnone|].
  destruct (IsWhole (Strip input)); [|inversion H; subst; exact Hnone].
  apply bind_Ok in H. destruct H as (field_texts & Hsplit & H).
  apply bind_Ok in H. destruct H as (st & Hloop & H). inversion H; subst r.
  apply record_node.
  eapply RecordInternals_loop_tree; [|exact Hloop|constructor].
  eapply Split_spans; [|exact Hsplit]. apply source_span_Strip, Hs.
Qed.

Lemma ParseRecord_tree s r :
  source_span source s -> ParseRecord PE s = Ok (Some r) -> record source r.
Proof.
  intros Hs H. unfold ParseRecord in H.
  destruct (_ && _); [|discriminate].
  bind_inv H. inversion H; subst r.
  eapply ParseRecordInternals_tree; [|exact Hx].
  apply source_span_slice, source_span_Strip, Hs.
Qed.

(** *** Calls *)

Lemma starts_with_list_prefix p v :
  starts_with_list p v = true -> exists r, v = p ++ r.
Proof.
  revert v. induction p as [|x p IH]; intros v H; [exists v; reflexivity|].
  destruct v as [|y v]; [discriminate|]. simpl in H.
  apply andb_prop in H. destruct H as [Hx H]. apply ch_eq in Hx. subst y.
  destruct (IH _ H) as (r & ->). exists r. reflexivity.
Qed.

Lemma GenericCall_scan_predicate s opening steps i pred :
  GenericCall_scan fun_mode s opening steps = Ok (Some (i, pred)) ->
  pred = str (slice s 0 i).
Proof.
  induction steps as [|step steps IH]; simpl; intros H; [discriminate|].
  destruct (negb (status_is_ok (status step))); [discriminate|].
  destruct (list_eqb (state step) [opening]).
  - destruct (_ || _); inversion H. reflexivity.
  - destruct (_ && _); [discriminate|]. auto.
Qed.

Lemma ParseGenericCall_spans input opening closing predicate inner :
  source_span source input ->
  ParseGenericCall fun_mode input opening closing = Ok (Some (predicate, inner)) ->
  source_span source inner
  /\ exists before after, source = before ++ chars predicate ++ after.
Proof.
  intros Hs H. unfold ParseGenericCall in H.
  pose proof (source_span_Strip _ _ Hs) as Hstrip.
  set (s := Strip input) in *.
  destruct (empty s); [discriminate|].
  apply bind_Ok in H. destruct H as (found & Hfound & H).
  destruct found as [[i pred]|]; [|discriminate].
  destruct (_ && _); [|discriminate]. inversion H; subst inner. clear H.
  split; [apply source_span_slice, Hstrip|].
  assert (Hpred : exists before after, source = before ++ chars pred ++ after).
  { destruct (starts_with s "->") eqn:Earrow.
    - inversion Hfound; subst. unfold starts_with in Earrow.
      destruct (starts_with_list_prefix _ _ Earrow) as (r & Hr).
      apply within_text with (m := view s); [|apply view_in_source, Hstrip].
      exists [], r. exact Hr.
    - apply GenericCall_scan_predicate in Hfound. subst pred.
      unfold str. rewrite chars_text_id.
      apply view_in_source, source_span_slice, Hstrip. }
  destruct (String.eqb pred "`=`") eqn:E1.
  { apply String.eqb_eq in E1. subst pred. inversion H1.
    apply within_text with (m := chars "`=`"); [|exact Hpred].
    exists ["`"%char], ["`"%char]. reflexivity. }
  destruct (String.eqb pred "`~`") eqn:E2.
  { apply String.eqb_eq in E2. subst pred. inversion H1.
    apply within_text with (m := chars "`~`"); [|exact Hpred].
    exists ["`"%char], ["`"%char]. reflexivity. }
  inversion H1; subst. exact Hpred.
Qed.

Lemma ParseCall_tree s agg c :
  source_span source s -> ParseCall fun_mode PE s agg = Ok (Some c) -> call source c.
Proof.
  intros Hs H. unfold ParseCall in H.
  apply bind_Ok in H. destruct H as (generic & Hgeneric & H).
  destruct generic as [[predicate inner]|]; [|discriminate].
  apply bind_Ok in H. destruct H as (args & Hargs & H). inversion H; subst c.
  destruct (ParseGenericCall_spans _ _ _ _ _ Hs Hgeneric) as [Hinner _].
  apply (call_plain source predicate args).
  eapply ParseRecordInternals_tree; eassumption.
Qed.

(** *** Combine *)

Lemma parse_conjuncts_tree body j :
  source_span source body -> parse_conjuncts PP body = Ok j ->
  exists conjuncts,
    j = JObject [("conjunct", JArray conjuncts)]
    /\ Forall (proposition source) conjuncts.
Proof.
  intros Hs H. unfold parse_conjuncts in H.
  bind_inv H. bind_inv H. inversion H; subst j. exists x0. split; [reflexivity|].
  eapply mapM_propositions; [|exact Hx0]. eapply Split_spans; eassumption.
Qed.

Lemma BuildTreeForCombine_tree e op body parsed_body full_text :
  expression source e ->
  match body with Some b => source_span source b | None => True end ->
  parse_optional_body PP body = Ok parsed_body ->
  combine source (BuildTreeForCombine e op parsed_body full_text).
Proof.
  intros He Hbody H. destruct body as [b|]; simpl in H.
  - bind_inv H. inversion H; subst parsed_body.
    destruct (parse_conjuncts_tree _ _ Hbody Hx) as (conjuncts & -> & Hall).
    apply (combine_body source (str op) e (str full_text) conjuncts He Hall).
  - inversion H; subst parsed_body.
    apply (combine_value source (str op) e (str full_text) He).
Qed.

Lemma ParseCombine_tree input v :
  source_span source input -> ParseCombine PE PP input = Ok (Some v) ->
  combine source v.
Proof.
  intros Hs H. unfold ParseCombine in H.
  destruct (negb (starts_with input "combine ")); [discriminate|].
  pose proof (source_span_slice_from _ _ (length (chars "combine ")) Hs) as Hs1.
  set (s := slice_from input (length (chars "combine "))) in *.
  apply bind_Ok in H. destruct H as (vb & Hvb & H).
  pose proof (SplitInOneOrTwo_spans _ _ _ _ Hs1 Hvb) as Hparts.
  destruct vb as [one|[value body]].
  - apply bind_Ok in H. destruct H as ([op expr] & Hsplit & H).
    apply bind_Ok in H. destruct H as (parsed & Hparsed & H).
    apply bind_Ok in H. destruct H as (parsed_body & Hbody & H). inversion H; subst v.
    destruct (SplitInTwo_spans _ _ _ _ _ Hs1 Hsplit) as [_ Hexpr].
    eapply (BuildTreeForCombine_tree _ _ None); [|exact I|exact Hbody].
    eapply PE_tree; [|eassumption]; assumption.
  - destruct Hparts as [Hvalue Hb].
    apply bind_Ok in H. destruct H as ([op expr] & Hsplit & H).
    apply bind_Ok in H. destruct H as (parsed & Hparsed & H).
    apply bind_Ok in H. destruct H as (parsed_body & Hbody & H). inversion H; subst v.
    destruct (SplitInTwo_spans _ _ _ _ _ Hvalue Hsplit) as [_ Hexpr].
    eapply (BuildTreeForCombine_tree _ _ (Some body)); [|exact Hb|exact Hbody].
    eapply PE_tree; [|eassumption]; assumption.
Qed.

Lemma ParseUltraConciseCombine_tree s v :
  source_span source s -> ParseUltraConciseCombine fun_mode PE PP s = Ok (Some v) ->
  combine source v.
Proof.
  intros Hs H. unfold ParseUltraConciseCombine in H.
  apply bind_Ok in H. destruct H as (gc & Hgc & H).
  destruct gc as [[predicate multiset]|]; [|discriminate].
  destruct (ParseGenericCall_spans _ _ _ _ _ Hs Hgc) as [Hm _].
  apply bind_Ok in H. destruct H as (vb & Hvb & H).
  pose proof (SplitInOneOrTwo_spans _ _ _ _ Hm Hvb) as Hparts.
  destruct vb as [one|[value body]]; cbv beta iota in H.
  - apply bind_Ok in H. destruct H as (parsed & Hparsed & H).
    apply bind_Ok in H. destruct H as (parsed_body & Hbody & H). inversion H; subst v.
    eapply (BuildTreeForCombine_tree _ _ None); [|exact I|exact Hbody].
    eapply PE_tree; [|eassumption]; assumption.
  - destruct Hparts as [Hvalue Hb].
    apply bind_Ok in H. destruct H as (parsed & Hparsed & H).
    apply bind_Ok in H. destruct H as (parsed_body & Hbody & H). inversion H; subst v.
    eapply (BuildTreeForCombine_tree _ _ (Some body)); [|exact Hb|exact Hbody].
    eapply PE_tree; [|eassumption]; assumption.
Qed.

(** *** Implication *)

Lemma parse_if_then_tree cond_cons j :
  source_span source cond_cons -> parse_if_then PE cond_cons = Ok j ->
  if_then source j.
Proof.
  intros Hs H. unfold parse_if_then in H.
  apply bind_Ok in H. destruct H as ([cond conseq] & Hsplit & H).
  apply bind_Ok in H. destruct H as (condition & Hc & H).
  apply bind_Ok in H. destruct H as (consequence & Hq & H). inversion H; subst j.
  destruct (SplitInTwo_spans _ _ _ _ _ Hs Hsplit) as [Hcond Hconseq].
  apply (if_then_node source condition consequence);
    (eapply PE_tree; [|eassumption]; assumption).
Qed.

Lemma Forall_removelast {A} (P : A -> Prop) l : Forall P l -> Forall P (removelast l).
Proof.
  induction 1 as [|x l Hx Hl IH]; [constructor|].
  simpl. destruct l; [constructor|]. constructor; assumption.
Qed.

Lemma Forall_last {A} (P : A -> Prop) l d : Forall P l -> P d -> P (last l d).
Proof.
  induction 1 as [|x l Hx Hl IH]; intros Hd; [exact Hd|].
  simpl. destruct l; [exact Hx|]. apply IH, Hd.
Qed.

Lemma ParseImplication_tree s v :
  source_span source s -> ParseImplication PE s = Ok (Some v) ->
  expression_body source "implication" v.
Proof.
  intros Hs H. unfold ParseImplication in H.
  destruct (negb _); [discriminate|].
  pose proof (source_span_slice_from _ _ 3 Hs) as Hinner.
  set (inner := slice_from s 3) in *.
  apply bind_Ok in H. destruct H as (if_thens & Hsplit & H).
  pose proof (Split_spans _ _ _ _ Hinner Hsplit) as Hparts.
  apply bind_Ok in H. destruct H as ([last_first last_else] & Hlast & H).
  destruct (SplitInTwo_spans _ _ _ _ _ (Forall_last _ _ _ Hparts Hinner) Hlast)
    as [Hfirst Helse].
  apply bind_Ok in H. destruct H as (result_if_thens & Hmap & H).
  apply bind_Ok in H. destruct H as (otherwise & Hother & H). inversion H; subst v.
  apply (body_implication source result_if_thens otherwise).
  - apply mapM_Ok in Hmap.
    assert (Hspans : Forall (source_span source) (removelast if_thens ++ [last_first])).
    { apply Forall_app. split; [apply Forall_removelast, Hparts|].
      constructor; [exact Hfirst|constructor]. }
    induction Hmap as [|x y l l' Hxy _ IH]; [constructor|].
    inversion Hspans; subst. constructor; [|auto].
    eapply parse_if_then_tree; eassumption.
  - eapply PE_tree; [|eassumption]; assumption.
Qed.

(** *** Operators, subscripts and negation *)

Lemma infix_call_tree op left_expr right_expr :
  expression source left_expr -> expression source right_expr ->
  call source (infix_call op left_expr right_expr).
Proof.
  intros Hl Hr.
  apply (call_plain source (trim op)
           (JObject [("field_value", JArray [
              JObject [("field", JString "left");
                       ("value", JObject [("expression", left_expr)])];
              JObject [("field", JString "right");
                       ("value", JObject [("expression", right_expr)])]])])).
  apply record_node.
  constructor; [apply field_named, Hl|].
  constructor; [apply field_named, Hr|constructor].
Qed.

Lemma ParseInfix_loop_tree s ops dis v :
  source_span source s -> ParseInfix_loop PE s ops dis = Ok (Some v) ->
  call source v.
Proof.
  intros Hs. induction ops as [|op ops IH]; intros H; [discriminate|].
  cbn [ParseInfix_loop] in H.
  destruct (mem op dis); [auto|].
  apply bind_Ok in H. destruct H as (parts & Hparts & H).
  destruct (1 <? length parts); [|auto].
  cbv zeta in H.
  destruct (String.eqb op "~" && _ && _); [auto|].
  pose proof (source_span_Strip _ _
                (source_span_Span _ s (start s)
                   (stop (nth (length parts - 2) parts s)) Hs)) as Hleft.
  pose proof (source_span_Strip _ _
                (source_span_Span _ s (start (last parts s)) (stop s) Hs)) as Hright.
  destruct (mem op ["-"; "!"] && _).
  - apply bind_Ok in H. destruct H as (record & Hrecord & H). inversion H; subst v.
    apply (call_plain source op record).
    eapply ParseRecordInternals_tree; [|exact Hrecord]. exact Hright.
  - destruct (String.eqb op "~" && _); [discriminate|].
    apply bind_Ok in H. destruct H as (left_expr & Hl & H).
    apply bind_Ok in H. destruct H as (right_expr & Hr & H). inversion H; subst v.
    apply infix_call_tree; (eapply PE_tree; [|eassumption]; assumption).
Qed.

Lemma ParseInfix_tree s operators disallow v :
  source_span source s -> ParseInfix fun_mode PE s operators disallow = Ok (Some v) ->
  call source v.
Proof. intros Hs H. eapply ParseInfix_loop_tree; eassumption. Qed.

Lemma ParseSubscript_tree s v :
  source_span source s -> ParseSubscript PE s = Ok (Some v) ->
  expression_body source "subscript" v.
Proof.
  intros Hs H. unfold ParseSubscript in H.
  apply bind_Ok in H. destruct H as (path & Hpath & H).
  destruct (length path <? 2); [discriminate|]. cbv zeta in H.
  apply bind_Ok in H. destruct H as (record & Hrecord & H).
  destruct (negb _); [discriminate|]. inversion H; subst v.
  apply (body_subscript source record (str (last path s))).
  eapply PE_tree; [|exact Hrecord].
  apply source_span_Strip, source_span_Span, Hs.
Qed.

Lemma NegationTree_call s conjuncts :
  NegationTree s (Obj [("conjunction", Obj [("conjunct", JArray conjuncts)])])
  = JObject [("predicate", negation_call (str s) conjuncts)].
Proof. reflexivity. Qed.

Lemma ParseNegation_tree s p :
  source_span source s -> ParseNegation PP s = Ok (Some p) ->
  exists conjuncts,
    p = JObject [("predicate", negation_call (str s) conjuncts)]
    /\ Forall (proposition source) conjuncts.
Proof.
  intros Hs H. unfold ParseNegation in H.
  apply bind_Ok in H. destruct H as (parts & Hparts & H).
  pose proof (Split_spans _ _ _ _ Hs Hparts) as Hall.
  destruct parts as [|p0 [|p1 [|p2 ps]]]; try discriminate.
  destruct (negb (empty p0)); [discriminate|]. cbv zeta in H.
  apply bind_Ok in H. destruct H as (conj_parts & Hconj & H).
  apply bind_Ok in H. destruct H as (conjuncts & Hmap & H). inversion H; subst p.
  exists conjuncts. split; [apply NegationTree_call|].
  eapply mapM_propositions; [|exact Hmap].
  eapply Split_spans; [|exact Hconj].
  apply source_span_Strip. inversion Hall as [|? ? _ Hrest]; subst.
  inversion Hrest; subst. assumption.
Qed.

Lemma ParseNegationExpression_tree s v :
  source_span source s -> ParseNegationExpression PP s = Ok (Some v) ->
  exists c, v = JObject [("call", c)] /\ call source c.
Proof.
  intros Hs H. unfold ParseNegationExpression in H.
  apply bind_Ok in H. destruct H as (proposition & Hneg & H).
  destruct proposition as [p|]; [|discriminate].
  destruct (ParseNegation_tree _ _ Hs Hneg) as (conjuncts & -> & Hall).
  cbn in H. inversion H; subst v.
  eexists. split; [reflexivity|]. apply call_negation, Hall.
Qed.

(** A proposition under the key [conjunction] is a conjunction. *)
Lemma proposition_conjuncts p :
  proposition source p ->
  if HasKey p "conjunction" then
    exists conjuncts, p = conjunction_of conjuncts
                      /\ Forall (proposition source) conjuncts
  else True.
Proof.
  intros H. inversion H; subst; try exact I.
  cbn. eexists. split; [reflexivity|assumption].
Qed.

Lemma PropositionalImplication_tree s consequence_str condition consequence r :
  proposition source condition -> proposition source consequence ->
  PropositionalImplication s consequence_str condition consequence = Ok r ->
  exists conjuncts,
    r = JObject [("predicate", negation_call (str s) conjuncts)]
    /\ Forall (proposition source) conjuncts.
Proof.
  intros Hc Hq H. unfold PropositionalImplication in H.
  apply bind_Ok in H. destruct H as (conjuncts & Hconj & H). inversion H; subst r.
  assert (Hall : Forall (proposition source) conjuncts).
  { pose proof (proposition_conjuncts _ Hc) as Hcase.
    destruct (HasKey condition "conjunction").
    - destruct Hcase as (cs & -> & Hcs). cbn in Hconj. inversion Hconj; subst. exact Hcs.
    - inversion Hconj; subst. constructor; [exact Hc|constructor]. }
  assert (Hneg : exists cs,
             NegationTree consequence_str
               (if HasKey consequence "conjunction" then consequence
                else Obj [("conjunction", Obj [("conjunct", JArray [consequence])])])
             = JObject [("predicate", negation_call (str consequence_str) cs)]
             /\ Forall (proposition source) cs).
  { pose proof (proposition_conjuncts _ Hq) as Hcase.
    destruct (HasKey consequence "conjunction").
    - destruct Hcase as (cs & -> & Hcs). exists cs. split; [reflexivity|exact Hcs].
    - exists [consequence]. split; [reflexivity|]. constructor; [exact Hq|constructor]. }
  destruct Hneg as (cs & Heq & Hcs).
  eexists. split; [rewrite Heq; apply NegationTree_call|].
  apply Forall_app. split; [exact Hall|].
  constructor; [|constructor]. apply proposition_predicate, call_negation, Hcs.
Qed.

Lemma two_spans (a b : SpanString) :
  Forall (source_span source) [a; b] -> source_span source a /\ source_span source b.
Proof.
  intros H. inversion H as [|? ? Ha Hrest]; subst. inversion Hrest; subst. auto.
Qed.

Lemma ParsePropositionalImplication_tree s r :
  source_span source s -> ParsePropositionalImplication PP s = Ok (Some r) ->
  exists conjuncts,
    r = JObject [("predicate", negation_call (str s) conjuncts)]
    /\ Forall (proposition source) conjuncts.
Proof.
  intros Hs H. unfold ParsePropositionalImplication in H.
  apply bind_Ok in H. destruct H as (parts & Hparts & H).
  pose proof (Split_spans _ _ _ _ Hs Hparts) as Hall.
  destruct parts as [|p0 [|p1 [|p2 ps]]]; try discriminate.
  destruct (two_spans _ _ Hall) as [H0 H1].
  apply bind_Ok in H. destruct H as (cond & Hcond & H).
  apply bind_Ok in H. destruct H as (conseq & Hconseq & H).
  apply bind_Ok in H. destruct H as (r' & Hr & H). inversion H; subst r'.
  eapply PropositionalImplication_tree; [| |exact Hr];
    (eapply PP_tree; [|eassumption]; assumption).
Qed.

Lemma ParsePropositionalEquivalence_tree s r :
  source_span source s -> ParsePropositionalEquivalence PP s = Ok (Some r) ->
  proposition source r.
Proof.
  intros Hs H. unfold ParsePropositionalEquivalence in H.
  apply bind_Ok in H. destruct H as (parts & Hparts & H).
  pose proof (Split_spans _ _ _ _ Hs Hparts) as Hall.
  destruct parts as [|p0 [|p1 [|p2 ps]]]; try discriminate.
  destruct (two_spans _ _ Hall) as [H0 H1].
  apply bind_Ok in H. destruct H as (left1 & Hl1 & H).
  apply bind_Ok in H. destruct H as (right1 & Hr1 & H).
  apply bind_Ok in H. destruct H as (left2 & Hl2 & H).
  apply bind_Ok in H. destruct H as (right2 & Hr2 & H).
  apply bind_Ok in H. destruct H as (a & Ha & H).
  apply bind_Ok in H. destruct H as (b & Hb & H). inversion H; subst r.
  apply PropositionalImplication_tree in Ha; [| (eapply PP_tree; [|eassumption]; assumption) ..].
  apply PropositionalImplication_tree in Hb; [| (eapply PP_tree; [|eassumption]; assumption) ..].
  destruct Ha as (ca & -> & Hca). destruct Hb as (cb & -> & Hcb).
  apply (proposition_conjunction source
           [JObject [("predicate", negation_call (str s) ca)];
            JObject [("predicate", negation_call (str s) cb)]]).
  constructor; [apply proposition_predicate, call_negation, Hca|].
  constructor; [apply proposition_predicate, call_negation, Hcb|constructor].
Qed.

(** *** Subscripts of arrays *)

Lemma NestedElement_loop_tree s array :
  expression source array ->
  forall fvs i acc r,
    Forall (field_value source) fvs ->
    match acc with Some c => element source c | None => True end ->
    NestedElement_loop s array fvs i acc = Ok r ->
    element source r.
Proof.
  intros Harray. induction fvs as [|fv fvs IH]; intros i acc r Hall Hacc H.
  - destruct acc; [|discriminate]. inversion H; subst. exact Hacc.
  - inversion Hall as [|? ? Hfv Hrest]; subst. cbn [NestedElement_loop] in H.
    inversion Hfv; subst; cbn [as_object bind] in H.
    + change (obj_find "field" [("field", JInt i0); ("value", JObject [("expression", e)])])
        with (Some (JInt i0)) in H. cbv beta iota in H.
      destruct (negb _); [discriminate|].
      eapply IH; [exact Hrest| |exact H].
      destruct acc as [c|].
      * apply (element_next source c e); assumption.
      * apply (element_first source array e); assumption.
    + discriminate.
    + discriminate.
    + discriminate.
Qed.

Lemma ParseArraySub_tree s r :
  source_span source s -> ParseArraySub fun_mode PE s = Ok (Some r) ->
  call source r.
Proof.
  intros Hs H. unfold ParseArraySub in H.
  apply bind_Ok in H. destruct H as (generic & Hgeneric & H).
  destruct generic as [[predicate inner]|]; [|discriminate].
  destruct (ParseGenericCall_spans _ _ _ _ _ Hs Hgeneric) as [Hinner Hpredicate].
  apply bind_Ok in H. destruct H as (args & Hargs & H).
  apply bind_Ok in H. destruct H as (array & Harray & H).
  apply bind_Ok in H. destruct H as (r' & Hr & H). inversion H; subst r'.
  pose proof (ParseRecordInternals_tree _ _ _ _ Hinner Hargs) as Hrecord.
  inversion Hrecord; subst. unfold NestedElement in Hr. cbn in Hr.
  apply call_element.
  apply (NestedElement_loop_tree s array) with (fvs := field_values) (i := 0)
                                               (acc := None);
    [|exact H0|exact I|exact Hr].
  eapply PE_tree; [|exact Harray]. apply source_span_SpanOf, Hpredicate.
Qed.

(** *** Propositions *)

Lemma ParseDisjunction_tree s c :
  source_span source s -> ParseDisjunction PP s = Ok (Some c) ->
  proposition source (JObject [("disjunction", c)]).
Proof.
  intros Hs H. unfold ParseDisjunction in H.
  apply bind_Ok in H. destruct H as (parts & Hparts & H).
  destruct (length parts =? 1); [discriminate|].
  apply bind_Ok in H. destruct H as (disj & Hdisj & H). inversion H; subst c.
  apply (proposition_disjunction source disj).
  eapply mapM_propositions; [|exact Hdisj]. eapply Split_spans; eassumption.
Qed.

Lemma ParseConjunction_tree s allow_singleton c :
  source_span source s -> ParseConjunction PP s allow_singleton = Ok (Some c) ->
  proposition source (JObject [("conjunction", c)]).
Proof.
  intros Hs H. unfold ParseConjunction in H.
  apply bind_Ok in H. destruct H as (parts & Hparts & H).
  destruct (_ && _); [discriminate|].
  apply bind_Ok in H. destruct H as (conj & Hconj & H). inversion H; subst c.
  apply (proposition_conjunction source conj).
  eapply mapM_propositions; [|exact Hconj]. eapply Split_spans; eassumption.
Qed.

Lemma ParseUnification_tree s u :
  source_span source s -> ParseUnification PE s = Ok (Some u) ->
  proposition source (JObject [("unification", u)]).
Proof.
  intros Hs H. unfold ParseUnification in H.
  apply bind_Ok in H. destruct H as (parts & Hparts & H).
  pose proof (Split_spans _ _ _ _ Hs Hparts) as Hall.
  destruct parts as [|l [|r [|p2 ps]]]; try discriminate.
  destruct (two_spans _ _ Hall) as [Hl Hr].
  apply bind_Ok in H. destruct H as (lhs & Hlhs & H).
  apply bind_Ok in H. destruct H as (rhs & Hrhs & H). inversion H; subst u.
  apply (proposition_unification source lhs rhs);
    (eapply PE_tree; [|eassumption]; assumption).
Qed.

Lemma ParseInclusion_tree s inc :
  source_span source s -> ParseInclusion PE s = Ok (Some inc) ->
  proposition source (JObject [("inclusion", inc)]).
Proof.
  intros Hs H. unfold ParseInclusion in H.
  apply bind_Ok in H. destruct H as (parts & Hparts & H).
  pose proof (Split_spans _ _ _ _ Hs Hparts) as Hall.
  destruct parts as [|element [|lst [|p2 ps]]]; try discriminate.
  destruct (two_spans _ _ Hall) as [He Hl].
  apply bind_Ok in H. destruct H as (l & Hlst & H).
  apply bind_Ok in H. destruct H as (e & Helt & H). inversion H; subst inc.
  apply (proposition_inclusion source l e);
    (eapply PE_tree; [|eassumption]; assumption).
Qed.

Lemma Split_two_nonempty s sep a b :
  wf s -> Split s sep = Ok [a; b] -> empty s = false.
Proof.
  intros Hwf H. destruct (empty s) eqn:E; [|reflexivity].
  unfold empty in E. apply Nat.eqb_eq in E.
  destruct (Split_empty s sep (empty_view s Hwf E)) as (p & Hp).
  rewrite Hp in H. discriminate.
Qed.

Lemma ParseConciseCombine_tree s cc :
  source_span source s -> ParseConciseCombine PE PP s = Ok (Some cc) ->
  proposition source (JObject [("unification", cc)]).
Proof.
  intros Hs H. unfold ParseConciseCombine in H.
  apply bind_Ok in H. destruct H as (parts & Hparts & H).
  pose proof (Split_spans _ _ _ _ Hs Hparts) as Hall.
  destruct parts as [|lhs_and_op [|combine [|p2 ps]]]; try discriminate.
  destruct (two_spans _ _ Hall) as [Hlhs Hcombine].
  pose proof (source_span_text _ _ Hs (Split_two_nonempty _ _ _ _ (proj1 Hs) Hparts))
    as Htext.
  apply bind_Ok in H. destruct H as (left_parts & Hleft & H).
  destruct (length left_parts <=? 1); [discriminate|]. cbv zeta in H.
  destruct (mem _ _); [discriminate|].
  destruct (_ && _); [discriminate|].
  apply bind_Ok in H. destruct H as (left_expr & Hl & H).
  apply bind_Ok in H. destruct H as (eb & Heb & H).
  pose proof (SplitInOneOrTwo_spans _ _ _ _ Hcombine Heb) as Hsplit.
  assert (Hleft_tree : expression source left_expr).
  { eapply PE_tree; [|exact Hl]. apply source_span_Span, Hs. }
  destruct eb as [one|[expr body]]; cbv beta iota in H.
  - apply bind_Ok in H. destruct H as (parsed & Hparsed & H).
    apply bind_Ok in H. destruct H as (parsed_body & Hbody & H). inversion H; subst cc.
    apply (proposition_unification source left_expr
             (with_heritage "combine"
                (BuildTreeForCombine parsed (last left_parts s) parsed_body s) (str s)));
      [exact Hleft_tree|].
    apply expression_node; [|exact Htext]. apply body_combine.
    eapply (BuildTreeForCombine_tree _ _ None); [|exact I|exact Hbody].
    eapply PE_tree; [|eassumption]; assumption.
  - destruct Hsplit as [Hexpr Hb].
    apply bind_Ok in H. destruct H as (parsed & Hparsed & H).
    apply bind_Ok in H. destruct H as (parsed_body & Hbody & H). inversion H; subst cc.
    apply (proposition_unification source left_expr
             (with_heritage "combine"
                (BuildTreeForCombine parsed (last left_parts s) parsed_body s) (str s)));
      [exact Hleft_tree|].
    apply expression_node; [|exact Htext]. apply body_combine.
    eapply (BuildTreeForCombine_tree _ _ (Some body)); [|exact Hb|exact Hbody].
    eapply PE_tree; [|eassumption]; assumption.
Qed.

(** *** The two parsers *)

Ltac next_production H v Hv :=
  let r := fresh "r" in
  apply bind_Ok in H; destruct H as (r & Hv & H); destruct r as [v|].

Ltac wrapped H := unfold wrap in H; inversion H; subst; clear H.

Lemma ActuallyParseExpression_tree s e :
  source_span source s -> ActuallyParseExpression fun_mode PE PP s = Ok e ->
  exists key v, e = JObject [(key, v)] /\ expression_body source key v.
Proof.
  intros Hs H. unfold ActuallyParseExpression in H.
  next_production H v Hv.
  { wrapped H. eexists _, _. split; [reflexivity|].
    apply body_combine. eapply ParseCombine_tree; eassumption. }
  clear Hv. next_production H v Hv.
  { wrapped H. eexists _, _. split; [reflexivity|].
    eapply ParseImplication_tree; eassumption. }
  clear Hv. next_production H v Hv.
  { wrapped H. eexists _, _. split; [reflexivity|].
    apply body_literal. eapply ParseLiteral_tree; eassumption. }
  clear Hv. next_production H v Hv.
  { wrapped H. destruct (ParseVariable_tree _ _ Hv) as (name & ->).
    eexists _, _. split; [reflexivity|]. apply body_variable. }
  clear Hv. next_production H v Hv.
  { wrapped H. eexists _, _. split; [reflexivity|].
    apply body_record. eapply ParseRecord_tree; eassumption. }
  clear Hv. next_production H v Hv.
  { apply bind_Ok in Hv. destruct Hv as (i & Hi & Hv).
    destruct i as [i|]; [|discriminate].
    destruct (HasKey i "predicate"); [|discriminate]. inversion Hv; subst i.
    destruct (ParsePropositionalImplication_tree _ _ Hs Hi) as (conjuncts & -> & Hall).
    cbn in H. wrapped H. eexists _, _. split; [reflexivity|].
    apply body_call, call_negation, Hall. }
  clear Hv. next_production H v Hv.
  { wrapped H. eexists _, _. split; [reflexivity|].
    apply body_call. eapply ParseCall_tree; eassumption. }
  clear Hv. next_production H v Hv.
  { wrapped H. eexists _, _. split; [reflexivity|].
    apply body_combine. eapply ParseUltraConciseCombine_tree; eassumption. }
  clear Hv. next_production H v Hv.
  { wrapped H. eexists _, _. split; [reflexivity|].
    apply body_call. eapply ParseInfix_tree; eassumption. }
  clear Hv. next_production H v Hv.
  { wrapped H. eexists _, _. split; [reflexivity|].
    eapply ParseSubscript_tree; eassumption. }
  clear Hv. next_production H v Hv.
  { inversion H; subst e.
    destruct (ParseNegationExpression_tree _ _ Hs Hv) as (c & -> & Hc).
    eexists _, _. split; [reflexivity|]. apply body_call, Hc. }
  clear Hv. next_production H v Hv.
  { wrapped H. eexists _, _. split; [reflexivity|].
    apply body_call. eapply ParseArraySub_tree; eassumption. }
  discriminate.
Qed.

Lemma ParseExpression_body_tree s e :
  source_span source s -> ParseExpression_body fun_mode PE PP s = Ok e ->
  expression source e.
Proof.
  intros Hs H. unfold ParseExpression_body in H.
  apply bind_Ok in H. destruct H as (e0 & Hparse & H).
  destruct (ActuallyParseExpression_tree _ _ Hs Hparse) as (key & v & -> & Hbody).
  inversion H; subst e.
  apply (expression_node source key v (str s) Hbody).
  apply source_span_text; [exact Hs|].
  unfold empty. apply Nat.eqb_neq. intros Hsize.
  rewrite (ActuallyParseExpression_empty _ _ _ s (proj1 Hs) Hsize) in Hparse.
  discriminate.
Qed.

Lemma ParseProposition_body_tree s p :
  source_span source s -> ParseProposition_body fun_mode PE PP s = Ok p ->
  proposition source p.
Proof.
  intros Hs H. unfold ParseProposition_body in H.
  next_production H c Hc.
  { wrapped H. eapply ParseDisjunction_tree; eassumption. }
  clear Hc. apply bind_Ok in H. destruct H as (str_conjuncts & _ & H).
  next_production H c Hc.
  { wrapped H. apply bind_Ok in Hc. destruct Hc as (c' & Hc' & Hc).
    destruct (1 <? length str_conjuncts); [|discriminate]. inversion Hc; subst c'.
    eapply ParseConjunction_tree; eassumption. }
  clear Hc. next_production H c Hc.
  { inversion H; subst p. destruct fun_mode; [|discriminate].
    apply (proposition_conjunction source [c]).
    constructor; [|constructor].
    eapply ParsePropositionalEquivalence_tree; eassumption. }
  clear Hc. next_production H c Hc.
  { inversion H; subst p.
    destruct (ParsePropositionalImplication_tree _ _ Hs Hc) as (conjuncts & -> & Hall).
    apply proposition_predicate, call_negation, Hall. }
  clear Hc. next_production H c Hc.
  { discriminate. }
  clear Hc. next_production H c Hc.
  { wrapped H. apply (proposition_predicate source c).
    eapply ParseCall_tree; eassumption. }
  clear Hc. next_production H c Hc.
  { wrapped H. apply (proposition_predicate source c).
    eapply ParseInfix_tree; eassumption. }
  clear Hc. next_production H c Hc.
  { wrapped H. eapply ParseUnification_tree; eassumption. }
  clear Hc. next_production H c Hc.
  { wrapped H. eapply ParseInclusion_tree; eassumption. }
  clear Hc. next_production H c Hc.
  { wrapped H. eapply ParseConciseCombine_tree; eassumption. }
  clear Hc. next_production H c Hc.
  { wrapped H. apply (proposition_predicate source c).
    eapply ParseInfix_tree; eassumption. }
  clear Hc. next_production H c Hc.
  { inversion H; subst p.
    destruct (ParseNegation_tree _ _ Hs Hc) as (conjuncts & -> & Hall).
    apply proposition_predicate, call_negation, Hall. }
  discriminate.
Qed.

End Productions.

(** ** The trees of [ParseExpression] and [ParseProposition] *)

Lemma source_span_whole s : wf s -> source_span (heritage s) s.
Proof.
  intros Hwf. split; [exact Hwf|]. exists [], []. rewrite app_nil_r. reflexivity.
Qed.

Lemma Parse_trees fun_mode source depth :
  (forall s e, source_span source s -> ParseExpression fun_mode depth s = Ok e ->
               expression source e)
  /\ (forall s p, source_span source s -> ParseProposition fun_mode depth s = Ok p ->
                  proposition source p).
Proof.
  induction depth as [|depth [IHe IHp]]; [split; discriminate|].
  split; intros s r Hs H; simpl in H.
  - eapply ParseExpression_body_tree; [exact IHe|exact IHp|exact Hs|exact H].
  - eapply ParseProposition_body_tree; [exact IHe|exact IHp|exact Hs|exact H].
Qed.

Lemma expression_carries_heritage source e :
  expression source e ->
  exists t, at_key "expression_heritage" e = Ok (JString t) /\ source_text source t.
Proof.
  intros H. inversion H; subst. exists t. split; [|assumption].
  unfold with_heritage.
  destruct (set_key "expression_heritage" (JString t) (JObject [(key, v)])) eqn:E;
    try discriminate.
  pose proof (at_key_set_key _ _ _ _ E) as Hat. inversion E; subst. tauto.
Qed.


